(** * Guiscript: layout, style cascade, scene graph, anchors and interaction

    A shallow embedding of the core of the Guiscript UI engine
    (src/guiscript) and the properties its specification states about it.

    - [Layout]   : VStack._refresh_stack / HStack._refresh_stack (stacks.py)
                   with the scrollbar refresh of scrollbars.py;
    - [Cascade]  : UIStyles.get_style_of_type / apply_style_properties
                   (style.py) and Element.set_element_id;
    - [Scene]    : the element heap of element.py: parents, children, dirty
                   flags, absolute rectangles, anchors, destruction;
    - [Interact] : UIInteract.raycast and UIInteract._logic (interact.py);
    - [Navigation], [Resizers] : the navigation queries and
                   Element.remove_resizers (element.py);
    - [Scroll]   : UIStack.set_scroll (stacks.py);
    - [Common]   : align_text, text_click_idx and text_select_copy
                   (common.py).

    Python integers are [Z]; the results of Python's true division are
    rationals [Q]; [int(...)] is truncation toward zero; objects that are
    shared and mutated live in a heap [gmap nat _] indexed by object
    identity.  What the interpreter and pygame decide in the cascade
    ([int] of a string, the font constructors, the attributes every object
    has) is a parameter of it, [Cascade.Backend], and the properties hold
    for every value of the parameter. *)

From Stdlib Require Import ZArith QArith Lia List Bool Sorted.
From stdpp Require Import base gmap strings list fin_maps.

Set Warnings "-register-all".

Open Scope Z_scope.

(** ** Python helpers shared by the modules *)

(** [int(q)] for a float obtained by dividing two integers. *)
Definition py_int (q : Q) : Z := Z.quot (Qnum q) (Zpos (Qden q)).

(** [a / n] (true division) for integers [a] and [n]. *)
Definition py_truediv (a n : Z) : Q := (inject_Z a / inject_Z n)%Q.

(** [enumerate(l)]. *)
Fixpoint enumerate_from {A} (i : nat) (l : list A) : list (nat * A) :=
  match l with
  | [] => []
  | a :: l' => (i, a) :: enumerate_from (S i) l'
  end.

Definition enumerate {A} (l : list A) : list (nat * A) := enumerate_from 0 l.

(** [pygame.Rect]: integer x, y, w, h.  (pygame keeps them as C ints;
    the fields here are the integers they hold while they fit.) *)
Record Rect := mkRect { rx : Z; ry : Z; rw : Z; rh : Z }.

Definition rect_left (r : Rect) : Z := rx r.
Definition rect_top (r : Rect) : Z := ry r.
Definition rect_right (r : Rect) : Z := rx r + rw r.
Definition rect_bottom (r : Rect) : Z := ry r + rh r.
Definition rect_centerx (r : Rect) : Z := rx r + Z.quot (rw r) 2.
Definition rect_centery (r : Rect) : Z := ry r + Z.quot (rh r) 2.

(** [rect.collidepoint(p)]: left <= px < right and top <= py < bottom. *)
Definition collidepoint (r : Rect) (p : Z * Z) : bool :=
  (rx r <=? p.1) && (p.1 <? rx r + rw r) &&
  (ry r <=? p.2) && (p.2 <? ry r + rh r).

(** ** Python exceptions and fallible computations *)

Inductive pyerr :=
| UIError (msg : string)
| AttributeError (msg : string)
| ValueError
| TypeError
| UnboundLocalError
| ReferenceError
| OtherError (cls : string).     (* any other exception, by its class *)

(** The outcome of a call: a value, a raised exception, or (for the
    fuel-bounded models of recursive methods) a recursion that is still
    running when the fuel is spent. *)
Inductive result (A : Type) :=
| Ok (a : A)
| Raise (e : pyerr)
| Timeout.

Arguments Ok {A} a.
Arguments Raise {A} e.
Arguments Timeout {A}.

Definition bind {A B} (m : result A) (f : A -> result B) : result B :=
  match m with
  | Ok a => f a
  | Raise e => Raise e
  | Timeout => Timeout
  end.

#[global] Instance result_ret : MRet result := @Ok.
#[global] Instance result_bind : MBind result := fun A B f m => bind m f.
#[global] Instance result_fmap : FMap result :=
  fun A B f m => bind m (fun a => Ok (f a)).

(** A [for] loop whose body may raise. *)
Fixpoint for_each {A S} (body : S -> A -> result S) (l : list A) (s : S)
  : result S :=
  match l with
  | [] => Ok s
  | a :: l' => s' ← body s a; for_each body l' s'
  end.

(** ** Box layout (stacks.py, scrollbars.py) *)

Module Layout.

(** [UIStackStyle]: the fields the layout pass reads.  [floating_scrollbars]
    is read by stacks.py (line 134) from the style object. *)
Record UIStackStyle := mkStackStyle {
  spacing : Z;
  padding : Z;
  scroll_x : bool;
  scroll_y : bool;
  grow_x : bool;
  grow_y : bool;
  shrink_x : bool;
  shrink_y : bool;
  fill_x : bool;
  fill_y : bool;
  anchor : string;
  align : string;
  scrollbar_size : Z;
  floating_scrollbars : bool
}.

(** The part of an [Element] the layout pass reads and writes.  Children are
    plain elements: their own [_refresh_stack], [size_changed], [build] hooks
    are the empty methods of the base class. *)
Record Element := mkElement {
  relative_rect : Rect;
  ignore_stack : bool;
  visible : bool;             (* status.visible *)
  style : UIStackStyle        (* child.style.stack *)
}.

Definition with_rect (e : Element) (r : Rect) : Element :=
  mkElement r (ignore_stack e) (visible e) (style e).

Definition with_visible (e : Element) (v : bool) : Element :=
  mkElement (relative_rect e) (ignore_stack e) v (style e).

(** Element.set_size (element.py 588-609) on a plain element: the early
    return when the size is unchanged, then the clamp to at least 1. *)
Definition set_size (e : Element) (s0 s1 : Z) : Element :=
  let r := relative_rect e in
  if (rw r =? s0) && (rh r =? s1) then e
  else with_rect e (mkRect (rx r) (ry r) (Z.max 1 s0) (Z.max 1 s1)).

(** Element.set_relative_pos (element.py 572-586). *)
Definition set_relative_pos (e : Element) (p0 p1 : Z) : Element :=
  let r := relative_rect e in
  if (rx r =? p0) && (ry r =? p1) then e
  else with_rect e (mkRect p0 p1 (rw r) (rh r)).

(** A scrollbar is an element created with the stack as parent
    (scrollbars.py 11-18): it is appended to the stack's children and flagged
    [ignore_stack]. *)
Record UIScrollbar := mkScrollbar {
  sb_element : Element;
  _is_custom : bool
}.

(** An entry of [stack.children]: the stack's own two scrollbars are shared
    with the [vscrollbar] / [hscrollbar] attributes, the other children are
    the user's. *)
Inductive ChildRef :=
| VScroll
| HScroll
| User (e : Element).

Record UIStack := mkStack {
  self_rect : Rect;                 (* self.relative_rect *)
  self_style : UIStackStyle;        (* self.style.stack *)
  children : list ChildRef;
  content_x : Z;
  content_y : Z;
  total_x : Z;
  total_y : Z;
  scroll_offset : Z * Z;
  vscrollbar : UIScrollbar;
  hscrollbar : UIScrollbar;
  _running : bool;                  (* self.manager._running *)
  _done : bool
}.

Definition get_child (st : UIStack) (c : ChildRef) : Element :=
  match c with
  | VScroll => sb_element (vscrollbar st)
  | HScroll => sb_element (hscrollbar st)
  | User e => e
  end.

Definition set_self_rect (st : UIStack) (r : Rect) : UIStack :=
  mkStack r (self_style st) (children st) (content_x st) (content_y st)
    (total_x st) (total_y st) (scroll_offset st) (vscrollbar st)
    (hscrollbar st) (_running st) (_done st).

Definition set_children (st : UIStack) (l : list ChildRef) : UIStack :=
  mkStack (self_rect st) (self_style st) l (content_x st) (content_y st)
    (total_x st) (total_y st) (scroll_offset st) (vscrollbar st)
    (hscrollbar st) (_running st) (_done st).

Definition set_content (st : UIStack) (cx cy : Z) : UIStack :=
  mkStack (self_rect st) (self_style st) (children st) cx cy
    (total_x st) (total_y st) (scroll_offset st) (vscrollbar st)
    (hscrollbar st) (_running st) (_done st).

Definition set_total (st : UIStack) (tx ty : Z) : UIStack :=
  mkStack (self_rect st) (self_style st) (children st) (content_x st)
    (content_y st) tx ty (scroll_offset st) (vscrollbar st)
    (hscrollbar st) (_running st) (_done st).

Definition set_scroll_offset (st : UIStack) (o : Z * Z) : UIStack :=
  mkStack (self_rect st) (self_style st) (children st) (content_x st)
    (content_y st) (total_x st) (total_y st) o (vscrollbar st)
    (hscrollbar st) (_running st) (_done st).

Definition set_vscrollbar (st : UIStack) (sb : UIScrollbar) : UIStack :=
  mkStack (self_rect st) (self_style st) (children st) (content_x st)
    (content_y st) (total_x st) (total_y st) (scroll_offset st) sb
    (hscrollbar st) (_running st) (_done st).

Definition set_hscrollbar (st : UIStack) (sb : UIScrollbar) : UIStack :=
  mkStack (self_rect st) (self_style st) (children st) (content_x st)
    (content_y st) (total_x st) (total_y st) (scroll_offset st)
    (vscrollbar st) sb (_running st) (_done st).

(** Writing back a child that the pass resized or moved. *)
Definition put_child (st : UIStack) (i : nat) (c : ChildRef) (e : Element)
  : UIStack :=
  match c with
  | VScroll => set_vscrollbar st (mkScrollbar e (_is_custom (vscrollbar st)))
  | HScroll => set_hscrollbar st (mkScrollbar e (_is_custom (hscrollbar st)))
  | User _ => set_children st (<[i := User e]> (children st))
  end.

Definition sb_set_visible (sb : UIScrollbar) (v : bool) : UIScrollbar :=
  mkScrollbar (with_visible (sb_element sb) v) (_is_custom sb).

(** UIVScrollbar._refresh (scrollbars.py 30-58).  The handle's geometry is
    outside the layout state; the argument [scroll_y] only sizes the handle. *)
Definition vscrollbar_refresh (st : UIStack) (_scroll : Z) : UIStack :=
  let style := self_style st in
  let sb := vscrollbar st in
  let sb :=
    if _is_custom sb then sb
    else
      let e := set_relative_pos (sb_element sb)
                 (rw (self_rect st) - scrollbar_size style) 0 in
      let e := set_size e (scrollbar_size style) (rh (self_rect st)) in
      mkScrollbar e (_is_custom sb) in
  if negb (scroll_y style) || grow_y style then
    set_vscrollbar st (sb_set_visible sb false)
  else if total_y st <=? rh (self_rect st) then
    let st :=
      if negb ((scroll_offset st).2 =? 0)
      then set_scroll_offset st ((scroll_offset st).1, 0) else st in
    set_vscrollbar st (sb_set_visible sb false)
  else set_vscrollbar st (sb_set_visible sb true).

(** UIHScrollbar._refresh (scrollbars.py 94-122). *)
Definition hscrollbar_refresh (st : UIStack) (_scroll : Z) : UIStack :=
  let style := self_style st in
  let sb := hscrollbar st in
  let sb :=
    if _is_custom sb then sb
    else
      let x_remove :=
        if visible (sb_element (vscrollbar st))
        then scrollbar_size style else 0 in
      let e := set_relative_pos (sb_element sb)
                 0 (rh (self_rect st) - scrollbar_size style) in
      let e := set_size e (rw (self_rect st) - x_remove)
                 (scrollbar_size style) in
      mkScrollbar e (_is_custom sb) in
  if negb (scroll_x style) || grow_x style then
    set_hscrollbar st (sb_set_visible sb false)
  else if total_x st <=? rw (self_rect st) then
    let st :=
      if negb ((scroll_offset st).1 =? 0)
      then set_scroll_offset st (0, (scroll_offset st).2) else st in
    set_hscrollbar st (sb_set_visible sb false)
  else set_hscrollbar st (sb_set_visible sb true).

(** The scrollbar reservation, stacks.py 134-150 (the same text again at
    290-306): returns the stack and the locals [scroll_x], [scroll_y]. *)
Definition reserve_scrollbars (st : UIStack) : UIStack * Z * Z :=
  let style := self_style st in
  if floating_scrollbars style then
    let st := vscrollbar_refresh st 0 in
    let st := hscrollbar_refresh st 0 in
    (st, 0, 0)
  else
    let st := vscrollbar_refresh st 0 in
    let scroll_x :=
      if visible (sb_element (vscrollbar st))
      then scrollbar_size style else 0 in
    let st := hscrollbar_refresh st scroll_x in
    if visible (sb_element (hscrollbar st)) then
      let scroll_y := scrollbar_size style in
      let st := vscrollbar_refresh st scroll_y in
      if visible (sb_element (vscrollbar st)) then
        let scroll_x := scrollbar_size style in
        let st := hscrollbar_refresh st scroll_x in
        (st, scroll_x, scroll_y)
      else (st, scroll_x, scroll_y)
    else (st, scroll_x, 0).

(** [self.set_size(size, ..., refresh_stack=...)] on the stack itself:
    Element.set_size ends with [if refresh_stack: self._refresh_stack()],
    which re-enters the layout pass [refresh]. *)
Definition stack_set_size (refresh : UIStack -> option UIStack)
    (st : UIStack) (s0 s1 : Z) (refresh_stack : bool) : option UIStack :=
  let r := self_rect st in
  if (rw r =? s0) && (rh r =? s1) then Some st
  else
    let st := set_self_rect st (mkRect (rx r) (ry r) (Z.max 1 s0) (Z.max 1 s1)) in
    if refresh_stack then refresh st else Some st.

(** Locals of the measure loop: [total_x], [total_y],
    [active_children_num] and the indices (in [self.children]) of the
    elements of [children_with_fill_y] / [children_with_fill_x]. *)
Record Measure := mkMeasure {
  m_total_x : Z;
  m_total_y : Z;
  m_active : Z;
  m_fill : list nat
}.

(** One iteration of the loop of stacks.py 106-118. *)
Definition VStack_measure_step (st : UIStack) (acc : Measure)
    (ic : nat * ChildRef) : Measure :=
  let child := get_child st ic.2 in
  if ignore_stack child || negb (visible child) then acc
  else
    let total_x :=
      if (m_total_x acc <? rw (relative_rect child))
         && negb (fill_x (style child))
      then rw (relative_rect child) else m_total_x acc in
    if fill_y (style child) then
      mkMeasure total_x (m_total_y acc) (m_active acc + 1)
        (m_fill acc ++ [ic.1])
    else
      let total_y :=
        if (0 <? ic.1)%nat
        then m_total_y acc + spacing (self_style st) else m_total_y acc in
      mkMeasure total_x (total_y + rh (relative_rect child))
        (m_active acc + 1) (m_fill acc).

Definition VStack_measure (st : UIStack) : Measure :=
  fold_left (VStack_measure_step st) (enumerate (children st))
    (mkMeasure 0 (padding (self_style st)) 0 []).

(** One iteration of the loop of stacks.py 261-274. *)
Definition HStack_measure_step (st : UIStack) (acc : Measure)
    (ic : nat * ChildRef) : Measure :=
  let child := get_child st ic.2 in
  if ignore_stack child || negb (visible child) then acc
  else
    let total_y :=
      if (m_total_y acc <? rh (relative_rect child))
         && negb (fill_y (style child))
      then rh (relative_rect child) else m_total_y acc in
    if fill_x (style child) then
      mkMeasure (m_total_x acc) total_y (m_active acc + 1)
        (m_fill acc ++ [ic.1])
    else
      let total_x :=
        if (0 <? ic.1)%nat
        then m_total_x acc + spacing (self_style st) else m_total_x acc in
      mkMeasure (total_x + rw (relative_rect child)) total_y
        (m_active acc + 1) (m_fill acc).

Definition HStack_measure (st : UIStack) : Measure :=
  fold_left (HStack_measure_step st) (enumerate (children st))
    (mkMeasure (padding (self_style st)) 0 0 []).

(** The share of a fill child, stacks.py 156-161 (VStack): the remaining
    space is clamped at zero before the division. *)
Definition VStack_space_for_each_child (st : UIStack)
    (old_total_y scroll_y : Z) (n : nat) : Q :=
  let space_available := rh (self_rect st) - old_total_y - scroll_y in
  let space_available :=
    space_available - spacing (self_style st) * (Z.of_nat n - 1) in
  let space_available :=
    if space_available <? 0 then 0 else space_available in
  py_truediv space_available (Z.of_nat n).

(** The share of a fill child, stacks.py 312-315 (HStack). *)
Definition HStack_space_for_each_child (st : UIStack)
    (old_total_x scroll_x : Z) (n : nat) : Q :=
  let space_available := rw (self_rect st) - old_total_x - scroll_x in
  let space_available :=
    space_available - spacing (self_style st) * (Z.of_nat n - 1) in
  py_truediv space_available (Z.of_nat n).

(** [for child in children_with_fill_y: child.set_size((child.w, share))]. *)
Definition VStack_fill_step (share : Q) (st : UIStack) (i : nat) : UIStack :=
  match children st !! i with
  | Some c =>
      let child := get_child st c in
      put_child st i c
        (set_size child (rw (relative_rect child)) (py_int share))
  | None => st
  end.

(** [for child in children_with_fill_x: child.set_size((share, child.h))]. *)
Definition HStack_fill_step (share : Q) (st : UIStack) (i : nat) : UIStack :=
  match children st !! i with
  | Some c =>
      let child := get_child st c in
      put_child st i c
        (set_size child (py_int share) (rh (relative_rect child)))
  | None => st
  end.

(** [max(active_children_num-1, 1)]. *)
Definition gaps (active : Z) : Z := Z.max (active - 1) 1.

(** One iteration of the position loop of stacks.py 189-209; the loop state
    is the stack, [i_o] and [current_y]. *)
Definition VStack_position_step (scroll_x : Z) (spacing : Q)
    (acc : UIStack * nat * Q) (ic : nat * ChildRef) : UIStack * nat * Q :=
  let '(st, i_o, current_y) := acc in
  let child := get_child st ic.2 in
  if ignore_stack child || negb (visible child) then (st, S i_o, current_y)
  else
    let current_y :=
      if (i_o <? ic.1)%nat then (current_y + spacing)%Q else current_y in
    let pad := padding (self_style st) in
    let avail := rw (self_rect st) - scroll_x in
    let cw := rw (relative_rect child) in
    let al := align (style child) in
    let child_x :=
      if negb (fill_x (style child)) && (cw <? avail) then
        if String.eqb al "center" then avail / 2 - cw / 2
        else if String.eqb al "right" || String.eqb al "bottom"
             then avail - cw - pad
             else pad
      else pad in
    let child :=
      if negb (fill_x (style child)) then child
      else set_size child (rw (self_rect st) - pad * 2 - scroll_x)
             (rh (relative_rect child)) in
    let child := set_relative_pos child child_x (py_int current_y) in
    (put_child st ic.1 ic.2 child, i_o,
     (current_y + inject_Z (rh (relative_rect child)))%Q).

(** One iteration of the position loop of stacks.py 342-362. *)
Definition HStack_position_step (scroll_y : Z) (spacing : Q)
    (acc : UIStack * nat * Q) (ic : nat * ChildRef) : UIStack * nat * Q :=
  let '(st, i_o, current_x) := acc in
  let child := get_child st ic.2 in
  if ignore_stack child || negb (visible child) then (st, S i_o, current_x)
  else
    let current_x :=
      if (i_o <? ic.1)%nat then (current_x + spacing)%Q else current_x in
    let pad := padding (self_style st) in
    let avail := rh (self_rect st) - scroll_y in
    let ch := rh (relative_rect child) in
    let al := align (style child) in
    let child_y :=
      if negb (fill_y (style child)) && (ch <? avail) then
        if String.eqb al "center" then avail / 2 - ch / 2
        else if String.eqb al "bottom" || String.eqb al "right"
             then avail - ch - pad
             else pad
      else pad in
    let child :=
      if negb (fill_y (style child)) then child
      else set_size child (rw (relative_rect child))
             (rh (self_rect st) - pad * 2) in
    let child := set_relative_pos child (py_int current_x) child_y in
    (put_child st ic.1 ic.2 child, i_o,
     (current_x + inject_Z (rw (relative_rect child)))%Q).

(** The fill distribution, stacks.py 155-163. *)
Definition VStack_distribute (st : UIStack) (fills : list nat)
    (old_total_y scroll_y : Z) : UIStack :=
  if (0 <? length fills)%nat then
    fold_left
      (VStack_fill_step
         (VStack_space_for_each_child st old_total_y scroll_y (length fills)))
      fills st
  else st.

(** The fill distribution, stacks.py 311-317. *)
Definition HStack_distribute (st : UIStack) (fills : list nat)
    (old_total_x scroll_x : Z) : UIStack :=
  if (0 <? length fills)%nat then
    fold_left
      (HStack_fill_step
         (HStack_space_for_each_child st old_total_x scroll_x (length fills)))
      fills st
  else st.

(** The position pass, stacks.py 165-209; [refresh] is the layout pass that
    [self.set_size] would re-enter (here it is called with
    [refresh_stack=False]). *)
Definition VStack_place (refresh : UIStack -> option UIStack) (st : UIStack)
    (total_y active scroll_x scroll_y : Z) : option UIStack :=
  let style := self_style st in
  let h := rh (self_rect st) in
  let maxsp :=
    String.eqb (anchor style) "max_spacing" && (total_y <? h - scroll_y) in
  let spacing : Q :=
    if maxsp then
      (py_truediv (h - scroll_y - total_y) (gaps active)
       + py_truediv (padding style) (gaps active))%Q
    else inject_Z (spacing style) in
  let total_y := if maxsp then h - scroll_y else total_y in
  '(st, current_y) ←
    (if total_y <? h - scroll_y then
       if shrink_y style then
         st ← stack_set_size refresh st (rw (self_rect st)) total_y false;
         Some (st, 0)
       else if String.eqb (anchor style) "center" then
         Some (st, (h - scroll_y) / 2 - total_y / 2)
       else if String.eqb (anchor style) "bottom"
               || String.eqb (anchor style) "right" then
         Some (st, (h - scroll_y) - total_y)
       else Some (st, 0)
     else if (h <? total_y) && grow_y style then
       st ← stack_set_size refresh st (rw (self_rect st)) total_y false;
       Some (st, 0)
     else Some (st, 0));
  let current_y := current_y + padding style in
  Some (fold_left (VStack_position_step scroll_x spacing)
          (enumerate (children st)) (st, 0%nat, inject_Z current_y)).1.1.

(** The position pass, stacks.py 319-362; here [self.set_size] is called
    with the default [refresh_stack=True]. *)
Definition HStack_place (refresh : UIStack -> option UIStack) (st : UIStack)
    (total_x active scroll_x scroll_y : Z) : option UIStack :=
  let style := self_style st in
  let w := rw (self_rect st) in
  let maxsp :=
    String.eqb (anchor style) "max_spacing" && (total_x <? w - scroll_x) in
  let spacing : Q :=
    if maxsp then
      (py_truediv (w - scroll_x - total_x) (gaps active)
       + py_truediv (padding style) (gaps active))%Q
    else inject_Z (spacing style) in
  let total_x := if maxsp then w - scroll_x else total_x in
  '(st, current_x) ←
    (if total_x <? w - scroll_x then
       if shrink_x style then
         st ← stack_set_size refresh st total_x (rh (self_rect st)) true;
         Some (st, padding style)
       else if String.eqb (anchor style) "center" then
         Some (st, (w - scroll_x) / 2 - total_x / 2)
       else if String.eqb (anchor style) "right"
               || String.eqb (anchor style) "bottom" then
         Some (st, (w - scroll_x) - total_x)
       else Some (st, padding style)
     else if (w <? total_x) && grow_x style then
       st ← stack_set_size refresh st total_x (rh (self_rect st)) true;
       Some (st, padding style)
     else Some (st, padding style));
  Some (fold_left (HStack_position_step scroll_y spacing)
          (enumerate (children st)) (st, 0%nat, inject_Z current_x)).1.1.

(** VStack._refresh_stack (stacks.py 96-209).  [fuel] bounds the re-entries
    through [self.set_size] at line 129. *)
Fixpoint VStack_refresh_stack (fuel : nat) (st : UIStack) : option UIStack :=
  match fuel with
  | O => None
  | S fuel' =>
    if negb (_running st) || negb (_done st) then Some st
    else
      let style := self_style st in
      let m := VStack_measure st in
      let total_y := m_total_y m + padding style in
      let total_x := m_total_x m + padding style * 2 in
      let old_total_y := total_y in
      let total_y :=
        if (0 <? length (m_fill m))%nat && (total_y <? rh (self_rect st))
        then rh (self_rect st) else total_y in
      st ← (if ((total_x <? rw (self_rect st)) && shrink_x style)
               || ((rw (self_rect st) <? total_x) && grow_x style)
            then stack_set_size (VStack_refresh_stack fuel') st
                   total_x (rh (self_rect st)) true
            else Some st);
      let st := set_content st total_x total_y in
      let '(st, scroll_x, scroll_y) := reserve_scrollbars st in
      let st := set_total st (content_x st + scroll_x)
                  (content_y st + scroll_y) in
      let st := VStack_distribute st (m_fill m) old_total_y scroll_y in
      VStack_place (VStack_refresh_stack fuel') st
        total_y (m_active m) scroll_x scroll_y
  end.

(** HStack._refresh_stack (stacks.py 252-362).  [fuel] bounds the re-entries
    through [self.set_size] at lines 285, 330 and 339. *)
Fixpoint HStack_refresh_stack (fuel : nat) (st : UIStack) : option UIStack :=
  match fuel with
  | O => None
  | S fuel' =>
    if negb (_running st) || negb (_done st) then Some st
    else
      let style := self_style st in
      let m := HStack_measure st in
      let total_x := m_total_x m + padding style in
      let total_y := m_total_y m + padding style * 2 in
      let old_total_x := total_x in
      let total_x :=
        if (0 <? length (m_fill m))%nat && (total_x <? rw (self_rect st))
        then rw (self_rect st) else total_x in
      st ← (if ((total_y <? rh (self_rect st)) && shrink_y style)
               || ((rh (self_rect st) <? total_y) && grow_y style)
            then stack_set_size (HStack_refresh_stack fuel') st
                   (rw (self_rect st)) total_y true
            else Some st);
      let st := set_content st total_x total_y in
      let '(st, scroll_x, scroll_y) := reserve_scrollbars st in
      let st := set_total st (content_x st + scroll_x)
                  (content_y st + scroll_y) in
      let st := HStack_distribute st (m_fill m) old_total_x scroll_x in
      HStack_place (HStack_refresh_stack fuel') st
        total_x (m_active m) scroll_x scroll_y
  end.

(** What the pass assigns to [content_y] (stacks.py 120-132). *)
Definition VStack_resolved_content_y (st : UIStack) : Z :=
  let m := VStack_measure st in
  let total_y := m_total_y m + padding (self_style st) in
  if (0 <? length (m_fill m))%nat && (total_y <? rh (self_rect st))
  then rh (self_rect st) else total_y.

(** The stack as [UIStack.__init__] builds it: the two scrollbars are the
    first two children (stacks.py 29-30) and ignore the stack
    (scrollbars.py 14); [users] are the children added afterwards. *)
Definition constructed (st : UIStack) (users : list Element) : Prop :=
  children st = VScroll :: HScroll :: map User users
  /\ ignore_stack (sb_element (vscrollbar st)) = true
  /\ ignore_stack (sb_element (hscrollbar st)) = true.

(** A visible child that takes part in the layout with a fixed height. *)
Definition fixed_child (e : Element) : Prop :=
  visible e = true /\ ignore_stack e = false /\ fill_y (style e) = false.

Definition sum_heights (l : list Element) : Z :=
  fold_right Z.add 0 (map (fun e => rh (relative_rect e)) l).

(** Concrete stacks the properties below are evaluated on. *)

Definition plain_style : UIStackStyle :=
  mkStackStyle 5 0 true true false false false false false false
    "middle" "middle" 10 false.

Definition tight_style : UIStackStyle :=
  mkStackStyle 0 0 true true false false false false false false
    "middle" "middle" 10 false.

Definition fill_x_style : UIStackStyle :=
  mkStackStyle 0 0 true true false false false false true false
    "middle" "middle" 10 false.

Definition fill_y_style : UIStackStyle :=
  mkStackStyle 0 0 true true false false false false false true
    "middle" "middle" 10 false.

Definition scrollbar0 : UIScrollbar :=
  mkScrollbar (mkElement (mkRect 0 0 10 10) true true plain_style) false.

Definition fixed (w h : Z) : Element :=
  mkElement (mkRect 0 0 w h) false true plain_style.

(** A 200x200 VStack with spacing 5, padding 0 and one fixed child of
    height 10, as the constructor and one [Element(...)] call build it. *)
Definition one_child_vstack : UIStack :=
  mkStack (mkRect 0 0 200 200) plain_style
    [VScroll; HScroll; User (fixed 50 10)]
    0 0 0 0 (0, 0) scrollbar0 scrollbar0 true true.

(** A 100x50 HStack (spacing 0, padding 0) holding a fixed child of width
    300 and a child that fills the main axis. *)
Definition overfull_hstack : UIStack :=
  mkStack (mkRect 0 0 100 50) tight_style
    [VScroll; HScroll;
     User (mkElement (mkRect 0 0 300 20) false true tight_style);
     User (mkElement (mkRect 0 0 40 20) false true fill_x_style)]
    0 0 0 0 (0, 0) scrollbar0 scrollbar0 true true.

(** The same children in a 50x100 VStack, the second one filling the main
    axis there. *)
Definition overfull_vstack : UIStack :=
  mkStack (mkRect 0 0 50 100) tight_style
    [VScroll; HScroll;
     User (mkElement (mkRect 0 0 20 300) false true tight_style);
     User (mkElement (mkRect 0 0 20 40) false true fill_y_style)]
    0 0 0 0 (0, 0) scrollbar0 scrollbar0 true true.

End Layout.
(** ** Style cascade (style.py) *)

Module Cascade.

(** Python values that style properties hold.  [VObj] stands for objects
    whose content the cascade never inspects (enum members, fonts,
    surfaces), named by their constructor and arguments; they are not
    callable, and they are neither classes nor dictionaries. *)
Inductive pyval :=
| VNone
| VBool (b : bool)
| VInt (z : Z)
| VStr (s : string)
| VTuple (l : list pyval)
| VList (l : list pyval)
| VObj (cls : string) (args : list pyval).

(** A Python [dict] with string keys, in insertion order. *)
Definition dict (V : Type) := list (string * V).

Fixpoint dict_get {V} (k : string) (d : dict V) : option V :=
  match d with
  | [] => None
  | (k', v) :: d' => if String.eqb k k' then Some v else dict_get k d'
  end.

(** The keys of a [dict] are pairwise distinct. *)
Definition dict_wf {V} (d : dict V) : Prop := NoDup (map fst d).

(** The instance attributes of a component style object ([obj.__dict__]). *)
Abbreviation attrs := (gmap string pyval).

Definition color (r g b : Z) : pyval := VTuple [VInt r; VInt g; VInt b].

(** UIStackStyle.__init__ (style.py 17-31). *)
Definition UIStackStyle_init : attrs :=
  list_to_map
    [("spacing", VInt 5); ("padding", VInt 7);
     ("scroll_x", VBool true); ("scroll_y", VBool true);
     ("grow_x", VBool false); ("grow_y", VBool false);
     ("shrink_x", VBool false); ("shrink_y", VBool false);
     ("fill_x", VBool false); ("fill_y", VBool true);
     ("anchor", VObj "StackAnchor.middle" []);
     ("align", VObj "ElementAlign.middle" []);
     ("scrollbar_size", VInt 10)].

(** UIBGStyle.__init__ (style.py 34-38). *)
Definition UIBGStyle_init : attrs :=
  list_to_map
    [("enabled", VBool true); ("color", color 25 25 25);
     ("border_radius", VInt 7)].

(** UIImageStyle.__init__ (style.py 41-52). *)
Definition UIImageStyle_init : attrs :=
  list_to_map
    [("enabled", VBool true); ("image", VNone); ("padding", VInt 5);
     ("border_radius", VInt 7); ("stretch_x", VBool false);
     ("stretch_y", VBool false); ("fill", VBool false);
     ("border_size", VInt 0); ("outline_width", VInt 0);
     ("outline_color", color 50 50 50)].

(** UIShapeStyle.__init__ (style.py 55-65). *)
Definition UIShapeStyle_init : attrs :=
  list_to_map
    [("enabled", VBool true); ("color", color 0 120 255);
     ("outline_width", VInt 0); ("type", VStr "rect"); ("padding", VInt 8);
     ("rect_border_radius", VInt 7); ("polygon_points", VList []);
     ("ellipse_padding_x", VInt 10); ("ellipse_padding_y", VInt 20)].

(** The seven component names of the loop of style.py 231. *)
Inductive comp :=
| c_stack | c_bg | c_image | c_shape | c_text | c_icon | c_outline.

#[global] Instance comp_eq_dec : EqDecision comp.
Proof. solve_decision. Defined.

Definition attr (a : attrs) (name : string) : pyval :=
  default VNone (a !! name).

(** What the cascade asks of the interpreter and of pygame and does not
    decide itself:
    - [truth_of_obj cls args] is [bool(o)] for an object;
    - [int_of_str s] is [int(s)] for a string, [None] where it raises
      ValueError, and [int_of_obj cls args] is [int(o)] for an object;
    - [font_error func name size] is the exception that
      [pygame.font.SysFont(name, size)] ([func] is "SysFont") or
      [pygame.Font(name, size)] ([func] is "Font") raises, [None] when the
      call returns a font;
    - [object_has c name] tells whether an instance of the component class
      [c] has an attribute [name] that is neither in its [__dict__] nor
      defined by the body of its class: what it inherits from [object]
      and from the class machinery ([__class__], [__doc__], [__dict__],
      [__eq__], ...);
    - [object_setattr c name v obj] is the outcome of [setattr] for such a
      name on an instance whose [__dict__] is [obj]: the [__dict__] after
      the assignment, or the exception raised. *)
Record Backend := mkBackend {
  truth_of_obj : string -> list pyval -> result bool;
  int_of_str : string -> option Z;
  int_of_obj : string -> list pyval -> result Z;
  font_error : string -> pyval -> Z -> option pyerr;
  object_has : comp -> string -> bool;
  object_setattr : comp -> string -> pyval -> attrs -> result attrs
}.

(** Python truthiness, on the values above. *)
Definition truthy (py : Backend) (v : pyval) : result bool :=
  match v with
  | VNone => Ok false
  | VBool b => Ok b
  | VInt z => Ok (negb (z =? 0))
  | VStr s => Ok (negb (String.eqb s ""))
  | VTuple l | VList l => Ok (negb (Nat.eqb (length l) 0))
  | VObj cls args => truth_of_obj py cls args
  end.

(** [int(v)]. *)
Definition int_of (py : Backend) (v : pyval) : result Z :=
  match v with
  | VInt z => Ok z
  | VBool b => Ok (if b then 1 else 0)
  | VStr s =>
      match int_of_str py s with
      | Some z => Ok z
      | None => Raise ValueError
      end
  | VNone | VTuple _ | VList _ => Raise TypeError
  | VObj cls args => int_of_obj py cls args
  end.

(** [self.<name>] on a text style object. *)
Definition text_attr (t : attrs) (name : string) : result pyval :=
  match t !! name with
  | Some v => Ok v
  | None =>
      Raise (AttributeError ("'UITextStyle' object has no attribute '"
                             ++ name ++ "'"))
  end.

(** UITextStyle.build_font (style.py 89-97).  The font object is named by
    the constructor called and its two arguments, the size being
    [int(self.font_size)]; the call raises what [int] or the constructor
    raises. *)
Definition build_font (py : Backend) (t : attrs) : result attrs :=
  sysfont ← text_attr t "sysfont";
  sysfont ← truthy py sysfont;
  let func := if (sysfont : bool) then "SysFont" else "Font" in
  font_name ← text_attr t "font_name";
  let googleicons :=
    match font_name with
    | VStr s => String.eqb s "googleicons"
    | _ => false
    end in
  let font_name :=
    if googleicons then VStr "<package>/googleiconsfontttf.py"
    else font_name in
  let func := if googleicons then "Font" else func in
  font_size ← text_attr t "font_size";
  size ← int_of py font_size;
  match font_error py func font_name size with
  | Some e => Raise e
  | None => Ok (<["font" := VObj func [font_name; VInt size]]> t)
  end.

(** UITextStyle.apply_mods (style.py 99-104) writes the four modifiers
    into the font object. *)
Definition apply_mods (t : attrs) : attrs :=
  match attr t "font" with
  | VObj f args =>
      <["font" := VObj f (args ++ [attr t "bold"; attr t "italic";
                                   attr t "underline";
                                   attr t "strikethrough"])]> t
  | _ => t
  end.

(** The attributes UITextStyle.__init__ assigns before it builds the font
    (style.py 70-85). *)
Definition UITextStyle_fields : attrs :=
  list_to_map
    [("enabled", VBool true); ("text", VStr ""); ("color", color 255 255 255);
     ("bg_color", VNone); ("padding", VInt 5); ("y_padding", VInt 1);
     ("align", VStr "center"); ("antialas", VBool true);
     ("font_name", VStr "Segoe UI"); ("font_size", VInt 22);
     ("sysfont", VBool true); ("font_align", VObj "pygame.FONT_CENTER" []);
     ("bold", VBool false); ("italic", VBool false);
     ("underline", VBool false); ("strikethrough", VBool false)].

(** UITextStyle.__init__ (style.py 68-87). *)
Definition UITextStyle_init (py : Backend) : result attrs :=
  t ← build_font py UITextStyle_fields; Ok (apply_mods t).

(** UIIconStyle.__init__ (style.py 107-113). *)
Definition UIIconStyle_init : attrs :=
  list_to_map
    [("enabled", VBool true); ("name", VNone); ("scale", VInt 1);
     ("padding", VInt 5); ("align", VStr "center")].

(** UIOutlineStyle.__init__ (style.py 116-121). *)
Definition UIOutlineStyle_init : attrs :=
  list_to_map
    [("enabled", VBool true); ("color", color 50 50 50); ("width", VInt 1);
     ("border_radius", VInt 7)].

(** UIStyle (style.py 124-134). *)
Record UIStyle := mkStyle {
  stack : attrs;
  bg : attrs;
  image : attrs;
  shape : attrs;
  text : attrs;
  icon : attrs;
  outline : attrs
}.

(** UIStyle.__init__ (style.py 125-134) and _default_style (137-138):
    the call raises when the font of the text component cannot be
    built. *)
Definition _default_style (py : Backend) : result UIStyle :=
  t ← UITextStyle_init py;
  Ok (mkStyle UIStackStyle_init UIBGStyle_init UIImageStyle_init
        UIShapeStyle_init t UIIconStyle_init UIOutlineStyle_init).

Definition set_bg (s : UIStyle) (a : attrs) : UIStyle :=
  mkStyle (stack s) a (image s) (shape s) (text s) (icon s) (outline s).

Definition set_text (s : UIStyle) (a : attrs) : UIStyle :=
  mkStyle (stack s) (bg s) (image s) (shape s) a (icon s) (outline s).

(** _default_hover_style and _default_press_style (style.py 141-150). *)
Definition _default_hover_style (py : Backend) : result UIStyle :=
  default_hover ← _default_style py;
  Ok (set_bg default_hover (<["color" := color 32 32 32]> (bg default_hover))).

Definition _default_press_style (py : Backend) : result UIStyle :=
  default_press ← _default_style py;
  Ok (set_bg default_press (<["color" := color 17 17 17]> (bg default_press))).

(** UIStyleHolder (style.py 153-162). *)
Record UIStyleHolder := mkHolder {
  properties : dict (dict pyval);
  style_type : string;
  style_target : string;
  target_id : string
}.

(** The identity of an element that the cascade reads. *)
Record Element := mkElement {
  element_types : list string;
  style_id : string;
  element_id : string
}.

Definition comp_names : list comp :=
  [c_stack; c_bg; c_image; c_shape; c_text; c_icon; c_outline].

Definition comp_name (c : comp) : string :=
  match c with
  | c_stack => "stack" | c_bg => "bg" | c_image => "image"
  | c_shape => "shape" | c_text => "text" | c_icon => "icon"
  | c_outline => "outline"
  end.

(** [getattr(style, comp_name)]. *)
Definition getattr_comp (s : UIStyle) (c : comp) : attrs :=
  match c with
  | c_stack => stack s | c_bg => bg s | c_image => image s
  | c_shape => shape s | c_text => text s | c_icon => icon s
  | c_outline => outline s
  end.

(** The component object is shared with the style: writing its attributes
    writes the style. *)
Definition put_comp (s : UIStyle) (c : comp) (a : attrs) : UIStyle :=
  match c with
  | c_stack => mkStyle a (bg s) (image s) (shape s) (text s) (icon s) (outline s)
  | c_bg => set_bg s a
  | c_image => mkStyle (stack s) (bg s) a (shape s) (text s) (icon s) (outline s)
  | c_shape => mkStyle (stack s) (bg s) (image s) a (text s) (icon s) (outline s)
  | c_text => set_text s a
  | c_icon => mkStyle (stack s) (bg s) (image s) (shape s) (text s) a (outline s)
  | c_outline => mkStyle (stack s) (bg s) (image s) (shape s) (text s) (icon s) a
  end.

(** The methods the body of a component class defines (style.py
    12-121): [__init__] in each of them, and the two of UITextStyle. *)
Definition methods (c : comp) : list string :=
  match c with
  | c_text => ["__init__"; "build_font"; "apply_mods"]
  | _ => ["__init__"]
  end.

(** The name is in the [__dict__] of the component object or is a method
    of its class: [hasattr] finds it, and [setattr] stores the value in the
    [__dict__]. *)
Definition own_attr (c : comp) (obj : attrs) (name : string) : bool :=
  bool_decide (is_Some (obj !! name)) || bool_decide (name ∈ methods c).

(** [hasattr(comp, name)]. *)
Definition hasattr (py : Backend) (c : comp) (obj : attrs) (name : string)
  : bool :=
  own_attr c obj name || object_has py c name.

(** [setattr(comp, name, value)], for a name [hasattr] finds. *)
Definition setattr (py : Backend) (c : comp) (obj : attrs) (name : string)
    (v : pyval) : result attrs :=
  if own_attr c obj name then Ok (<[name := v]> obj)
  else object_setattr py c name v obj.

(** [comp_name.title()]. *)
Definition title (c : comp) : string :=
  match c with
  | c_stack => "Stack" | c_bg => "Bg" | c_image => "Image"
  | c_shape => "Shape" | c_text => "Text" | c_icon => "Icon"
  | c_outline => "Outline"
  end.

(** The inner loop of apply_style_properties (style.py 234-238). *)
Definition set_property (py : Backend) (c : comp) (obj : attrs)
    (nv : string * pyval) : result attrs :=
  if hasattr py c obj nv.1 then setattr py c obj nv.1 nv.2
  else Raise (UIError (title c ++ " style has no property '"
                       ++ nv.1 ++ "'")).

(** The outer loop body (style.py 232-238). *)
Definition apply_comp (py : Backend) (properties : dict (dict pyval))
    (s : UIStyle) (c : comp) : result UIStyle :=
  match dict_get (comp_name c) properties with
  | Some props =>
      obj ← for_each (set_property py c) props (getattr_comp s c);
      Ok (put_comp s c obj)
  | None => Ok s
  end.

(** [style.text.build_font()]: the call fails when a rule has replaced the
    method by a value. *)
Definition call_build_font (py : Backend) (s : UIStyle) : result UIStyle :=
  if bool_decide (is_Some (text s !! "build_font")) then Raise TypeError
  else t ← build_font py (text s); Ok (set_text s t).

(** UIStyles.apply_style_properties (style.py 229-239). *)
Definition apply_style_properties (py : Backend)
    (properties : dict (dict pyval)) (s : UIStyle) : result UIStyle :=
  s ← for_each (apply_comp py properties) comp_names s;
  call_build_font py s.

(** Python's [needle in hay] on strings. *)
Fixpoint is_substring (needle hay : string) : bool :=
  String.prefix needle hay
  || match hay with
     | EmptyString => false
     | String _ hay' => is_substring needle hay'
     end.

(** The keys of [{el_t: [] for el_t in el_types}], in insertion order. *)
Definition dict_keys (l : list string) : list string :=
  fold_left (fun acc t => if bool_decide (t ∈ acc) then acc else acc ++ [t])
    l [].

(** [d[k].append(h)]. *)
Definition bucket_append (k : string) (h : UIStyleHolder)
    (d : dict (list UIStyleHolder)) : dict (list UIStyleHolder) :=
  map (fun kv => if String.eqb kv.1 k then (kv.1, kv.2 ++ [h]) else kv) d.

(** The three collections filled by the loop of style.py 211-219. *)
Record Matches := mkMatches {
  el_type_styles : dict (list UIStyleHolder);
  style_id_styles : list UIStyleHolder;
  el_id_styles : list UIStyleHolder
}.

Definition collect (type_ : string) (el : Element) (acc : Matches)
    (h : UIStyleHolder) : Matches :=
  if negb (String.eqb (style_type h) type_) then acc
  else if String.eqb (style_target h) "element_type"
          && bool_decide (is_Some (dict_get (target_id h) (el_type_styles acc)))
  then mkMatches (bucket_append (target_id h) h (el_type_styles acc))
         (style_id_styles acc) (el_id_styles acc)
  else if String.eqb (style_target h) "style_id"
          && is_substring (target_id h) (style_id el)
  then mkMatches (el_type_styles acc) (style_id_styles acc ++ [h])
         (el_id_styles acc)
  else if String.eqb (style_target h) "element_id"
          && String.eqb (target_id h) (element_id el)
  then mkMatches (el_type_styles acc) (style_id_styles acc)
         (el_id_styles acc ++ [h])
  else acc.

Definition apply_holder (py : Backend) (s : UIStyle) (h : UIStyleHolder)
  : result UIStyle :=
  apply_style_properties py (properties h) s.

(** The [match type_] of style.py 200-206: the outcome of the constructor
    call of the case taken; no case binds [style] for any other string. *)
Definition baseline (py : Backend) (type_ : string)
  : option (result UIStyle) :=
  if String.eqb type_ "normal" then Some (_default_style py)
  else if String.eqb type_ "hover" then Some (_default_hover_style py)
  else if String.eqb type_ "press" then Some (_default_press_style py)
  else None.

(** UIStyles.get_style_of_type (style.py 198-227); [styles] is the class
    attribute [UIStyles.styles]. *)
Definition get_style_of_type (py : Backend) (styles : list UIStyleHolder)
    (el : Element) (type_ : string) : result UIStyle :=
  match baseline py type_ with
  | None => Raise UnboundLocalError
  | Some style =>
      style ← style;
      let m := fold_left (collect type_ el) styles
                 (mkMatches
                    (map (fun t => (t, [])) (dict_keys (element_types el)))
                    [] []) in
      style ← for_each (fun s kv => for_each (apply_holder py) kv.2 s)
                    (el_type_styles m) style;
      style ← for_each (apply_holder py) (style_id_styles m) style;
      for_each (apply_holder py) (el_id_styles m) style
  end.

(** UIStyleGroup (style.py 171-175). *)
Record UIStyleGroup := mkGroup {
  style : UIStyle;
  hover_style : UIStyle;
  press_style : UIStyle
}.

(** UIStyles.get_style_group (style.py 190-196). *)
Definition get_style_group (py : Backend) (styles : list UIStyleHolder)
    (el : Element) : result UIStyleGroup :=
  n ← get_style_of_type py styles el "normal";
  h ← get_style_of_type py styles el "hover";
  p ← get_style_of_type py styles el "press";
  Ok (mkGroup n h p).

(** *** Well-formed rules *)

(** Two attribute dictionaries with the same keys. *)
Definition same_keys (a b : attrs) : Prop :=
  forall k, is_Some (a !! k) <-> is_Some (b !! k).

(** The data attributes of the component objects of [UIStyle()], by
    their names: those the constructors assign (style.py 12-121), [font]
    being the one [build_font] assigns. *)
Definition fields (c : comp) : attrs :=
  match c with
  | c_stack => UIStackStyle_init
  | c_bg => UIBGStyle_init
  | c_image => UIImageStyle_init
  | c_shape => UIShapeStyle_init
  | c_text => <["font" := VNone]> UITextStyle_fields
  | c_icon => UIIconStyle_init
  | c_outline => UIOutlineStyle_init
  end.

(** The style has the attributes the constructors declare. *)
Definition keys_of (s : UIStyle) : Prop :=
  forall c, same_keys (getattr_comp s c) (fields c).

(** Every property a rule names is a data attribute of its component. *)
Definition known_props (properties : dict (dict pyval)) : Prop :=
  forall c props, dict_get (comp_name c) properties = Some props ->
    Forall (fun nv => is_Some (fields c !! nv.1)) props.

(** The three attributes [build_font] reads. *)
Definition font_inputs : list string := ["sysfont"; "font_name"; "font_size"].

(** The rule leaves the attributes [build_font] reads as they are. *)
Definition keeps_font (properties : dict (dict pyval)) : Prop :=
  forall props, dict_get "text" properties = Some props ->
    Forall (fun nv => nv.1 ∉ font_inputs) props.

(** The text style has the font attributes UITextStyle.__init__ assigns. *)
Definition default_font_inputs (t : attrs) : Prop :=
  t !! "sysfont" = Some (VBool true)
  /\ t !! "font_name" = Some (VStr "Segoe UI")
  /\ t !! "font_size" = Some (VInt 22).

(** The font of a fresh text style is found: the constructor call of
    style.py 96 returns for the arguments UITextStyle.__init__ gives it. *)
Definition default_font_builds (py : Backend) : Prop :=
  font_error py "SysFont" (VStr "Segoe UI") 22 = None.

(** The rule assigns [v] to the property [name] of component [c]. *)
Definition sets (properties : dict (dict pyval)) (c : comp) (name : string)
    (v : pyval) : Prop :=
  exists props, dict_get (comp_name c) properties = Some props
                /\ dict_wf props /\ dict_get name props = Some v.

(** The node and the two rules of the cascade-specificity property. *)
Definition submit_button : Element :=
  mkElement ["element"; "button"] "" "submit".

Definition bg_color_rule (v : pyval) : dict (dict pyval) :=
  [("bg", [("color", v)])].

(** *** Element.set_element_id and its siblings (element.py 643-659) *)

(** A class, by the attributes its body defines. *)
Record pyclass := mkClass { cls_name : string; cls_attrs : list string }.


(** class UIStyles, the resolver, by the attributes of the class of
    style.py 178-239. *)
Definition UIStyles_class : pyclass :=
  mkClass "UIStyles"
    ["styles"; "add_style"; "add_styles"; "get_style_group";
     "get_style_of_type"; "apply_style_properties"].

(** Looking an attribute up on a class object. *)
Definition class_getattr (c : pyclass) (name : string) : result unit :=
  if bool_decide (name ∈ cls_attrs c) then Ok ()
  else Raise (AttributeError ("type object '" ++ cls_name c ++
                              "' has no attribute '" ++ name ++ "'")).

(** An element with its identity and its resolved style group. *)
Record StyledElement := mkStyled {
  ident : Element;
  style_group : UIStyleGroup;
  dirty : bool
}.

(** Element.set_style_group (element.py 631-641); parents are outside
    this state, so [set_dirty] stops at the element. *)
Definition set_style_group (self : StyledElement) (g : UIStyleGroup)
  : StyledElement :=
  mkStyled (ident self) g true.

(** A method call that mutates [self] and may raise: the state after the
    call and its outcome. *)
Definition call_via (py : Backend) (c : pyclass)
    (styles : list UIStyleHolder) (self : StyledElement)
  : StyledElement * result unit :=
  match class_getattr c "get_style_group" with
  | Ok _ =>
      match get_style_group py styles (ident self) with
      | Ok g => (set_style_group self g, Ok ())
      | Raise e => (self, Raise e)
      | Timeout => (self, Timeout)
      end
  | Raise e => (self, Raise e)
  | Timeout => (self, Timeout)
  end.

(** Element.set_style_id (element.py 643-647): resolves through
    [UIStyles.get_style_group]. *)
Definition set_style_id (py : Backend) (styles : list UIStyleHolder)
    (self : StyledElement) (style_id' : string)
  : StyledElement * result unit :=
  let self :=
    mkStyled (mkElement (element_types (ident self)) style_id'
                (element_id (ident self)))
      (style_group self) (dirty self) in
  call_via py UIStyles_class styles self.


(** The holder takes part in the resolution of [type_] for [el]: it is of
    that style type and one of the three tests of the loop of style.py
    211-219 succeeds. *)
Definition applies (type_ : string) (el : Element) (h : UIStyleHolder)
  : bool :=
  String.eqb (style_type h) type_
  && ((String.eqb (style_target h) "element_type"
       && bool_decide (target_id h ∈ element_types el))
      || (String.eqb (style_target h) "style_id"
          && is_substring (target_id h) (style_id el))
      || (String.eqb (style_target h) "element_id"
          && String.eqb (target_id h) (element_id el))).

(** A backend to evaluate examples with: [int] reads the decimal numbers
    of two digits at most, every font is found, objects are true and have
    no [int], and the attributes every object has are [__class__],
    [__dict__], which no value of [pyval] can be assigned to, and
    [__doc__], which is stored in the instance. *)
Definition digit (a : Ascii.ascii) : option Z :=
  let n := Z.of_nat (Ascii.nat_of_ascii a) in
  if (48 <=? n) && (n <=? 57) then Some (n - 48) else None.

Definition sample_backend : Backend :=
  {| truth_of_obj := fun _ _ => Ok true;
     int_of_str := fun s =>
       match s with
       | String a EmptyString => digit a
       | String a (String b EmptyString) =>
           match digit a, digit b with
           | Some x, Some y => Some (10 * x + y)
           | _, _ => None
           end
       | _ => None
       end;
     int_of_obj := fun _ _ => Raise TypeError;
     font_error := fun _ _ _ => None;
     object_has := fun _ name =>
       bool_decide (name ∈ ["__class__"; "__dict__"; "__doc__"]);
     object_setattr := fun _ name v obj =>
       if String.eqb name "__doc__" then Ok (<[name := v]> obj)
       else Raise TypeError |}.

(** The style [UIStyle()] returns when the default font is found. *)
Definition sample_style : UIStyle :=
  mkStyle UIStackStyle_init UIBGStyle_init UIImageStyle_init
    UIShapeStyle_init
    (apply_mods (<["font" := VObj "SysFont" [VStr "Segoe UI"; VInt 22]]>
                   UITextStyle_fields))
    UIIconStyle_init UIOutlineStyle_init.

End Cascade.
(** ** The element heap (element.py) *)

Module Scene.

(** The six anchor slots, in the insertion order of
    [dict.fromkeys(("left", "right", "top", "bottom", "centerx",
    "centery"), None)] (element.py 98). *)
Inductive Anchor := Left | Right | Top | Bottom | CenterX | CenterY.

#[global] Instance Anchor_eq_dec : EqDecision Anchor.
Proof. solve_decision. Defined.

(** common.UIAnchorData (common.py 19-24); [target] is a reference. *)
Record UIAnchorData := mkAnchor {
  target : nat;
  self_anchor : Anchor;
  target_anchor : Anchor;
  offset : Z
}.

(** The attributes of an [Element] that the lifecycle, geometry and anchor
    methods read and write.  References to other elements are object
    identities.  The element is a plain [Element]: the hooks [on_destroy],
    [_refresh_stack], [size_changed], [position_changed], [build] are the
    empty methods of the base class, it has no resizers and no callbacks
    are registered on it. *)
Record Element := mkElement {
  parent : option nat;             (* [None] on the root only *)
  children : list nat;
  ghost_element : option nat;
  relative_rect : Rect;
  absolute_rect : Rect;
  scroll_offset : Z * Z;
  render_offset : Z * Z;
  ignore_stack : bool;
  ignore_scroll : bool;
  can_destroy : bool;
  dirty : bool;                    (* status.dirty *)
  _anchor_observers : list nat;
  _anchors : list (Anchor * option UIAnchorData)
}.

(** The manager: the heap of live objects, the root, and the two
    registries. *)
Record Manager := mkManager {
  elements : gmap nat Element;
  root : nat;
  _all_elements : list nat;
  _event_callbacks : list nat
}.

Definition with_children (e : Element) (l : list nat) : Element :=
  mkElement (parent e) l (ghost_element e) (relative_rect e)
    (absolute_rect e) (scroll_offset e) (render_offset e) (ignore_stack e)
    (ignore_scroll e) (can_destroy e) (dirty e) (_anchor_observers e)
    (_anchors e).

Definition with_relative_rect (e : Element) (r : Rect) : Element :=
  mkElement (parent e) (children e) (ghost_element e) r
    (absolute_rect e) (scroll_offset e) (render_offset e) (ignore_stack e)
    (ignore_scroll e) (can_destroy e) (dirty e) (_anchor_observers e)
    (_anchors e).

Definition with_absolute_rect (e : Element) (r : Rect) : Element :=
  mkElement (parent e) (children e) (ghost_element e) (relative_rect e)
    r (scroll_offset e) (render_offset e) (ignore_stack e)
    (ignore_scroll e) (can_destroy e) (dirty e) (_anchor_observers e)
    (_anchors e).


Definition with_dirty (e : Element) (d : bool) : Element :=
  mkElement (parent e) (children e) (ghost_element e) (relative_rect e)
    (absolute_rect e) (scroll_offset e) (render_offset e) (ignore_stack e)
    (ignore_scroll e) (can_destroy e) d (_anchor_observers e)
    (_anchors e).

Definition with_observers (e : Element) (l : list nat) : Element :=
  mkElement (parent e) (children e) (ghost_element e) (relative_rect e)
    (absolute_rect e) (scroll_offset e) (render_offset e) (ignore_stack e)
    (ignore_scroll e) (can_destroy e) (dirty e) l (_anchors e).

Definition with_anchors (e : Element)
    (l : list (Anchor * option UIAnchorData)) : Element :=
  mkElement (parent e) (children e) (ghost_element e) (relative_rect e)
    (absolute_rect e) (scroll_offset e) (render_offset e) (ignore_stack e)
    (ignore_scroll e) (can_destroy e) (dirty e) (_anchor_observers e) l.

Definition with_elements (m : Manager) (h : gmap nat Element) : Manager :=
  mkManager h (root m) (_all_elements m) (_event_callbacks m).

(** Following a reference.  Python references never dangle; an identity
    that is absent from the heap raises. *)
Definition get (m : Manager) (n : nat) : result Element :=
  match elements m !! n with
  | Some e => Ok e
  | None => Raise ReferenceError
  end.

(** Writing the attributes of the object [n]. *)
Definition put (m : Manager) (n : nat) (e : Element) : Manager :=
  with_elements m (<[n := e]> (elements m)).

(** *** Dirty propagation *)

(** Modelled from the spec: UIRoot.set_dirty (root.py is not among the
    sources).  Dirty flags propagate "up to the root": the root takes the
    flag and, having no parent, propagates no further. *)
Definition UIRoot_set_dirty (m : Manager) (n : nat) (e : Element) (d : bool)
  : Manager :=
  if Bool.eqb d (dirty e) then m else put m n (with_dirty e d).

(** Element.set_dirty (element.py 525-531), [fuel] bounding the calls up
    the parent chain; [self.parent.set_dirty()] on the root dispatches to
    UIRoot's method. *)
Fixpoint set_dirty_fuel (fuel : nat) (m : Manager) (n : nat) (d : bool)
  : result Manager :=
  match fuel with
  | O => Timeout
  | S fuel' =>
      e ← get m n;
      match parent e with
      | None => Ok (UIRoot_set_dirty m n e d)
      | Some p =>
          if Bool.eqb d (dirty e) then Ok m
          else set_dirty_fuel fuel' (put m n (with_dirty e d)) p true
      end
  end.

(** The propagation marks a clean element at every call after the first,
    so it makes at most [size + 1] calls. *)
Definition set_dirty (m : Manager) (n : nat) (d : bool) : result Manager :=
  set_dirty_fuel (2 + size (elements m)) m n d.

(** The strict ancestors of [n], nearest first, up to and including the
    root. *)
Inductive ancestors (m : Manager) : nat -> list nat -> Prop :=
| ancestors_root n e :
    elements m !! n = Some e -> parent e = None -> ancestors m n []
| ancestors_step n e p l :
    elements m !! n = Some e -> parent e = Some p -> ancestors m p l ->
    ancestors m n (p :: l).

Definition is_dirty (m : Manager) (n : nat) : bool :=
  match elements m !! n with
  | Some e => dirty e
  | None => false
  end.

(** The elements that a [set_dirty()] on [n] reaches: [n], then its
    ancestors up to (not including) the first one that is already dirty. *)
Fixpoint clean_prefix (m : Manager) (l : list nat) : list nat :=
  match l with
  | [] => []
  | a :: l' => if is_dirty m a then [] else a :: clean_prefix m l'
  end.

(** [m'] differs from [m] in dirty flags only. *)
Definition same_but_dirty (m m' : Manager) : Prop :=
  root m' = root m /\ _all_elements m' = _all_elements m
  /\ _event_callbacks m' = _event_callbacks m
  /\ forall x, elements m' !! x
       = (fun e => with_dirty e (is_dirty m' x)) <$> elements m !! x.

(** A dirty element has only dirty ancestors. *)
Definition dirty_upward_closed (m : Manager) : Prop :=
  forall n e p, elements m !! n = Some e -> dirty e = true ->
    parent e = Some p -> is_dirty m p = true.

(** A four-level tree root(0) - 1 - 2 - 3, all clean. *)
Definition leaf_element (p : option nat) (cs : list nat) : Element :=
  mkElement p cs None (mkRect 0 0 10 10) (mkRect 0 0 10 10) (0, 0) (0, 0)
    false false true false []
    [(Left, None); (Right, None); (Top, None); (Bottom, None);
     (CenterX, None); (CenterY, None)].

Definition chain4 : Manager :=
  mkManager
    (<[0%nat := leaf_element None [1%nat]]>
       (<[1%nat := leaf_element (Some 0%nat) [2%nat]]>
          (<[2%nat := leaf_element (Some 1%nat) [3%nat]]>
             (<[3%nat := leaf_element (Some 2%nat) []]> ∅))))
    0%nat [1; 2; 3]%nat [].

(** *** Absolute rectangles *)

Definition topleft (r : Rect) : Z * Z := (rx r, ry r).

Definition move_to (r : Rect) (p : Z * Z) : Rect :=
  mkRect p.1 p.2 (rw r) (rh r).

(** Modelled from the spec: UIRoot.get_absolute_topleft (root.py is not
    among the sources).  The root is the origin of "root space": its
    absolute top-left is the top-left of its own absolute rectangle. *)
Definition UIRoot_get_absolute_topleft (e : Element) : Z * Z :=
  topleft (absolute_rect e).

(** [self.manager.root.scroll_offset if self.ignore_scroll else
    self.parent.scroll_offset] for an element [e] whose parent is [p]. *)
Definition applicable_scroll (m : Manager) (e : Element) (p : nat)
  : result (Z * Z) :=
  if ignore_scroll e then r ← get m (root m); Ok (scroll_offset r)
  else pe ← get m p; Ok (scroll_offset pe).

(** Element.get_absolute_topleft (element.py 277-279), [fuel] bounding the
    calls up the parent chain. *)
Fixpoint get_absolute_topleft_fuel (fuel : nat) (m : Manager) (n : nat)
  : result (Z * Z) :=
  match fuel with
  | O => Timeout
  | S fuel' =>
      e ← get m n;
      match parent e with
      | None => Ok (UIRoot_get_absolute_topleft e)
      | Some p =>
          ptl ← get_absolute_topleft_fuel fuel' m p;
          scroll ← applicable_scroll m e p;
          Ok (ptl.1 + rx (relative_rect e) - scroll.1,
              ptl.2 + ry (relative_rect e) - scroll.2)
      end
  end.

(** A parent chain without a cycle is shorter than the heap. *)
Definition get_absolute_topleft (m : Manager) (n : nat) : result (Z * Z) :=
  get_absolute_topleft_fuel (1 + size (elements m)) m n.

(** Element._update_absolute_rect_pos (element.py 857-862), [fuel]
    bounding the depth of the recursion into the children.  ([static_rect]
    is not part of the state.) *)
Fixpoint _update_absolute_rect_pos (fuel : nat) (m : Manager) (n : nat)
  : result Manager :=
  match fuel with
  | O => Timeout
  | S fuel' =>
      tl ← get_absolute_topleft m n;
      e ← get m n;
      let m := put m n (with_absolute_rect e (move_to (absolute_rect e) tl)) in
      m ← for_each (_update_absolute_rect_pos fuel') (children e) m;
      set_dirty m n true
  end.



(** The same without the render offset. *)
Definition resolved_absolute_topleft (m : Manager) (n : nat)
  : result (Z * Z) :=
  e ← get m n;
  match parent e with
  | None => Ok (topleft (absolute_rect e))
  | Some p =>
      ptl ← get_absolute_topleft m p;
      scroll ← applicable_scroll m e p;
      Ok (ptl.1 + rx (relative_rect e) - scroll.1,
          ptl.2 + ry (relative_rect e) - scroll.2)
  end.

(** The stored absolute top-left of [n]. *)
Definition absolute_topleft (m : Manager) (n : nat) : result (Z * Z) :=
  e ← get m n; Ok (topleft (absolute_rect e)).



(** [y] is [x] or one of its descendants. *)
Inductive descendant (m : Manager) : nat -> nat -> Prop :=
| descendant_refl x : descendant m x x
| descendant_child x e c y :
    elements m !! x = Some e -> c ∈ children e -> descendant m c y ->
    descendant m x y.

(** The tree below and above every element is finite: children have a
    smaller [rank], every element has a chain of ancestors ending at the
    root object, and references point into the heap. *)
Record tree (m : Manager) (rank : nat -> nat) : Prop := mkTree {
  tree_children : forall x e c,
    elements m !! x = Some e -> c ∈ children e ->
    is_Some (elements m !! c) /\ (rank c < rank x)%nat;
  tree_ancestors : forall x,
    is_Some (elements m !! x) -> exists l, ancestors m x l;
  tree_root : is_Some (elements m !! root m)
}.

(** A checkable form of [tree]: children have a smaller [rank] and parents
    a smaller [depth]. *)
Definition tree_ok (m : Manager) (rank depth : nat -> nat) : Prop :=
  map_Forall (fun x e =>
    Forall (fun c => is_Some (elements m !! c) /\ (rank c < rank x)%nat)
      (children e)) (elements m)
  /\ map_Forall (fun x e =>
       match parent e with
       | Some p => is_Some (elements m !! p) /\ (depth p < depth x)%nat
       | None => True
       end) (elements m)
  /\ is_Some (elements m !! root m).

#[global] Instance tree_ok_dec m rank depth : Decision (tree_ok m rank depth).
Proof.
  unfold tree_ok. apply and_dec; [apply _|]. apply and_dec; [|apply _].
  apply map_Forall_dec. intros x e. destruct (parent e); apply _.
Defined.

(** An element with the data erased that [_update_absolute_rect_pos] and
    [set_dirty] write: the dirty flag and, below the root, the position of
    the absolute rectangle. *)
Definition skeleton (e : Element) : Element :=
  match parent e with
  | None => with_dirty e false
  | Some _ =>
      with_dirty (with_absolute_rect e (move_to (absolute_rect e) (0, 0)))
        false
  end.

(** [m'] differs from [m] in dirty flags and absolute positions only. *)
Definition same_layout (m m' : Manager) : Prop :=
  root m' = root m
  /\ forall x, skeleton <$> elements m' !! x = skeleton <$> elements m !! x.

(** The stored absolute top-left of [y] is the one
    [get_absolute_topleft] computes. *)
Definition positioned (m : Manager) (y : nat) : Prop :=
  exists e, elements m !! y = Some e
            /\ get_absolute_topleft m y = Ok (topleft (absolute_rect e)).


(** *** Destruction *)

(** [l.remove(x)]: the list without the first occurrence of [x], or
    [None] where Python raises ValueError. *)
Fixpoint list_remove (x : nat) (l : list nat) : option (list nat) :=
  match l with
  | [] => None
  | y :: l' =>
      if decide (y = x) then Some l'
      else cons y <$> list_remove x l'
  end.

(** [if x in l: l.remove(x)]. *)
Definition discard (x : nat) (l : list nat) : list nat :=
  default l (list_remove x l).

(** Element.remove_child (element.py 171-177); [_refresh_stack] is the
    empty method of the base class. *)
Definition remove_child (m : Manager) (p x : nat) : result Manager :=
  pe ← get m p;
  if bool_decide (x ∈ children pe) then
    set_dirty (put m p (with_children pe (discard x (children pe)))) p true
  else Ok m.

(** Modelled from the spec: UIRoot.remove_child (root.py is not among the
    sources).  A destroyed element "detaches from parent" whatever the
    parent is: the root drops the child from its children and is marked
    dirty, as an element does. *)
Definition UIRoot_remove_child (m : Manager) (p x : nat) : result Manager :=
  pe ← get m p;
  if bool_decide (x ∈ children pe) then
    set_dirty (put m p (with_children pe (discard x (children pe)))) p true
  else Ok m.

(** [self.parent.remove_child(self)], dispatching on the parent object. *)
Definition parent_remove_child (m : Manager) (p x : nat) : result Manager :=
  pe ← get m p;
  match parent pe with
  | None => UIRoot_remove_child m p x
  | Some _ => remove_child m p x
  end.

(** The loop of Element._remove_dead_anchor (element.py 904-908) over the
    items of [self._anchors]: the first slot whose target is the dead
    element is cleared, then [break]. *)
Fixpoint clear_first (dead : nat) (l : list (Anchor * option UIAnchorData))
  : list (Anchor * option UIAnchorData) :=
  match l with
  | [] => []
  | (an, Some ad) :: l' =>
      if decide (target ad = dead) then (an, None) :: l'
      else (an, Some ad) :: clear_first dead l'
  | (an, None) :: l' => (an, None) :: clear_first dead l'
  end.

Definition _remove_dead_anchor (m : Manager) (o dead : nat) : result Manager :=
  oe ← get m o;
  Ok (put m o (with_anchors oe (clear_first dead (_anchors oe)))).

(** [self._anchors[na] = v]. *)
Definition anchors_set (na : Anchor) (v : option UIAnchorData)
    (l : list (Anchor * option UIAnchorData))
  : list (Anchor * option UIAnchorData) :=
  map (fun p => if decide (p.1 = na) then (na, v) else p) l.

(** [self._anchors[na]]. *)
Fixpoint anchors_get (na : Anchor) (l : list (Anchor * option UIAnchorData))
  : option UIAnchorData :=
  match l with
  | [] => None
  | (k, v) :: l' => if decide (k = na) then v else anchors_get na l'
  end.

(** One iteration of the loop of Element.remove_anchors (element.py
    378-382), called without anchors to skip. *)
Definition remove_anchor (n : nat) (m : Manager)
    (item : Anchor * option UIAnchorData) : result Manager :=
  match item.2 with
  | None => Ok m
  | Some ad =>
      te ← get m (target ad);
      match list_remove n (_anchor_observers te) with
      | None => Raise ValueError
      | Some obs =>
          let m := put m (target ad) (with_observers te obs) in
          se ← get m n;
          Ok (put m n (with_anchors se (anchors_set item.1 None (_anchors se))))
      end
  end.

(** Element.remove_anchors (element.py 376-383). *)
Definition remove_anchors (m : Manager) (n : nat) : result Manager :=
  e ← get m n;
  for_each (remove_anchor n) (_anchors e) m.

(** The registry updates at the end of Element.destroy (element.py
    202-205). *)
Definition unregister (m : Manager) (n : nat) : Manager :=
  mkManager (elements m) (root m) (discard n (_all_elements m))
    (discard n (_event_callbacks m)).

(** Element.destroy (element.py 188-206); [fuel] bounds the depth of the
    recursion into the ghost and the children.  [on_destroy] is the empty
    hook. *)
Fixpoint destroy (fuel : nat) (m : Manager) (n : nat) (force : bool)
  : result Manager :=
  match fuel with
  | O => Timeout
  | S fuel' =>
      e ← get m n;
      if negb (can_destroy e) && negb force then Ok m
      else
        m ← for_each (fun m obs => _remove_dead_anchor m obs n)
              (_anchor_observers e) m;
        m ← remove_anchors m n;
        m ← match ghost_element e with
            | Some g => destroy fuel' m g true
            | None => Ok m
            end;
        p ← match parent e with
            | Some p => Ok p
            | None => Raise ReferenceError
            end;
        m ← parent_remove_child m p n;
        e ← get m n;
        m ← for_each (fun m child => destroy fuel' m child true)
              (children e) m;
        e ← get m n;
        let m := put m n (with_children e []) in
        Ok (unregister m n)
  end.

(** The number of occurrences of [x] in [l]. *)
Fixpoint occ (x : nat) (l : list nat) : nat :=
  match l with
  | [] => 0
  | y :: l' => (if decide (y = x) then 1 else 0) + occ x l'
  end.

(** The number of anchor slots of [l] whose target is [t]. *)
Fixpoint slots_to (t : nat) (l : list (Anchor * option UIAnchorData)) : nat :=
  match l with
  | [] => 0
  | (_, Some ad) :: l' =>
      (if decide (target ad = t) then 1 else 0) + slots_to t l'
  | (_, None) :: l' => slots_to t l'
  end.

(** Attributes read through a reference. *)
Definition parent_of (m : Manager) (y : nat) : option nat :=
  (elements m !! y) ≫= parent.

Definition ghost_of (m : Manager) (y : nat) : option nat :=
  (elements m !! y) ≫= ghost_element.

Definition children_of (m : Manager) (y : nat) : list nat :=
  default [] (children <$> elements m !! y).

Definition observers_of (m : Manager) (y : nat) : list nat :=
  default [] (_anchor_observers <$> elements m !! y).

Definition anchors_of (m : Manager) (y : nat)
  : list (Anchor * option UIAnchorData) :=
  default [] (_anchors <$> elements m !! y).

(** [m'] has the same references as [m]. *)
Record same_refs (m m' : Manager) : Prop := mkSameRefs {
  sr_root : root m' = root m;
  sr_dom : forall y, is_Some (elements m' !! y) <-> is_Some (elements m !! y);
  sr_parent : forall y, parent_of m' y = parent_of m y;
  sr_ghost : forall y, ghost_of m' y = ghost_of m y;
  sr_children : forall y, children_of m' y = children_of m y;
  sr_observers : forall y, observers_of m' y = observers_of m y;
  sr_anchors : forall y, anchors_of m' y = anchors_of m y;
  sr_all : _all_elements m' = _all_elements m;
  sr_cbs : _event_callbacks m' = _event_callbacks m
}.

(** [m'] has the objects, root, parents, ghosts and registries of [m]. *)
Record same_frame (m m' : Manager) : Prop := mkSameFrame {
  sf_root : root m' = root m;
  sf_dom : forall y, is_Some (elements m' !! y) <-> is_Some (elements m !! y);
  sf_parent : forall y, parent_of m' y = parent_of m y;
  sf_ghost : forall y, ghost_of m' y = ghost_of m y;
  sf_all : _all_elements m' = _all_elements m;
  sf_cbs : _event_callbacks m' = _event_callbacks m
}.

(** The anchor slots with the keys in [K] emptied. *)
Definition cleared (K : list Anchor) (l : list (Anchor * option UIAnchorData))
  : list (Anchor * option UIAnchorData) :=
  map (fun p => if decide (p.1 ∈ K) then (p.1, None) else p) l.

(** The keys of the non-empty slots. *)
Definition set_keys (l : list (Anchor * option UIAnchorData)) : list Anchor :=
  omap (fun p => match p.2 with Some _ => Some p.1 | None => None end) l.

(** Every anchor slot of [o] that targets [t] has its own entry for [o]
    in the observer list of [t] ([set_anchor] appends one, element.py
    466). *)
Definition covered (m : Manager) : Prop :=
  forall o t, (slots_to t (anchors_of m o) <= occ o (observers_of m t))%nat.

(** ... and the observer lists hold nothing else. *)
Definition mirrored (m : Manager) : Prop :=
  forall o t, occ o (observers_of m t) = slots_to t (anchors_of m o).

(** No anchor slot references [x] and [x] is in neither registry. *)
Definition detached (m : Manager) (x : nat) : Prop :=
  (forall o, slots_to x (anchors_of m o) = 0%nat)
  /\ (x ∉ _all_elements m) /\ (x ∉ _event_callbacks m).

(** [x] has been through [destroy]. *)
Definition destroyed (m : Manager) (x : nat) : Prop :=
  detached m x /\ children_of m x = [].

(** [m'] is [m] with references removed: the same objects, parents and
    ghosts; children, observers, anchors and registry entries may have
    been dropped. *)
Record shrinks (m m' : Manager) : Prop := mkShrinks {
  sh_root : root m' = root m;
  sh_dom : forall y, is_Some (elements m' !! y) <-> is_Some (elements m !! y);
  sh_parent : forall y, parent_of m' y = parent_of m y;
  sh_ghost : forall y, ghost_of m' y = ghost_of m y;
  sh_children : forall y c, c ∈ children_of m' y -> c ∈ children_of m y;
  sh_observers : forall y z,
    (occ z (observers_of m' y) <= occ z (observers_of m y))%nat;
  sh_anchors : forall y t,
    (slots_to t (anchors_of m' y) <= slots_to t (anchors_of m y))%nat;
  sh_all : forall z, z ∈ _all_elements m' -> z ∈ _all_elements m;
  sh_cbs : forall z, z ∈ _event_callbacks m' -> z ∈ _event_callbacks m
}.

(** Every child dropped from a children list between [m] and [m'] has
    been destroyed, the elements of [X] excepted. *)
Definition orphans_destroyed (X : list nat) (m m' : Manager) : Prop :=
  forall y c, c ∈ children_of m y ->
    c ∈ children_of m' y \/ destroyed m' c \/ c ∈ X.

(** A well-formed scene: references point into the heap, children and
    ghosts are elements (they have a parent) of smaller [rank], every
    object has a chain of ancestors, anchors are covered by observer
    entries, and the registries hold each element once. *)
Record scene (m : Manager) (rank : nat -> nat) : Prop := mkScene {
  sc_children : forall y c, c ∈ children_of m y ->
    is_Some (elements m !! c) /\ (rank c < rank y)%nat
    /\ is_Some (parent_of m c);
  sc_ghost : forall y g, ghost_of m y = Some g ->
    is_Some (elements m !! g) /\ (rank g < rank y)%nat
    /\ is_Some (parent_of m g);
  sc_observers : forall y o, o ∈ observers_of m y -> is_Some (elements m !! o);
  sc_targets : forall y t,
    (0 < slots_to t (anchors_of m y))%nat -> is_Some (elements m !! t);
  sc_ancestors : forall y, is_Some (elements m !! y) -> exists l, ancestors m y l;
  sc_covered : covered m;
  sc_all : NoDup (_all_elements m);
  sc_cbs : NoDup (_event_callbacks m)
}.

(** A checkable form of [scene] and [mirrored]. *)
Definition lifecycle_ok (m : Manager) (rank depth : nat -> nat) : Prop :=
  map_Forall (fun y e =>
    Forall (fun c => is_Some (elements m !! c) /\ (rank c < rank y)%nat
                     /\ is_Some (parent_of m c)) (children e)
    /\ Forall (fun g => is_Some (elements m !! g) /\ (rank g < rank y)%nat
                        /\ is_Some (parent_of m g))
         (option_list (ghost_element e))
    /\ Forall (fun o => is_Some (elements m !! o)) (_anchor_observers e)
    /\ Forall (fun p => Forall (fun ad => is_Some (elements m !! target ad))
                          (option_list p.2)) (_anchors e)
    /\ Forall (fun p => is_Some (elements m !! p) /\ (depth p < depth y)%nat)
         (option_list (parent e))
    /\ map_Forall (fun t te =>
         occ y (_anchor_observers te) = slots_to t (_anchors e))
         (elements m)) (elements m)
  /\ NoDup (_all_elements m) /\ NoDup (_event_callbacks m).

#[global] Instance lifecycle_ok_dec m rank depth :
  Decision (lifecycle_ok m rank depth).
Proof. unfold lifecycle_ok. apply _. Defined.

(** A root (0) holding a panel (1) scrolled by ([sx], 0).  The panel
    holds the elements 2, 3 and 4; element 2 holds element 5.  Element 3 is
    anchored to element 2 by its left and top slots, element 2 to element 4
    by its top slot.  The absolute rectangles are the resolved ones. *)
Definition no_anchors : list (Anchor * option UIAnchorData) :=
  [(Left, None); (Right, None); (Top, None); (Bottom, None);
   (CenterX, None); (CenterY, None)].

Definition anchored_panel (sx : Z) : Manager :=
  mkManager
    (<[0%nat := leaf_element None [1%nat]]>
    (<[1%nat := mkElement (Some 0%nat) [2; 3; 4]%nat None
                  (mkRect 100 100 200 200) (mkRect 100 100 200 200)
                  (sx, 0) (0, 0) false false true false [] no_anchors]>
    (<[2%nat := mkElement (Some 1%nat) [5%nat] None
                  (mkRect 10 50 50 30) (mkRect (110 - sx) 150 50 30)
                  (0, 0) (0, 0) true false true false [3; 3]%nat
                  [(Left, None); (Right, None);
                   (Top, Some (mkAnchor 4 Top Bottom 10));
                   (Bottom, None); (CenterX, None); (CenterY, None)]]>
    (<[3%nat := mkElement (Some 1%nat) [] None
                  (mkRect 60 50 50 30) (mkRect (160 - sx) 150 50 30)
                  (0, 0) (0, 0) true false true false []
                  [(Left, Some (mkAnchor 2 Left Right 0)); (Right, None);
                   (Top, Some (mkAnchor 2 Top Top 0));
                   (Bottom, None); (CenterX, None); (CenterY, None)]]>
    (<[4%nat := mkElement (Some 1%nat) [] None
                  (mkRect 10 10 50 30) (mkRect (110 - sx) 110 50 30)
                  (0, 0) (0, 0) false false true false [2%nat] no_anchors]>
    (<[5%nat := mkElement (Some 2%nat) [] None
                  (mkRect 0 0 10 10) (mkRect (110 - sx) 150 10 10)
                  (0, 0) (0, 0) false false true false [] no_anchors]> ∅))))))
    0%nat [1; 2; 3; 4; 5]%nat [2; 5]%nat.

Definition anchored_scene : Manager := anchored_panel 5.

Definition anchored_rank (x : nat) : nat :=
  match x with 0 => 3 | 1 => 2 | 2 => 1 | _ => 0 end%nat.

Definition anchored_depth (x : nat) : nat :=
  match x with 0 => 0 | 1 => 1 | 5 => 3 | _ => 2 end%nat.

(** *** Anchors *)

(** [getattr(rect, name)] for the six anchor names, on a pygame [Rect]. *)
Definition rect_attr (r : Rect) (a : Anchor) : Z :=
  match a with
  | Left => rect_left r
  | Right => rect_right r
  | Top => rect_top r
  | Bottom => rect_bottom r
  | CenterX => rect_centerx r
  | CenterY => rect_centery r
  end.

(** [rect.centerx = v] and [rect.centery = v]: the rectangle moves, its
    size stays. *)
Definition set_centerx (r : Rect) (v : Z) : Rect :=
  mkRect (v - Z.quot (rw r) 2) (ry r) (rw r) (rh r).

Definition set_centery (r : Rect) (v : Z) : Rect :=
  mkRect (rx r) (v - Z.quot (rh r) 2) (rw r) (rh r).

Definition resize (r : Rect) (s : Z * Z) : Rect :=
  mkRect (rx r) (ry r) s.1 s.2.

(** [getattr(ad.target.absolute_rect, ad.target_anchor) + ad.offset]. *)
Definition anchor_value (m : Manager) (ad : UIAnchorData) : result Z :=
  te ← get m (target ad);
  Ok (rect_attr (absolute_rect te) (target_anchor ad) + offset ad).

(** The two ends of an axis that has no centre anchor (element.py 924-937
    and 944-957): [lo] and [hi] start as [None], are set from the anchors
    that exist and completed from the current rectangle. *)
Definition anchored_span (m : Manager) (lo_ad hi_ad : option UIAnchorData)
    (cur_lo cur_hi extent : Z) : result (Z * Z) :=
  lo ← match lo_ad with
       | Some ad => v ← anchor_value m ad; Ok (Some v)
       | None => Ok None
       end;
  hi ← match hi_ad with
       | Some ad => v ← anchor_value m ad; Ok (Some v)
       | None => Ok None
       end;
  let '(lo, hi) :=
    match lo, hi with
    | Some l, None => (l, l + extent)
    | None, Some h => (h - extent, h)
    | None, None => (cur_lo, cur_hi)
    | Some l, Some h => (l, h)
    end in
  Ok (if hi <=? lo then (lo, lo + 1) else (lo, hi)).

(** [temp_r] at the end of Element._apply_anchors (element.py 919-960). *)
Definition anchored_rect (m : Manager) (e : Element) : result Rect :=
  let a := absolute_rect e in
  let temp_r := a in
  temp_r ←
    match anchors_get CenterX (_anchors e) with
    | Some cxad => v ← anchor_value m cxad; Ok (set_centerx temp_r v)
    | None =>
        lr ← anchored_span m (anchors_get Left (_anchors e))
               (anchors_get Right (_anchors e))
               (rect_left a) (rect_right a) (rw a);
        Ok (mkRect lr.1 (ry temp_r) (lr.2 - lr.1) (rh temp_r))
    end;
  match anchors_get CenterY (_anchors e) with
  | Some cyad => v ← anchor_value m cyad; Ok (set_centery temp_r v)
  | None =>
      tb ← anchored_span m (anchors_get Top (_anchors e))
             (anchors_get Bottom (_anchors e))
             (rect_top a) (rect_bottom a) (rh a);
      Ok (mkRect (rx temp_r) tb.1 (rw temp_r) (tb.2 - tb.1))
  end.

(** Element.set_size (element.py 588-609) with [propagate_up] left at
    [False]; [apply] is [_apply_anchors].  The surfaces and components are
    not part of the state; [_update_surface_size] marks the element
    dirty.  The sides are stored as they are given: this is the code for
    sides that fit the C ints of a [pygame.Rect], below 2^31. *)
Definition set_size (apply : Manager -> nat -> result Manager)
    (m : Manager) (n : nat) (size : Z * Z) (apply_anchors : bool)
  : result Manager :=
  e ← get m n;
  if decide ((rw (relative_rect e), rh (relative_rect e)) = size) then Ok m
  else
    let r := resize (relative_rect e) (Z.max 1 size.1, Z.max 1 size.2) in
    let e := with_relative_rect e r in
    let e := with_absolute_rect e (resize (absolute_rect e) (rw r, rh r)) in
    m ← set_dirty (put m n e) n true;
    e ← get m n;
    m ← for_each apply (_anchor_observers e) m;
    if apply_anchors then apply m n else Ok m.

(** Element.set_absolute_pos (element.py 555-570); [apply] is
    [_apply_anchors]. *)
Definition set_absolute_pos (apply : Manager -> nat -> result Manager)
    (m : Manager) (n : nat) (position : Z * Z) (apply_anchors : bool)
  : result Manager :=
  e ← get m n;
  p ← match parent e with
      | Some p => Ok p
      | None => Raise ReferenceError
      end;
  ptl ← get_absolute_topleft m p;
  let new := (position.1 - ptl.1, position.2 - ptl.2) in
  if decide (topleft (relative_rect e) = new) then Ok m
  else
    let m := put m n (with_relative_rect e (move_to (relative_rect e) new)) in
    m ← _update_absolute_rect_pos (1 + size (elements m)) m n;
    e ← get m n;
    m ← for_each apply (_anchor_observers e) m;
    if apply_anchors then apply m n else Ok m.

(** Element._apply_anchors (element.py 916-963); [fuel] bounds the depth
    of the calls along the observer lists. *)
Fixpoint _apply_anchors (fuel : nat) (m : Manager) (n : nat)
  : result Manager :=
  match fuel with
  | O => Timeout
  | S fuel' =>
      e ← get m n;
      if forallb (fun p => bool_decide (p.2 = None)) (_anchors e) then Ok m
      else
        temp_r ← anchored_rect m e;
        m ← set_size (_apply_anchors fuel') m n (rw temp_r, rh temp_r) false;
        set_absolute_pos (_apply_anchors fuel') m n (topleft temp_r) false
  end.

(** [self.absolute_rect] of the element [n]. *)
Definition absolute_rect_of (m : Manager) (n : nat) : result Rect :=
  e ← get m n; Ok (absolute_rect e).





(** [chain4] after [e2.set_dirty()] and [e1.set_dirty(False)]: element 2 and
    the root are dirty, element 1 between them is clean. *)
Definition stale_chain4 : result Manager :=
  m ← set_dirty chain4 2%nat true; set_dirty m 1%nat false.

(** *** The order of the children and reparenting *)

(** [pygame.math.clamp(value, min, max)]: [min] when the value is below
    it, else [max] when the value is above it, else the value. *)
Definition clamp (value lo hi : Z) : Z :=
  if value <? lo then lo else if hi <? value then hi else value.

(** [l.index(x)]: the position of the first occurrence, or [None] where
    Python raises ValueError. *)
Fixpoint list_index (x : nat) (l : list nat) : option nat :=
  match l with
  | [] => None
  | y :: l' => if decide (y = x) then Some 0%nat else S <$> list_index x l'
  end.

(** [l.insert(i, x)]: a negative index counts from the end, an index out
    of range is moved to the nearer end. *)
Definition py_insert (i : Z) (x : nat) (l : list nat) : list nat :=
  let n := Z.of_nat (length l) in
  let i := if i <? 0 then Z.max 0 (i + n) else Z.min i n in
  take (Z.to_nat i) l ++ x :: drop (Z.to_nat i) l.

Definition with_parent (e : Element) (p : option nat) : Element :=
  mkElement p (children e) (ghost_element e) (relative_rect e)
    (absolute_rect e) (scroll_offset e) (render_offset e) (ignore_stack e)
    (ignore_scroll e) (can_destroy e) (dirty e) (_anchor_observers e)
    (_anchors e).

Definition with_ignore_stack (e : Element) (b : bool) : Element :=
  mkElement (parent e) (children e) (ghost_element e) (relative_rect e)
    (absolute_rect e) (scroll_offset e) (render_offset e) b
    (ignore_scroll e) (can_destroy e) (dirty e) (_anchor_observers e)
    (_anchors e).

(** [self.parent] of an element; the root has none. *)
Definition parent_ref (e : Element) : result nat :=
  match parent e with
  | Some p => Ok p
  | None => Raise ReferenceError
  end.

(** Element.get_index_in_parent (element.py 292-294). *)
Definition get_index_in_parent (m : Manager) (n : nat) : result Z :=
  e ← get m n;
  p ← parent_ref e;
  pe ← get m p;
  match list_index n (children pe) with
  | Some i => Ok (Z.of_nat i)
  | None => Raise ValueError
  end.

(** Element.set_index_in_parent (element.py 510-516); the parent is a
    plain element, its [_refresh_stack] the empty hook. *)
Definition set_index_in_parent (m : Manager) (n : nat) (index : Z)
  : result Manager :=
  e ← get m n;
  p ← parent_ref e;
  pe ← get m p;
  match list_remove n (children pe) with
  | None => Raise ValueError
  | Some l =>
      Ok (put m p (with_children pe
                     (py_insert (clamp index 0 (Z.of_nat (length l))) n l)))
  end.

(** Element.move_in_parent (element.py 215-224). *)
Definition move_in_parent (m : Manager) (n : nat) (places : Z)
  : result Manager :=
  e ← get m n;
  p ← parent_ref e;
  pe ← get m p;
  if (length (children pe) <=? 1)%nat then Ok m
  else
    match list_index n (children pe) with
    | None => Raise ValueError
    | Some idx =>
        let new_idx :=
          clamp (Z.of_nat idx + places) 0
            (Z.of_nat (length (children pe)) - 1) in
        match list_remove n (children pe) with
        | None => Raise ValueError
        | Some l => Ok (put m p (with_children pe (py_insert new_idx n l)))
        end
    end.

(** Element._add_child (element.py 164-169). *)
Definition _add_child (m : Manager) (p x : nat) : result Manager :=
  pe ← get m p;
  if bool_decide (x ∈ children pe) then Ok m
  else set_dirty (put m p (with_children pe (children pe ++ [x]))) p true.

(** Modelled from the spec: UIRoot._add_child (root.py is not among the
    sources).  The root holds its children as every node does ("children
    (ordered sequence)"): a new child is appended once and the root is
    marked dirty. *)
Definition UIRoot__add_child (m : Manager) (p x : nat) : result Manager :=
  pe ← get m p;
  if bool_decide (x ∈ children pe) then Ok m
  else set_dirty (put m p (with_children pe (children pe ++ [x]))) p true.

(** [self.parent._add_child(self)], dispatching on the parent object. *)
Definition parent_add_child (m : Manager) (p x : nat) : result Manager :=
  pe ← get m p;
  match parent pe with
  | None => UIRoot__add_child m p x
  | Some _ => _add_child m p x
  end.

(** Element.set_parent (element.py 661-670); [None] stands for the
    root. *)
Definition set_parent (m : Manager) (n : nat) (parent' : option nat)
  : result Manager :=
  let q := default (root m) parent' in
  e ← get m n;
  if decide (parent e = Some q) then Ok m
  else
    p ← parent_ref e;
    m ← parent_remove_child m p n;
    e ← get m n;
    let m := put m n (with_parent e (Some q)) in
    parent_add_child m q n.

(** The children lists agree with the parent pointers: a listed child
    points back to the element that lists it, and no list holds an element
    twice. *)
Definition family (m : Manager) : Prop :=
  (forall p c, c ∈ children_of m p -> parent_of m c = Some p)
  /\ forall p, NoDup (children_of m p).

(** A checkable form of [family]. *)
Definition family_ok (m : Manager) : Prop :=
  map_Forall (fun p e =>
    Forall (fun c => parent_of m c = Some p) (children e)
    /\ NoDup (children e)) (elements m).

#[global] Instance family_ok_dec m : Decision (family_ok m).
Proof. unfold family_ok. apply _. Defined.

(** *** Moving and resizing *)


(** [self.manager.root.scroll_offset if self.ignore_scroll else
    self.parent.scroll_offset] for the element [n]. *)
Definition scroll_of (m : Manager) (n : nat) : result (Z * Z) :=
  e ← get m n; p ← parent_ref e; applicable_scroll m e p.

(** The size of a rectangle. *)
Definition rect_size (r : Rect) : Z * Z := (rw r, rh r).


(** The element is laid out: its absolute rectangle is at the place
    [get_absolute_topleft] computes and has the size of the relative
    rectangle, at least 1 by 1 (what [__init__] and [set_size] leave). *)
Definition settled (m : Manager) (n : nat) : Prop :=
  positioned m n
  /\ exists e, elements m !! n = Some e
       /\ rect_size (absolute_rect e) = rect_size (relative_rect e)
       /\ 1 <= rw (relative_rect e) /\ 1 <= rh (relative_rect e).

(** What moving and resizing leave alone in an element: everything but
    the two rectangles and the dirty flag. *)
Definition frame_key (e : Element)
  : option nat * list nat * option nat * (Z * Z) * (Z * Z) * bool * bool
    * bool * list nat * list (Anchor * option UIAnchorData) :=
  (parent e, children e, ghost_element e, scroll_offset e, render_offset e,
   ignore_stack e, ignore_scroll e, can_destroy e, _anchor_observers e,
   _anchors e).

(** [m'] differs from [m] in rectangles and dirty flags only. *)
Definition same_but_rects (m m' : Manager) : Prop :=
  root m' = root m
  /\ forall y, frame_key <$> elements m' !! y = frame_key <$> elements m !! y.


(** *** Setting an anchor *)

(** The anchor slot a string names; [None] for a string that is not in
    [["left", "right", "top", "bottom", "centerx", "centery"]]. *)
Definition anchor_of_name (s : string) : option Anchor :=
  if String.eqb s "left" then Some Left
  else if String.eqb s "right" then Some Right
  else if String.eqb s "top" then Some Top
  else if String.eqb s "bottom" then Some Bottom
  else if String.eqb s "centerx" then Some CenterX
  else if String.eqb s "centery" then Some CenterY
  else None.

(** The [target] argument of [set_anchor]: [None], the string "parent" or
    an element. *)
Inductive anchor_target :=
| TNone
| TParent
| TElement (t : nat).

Definition with_ignore_scroll (e : Element) (b : bool) : Element :=
  mkElement (parent e) (children e) (ghost_element e) (relative_rect e)
    (absolute_rect e) (scroll_offset e) (render_offset e) (ignore_stack e)
    b (can_destroy e) (dirty e) (_anchor_observers e) (_anchors e).

(** Element.set_ignore (element.py 518-523); the raycast flag is outside
    this state. *)
Definition set_ignore (e : Element) (stack scroll : option bool) : Element :=
  with_ignore_scroll
    (with_ignore_stack e (default (ignore_stack e) stack))
    (default (ignore_scroll e) scroll).

(** Element.is_root (element.py 304-306). *)
Definition Element_is_root : bool := false.

(** Modelled from the spec: UIRoot.is_root (root.py is not among the
    sources): "An anchor target can never be the tree root", so the root
    answers [True]. *)
Definition UIRoot_is_root : bool := true.

(** [target.is_root()], dispatching on the object. *)
Definition is_root (m : Manager) (t : nat) : result bool :=
  te ← get m t;
  Ok (match parent te with
      | None => UIRoot_is_root
      | Some _ => Element_is_root
      end).

(** [if self._anchors[na] is not None:
       self._anchors[na].target._anchor_observers.remove(self)]
    (element.py 446-448 and 460-461). *)
Definition detach_slot (m : Manager) (n : nat) (na : Anchor)
  : result Manager :=
  e ← get m n;
  match anchors_get na (_anchors e) with
  | Some ad =>
      te ← get m (target ad);
      match list_remove n (_anchor_observers te) with
      | None => Raise ValueError
      | Some obs => Ok (put m (target ad) (with_observers te obs))
      end
  | None => Ok m
  end.

(** [self._anchors[na] is not None]. *)
Definition slot_set (e : Element) (na : Anchor) : bool :=
  bool_decide (anchors_get na (_anchors e) <> None).

(** Element.set_anchor (element.py 438-474); [apply] is
    [_apply_anchors]. *)
Definition set_anchor (apply : Manager -> nat -> result Manager)
    (m : Manager) (n : nat) (target : anchor_target)
    (self_anchor target_anchor : string) (offset : Z) : result Manager :=
  e ← get m n;
  let m := put m n (set_ignore e (Some true) None) in
  match anchor_of_name self_anchor, anchor_of_name target_anchor with
  | Some sa, Some ta =>
      match target with
      | TNone =>
          m ← detach_slot m n sa;
          e ← get m n;
          Ok (put m n (with_anchors e (anchors_set sa None (_anchors e))))
      | _ =>
          if String.eqb self_anchor "none" || String.eqb target_anchor "none"
          then Raise (UIError "If target is not None self and target anchors must not be 'none'")
          else
            t ← match target with
                | TElement t => Ok t
                | _ => e ← get m n; parent_ref e
                end;
            r ← is_root m t;
            if (r : bool) then Raise (UIError "Anchor target cannot be root")
            else
              m ← detach_slot m n sa;
              e ← get m n;
              let m :=
                put m n (with_anchors e
                           (anchors_set sa (Some (mkAnchor t sa ta offset))
                              (_anchors e))) in
              te ← get m t;
              let m :=
                put m t (with_observers te (_anchor_observers te ++ [n])) in
              e ← get m n;
              if (slot_set e Left || slot_set e Right) && slot_set e CenterX
              then Raise (UIError "If the centerx anchor is set left and right anchors cannot be set too")
              else if (slot_set e Top || slot_set e Bottom)
                      && slot_set e CenterY
              then Raise (UIError "If the centery anchor is set top and bottom anchors cannot be set too")
              else apply m n
      end
  | _, _ =>
      Raise (UIError "Invalid anchor. Valid anchors are left, right, top, bottom, centerx, centery")
  end.

(** The six slots are present, once each, as [dict.fromkeys] builds them
    (element.py 98). *)
Definition six_slots (l : list (Anchor * option UIAnchorData)) : Prop :=
  l.*1 = [Left; Right; Top; Bottom; CenterX; CenterY].

(** *** Destroying the children *)

(** [y.can_destroy] for the object [y] of the heap. *)
Definition can_destroy_of (m : Manager) (y : nat) : bool :=
  default false (can_destroy <$> elements m !! y).

(** Element.get_destroyable_children (element.py 296-298). *)
Definition get_destroyable_children (m : Manager) (n : nat)
  : result (list nat) :=
  e ← get m n;
  for_each (fun acc el =>
              ce ← get m el;
              Ok (if can_destroy ce then acc ++ [el] else acc))
    (children e) [].

(** Element.destroy_children (element.py 208-213); the loop runs over a
    copy of the children. *)
Definition destroy_children (fuel : nat) (m : Manager) (n : nat)
  : result Manager :=
  e ← get m n;
  m ← for_each (fun m child => destroy fuel m child false) (children e) m;
  set_dirty m n true.

(** [m'] has the [can_destroy] flags of [m]. *)
Definition same_can_destroy (m m' : Manager) : Prop :=
  forall y, can_destroy_of m' y = can_destroy_of m y.

End Scene.

(** ** Pointer interaction (interact.py) *)

Module Interact.

#[global] Instance Rect_eq_dec : EqDecision Rect.
Proof. solve_decision. Defined.

(** [[char_i, line_i, tot_i]]: a position in a wrapped text. *)
Definition idxs : Type := Z * Z * Z.

Definition tot_i (i : idxs) : Z := i.2.

(** The flags of [element.status] that interact.py reads and writes.  The
    time stamps [hover_start_time] and [press_start_time] are left out. *)
Record UIStatus := mkStatus {
  visible : bool;
  hovered : bool;
  pressed : bool;
  right_pressed : bool;
  selected : bool;
  can_select : bool;
  scroll_hovered : bool
}.

(** The attributes of [element.text] that interact.py reads and writes
    ([text_can_select] is [element.text.can_select]). *)
Record UIText := mkText {
  text_can_select : bool;
  real_text : string;
  _selection_start_idxs : option idxs;
  _selection_end_idxs : option idxs;
  selection_rects : list Rect
}.

(** An element as the hit test and the state machine see it; [scrollable]
    is [is_stack() and (vscrollbar.status.visible or
    hscrollbar.status.visible)]. *)
Record Element := mkElement {
  parent : option nat;
  children : list nat;
  absolute_rect : Rect;
  z_index : Z;
  ignore_raycast : bool;
  scrollable : bool;
  status : UIStatus;
  text : UIText
}.

(** What [_logic] sends out of the module, in the order of the calls:
    callbacks invoked on an element, events posted to the host queue, and
    calls of methods of the element whose effect is outside this state. *)
Inductive emission :=
| Callback (name : string) (el : nat)
| Event (type : string) (el : nat)
| SetCursorIndex (el : nat) (i : Z)
| BufferUpdate (el : nat) (name : string) (value : bool)
| SetDirty (el : nat).

#[global] Instance emission_eq_dec : EqDecision emission.
Proof. solve_decision. Defined.

(** [UIInteract] together with the parts of its manager that it reads:
    the heap of elements, [manager._last_rendered] and
    [manager.navigation.tabbed_element]. *)
Record UIInteract := mkInteract {
  elements : gmap nat Element;
  _last_rendered : option nat;
  tabbed_element : option nat;
  hovered_el : option nat;
  pressed_el : option nat;
  right_pressed_el : option nat;
  last_scroll_hovered : option nat;
  text_select_el : option nat;
  start_idxs : option idxs;
  last_idxs : option idxs;
  log : list emission
}.

(** [UIState] during one frame: the input snapshot, and the answers of the
    font backend for that frame ([common.text_click_idx] for the text of
    an element at the pointer position, [common.text_select_rects] for a
    selection of that text). *)
Record UIState := mkUIState {
  mouse_pos : Z * Z;
  mouse_pressed : bool * bool * bool;
  space_pressed : bool;
  text_click_idx : nat -> option idxs;
  text_select_rects : nat -> idxs -> idxs -> list Rect
}.

(** [UIState.mouse_pressed[0]] and [UIState.mouse_pressed[1]]. *)
Definition mouse_pressed_0 (io : UIState) : bool := (mouse_pressed io).1.1.
Definition mouse_pressed_1 (io : UIState) : bool := (mouse_pressed io).1.2.

Definition set_hovered (x : UIStatus) (v : bool) : UIStatus :=
  mkStatus (visible x) v (pressed x) (right_pressed x) (selected x)
    (can_select x) (scroll_hovered x).

Definition set_pressed (x : UIStatus) (v : bool) : UIStatus :=
  mkStatus (visible x) (hovered x) v (right_pressed x) (selected x)
    (can_select x) (scroll_hovered x).

Definition set_right_pressed (x : UIStatus) (v : bool) : UIStatus :=
  mkStatus (visible x) (hovered x) (pressed x) v (selected x) (can_select x)
    (scroll_hovered x).

Definition set_selected (x : UIStatus) (v : bool) : UIStatus :=
  mkStatus (visible x) (hovered x) (pressed x) (right_pressed x) v
    (can_select x) (scroll_hovered x).

Definition set_scroll_hovered (x : UIStatus) (v : bool) : UIStatus :=
  mkStatus (visible x) (hovered x) (pressed x) (right_pressed x)
    (selected x) (can_select x) v.

Definition set_selection_start_idxs (x : UIText) (v : option idxs)
  : UIText :=
  mkText (text_can_select x) (real_text x) v (_selection_end_idxs x)
    (selection_rects x).

Definition set_selection_end_idxs (x : UIText) (v : option idxs) : UIText :=
  mkText (text_can_select x) (real_text x) (_selection_start_idxs x) v
    (selection_rects x).

Definition set_selection_rects (x : UIText) (v : list Rect) : UIText :=
  mkText (text_can_select x) (real_text x) (_selection_start_idxs x)
    (_selection_end_idxs x) v.

Definition with_status (x : Element) (v : UIStatus) : Element :=
  mkElement (parent x) (children x) (absolute_rect x) (z_index x)
    (ignore_raycast x) (scrollable x) v (text x).

Definition with_text (x : Element) (v : UIText) : Element :=
  mkElement (parent x) (children x) (absolute_rect x) (z_index x)
    (ignore_raycast x) (scrollable x) (status x) v.

Definition set_elements (x : UIInteract) (v : gmap nat Element)
  : UIInteract :=
  mkInteract v (_last_rendered x) (tabbed_element x) (hovered_el x)
    (pressed_el x) (right_pressed_el x) (last_scroll_hovered x)
    (text_select_el x) (start_idxs x) (last_idxs x) (log x).

Definition set_hovered_el (x : UIInteract) (v : option nat) : UIInteract :=
  mkInteract (elements x) (_last_rendered x) (tabbed_element x) v
    (pressed_el x) (right_pressed_el x) (last_scroll_hovered x)
    (text_select_el x) (start_idxs x) (last_idxs x) (log x).

Definition set_pressed_el (x : UIInteract) (v : option nat) : UIInteract :=
  mkInteract (elements x) (_last_rendered x) (tabbed_element x)
    (hovered_el x) v (right_pressed_el x) (last_scroll_hovered x)
    (text_select_el x) (start_idxs x) (last_idxs x) (log x).

Definition set_right_pressed_el (x : UIInteract) (v : option nat)
  : UIInteract :=
  mkInteract (elements x) (_last_rendered x) (tabbed_element x)
    (hovered_el x) (pressed_el x) v (last_scroll_hovered x)
    (text_select_el x) (start_idxs x) (last_idxs x) (log x).

Definition set_last_scroll_hovered (x : UIInteract) (v : option nat)
  : UIInteract :=
  mkInteract (elements x) (_last_rendered x) (tabbed_element x)
    (hovered_el x) (pressed_el x) (right_pressed_el x) v (text_select_el x)
    (start_idxs x) (last_idxs x) (log x).

Definition set_text_select_el (x : UIInteract) (v : option nat)
  : UIInteract :=
  mkInteract (elements x) (_last_rendered x) (tabbed_element x)
    (hovered_el x) (pressed_el x) (right_pressed_el x)
    (last_scroll_hovered x) v (start_idxs x) (last_idxs x) (log x).

Definition set_start_idxs (x : UIInteract) (v : option idxs) : UIInteract :=
  mkInteract (elements x) (_last_rendered x) (tabbed_element x)
    (hovered_el x) (pressed_el x) (right_pressed_el x)
    (last_scroll_hovered x) (text_select_el x) v (last_idxs x) (log x).

Definition set_last_idxs (x : UIInteract) (v : option idxs) : UIInteract :=
  mkInteract (elements x) (_last_rendered x) (tabbed_element x)
    (hovered_el x) (pressed_el x) (right_pressed_el x)
    (last_scroll_hovered x) (text_select_el x) (start_idxs x) v (log x).

Definition set_log (x : UIInteract) (v : list emission) : UIInteract :=
  mkInteract (elements x) (_last_rendered x) (tabbed_element x)
    (hovered_el x) (pressed_el x) (right_pressed_el x)
    (last_scroll_hovered x) (text_select_el x) (start_idxs x) (last_idxs x)
    v.

(** Following a reference, and writing the attributes of an object. *)
Definition get (st : UIInteract) (n : nat) : result Element :=
  match elements st !! n with
  | Some e => Ok e
  | None => Raise ReferenceError
  end.

Definition put (st : UIInteract) (n : nat) (e : Element) : UIInteract :=
  set_elements st (<[n := e]> (elements st)).

(** [element.status.<flag> = v] and [element.text.<attribute> = v]. *)
Definition set_status (st : UIInteract) (n : nat)
    (f : UIStatus -> UIStatus) : result UIInteract :=
  e ← get st n; Ok (put st n (with_status e (f (status e)))).

Definition set_text (st : UIInteract) (n : nat)
    (f : UIText -> UIText) : result UIInteract :=
  e ← get st n; Ok (put st n (with_text e (f (text e)))).

Definition emit (x : emission) (st : UIInteract) : UIInteract :=
  set_log st (log st ++ [x]).

(** Modelled from the spec: UIStatus.invoke_callback and
    UIStatus.invoke_callbacks (status.py is not among the sources).  "The
    core invokes named callbacks registered per node": the callbacks named
    are invoked on the element in the order of the arguments; what a
    callback does is the host's. *)
Definition invoke_callback (name : string) (n : nat) (st : UIInteract)
  : UIInteract := emit (Callback name n) st.

Definition invoke_callbacks (names : list string) (n : nat)
    (st : UIInteract) : UIInteract :=
  fold_left (fun st name => invoke_callback name n st) names st.

(** Modelled from the spec: events._post_base_event (events.py is not
    among the sources): "emits a corresponding tagged event into a
    host-owned event queue". *)
Definition _post_base_event (type : string) (n : nat) (st : UIInteract)
  : UIInteract := emit (Event type n) st.

(** *** Hit test *)

(** [sorted(l, key=...)] is stable: insertion before the first greater
    key, from the right. *)
Fixpoint insert_by_key {A} (key : A -> Z) (x : A) (l : list A) : list A :=
  match l with
  | [] => [x]
  | y :: l' =>
      if key x <=? key y then x :: y :: l' else y :: insert_by_key key x l'
  end.

Fixpoint sorted {A} (key : A -> Z) (l : list A) : list A :=
  match l with
  | [] => []
  | x :: l' => insert_by_key key x (sorted key l')
  end.

(** The objects behind a list of references. *)
Fixpoint get_all (st : UIInteract) (l : list nat)
  : result (list (nat * Element)) :=
  match l with
  | [] => Ok []
  | n :: l' => e ← get st n; es ← get_all st l'; Ok ((n, e) :: es)
  end.

(** [rev_child] is hit (interact.py 204 skips the others). *)
Definition hit (position : Z * Z) (rev_child : Element) : bool :=
  negb (negb (collidepoint (absolute_rect rev_child) position)
        || negb (visible (status rev_child)) || ignore_raycast rev_child).

(** What the loop returns for a child that is hit (interact.py 206-210);
    [rec c] is [self.raycast(position, c)]. *)
Definition descend (st : UIInteract) (rec : nat -> result (option nat))
    (c : nat) (rev_child : Element) : result (option nat) :=
  if (0 <? length (children rev_child))%nat then
    res ← rec c;
    match res with
    | Some r =>
        re ← get st r;
        if visible (status re) then Ok (Some r) else Ok (Some c)
    | None => Ok (Some c)
    end
  else Ok (Some c).

(** The [for] loop of UIInteract.raycast (interact.py 203-210) over the
    children, already ordered; [fall] is what follows the loop. *)
Fixpoint raycast_children (st : UIInteract) (position : Z * Z)
    (rec : nat -> result (option nat)) (fall : result (option nat))
    (l : list (nat * Element)) : result (option nat) :=
  match l with
  | [] => fall
  | (c, rev_child) :: l' =>
      if hit position rev_child then descend st rec c rev_child
      else raycast_children st position rec fall l'
  end.

(** UIInteract.raycast (interact.py 194-213); [fuel] bounds the depth of
    the calls, down into the children and up to the parents. *)
Fixpoint raycast (fuel : nat) (st : UIInteract) (position : Z * Z)
    (start_parent : option nat) (can_recurse_above : bool)
  : result (option nat) :=
  match fuel with
  | O => Timeout
  | S fuel' =>
      match tabbed_element st with
      | Some t => Ok (Some t)
      | None =>
          match start_parent with
          | None => Ok None
          | Some sp =>
              spe ← get st sp;
              if negb (visible (status spe)) then Ok None
              else if (negb (collidepoint (absolute_rect spe) position)
                       || ignore_raycast spe) && can_recurse_above
              then raycast fuel' st position (parent spe) true
              else
                cs ← get_all st (children spe);
                raycast_children st position
                  (fun c => raycast fuel' st position (Some c) false)
                  (if can_recurse_above
                   then raycast fuel' st position (parent spe) true
                   else Ok None)
                  (rev (sorted (fun c => z_index c.2) cs))
          end
      end
  end.

(** *** The per-frame state machine *)

(** The text-selection block at the head of UIInteract._logic
    (interact.py 34-62).  [text.set_cursor_index] and [set_dirty] act
    outside this state and are logged. *)
Definition text_selection (io : UIState) (st : UIInteract)
  : result UIInteract :=
  match text_select_el st, start_idxs st with
  | Some t, Some start =>
      st ← (if mouse_pressed_0 io then
              match text_click_idx io t with
              | Some end_idxs =>
                  let st := set_last_idxs st (Some end_idxs) in
                  e ← get st t;
                  if decide (_selection_end_idxs (text e) = Some end_idxs)
                  then Ok st
                  else
                    st ← set_text st t
                          (fun x => set_selection_end_idxs x (Some end_idxs));
                    Ok (invoke_callback "on_text_selection_change" t st)
              | None => Ok st
              end
            else Ok st);
      match last_idxs st with
      | Some last =>
          let select_rects := text_select_rects io t start last in
          let st :=
            if mouse_pressed_0 io then
              if tot_i start <? tot_i last
              then emit (SetCursorIndex t (tot_i last + 1)) st
              else emit (SetCursorIndex t (tot_i last)) st
            else st in
          if bool_decide (select_rects = []) then Ok st
          else
            e ← get st t;
            if decide (select_rects = selection_rects (text e)) then Ok st
            else
              st ← set_text st t
                    (fun x => set_selection_rects x select_rects);
              let st := emit (SetDirty t) st in
              Ok (invoke_callback "on_text_selection_change" t st)
      | None => Ok st
      end
  | _, _ => Ok st
  end.

(** UIInteract._text_select_start_press (interact.py 232-251). *)
Definition _text_select_start_press (io : UIState) (st : UIInteract)
    (element : nat) : result UIInteract :=
  e ← get st element;
  if negb (text_can_select (text e)) then Ok st
  else
    st ← match text_select_el st with
         | Some t =>
             st ← set_text st t (fun x => set_selection_rects x []);
             Ok (emit (SetDirty t) st)
         | None => Ok st
         end;
    let st := set_text_select_el st None in
    if bool_decide (real_text (text e) = EmptyString) then Ok st
    else
      match text_click_idx io element with
      | None => Ok st
      | Some idxs_info =>
          let st := set_text_select_el st (Some element) in
          let st := set_start_idxs st (Some idxs_info) in
          st ← set_text st element
                (fun x => set_selection_start_idxs x (Some idxs_info));
          Ok (invoke_callback "on_text_selection_change" element st)
      end.

(** UIInteract._find_scroll_hovered (interact.py 224-230); [fuel] bounds
    the calls up the parent chain. *)
Fixpoint _find_scroll_hovered (fuel : nat) (st : UIInteract) (element : nat)
  : result UIInteract :=
  match fuel with
  | O => Timeout
  | S fuel' =>
      e ← get st element;
      if scrollable e then
        st ← set_status st element (fun s => set_scroll_hovered s true);
        Ok (set_last_scroll_hovered st (Some element))
      else
        match parent e with
        | Some p => _find_scroll_hovered fuel' st p
        | None => Ok st
        end
  end.

(** The condition that ends a left press (interact.py 73). *)
Definition press_over (io : UIState) (st : UIInteract) (p : nat) : bool :=
  (negb (mouse_pressed_0 io)
   && negb (bool_decide (tabbed_element st = Some p)))
  || (bool_decide (tabbed_element st = Some p) && negb (space_pressed io)).

(** The branch "we are pressing something" (interact.py 65-98). *)
Definition left_pressed (io : UIState) (st : UIInteract) (p : nat)
  : result UIInteract :=
  let st := invoke_callback "when_pressed" p st in
  let st := _post_base_event "PRESSED" p st in
  e ← get st p;
  st ← set_status st p
        (fun s => set_hovered s (collidepoint (absolute_rect e) (mouse_pos io)));
  if press_over io st p then
    st ← set_status st p (fun s => set_pressed s false);
    let st := invoke_callbacks ["on_stop_press"; "on_click"] p st in
    let st := _post_base_event "STOP_PRESS" p st in
    let st := _post_base_event "CLICK" p st in
    e ← get st p;
    st ← (if can_select (status e) then
            let old_selected := selected (status e) in
            st ← set_status st p
                  (fun s => set_selected s (negb (selected s)));
            if old_selected then
              let st := invoke_callback "on_deselect" p st in
              let st := emit (BufferUpdate p "selected" false) st in
              Ok (_post_base_event "DESELECT" p st)
            else
              let st := invoke_callback "on_select" p st in
              let st := emit (BufferUpdate p "selected" true) st in
              Ok (_post_base_event "SELECT" p st)
          else Ok st);
    Ok (set_pressed_el st None)
  else Ok st.

(** The branch "we are pressing with right" (interact.py 100-119). *)
Definition right_pressed_logic (io : UIState) (st : UIInteract) (p : nat)
  : result UIInteract :=
  let st := invoke_callback "when_right_pressed" p st in
  let st := _post_base_event "RIGHT_PRESSED" p st in
  e ← get st p;
  st ← set_status st p
        (fun s => set_hovered s (collidepoint (absolute_rect e) (mouse_pos io)));
  if negb (mouse_pressed_1 io) then
    st ← set_status st p (fun s => set_right_pressed s false);
    let st :=
      invoke_callbacks ["on_stop_right_press"; "on_right_click"] p st in
    let st := _post_base_event "STOP_RIGHT_PRESS" p st in
    let st := _post_base_event "RIGHT_CLICK" p st in
    Ok (set_right_pressed_el st None)
  else Ok st.

(** The hover re-evaluation (interact.py 122-142): the new
    [self.hovered_el]. *)
Definition rehover (fuel : nat) (io : UIState) (st : UIInteract)
    (last_rendered : nat) : result UIInteract :=
  lre ← get st last_rendered;
  match hovered_el st with
  | Some old =>
      st ← set_status st old (fun s => set_hovered s false);
      h ← raycast fuel st (mouse_pos io) (parent lre) true;
      let st := set_hovered_el st h in
      if decide (h = Some old) then
        set_status st old (fun s => set_hovered s true)
      else
        let st := invoke_callback "on_stop_hover" old st in
        let st := _post_base_event "STOP_HOVER" old st in
        match last_scroll_hovered st with
        | Some s =>
            st ← set_status st s (fun x => set_scroll_hovered x false);
            Ok (set_last_scroll_hovered st None)
        | None => Ok st
        end
  | None =>
      h ← raycast fuel st (mouse_pos io) (parent lre) true;
      Ok (set_hovered_el st h)
  end.

(** "If was not hovered set hovered and fire on_start_hover"
    (interact.py 147-153). *)
Definition start_hover (fuel : nat) (st : UIInteract) (h : nat)
  : result UIInteract :=
  he ← get st h;
  if negb (hovered (status he)) then
    st ← set_status st h (fun s => set_hovered s true);
    let st := invoke_callback "on_start_hover" h st in
    let st := _post_base_event "START_HOVER" h st in
    _find_scroll_hovered fuel st h
  else Ok st.

(** "We are actually hovering something" (interact.py 144-181). *)
Definition hovering (fuel : nat) (io : UIState) (st : UIInteract) (h : nat)
  : result UIInteract :=
  st ← start_hover fuel st h;
  let st := invoke_callback "when_hovered" h st in
  let st := _post_base_event "HOVERED" h st in
  he ← get st h;
  if mouse_pressed_0 io
     || (space_pressed io && bool_decide (tabbed_element st = Some h))
  then
    if negb (pressed (status he)) then
      st ← set_status st h (fun s => set_pressed s true);
      let st := invoke_callback "on_start_press" h st in
      let st := _post_base_event "START_PRESS" h st in
      let st := set_pressed_el st (Some h) in
      _text_select_start_press io st h
    else Ok st
  else if mouse_pressed_1 io then
    if negb (right_pressed (status he)) then
      st ← set_status st h (fun s => set_right_pressed s true);
      let st := invoke_callback "on_start_right_press" h st in
      let st := _post_base_event "START_RIGHT_PRESS" h st in
      Ok (set_right_pressed_el st (Some h))
    else Ok st
  else Ok st.

(** UIInteract._logic (interact.py 29-181) for the frame [io].  The last
    block of the method (183-192) only sets the mouse cursor and is left
    out. *)
Definition _logic (fuel : nat) (io : UIState) (st : UIInteract)
  : result UIInteract :=
  match _last_rendered st with
  | None => Ok st
  | Some last_rendered =>
      st ← text_selection io st;
      match pressed_el st with
      | Some p => left_pressed io st p
      | None =>
          match right_pressed_el st with
          | Some p => right_pressed_logic io st p
          | None =>
              st ← rehover fuel io st last_rendered;
              match hovered_el st with
              | Some h => hovering fuel io st h
              | None => Ok st
              end
          end
      end
  end.

(** A sequence of frames. *)
Definition run (fuel : nat) (frames : list UIState) (st : UIInteract)
  : result UIInteract :=
  for_each (fun st io => _logic fuel io st) frames st.

(** *** The hit test in the words of the specification *)

Definition children_of (st : UIInteract) (c : nat) : list nat :=
  default [] (children <$> elements st !! c).

Definition z_of (st : UIInteract) (c : nat) : Z :=
  default 0 (z_index <$> elements st !! c).

(** The absolute rectangle of [c] contains the position, [c] is visible
    and does not have the ignore-raycast flag. *)
Definition qualifies (st : UIInteract) (position : Z * Z) (c : nat) : Prop :=
  exists e, elements st !! c = Some e
    /\ collidepoint (absolute_rect e) position = true
    /\ visible (status e) = true /\ ignore_raycast e = false.

(** [x] is a first qualifying child of the container [c] in descending
    z-index order. *)
Definition frontmost (st : UIInteract) (position : Z * Z) (c x : nat)
  : Prop :=
  x ∈ children_of st c /\ qualifies st position x
  /\ forall y, y ∈ children_of st c -> qualifies st position y ->
       z_of st y <= z_of st x.

(** The search of the container [c]: nothing when no child qualifies;
    otherwise the search recurses into a first qualifying child and
    returns what it finds there, or the child itself when nothing
    qualifies below it. *)
Inductive hit_test (st : UIInteract) (position : Z * Z)
  : nat -> option nat -> Prop :=
| hit_none c :
    (forall x, x ∈ children_of st c -> ~ qualifies st position x) ->
    hit_test st position c None
| hit_child c x :
    frontmost st position c x -> hit_test st position x None ->
    hit_test st position c (Some x)
| hit_deeper c x r :
    frontmost st position c x -> hit_test st position x (Some r) ->
    hit_test st position c (Some r).

(** The children of every element are live and of smaller [rank]: the
    [children] lists form a forest. *)
Definition forest (st : UIInteract) (rank : nat -> nat) : Prop :=
  map_Forall (fun c e =>
    Forall (fun x => is_Some (elements st !! x) /\ (rank x < rank c)%nat)
      (children e)) (elements st).

#[global] Instance forest_dec st rank : Decision (forest st rank).
Proof. unfold forest. apply _. Defined.

(** *** Test scenes *)

Definition plain_status : UIStatus :=
  mkStatus true false false false false true false.

Definition no_text : UIText := mkText false EmptyString None None [].

Definition box (p : option nat) (cs : list nat) (r : Rect) (z : Z)
  : Element := mkElement p cs r z false false plain_status no_text.

(** A root (0) with a container (1) that holds two overlapping siblings:
    2 with z-index 0 and 3 with z-index 1; 3 holds a small child 4. *)
Definition overlap_scene : UIInteract :=
  mkInteract
    (<[0%nat := box None [1%nat] (mkRect 0 0 800 600) 0]>
    (<[1%nat := box (Some 0%nat) [2; 3]%nat (mkRect 100 100 400 300) 0]>
    (<[2%nat := box (Some 1%nat) [] (mkRect 120 120 200 100) 0]>
    (<[3%nat := box (Some 1%nat) [4%nat] (mkRect 150 150 200 100) 1]>
    (<[4%nat := box (Some 3%nat) [] (mkRect 300 200 20 20) 0]> ∅)))))
    (Some 4%nat) None None None None None None None None [].

Definition overlap_rank (x : nat) : nat :=
  match x with 0 => 3 | 1 => 2 | 3 => 1 | _ => 0 end%nat.

(** *** Press episodes *)

Definition press_names : list string :=
  ["on_start_press"; "on_stop_press"; "on_click"; "on_select";
   "on_deselect"].

Definition press_types : list string :=
  ["START_PRESS"; "STOP_PRESS"; "CLICK"; "SELECT"; "DESELECT"].

(** The callbacks and events of the left press. *)
Definition press_related (x : emission) : bool :=
  match x with
  | Callback name _ => bool_decide (name ∈ press_names)
  | Event type _ => bool_decide (type ∈ press_types)
  | _ => false
  end.

(** The two channels of the log: the callbacks invoked and the events
    posted, each in order. *)
Definition callbacks (l : list emission) : list (string * nat) :=
  omap (fun x => match x with
                 | Callback name el => Some (name, el)
                 | _ => None
                 end) l.

Definition events (l : list emission) : list (string * nat) :=
  omap (fun x => match x with
                 | Event type el => Some (type, el)
                 | _ => None
                 end) l.

(** What hover, press and text selection leave alone in an element, and
    the flags of the press. *)
Definition core (e : Element)
  : option nat * list nat * Rect * Z * bool * bool * bool * bool :=
  (parent e, children e, absolute_rect e, z_index e, ignore_raycast e,
   scrollable e, visible (status e), can_select (status e)).

Definition flags (e : Element) : bool * bool * bool :=
  (pressed (status e), right_pressed (status e), selected (status e)).

(** [st'] comes after [st]: the same objects with the same [core], the
    log extended, and [out] the press-related part of the extension. *)
Record evolves (out : list emission) (st st' : UIInteract) : Prop :=
  mkEvolves {
  ev_tabbed : tabbed_element st' = tabbed_element st;
  ev_last : _last_rendered st' = _last_rendered st;
  ev_core : forall x, core <$> elements st' !! x = core <$> elements st !! x;
  ev_log : exists new, log st' = log st ++ new
                       /\ filter (fun x => press_related x = true) new = out
}.

(** [evolves] without a press-related emission and without a change of
    the press state. *)
Record quiet (st st' : UIInteract) : Prop := mkQuiet {
  q_evolves : evolves [] st st';
  q_pressed_el : pressed_el st' = pressed_el st;
  q_right_pressed_el : right_pressed_el st' = right_pressed_el st;
  q_flags : forall x, flags <$> elements st' !! x = flags <$> elements st !! x
}.

(** A reference held by the state machine is live. *)
Definition live (st : UIInteract) (o : option nat) : Prop :=
  match o with
  | Some x => is_Some (elements st !! x)
  | None => True
  end.

#[global] Instance live_dec st o : Decision (live st o).
Proof. destruct o; cbn; apply _. Defined.

Definition live_refs (st : UIInteract) : Prop :=
  live st (hovered_el st) /\ live st (last_scroll_hovered st)
  /\ live st (text_select_el st).

(** The parents are live and of smaller [depth], which [fuel] exceeds. *)
Definition rooted (st : UIInteract) (depth : nat -> nat) (fuel : nat)
  : Prop :=
  map_Forall (fun x e =>
    (depth x < fuel)%nat
    /\ match parent e with
       | Some p => is_Some (elements st !! p) /\ (depth p < depth x)%nat
       | None => True
       end) (elements st).

#[global] Instance rooted_dec st depth fuel : Decision (rooted st depth fuel).
Proof.
  unfold rooted. apply map_Forall_dec. intros x e.
  destruct (parent e); apply _.
Defined.

(** What the start of a left press on [h] emits, and what its end emits:
    stop and click, then select or deselect when the element is
    select-capable. *)
Definition press_start (h : nat) : list emission :=
  [Callback "on_start_press" h; Event "START_PRESS" h].

Definition press_stop (p : nat) : list emission :=
  [Callback "on_stop_press" p; Callback "on_click" p;
   Event "STOP_PRESS" p; Event "CLICK" p].

Inductive press_toggle (p : nat) : list emission -> Prop :=
| toggle_none : press_toggle p []
| toggle_select :
    press_toggle p [Callback "on_select" p; Event "SELECT" p]
| toggle_deselect :
    press_toggle p [Callback "on_deselect" p; Event "DESELECT" p].

(** The press-related emissions of a run that starts with no press in
    progress: whole presses one after the other, each the start on an
    element followed by stop, click and toggle on the same element, and at
    the end possibly the start of the press that is in progress. *)
Inductive press_trace : option nat -> list emission -> Prop :=
| trace_idle : press_trace None []
| trace_start l h :
    press_trace None l -> press_trace (Some h) (l ++ press_start h)
| trace_stop l p tail :
    press_trace (Some p) l -> press_toggle p tail ->
    press_trace None (l ++ press_stop p ++ tail).

(** One frame, seen from the left press: nothing press-related happens
    and the press state stays, or a press starts, or the press in progress
    ends. *)
Definition frame_step (st st' : UIInteract) : Prop :=
  match pressed_el st with
  | None =>
      (evolves [] st st' /\ pressed_el st' = None)
      \/ (exists h, evolves (press_start h) st st' /\ pressed_el st' = Some h)
  | Some p =>
      (evolves [] st st' /\ pressed_el st' = Some p)
      \/ (exists tail, press_toggle p tail
            /\ evolves (press_stop p ++ tail) st st'
            /\ pressed_el st' = None)
  end.

Definition refs_live (st : UIInteract) : Prop :=
  live_refs st /\ live st (pressed_el st) /\ live st (right_pressed_el st).

(** The scene is well formed: a forest of children of height below
    [bound], parent chains of a depth that leaves [fuel] for a hit test
    from any element, and live references. *)
Definition well_formed (st : UIInteract) (rank depth : nat -> nat)
    (bound fuel : nat) : Prop :=
  forest st rank /\ rooted st depth fuel
  /\ map_Forall (fun x _ => (rank x < bound)%nat
                            /\ (depth x + bound < fuel)%nat) (elements st)
  /\ live_refs st
  /\ live st (pressed_el st) /\ live st (right_pressed_el st)
  /\ live st (_last_rendered st) /\ live st (tabbed_element st).

#[global] Instance well_formed_dec st rank depth bound fuel :
  Decision (well_formed st rank depth bound fuel).
Proof. unfold well_formed, live_refs. apply _. Defined.

(** Frames for [overlap_scene]: the pointer at (160, 160) with the left
    button down, and with no button down. *)
Definition overlap_depth (x : nat) : nat :=
  match x with 0 => 0 | 1 => 1 | 4 => 3 | _ => 2 end%nat.

Definition frame_at (position : Z * Z) (left : bool) : UIState :=
  mkUIState position (left, false, false) false
    (fun _ => None) (fun _ _ _ => []).

End Interact.


(** ** Keyboard-navigation queries (element.py 318-348) *)

Module Navigation.

(** The attributes the queries read: [children], [status.can_navigate]
    and [status.visible]. *)
Record Element := mkElement {
  children : list nat;
  status_can_navigate : bool;
  status_visible : bool
}.

Definition get (m : gmap nat Element) (n : nat) : result Element :=
  match m !! n with
  | Some e => Ok e
  | None => Raise ReferenceError
  end.

(** Element.can_navigate (element.py 318-320). *)
Definition can_navigate (e : Element) : bool :=
  status_can_navigate e && status_visible e.

(** The loop of Element.find_navigable_child (element.py 326-332);
    [rec c] is [child.find_navigable_child()]. *)
Fixpoint find_loop (m : gmap nat Element)
    (rec : nat -> result (option nat)) (l : list nat)
  : result (option nat) :=
  match l with
  | [] => Ok None
  | child :: l' =>
      ce ← get m child;
      if can_navigate ce then Ok (Some child)
      else
        their_child ← rec child;
        match their_child with
        | Some t => Ok (Some t)
        | None => find_loop m rec l'
        end
  end.

(** Element.find_navigable_child (element.py 322-333); [fuel] bounds the
    depth of the calls into the children. *)
Fixpoint find_navigable_child (fuel : nat) (m : gmap nat Element) (n : nat)
  : result (option nat) :=
  match fuel with
  | O => Timeout
  | S fuel' =>
      e ← get m n;
      if negb (can_navigate e) then Ok None
      else find_loop m (find_navigable_child fuel' m) (children e)
  end.

(** Element.has_navigable_child (element.py 335-340). *)
Fixpoint has_loop (m : gmap nat Element) (l : list nat) : result bool :=
  match l with
  | [] => Ok false
  | child :: l' =>
      ce ← get m child;
      if can_navigate ce then Ok true else has_loop m l'
  end.

Definition has_navigable_child (m : gmap nat Element) (n : nat)
  : result bool :=
  e ← get m n; has_loop m (children e).

(** Element.navigable_children_count (element.py 342-348). *)
Definition navigable_children_count (m : gmap nat Element) (n : nat)
  : result Z :=
  e ← get m n;
  for_each (fun count child =>
              ce ← get m child;
              Ok (if can_navigate ce then count + 1 else count))
    (children e) 0.

(** [c.can_navigate()] for the object [c] of the heap. *)
Definition navigable (m : gmap nat Element) (c : nat) : bool :=
  match m !! c with
  | Some ce => can_navigate ce
  | None => false
  end.

(** A navigable container (0) with a hidden group (1) that holds a
    navigable button (3), followed by a navigable button (2). *)
Definition hidden_group_scene : gmap nat Element :=
  <[0%nat := mkElement [1; 2]%nat true true]>
  (<[1%nat := mkElement [3%nat] true false]>
  (<[2%nat := mkElement [] true true]>
  (<[3%nat := mkElement [] true true]> ∅))).

End Navigation.

(** ** Resizers (element.py 385-397) *)

Module Resizers.

(** The attributes Element.remove_resizers reads and writes: the tuple
    [resizers], [resize_max] (a pair of numbers or [None]) and the dict
    [_resizers_elements] from resizer name to resizer element, in
    insertion order. *)
Record Element := mkElement {
  resizers : list string;
  resize_max : option (Z * Z);
  _resizers_elements : list (string * nat)
}.

(** [if r in l: l.remove(r)] on a list of strings. *)
Fixpoint remove_first (r : string) (l : list string) : list string :=
  match l with
  | [] => []
  | x :: l' => if String.eqb x r then l' else x :: remove_first r l'
  end.

(** [name in old_resizers], where [old_resizers] is [self.resize_max]: a
    string is equal to neither number of the pair, and [None] is not
    iterable. *)
Definition name_in_resize_max (name : string) (old : option (Z * Z))
  : result bool :=
  match old with
  | None => Raise TypeError
  | Some _ => Ok false
  end.

(** [del d[name]]. *)
Definition dict_del (name : string) (d : list (string * nat))
  : list (string * nat) :=
  filter (fun kv => kv.1 <> name) d.

(** Element.remove_resizers (element.py 385-397): the element afterwards
    and the resizer elements [destroy] was called on, in order.  The loop
    runs over a copy of the items. *)
Definition remove_resizers (e : Element) (names : list string)
  : result (Element * list nat) :=
  let old_resizers := resize_max e in
  let resizers_list :=
    fold_left (fun l r => if bool_decide (r ∈ l) then remove_first r l else l)
      names (resizers e) in
  let e := mkElement resizers_list (resize_max e) (_resizers_elements e) in
  for_each (fun (s : Element * list nat) (item : string * nat) =>
              b ← name_in_resize_max item.1 old_resizers;
              if b && negb (bool_decide (item.1 ∈ resizers s.1)) then
                Ok (mkElement (resizers s.1) (resize_max s.1)
                      (dict_del item.1 (_resizers_elements s.1)),
                    s.2 ++ [item.2])
              else Ok s)
    (_resizers_elements e) (e, []).

End Resizers.

(** ** Scrolling a stack (stacks.py 53-61) *)

Module Scroll.
Import Layout.

(** UIStack.set_scroll (stacks.py 53-61).  The positions of the children
    are outside the layout state. *)
Definition set_scroll (st : UIStack) (pixels_x pixels_y : Z) : UIStack :=
  let st :=
    set_scroll_offset st
      (Scene.clamp pixels_x 0 (total_x st), (scroll_offset st).2) in
  let st :=
    set_scroll_offset st
      ((scroll_offset st).1, Scene.clamp pixels_y 0 (total_y st)) in
  let st := vscrollbar_refresh st (total_y st - content_y st) in
  hscrollbar_refresh st (total_x st - content_x st).

End Scroll.

(** ** Text helpers (common.py) *)

Module Common.

(** Assigning a position attribute of a [pygame.Rect]: the rectangle
    moves, its size stays. *)
Definition set_center (r : Rect) (p : Z * Z) : Rect :=
  mkRect (p.1 - Z.quot (rw r) 2) (p.2 - Z.quot (rh r) 2) (rw r) (rh r).

Definition set_topleft (r : Rect) (p : Z * Z) : Rect :=
  mkRect p.1 p.2 (rw r) (rh r).

Definition set_topright (r : Rect) (p : Z * Z) : Rect :=
  mkRect (p.1 - rw r) p.2 (rw r) (rh r).

Definition set_bottomleft (r : Rect) (p : Z * Z) : Rect :=
  mkRect p.1 (p.2 - rh r) (rw r) (rh r).

Definition set_bottomright (r : Rect) (p : Z * Z) : Rect :=
  mkRect (p.1 - rw r) (p.2 - rh r) (rw r) (rh r).

Definition set_midleft (r : Rect) (p : Z * Z) : Rect :=
  mkRect p.1 (p.2 - Z.quot (rh r) 2) (rw r) (rh r).

Definition set_midright (r : Rect) (p : Z * Z) : Rect :=
  mkRect (p.1 - rw r) (p.2 - Z.quot (rh r) 2) (rw r) (rh r).

Definition set_midtop (r : Rect) (p : Z * Z) : Rect :=
  mkRect (p.1 - Z.quot (rw r) 2) p.2 (rw r) (rh r).

Definition set_midbottom (r : Rect) (p : Z * Z) : Rect :=
  mkRect (p.1 - Z.quot (rw r) 2) (p.2 - rh r) (rw r) (rh r).

(** common.align_text (common.py 35-59). *)
Definition align_text (t_rect el_rect : Rect) (padding y_padding : Z)
    (align : string) : result Rect :=
  if String.eqb align "center" then
    Ok (set_center t_rect (rect_centerx el_rect, rect_centery el_rect))
  else if String.eqb align "topleft" then
    Ok (set_topleft t_rect
          (rect_left el_rect + padding, rect_top el_rect + y_padding))
  else if String.eqb align "topright" then
    Ok (set_topright t_rect
          (rect_right el_rect - padding, rect_top el_rect + y_padding))
  else if String.eqb align "bottomleft" then
    Ok (set_bottomleft t_rect
          (rect_left el_rect + padding, rect_bottom el_rect - y_padding))
  else if String.eqb align "bottomright" then
    Ok (set_bottomright t_rect
          (rect_right el_rect - padding, rect_bottom el_rect - y_padding))
  else if String.eqb align "midleft" || String.eqb align "left" then
    Ok (set_midleft t_rect
          (rect_left el_rect + padding, rect_centery el_rect))
  else if String.eqb align "midright" || String.eqb align "right" then
    Ok (set_midright t_rect
          (rect_right el_rect - padding, rect_centery el_rect))
  else if String.eqb align "midtop" || String.eqb align "top" then
    Ok (set_midtop t_rect
          (rect_centerx el_rect, rect_top el_rect + y_padding))
  else if String.eqb align "midbottom" || String.eqb align "bottom" then
    Ok (set_midbottom t_rect
          (rect_centerx el_rect, rect_bottom el_rect - y_padding))
  else Raise (UIError ("Unsupported text align: '" ++ align ++ "'")).

(** The alignments [align_text] supports. *)
Definition text_aligns : list string :=
  ["center"; "topleft"; "topright"; "bottomleft"; "bottomright";
   "midleft"; "left"; "midright"; "right"; "midtop"; "top";
   "midbottom"; "bottom"].

(** [inner] lies within [outer]. *)
Definition rect_within (inner outer : Rect) : Prop :=
  rect_left outer <= rect_left inner
  /\ rect_right inner <= rect_right outer
  /\ rect_top outer <= rect_top inner
  /\ rect_bottom inner <= rect_bottom outer.

(** The alignment of a font ([pygame.FONT_LEFT], [FONT_CENTER],
    [FONT_RIGHT]). *)
Inductive FontAlign := FONT_LEFT | FONT_CENTER | FONT_RIGHT.

(** What the text helpers ask of a [pygame.Font]: [font.size(c)[0]] for a
    character, [font.get_height()], which is positive, and
    [font.align]. *)
Record Font := mkFont {
  char_width : Ascii.ascii -> Z;
  get_height : positive;
  font_align : FontAlign
}.

(** common.line_size_x (common.py 98-102). *)
Fixpoint line_size_x (font : Font) (line : string) : Z :=
  match line with
  | EmptyString => 0
  | String c line' => char_width font c + line_size_x font line'
  end.

(** The [for ... else] loop of text_click_idx (common.py 125-132): the
    index of the first character whose right edge reaches [x], [None]
    when the loop ends without [break]. *)
Fixpoint click_loop (font : Font) (start_x x tot_w : Z) (i : nat)
    (line : string) : option nat :=
  match line with
  | EmptyString => None
  | String char line' =>
      let tot_w := tot_w + char_width font char in
      if x <=? tot_w + start_x then Some i
      else click_loop font start_x x tot_w (S i) line'
  end.

(** common.text_click_idx (common.py 105-138), on integer coordinates;
    [None] is the bare [return]. *)
Definition text_click_idx (lines : list string) (font : Font) (pos : Z * Z)
    (rect : Rect) (absolute_topleft : Z * Z)
  : option (Z * Z * Z * string) :=
  if (length lines <=? 0)%nat then None
  else
    let rel_pos := (pos.1 - absolute_topleft.1, pos.2 - absolute_topleft.2) in
    if negb (collidepoint rect rel_pos) then None
    else
      let line_idx := (rel_pos.2 - rect_top rect) / Zpos (get_height font) in
      if (line_idx <? 0) || (Z.of_nat (length lines) <=? line_idx) then None
      else
        match lines !! Z.to_nat line_idx with
        | None => None
        | Some line =>
            if bool_decide (line = EmptyString) then None
            else
              let start_x :=
                match font_align font with
                | FONT_CENTER =>
                    rect_left rect + rw rect / 2 - line_size_x font line / 2
                | FONT_RIGHT =>
                    rect_left rect + rw rect - line_size_x font line
                | FONT_LEFT => rect_left rect
                end in
              if rel_pos.1 <=? start_x then None
              else
                match click_loop font start_x rel_pos.1 0 0 line with
                | None => None
                | Some char_i =>
                    let tot_i :=
                      fold_left
                        (fun tot_i l => tot_i + Z.of_nat (String.length l))
                        (take (Z.to_nat line_idx) lines) 0 in
                    let tot_i := tot_i + Z.of_nat char_i in
                    Some (Z.of_nat char_i, line_idx, tot_i,
                          String.concat "" lines)
                end
        end.

(** [s[a:b]] for indices that are not negative. *)
Definition str_slice (a b : nat) (s : string) : string :=
  String.substring a (b - a) s.

(** ["\n"]. *)
Definition newline : string := String (Ascii.ascii_of_nat 10) EmptyString.

(** [" " * n]. *)
Fixpoint spaces (n : nat) : string :=
  match n with
  | O => EmptyString
  | S n' => String (Ascii.ascii_of_nat 32) (spaces n')
  end.

(** common.text_select_copy (common.py 193-208): the text handed to the
    clipboard, [None] where a line index is out of range (IndexError).
    The indices are the ones [text_click_idx] returns, which are not
    negative. *)
Definition text_select_copy (start_li start_ci end_li end_ci : nat)
    (lines : list string) : option string :=
  let '(start_li, start_ci, end_li, end_ci) :=
    if (end_li <? start_li)%nat then (end_li, end_ci, start_li, start_ci)
    else (start_li, start_ci, end_li, end_ci) in
  if (start_li =? end_li)%nat then
    let '(start_ci, end_ci) :=
      if (end_ci <? start_ci)%nat then (end_ci, start_ci)
      else (start_ci, end_ci) in
    line ← lines !! start_li;
    Some (str_slice start_ci (end_ci + 1) line)
  else
    let mid_lines := take (end_li - (start_li + 1)) (drop (start_li + 1) lines) in
    start_line ← lines !! start_li;
    let copy_str :=
      String.append (spaces start_ci)
        (String.append
           (str_slice start_ci (String.length start_line) start_line)
           newline) in
    let copy_str :=
      fold_left
        (fun acc line =>
           String.append acc (String.append line newline))
        mid_lines copy_str in
    end_line ← lines !! end_li;
    Some (String.append copy_str (str_slice 0 end_ci end_line)).

(** A font whose characters are all 10 wide, 20 high, aligned left. *)
Definition mono_font : Font := mkFont (fun _ => 10) 20 FONT_LEFT.

End Common.

(** ** Facts about the outcome monad *)

Module PyFacts.

Lemma bind_Ok {A B} (r : result A) (f : A -> result B) a :
  r = Ok a -> (r ≫= f) = f a.
Proof. intros ->. reflexivity. Qed.

Lemma bind_inv {A B} (r : result A) (f : A -> result B) b :
  (r ≫= f) = Ok b -> exists a, r = Ok a /\ f a = Ok b.
Proof. destruct r; cbn; intros H; try discriminate. eauto. Qed.

End PyFacts.
Module LayoutFacts.
Import Layout.

Ltac break_if :=
  match goal with
  | |- context [if ?b then _ else _] => destruct b
  end.

Lemma content_y_put_child st i c e :
  content_y (put_child st i c e) = content_y st.
Proof. destruct c; reflexivity. Qed.

Lemma content_y_vscrollbar_refresh st s :
  content_y (vscrollbar_refresh st s) = content_y st.
Proof. unfold vscrollbar_refresh. repeat break_if; reflexivity. Qed.

Lemma content_y_hscrollbar_refresh st s :
  content_y (hscrollbar_refresh st s) = content_y st.
Proof. unfold hscrollbar_refresh. repeat break_if; reflexivity. Qed.

Lemma content_y_reserve_scrollbars st :
  content_y (reserve_scrollbars st).1.1 = content_y st.
Proof.
  unfold reserve_scrollbars.
  repeat break_if; cbn [fst snd];
    repeat (rewrite content_y_hscrollbar_refresh
            || rewrite content_y_vscrollbar_refresh);
    reflexivity.
Qed.

Lemma content_y_VStack_distribute st fills o s :
  content_y (VStack_distribute st fills o s) = content_y st.
Proof.
  unfold VStack_distribute. break_if; [|reflexivity].
  generalize (VStack_space_for_each_child st o s (length fills)) as share.
  intros share. revert st.
  induction fills as [|i l IH]; intros st; [reflexivity|].
  cbn [fold_left]. rewrite IH. unfold VStack_fill_step.
  destruct (children st !! i); [apply content_y_put_child | reflexivity].
Qed.

Lemma content_y_VStack_position sx sp l acc :
  content_y (fold_left (VStack_position_step sx sp) l acc).1.1
  = content_y acc.1.1.
Proof.
  revert acc. induction l as [|ic l IH]; intros acc; [reflexivity|].
  cbn [fold_left]. rewrite IH. destruct acc as [[st io] cy].
  unfold VStack_position_step. break_if; cbn [fst];
    [reflexivity | apply content_y_put_child].
Qed.

Lemma stack_set_size_norefresh f st s0 s1 :
  exists st', stack_set_size f st s0 s1 false = Some st'
              /\ content_y st' = content_y st.
Proof.
  unfold stack_set_size. break_if; eauto.
Qed.

Lemma VStack_place_content_y f st ty act sx sy :
  exists st', VStack_place f st ty act sx sy = Some st'
              /\ content_y st' = content_y st.
Proof.
  unfold VStack_place.
  destruct (stack_set_size_norefresh f st (rw (self_rect st))
              (if (anchor (self_style st) =? "max_spacing")%string
                  && (ty <? rh (self_rect st) - sy)
               then rh (self_rect st) - sy else ty)) as (st1 & -> & H1).
  repeat break_if; cbn [mbind option_bind]; eexists; (split; [reflexivity|]);
    rewrite content_y_VStack_position; cbn [fst]; auto.
Qed.


Lemma VStack_refresh_content_y fuel st :
  _running st = true -> _done st = true ->
  shrink_x (self_style st) = false -> grow_x (self_style st) = false ->
  exists st', VStack_refresh_stack (S fuel) st = Some st'
              /\ content_y st' = VStack_resolved_content_y st.
Proof.
  intros Hr Hd Hs Hg.
  cbn [VStack_refresh_stack]. rewrite Hr, Hd, Hs, Hg.
  rewrite !andb_false_r. cbn [negb orb mbind option_bind].
  fold (VStack_resolved_content_y st).
  set (cy := VStack_resolved_content_y st).
  set (tx := m_total_x (VStack_measure st) + padding (self_style st) * 2).
  pose proof (content_y_reserve_scrollbars (set_content st tx cy)) as Hres.
  destruct (reserve_scrollbars (set_content st tx cy)) as [[st1 sx] sy].
  cbn [fst snd] in Hres.
  match goal with
  | |- context [VStack_place ?f ?s ?a ?b ?c ?d] =>
      destruct (VStack_place_content_y f s a b c d) as (st' & -> & H')
  end.
  exists st'. split; [reflexivity|].
  rewrite H', content_y_VStack_distribute. cbn [content_y set_total].
  rewrite Hres. reflexivity.
Qed.


Lemma VStack_measure_users st (users : list Element) :
  Forall fixed_child users ->
  forall i acc, (0 < i)%nat ->
    let m := fold_left (VStack_measure_step st)
               (enumerate_from i (map User users)) acc in
    m_total_y m = m_total_y acc + sum_heights users
                  + spacing (self_style st) * Z.of_nat (length users)
    /\ m_fill m = m_fill acc.
Proof.
  induction 1 as [|e l (Hv & Hi & Hf) _ IH]; intros i acc Hpos.
  - cbn. split; [lia | reflexivity].
  - cbn [map enumerate_from fold_left].
    specialize (IH (S i) (VStack_measure_step st acc (i, User e))
                  ltac:(lia)).
    cbn zeta in IH. destruct IH as [IHy IHf].
    cbn zeta. rewrite IHy, IHf.
    unfold VStack_measure_step. cbn [fst snd get_child].
    rewrite Hv, Hi, Hf. cbn [negb orb].
    destruct i as [|i]; [lia|]. cbn [Nat.ltb Nat.leb].
    cbn [m_total_y m_fill]. unfold sum_heights. cbn [map fold_right length].
    split; [lia | reflexivity].
Qed.

(** For every stack built by the constructor, the measure pass adds the
    spacing once per child, not once per gap. *)
Lemma VStack_content_y_constructed fuel st users :
  _running st = true -> _done st = true ->
  shrink_x (self_style st) = false -> grow_x (self_style st) = false ->
  constructed st users -> Forall fixed_child users ->
  exists st', VStack_refresh_stack (S fuel) st = Some st'
    /\ content_y st' = sum_heights users
                       + spacing (self_style st) * Z.of_nat (length users)
                       + 2 * padding (self_style st).
Proof.
  intros Hr Hd Hs Hg (Hc & Hv & Hh) Hu.
  destruct (VStack_refresh_content_y fuel st Hr Hd Hs Hg) as (st' & E & Hy).
  exists st'. split; [exact E|]. rewrite Hy.
  unfold VStack_resolved_content_y, VStack_measure, enumerate.
  rewrite Hc. cbn [enumerate_from fold_left].
  assert (E1 : forall acc, VStack_measure_step st acc (0%nat, VScroll) = acc).
  { intros acc. unfold VStack_measure_step. cbn [fst snd get_child].
    rewrite Hv. reflexivity. }
  assert (E2 : forall acc, VStack_measure_step st acc (1%nat, HScroll) = acc).
  { intros acc. unfold VStack_measure_step. cbn [fst snd get_child].
    rewrite Hh. reflexivity. }
  rewrite E1, E2.
  destruct (VStack_measure_users st users Hu 2
              (mkMeasure 0 (padding (self_style st)) 0 []) ltac:(lia))
    as [Ey Ef].
  cbn zeta in Ey, Ef. rewrite Ey, Ef. cbn [m_total_y m_fill length].
  cbn [Nat.ltb Nat.leb andb]. lia.
Qed.
(** C1, layout sum invariant, on the stack the constructor builds with one
    fixed child of height 10, spacing 5 and padding 0 (no grow, no shrink):
    one layout pass sets [content_y] to 15, where the sum of the heights
    plus [s * (N - 1)] plus [2 * p] is 10.  The measure loop tests [i > 0]
    on the index in [self.children]; the two scrollbars come first. *)
Theorem VStack_layout_sum_one_child :
  content_y <$> VStack_refresh_stack 1 one_child_vstack = Some 15
  /\ sum_heights [fixed 50 10]
     + spacing (self_style one_child_vstack) * (1 - 1)
     + 2 * padding (self_style one_child_vstack) = 10.
Proof. split; vm_compute; reflexivity. Qed.

(** The scenario of the specification: an empty 200x200 vertical stack with
    padding 7 has content size (14, 14). *)
Example VStack_empty_content :
  let st := mkStack (mkRect 0 0 200 200)
              (mkStackStyle 5 7 true true false false false false false
                 false "middle" "middle" 10 false)
              [VScroll; HScroll] 0 0 0 0 (0, 0) scrollbar0 scrollbar0
              true true in
  (fun st' => (content_x st', content_y st', self_rect st'))
    <$> VStack_refresh_stack 1 st = Some (14, 14, mkRect 0 0 200 200).
Proof. vm_compute. reflexivity. Qed.

(** The VStack share is never negative (stacks.py 159-160). *)
Lemma VStack_space_for_each_child_nonneg st old_total_y scroll_y n :
  (0 <= VStack_space_for_each_child st old_total_y scroll_y n)%Q.
Proof.
  unfold VStack_space_for_each_child, py_truediv.
  set (a := rh (self_rect st) - old_total_y - scroll_y
            - spacing (self_style st) * (Z.of_nat n - 1)).
  assert (Ha : 0 <= (if a <? 0 then 0 else a)) by (destruct (Z.ltb_spec a 0); lia).
  apply Qmult_le_0_compat.
  - unfold Qle. cbn. lia.
  - apply Qinv_le_0_compat. unfold Qle. cbn. lia.
Qed.

(** C8, fill distribution, on a 100-wide HStack holding a fixed child of
    width 300 and one fill child: the share handed to [set_size] is -200;
    HStack has no clamp (stacks.py 312-315), VStack has one (159-160) and
    gives 0 on the transposed stack. *)
Theorem HStack_fill_share_negative :
  let st := overfull_hstack in
  let m := HStack_measure st in
  m_fill m = [3%nat]
  /\ HStack_space_for_each_child st
       (m_total_x m + padding (self_style st)) 0 (length (m_fill m))
     = (-200 # 1)%Q
  /\ (let st := overfull_vstack in
      let m := VStack_measure st in
      m_fill m = [3%nat]
      /\ VStack_space_for_each_child st
           (m_total_y m + padding (self_style st)) 0 (length (m_fill m))
         = (0 # 1)%Q).
Proof. vm_compute. repeat split. Qed.

(** The fill scenario of the specification: a fixed child of height 300 in
    a container of height 500 leaves 200 for the fill child. *)
Example VStack_fill_share_200 :
  let st := mkStack (mkRect 0 0 50 500) tight_style
              [VScroll; HScroll;
               User (mkElement (mkRect 0 0 20 300) false true tight_style);
               User (mkElement (mkRect 0 0 20 40) false true fill_y_style)]
              0 0 0 0 (0, 0) scrollbar0 scrollbar0 true true in
  (fun st' => children st' !! 3%nat) <$> VStack_refresh_stack 1 st
  = Some (Some (User (mkElement (mkRect 0 300 20 200) false true
                        fill_y_style))).
Proof. vm_compute. reflexivity. Qed.

(** X14: the measure pass of a vertical stack counts the spacing once per
    child.  For a stack as the constructor builds it, holding [N] visible
    children of fixed height and neither growing nor shrinking along x,
    one layout pass returns and sets [content_y] to the sum of the heights
    plus [spacing * N] plus twice the padding: one spacing more than the
    heights with [N - 1] gaps and the padding, whatever the children. *)
Theorem VStack_content_y_spacing_per_child (fuel : nat) (st : UIStack)
    (users : list Element) :
  _running st = true -> _done st = true ->
  shrink_x (self_style st) = false -> grow_x (self_style st) = false ->
  constructed st users -> Forall fixed_child users ->
  exists st', VStack_refresh_stack (S fuel) st = Some st'
    /\ content_y st' = sum_heights users
                       + spacing (self_style st) * Z.of_nat (length users)
                       + 2 * padding (self_style st)
    /\ content_y st'
       - (sum_heights users
          + spacing (self_style st) * (Z.of_nat (length users) - 1)
          + 2 * padding (self_style st))
       = spacing (self_style st).
Proof.
  intros Hr Hd Hs Hg Hc Hu.
  destruct (VStack_content_y_constructed fuel st users Hr Hd Hs Hg Hc Hu)
    as (st' & E & Hy).
  exists st'. split; [exact E|]. split; [exact Hy|]. rewrite Hy. lia.
Qed.

Lemma VStack_content_y_spacing_per_child_witness :
  exists st', VStack_refresh_stack 1 one_child_vstack = Some st'
    /\ content_y st' = 15
    /\ content_y st' - 10 = 5.
Proof.
  destruct (VStack_content_y_spacing_per_child 0 one_child_vstack
              [fixed 50 10]) as (st' & E & Hy & Hd);
    try reflexivity.
  - repeat split.
  - repeat constructor.
  - exists st'. split; [exact E|]. split; [exact Hy|exact Hd].
Defined.

End LayoutFacts.

Module CascadeFacts.
Import Cascade PyFacts.

Lemma own_attr_lookup c (obj : attrs) k :
  is_Some (obj !! k) -> own_attr c obj k = true.
Proof.
  intros H. unfold own_attr. rewrite (bool_decide_eq_true_2 _ H). reflexivity.
Qed.

Lemma set_property_own py c obj k v :
  own_attr c obj k = true -> set_property py c obj (k, v) = Ok (<[k := v]> obj).
Proof.
  intros H. unfold set_property, hasattr, setattr. cbn [fst snd].
  rewrite H. reflexivity.
Qed.

Lemma for_each_set_property py c props : forall obj,
  Forall (fun nv => is_Some (obj !! nv.1)) props ->
  for_each (set_property py c) props obj
  = Ok (fold_left (fun a nv => <[nv.1 := nv.2]> a) props obj).
Proof.
  induction props as [|[k v] props IH]; intros obj H; [reflexivity|].
  inversion H as [|? ? Hk Hrest]; subst. cbn [for_each fold_left].
  cbn [fst snd] in *.
  rewrite (bind_Ok _ _ _ (set_property_own py c obj k v
                            (own_attr_lookup c obj k Hk))).
  apply IH. eapply Forall_impl; [exact Hrest|].
  intros [k' v'] Hs. cbn [fst] in *.
  destruct (decide (k = k')) as [->|Hne].
  - rewrite lookup_insert_eq. eauto.
  - rewrite lookup_insert_ne by done. exact Hs.
Qed.

Lemma update_all_keys (props : dict pyval) : forall obj : attrs,
  Forall (fun nv => is_Some (obj !! nv.1)) props ->
  same_keys (fold_left (fun a nv => <[nv.1 := nv.2]> a) props obj) obj.
Proof.
  induction props as [|[k v] props IH]; intros obj H; [intros ?; reflexivity|].
  inversion H as [|? ? Hk Hrest]; subst. cbn [fold_left fst snd] in *.
  intros k'. etransitivity; [apply IH|].
  2: { destruct (decide (k = k')) as [->|Hne].
    + rewrite lookup_insert_eq. split; eauto.
    + rewrite lookup_insert_ne by done. reflexivity. }
  eapply Forall_impl; [exact Hrest|]. intros [k2 v2] Hs. cbn [fst] in *.
    destruct (decide (k = k2)) as [->|Hne].
    + rewrite lookup_insert_eq. eauto.
    + rewrite lookup_insert_ne by done. exact Hs.
Qed.

Lemma update_all_other (props : dict pyval) k : forall obj : attrs,
  k ∉ map fst props ->
  fold_left (fun a nv => <[nv.1 := nv.2]> a) props obj !! k = obj !! k.
Proof.
  induction props as [|[k' v'] props IH]; intros obj H; [reflexivity|].
  cbn [fold_left fst snd map] in *.
  apply not_elem_of_cons in H as [Hne Hin].
  rewrite IH by exact Hin. apply lookup_insert_ne. congruence.
Qed.

Lemma dict_get_None_keys {V} k (d : dict V) :
  dict_get k d = None -> k ∉ map fst d.
Proof.
  induction d as [|[k' v'] d IH]; cbn; intros H.
  - apply not_elem_of_nil.
  - destruct (String.eqb_spec k k'); [discriminate|].
    apply not_elem_of_cons. auto.
Qed.

Lemma update_all_lookup (props : dict pyval) k v : forall obj : attrs,
  dict_wf props -> dict_get k props = Some v ->
  fold_left (fun a nv => <[nv.1 := nv.2]> a) props obj !! k = Some v.
Proof.
  unfold dict_wf.
  induction props as [|[k' v'] props IH]; intros obj Hwf Hget; [discriminate|].
  cbn [map fst] in Hwf. apply NoDup_cons in Hwf as [Hnotin Hwf].
  cbn [dict_get] in Hget. cbn [fold_left fst snd].
  destruct (String.eqb_spec k k') as [->|Hne].
  - injection Hget as ->. rewrite update_all_other by exact Hnotin.
    apply lookup_insert_eq.
  - apply IH; assumption.
Qed.

Lemma getattr_put_eq s c a : getattr_comp (put_comp s c a) c = a.
Proof. destruct c; reflexivity. Qed.

Lemma getattr_put_ne s c c' a :
  c' <> c -> getattr_comp (put_comp s c a) c' = getattr_comp s c'.
Proof. destruct c, c'; intros H; try reflexivity; congruence. Qed.

Lemma apply_comp_ok py properties s c :
  keys_of s -> known_props properties ->
  exists s', apply_comp py properties s c = Ok s'
    /\ keys_of s'
    /\ (forall c', c' <> c -> getattr_comp s' c' = getattr_comp s c')
    /\ (forall name v, sets properties c name v ->
          getattr_comp s' c !! name = Some v)
    /\ (forall k,
          (forall props, dict_get (comp_name c) properties = Some props ->
             k ∉ map fst props) ->
          getattr_comp s' c !! k = getattr_comp s c !! k).
Proof.
  intros Hk Hp. unfold apply_comp.
  destruct (dict_get (comp_name c) properties) as [props|] eqn:E.
  - assert (Hknown : Forall (fun nv => is_Some (getattr_comp s c !! nv.1)) props).
    { eapply Forall_impl; [exact (Hp c props E)|].
      intros nv H. apply (Hk c). exact H. }
    rewrite (bind_Ok _ _ _ (for_each_set_property py c props _ Hknown)).
    eexists. split; [reflexivity|]. split; [|split; [|split]].
    + intros c'. destruct (decide (c' = c)) as [->|Hne].
      * rewrite getattr_put_eq. intros k.
        rewrite (update_all_keys props _ Hknown k). apply Hk.
      * rewrite getattr_put_ne by exact Hne. apply Hk.
    + intros c' Hne. apply getattr_put_ne; exact Hne.
    + intros name v (props' & E' & Hwf & Hget).
      rewrite E in E'. injection E' as <-.
      rewrite getattr_put_eq. apply update_all_lookup; assumption.
    + intros k Hu. rewrite getattr_put_eq. apply update_all_other.
      apply Hu. reflexivity.
  - exists s. split; [reflexivity|]. split; [exact Hk|]. split; [reflexivity|].
    split; [|reflexivity].
    intros name v (props' & E' & _). congruence.
Qed.

Lemma apply_comps_ok py properties l : forall s,
  keys_of s -> known_props properties ->
  exists s', for_each (apply_comp py properties) l s = Ok s'
    /\ keys_of s'
    /\ (forall c, c ∉ l -> getattr_comp s' c = getattr_comp s c)
    /\ (forall c name v, sets properties c name v -> c ∈ l ->
          getattr_comp s' c !! name = Some v)
    /\ (forall c k,
          (forall props, dict_get (comp_name c) properties = Some props ->
             k ∉ map fst props) ->
          getattr_comp s' c !! k = getattr_comp s c !! k).
Proof.
  induction l as [|a l IH]; intros s Hk Hp.
  - exists s. split; [reflexivity|]. split; [exact Hk|].
    split; [reflexivity|]. split; [|reflexivity].
    intros c name v _ H. inversion H.
  - destruct (apply_comp_ok py properties s a Hk Hp)
      as (s1 & E1 & Hk1 & Hf1 & Hs1 & Hu1).
    destruct (IH s1 Hk1 Hp) as (s' & E' & Hk' & Hf' & Hs' & Hu').
    exists s'. cbn [for_each]. rewrite (bind_Ok _ _ _ E1).
    split; [exact E'|]. split; [exact Hk'|]. split; [|split].
    + intros c Hc. apply not_elem_of_cons in Hc as [Hne Hc].
      rewrite Hf' by exact Hc. apply Hf1; exact Hne.
    + intros c name v Hsets Hin.
      destruct (decide (c ∈ l)) as [Hl|Hl]; [eauto|].
      apply elem_of_cons in Hin as [->|Hin]; [|contradiction].
      rewrite Hf' by exact Hl. eauto.
    + intros c k Hu. rewrite (Hu' c k Hu).
      destruct (decide (c = a)) as [->|Hne]; [exact (Hu1 k Hu)|].
      rewrite (Hf1 c Hne). reflexivity.
Qed.

Lemma build_font_inv py t t' :
  build_font py t = Ok t' ->
  exists func font_name size,
    t' = <["font" := VObj func [font_name; VInt size]]> t
    /\ int_of py (attr t "font_size") = Ok size
    /\ font_error py func font_name size = None.
Proof.
  unfold build_font, text_attr, attr. intros H.
  destruct (t !! "sysfont") as [sf|]; [|discriminate].
  cbn in H. destruct (truthy py sf) as [b| |]; [|discriminate ..].
  cbn in H. destruct (t !! "font_name") as [fname|]; [|discriminate].
  cbn in H. destruct (t !! "font_size") as [fsize|]; [|discriminate].
  cbn in H. destruct (int_of py fsize) as [size| |] eqn:Ei;
    [|discriminate ..].
  cbn in H.
  match type of H with
  | match font_error py ?f ?n ?z with _ => _ end = _ =>
      destruct (font_error py f n z) eqn:Ef; [discriminate|];
      exists f, n, z
  end.
  injection H as <-. split; [reflexivity|]. split; [exact Ei | exact Ef].
Qed.

Lemma build_font_default py (t : attrs) :
  default_font_builds py -> default_font_inputs t ->
  build_font py t
  = Ok (<["font" := VObj "SysFont" [VStr "Segoe UI"; VInt 22]]> t).
Proof.
  intros Hb (H1 & H2 & H3). unfold build_font, text_attr.
  rewrite H1, H2, H3. cbn. unfold default_font_builds in Hb. rewrite Hb.
  reflexivity.
Qed.

Lemma keys_no_build_font s : keys_of s -> text s !! "build_font" = None.
Proof.
  intros Hk. destruct (text s !! "build_font") eqn:E; [|reflexivity].
  assert (H : is_Some (fields c_text !! "build_font"))
    by (apply (Hk c_text); cbn; eauto).
  vm_compute in H. destruct H as [? H]; discriminate.
Qed.

Lemma call_build_font_keys py s :
  keys_of s ->
  call_build_font py s = (t ← build_font py (text s); Ok (set_text s t)).
Proof.
  intros Hk. unfold call_build_font.
  rewrite bool_decide_eq_false_2; [reflexivity|].
  rewrite (keys_no_build_font s Hk). apply is_Some_None.
Qed.

Lemma set_text_other s t c :
  c <> c_text -> getattr_comp (set_text s t) c = getattr_comp s c.
Proof. intros Hne. destruct c; try reflexivity; congruence. Qed.

Lemma set_bg_other s t c :
  c <> c_bg -> getattr_comp (set_bg s t) c = getattr_comp s c.
Proof. intros Hne. destruct c; try reflexivity; congruence. Qed.

Lemma set_text_font_keys s F :
  keys_of s -> keys_of (set_text s (<["font" := F]> (text s))).
Proof.
  intros Hk c k. destruct (decide (c = c_text)) as [->|Hne];
    [|rewrite set_text_other by exact Hne; apply Hk].
  cbn [getattr_comp set_text text].
  destruct (decide (k = "font")) as [->|Hne].
  - rewrite lookup_insert_eq. split; [intros _|eauto]. vm_compute. eauto.
  - rewrite lookup_insert_ne by congruence. apply (Hk c_text k).
Qed.

Lemma apply_style_properties_spec py properties s :
  keys_of s -> known_props properties ->
  exists s1, apply_style_properties py properties s
             = (t ← build_font py (text s1); Ok (set_text s1 t))
    /\ keys_of s1
    /\ (forall c name v, sets properties c name v ->
          getattr_comp s1 c !! name = Some v)
    /\ (forall c k,
          (forall props, dict_get (comp_name c) properties = Some props ->
             k ∉ map fst props) ->
          getattr_comp s1 c !! k = getattr_comp s c !! k).
Proof.
  intros Hk Hp. unfold apply_style_properties.
  destruct (apply_comps_ok py properties comp_names s Hk Hp)
    as (s1 & E1 & Hk1 & _ & Hs1 & Hu1).
  exists s1. rewrite (bind_Ok _ _ _ E1).
  split; [apply call_build_font_keys; exact Hk1|].
  split; [exact Hk1|]. split; [|exact Hu1].
  intros c name v Hsets. apply Hs1; [exact Hsets|].
  destruct c; unfold comp_names; set_solver.
Qed.

Lemma apply_style_properties_inv py properties s s' :
  keys_of s -> known_props properties ->
  apply_style_properties py properties s = Ok s' ->
  keys_of s'
  /\ forall c name v, c <> c_text -> sets properties c name v ->
       getattr_comp s' c !! name = Some v.
Proof.
  intros Hk Hp H.
  destruct (apply_style_properties_spec py properties s Hk Hp)
    as (s1 & E & Hk1 & Hs1 & _).
  rewrite E in H. apply bind_inv in H as (t & Ht & H). injection H as <-.
  apply build_font_inv in Ht as (func & fname & size & -> & _).
  split; [apply set_text_font_keys; exact Hk1|].
  intros c name v Hne Hsets. rewrite set_text_other by exact Hne. eauto.
Qed.

Lemma keeps_font_untouched properties k :
  keeps_font properties -> k ∈ font_inputs ->
  forall props, dict_get (comp_name c_text) properties = Some props ->
    k ∉ map fst props.
Proof.
  intros Hkf Hin props E Hk. specialize (Hkf props E).
  rewrite Forall_forall in Hkf.
  apply list_elem_of_fmap in Hk as (nv & -> & Hnv).
  exact (Hkf nv Hnv Hin).
Qed.

Lemma apply_style_properties_total py properties s :
  keys_of s -> known_props properties -> keeps_font properties ->
  default_font_builds py -> default_font_inputs (text s) ->
  exists s', apply_style_properties py properties s = Ok s'
    /\ keys_of s' /\ default_font_inputs (text s').
Proof.
  intros Hk Hp Hkf Hb (H1 & H2 & H3).
  destruct (apply_style_properties_spec py properties s Hk Hp)
    as (s1 & E & Hk1 & _ & Hu1).
  assert (Hin : default_font_inputs (text s1)).
  { pose proof (fun k Hk => Hu1 c_text k (keeps_font_untouched _ k Hkf Hk))
      as Hu. cbn [getattr_comp] in Hu. unfold font_inputs in Hu.
    repeat split; rewrite Hu by set_solver; assumption. }
  rewrite E, (build_font_default py _ Hb Hin). eexists.
  split; [reflexivity|]. split; [apply set_text_font_keys; exact Hk1|].
  cbn [set_text text]. destruct Hin as (I1 & I2 & I3).
  repeat split; rewrite lookup_insert_ne by discriminate; assumption.
Qed.

Lemma default_style_inv py s :
  _default_style py = Ok s ->
  exists F,
    s = mkStyle UIStackStyle_init UIBGStyle_init UIImageStyle_init
          UIShapeStyle_init (<["font" := F]> UITextStyle_fields)
          UIIconStyle_init UIOutlineStyle_init.
Proof.
  unfold _default_style, UITextStyle_init. intros H.
  apply bind_inv in H as (t & H & Hs). injection Hs as <-.
  apply bind_inv in H as (t0 & H & Ht). injection Ht as <-.
  apply build_font_inv in H as (func & fname & size & -> & _).
  eexists. unfold apply_mods, attr. rewrite lookup_insert_eq.
  cbn [from_option id]. rewrite insert_insert_eq. reflexivity.
Qed.

Lemma default_style_ok py :
  default_font_builds py -> exists s, _default_style py = Ok s.
Proof.
  intros Hb. unfold _default_style, UITextStyle_init.
  rewrite (build_font_default py UITextStyle_fields Hb)
    by (repeat split; reflexivity).
  cbn. eauto.
Qed.

Lemma default_style_keys py s :
  _default_style py = Ok s -> keys_of s /\ default_font_inputs (text s).
Proof.
  intros H. apply default_style_inv in H as (F & ->). split.
  - intros c k. destruct c; try reflexivity.
    cbn [getattr_comp text fields].
    destruct (decide (k = "font")) as [->|Hne].
    + rewrite !lookup_insert_eq. split; eauto.
    + rewrite !lookup_insert_ne by congruence. reflexivity.
  - cbn [text]. repeat split; rewrite lookup_insert_ne by discriminate;
      reflexivity.
Qed.

Lemma set_bg_color_keys s v :
  keys_of s -> keys_of (set_bg s (<["color" := v]> (bg s))).
Proof.
  intros Hk c k. destruct (decide (c = c_bg)) as [->|Hne];
    [|rewrite set_bg_other by exact Hne; apply Hk].
  cbn [getattr_comp set_bg bg].
  destruct (decide (k = "color")) as [->|Hne].
  - rewrite lookup_insert_eq. split; [intros _|eauto]. vm_compute. eauto.
  - rewrite lookup_insert_ne by congruence. apply (Hk c_bg k).
Qed.

Lemma baseline_keys py type_ s :
  baseline py type_ = Some (Ok s) ->
  keys_of s /\ default_font_inputs (text s).
Proof.
  unfold baseline, _default_hover_style, _default_press_style.
  repeat case_match; intros [= Hs]; try discriminate.
  - apply default_style_keys in Hs. exact Hs.
  - apply bind_inv in Hs as (s0 & Hs & [= <-]).
    apply default_style_keys in Hs as [Hk Hi].
    split; [apply set_bg_color_keys; exact Hk | exact Hi].
  - apply bind_inv in Hs as (s0 & Hs & [= <-]).
    apply default_style_keys in Hs as [Hk Hi].
    split; [apply set_bg_color_keys; exact Hk | exact Hi].
Qed.

Lemma baseline_ok py type_ :
  type_ ∈ ["normal"; "hover"; "press"] -> default_font_builds py ->
  exists s, baseline py type_ = Some (Ok s).
Proof.
  intros Hty Hb. destruct (default_style_ok py Hb) as (s & E).
  unfold baseline, _default_hover_style, _default_press_style.
  repeat (apply elem_of_cons in Hty as [->|Hty]);
    [cbn; rewrite E; cbn; eauto ..|inversion Hty].
Qed.

Lemma dict_keys_fold (l : list string) : forall acc,
  NoDup acc ->
  let r := fold_left
             (fun acc t => if bool_decide (t ∈ acc) then acc else acc ++ [t])
             l acc in
  NoDup r /\ forall t, t ∈ r <-> t ∈ acc \/ t ∈ l.
Proof.
  induction l as [|a l IH]; intros acc Hnd; cbn [fold_left].
  - split; [exact Hnd|]. intros t. rewrite elem_of_nil. tauto.
  - destruct (bool_decide_reflect (a ∈ acc)) as [Hin|Hnin].
    + destruct (IH acc Hnd) as [H1 H2]. split; [exact H1|].
      intros t. rewrite H2, elem_of_cons.
      split; [tauto|]. intros [?|[->|?]]; auto.
    + assert (Hnd' : NoDup (acc ++ [a])).
      { apply NoDup_app. split; [exact Hnd|]. split.
        - intros x Hx Hx'. apply list_elem_of_singleton in Hx'. congruence.
        - apply NoDup_singleton. }
      destruct (IH _ Hnd') as [H1 H2]. split; [exact H1|].
      intros t. rewrite H2, elem_of_app, list_elem_of_singleton, elem_of_cons.
      tauto.
Qed.

Lemma dict_keys_spec (l : list string) :
  NoDup (dict_keys l) /\ forall t, t ∈ dict_keys l <-> t ∈ l.
Proof.
  destruct (dict_keys_fold l [] (NoDup_nil_2)) as [H1 H2].
  split; [exact H1|]. intros t. unfold dict_keys. rewrite H2, elem_of_nil.
  tauto.
Qed.

Lemma dict_get_buckets0 {V} k (keys : list string) (v : V) :
  k ∈ keys -> dict_get k (map (fun t => (t, v)) keys) = Some v.
Proof.
  induction keys as [|t keys IH]; intros H; [inversion H|].
  cbn [map dict_get]. destruct (String.eqb_spec k t); [reflexivity|].
  apply elem_of_cons in H as [?|H]; [congruence|auto].
Qed.

Lemma for_each_buckets_skip py k h (keys : list string) s :
  k ∉ keys ->
  for_each (fun s kv => for_each (apply_holder py) kv.2 s)
    (bucket_append k h (map (fun t => (t, [])) keys)) s = Ok s.
Proof.
  induction keys as [|t keys IH]; intros H; [reflexivity|].
  apply not_elem_of_cons in H as [Hne H].
  cbn [map bucket_append fst snd].
  destruct (String.eqb_spec t k); [congruence|].
  cbn [for_each snd]. exact (IH H).
Qed.

Lemma for_each_buckets_one py k h (keys : list string) s :
  NoDup keys -> k ∈ keys ->
  for_each (fun s kv => for_each (apply_holder py) kv.2 s)
    (bucket_append k h (map (fun t => (t, [])) keys)) s = apply_holder py s h.
Proof.
  induction keys as [|t keys IH]; intros Hnd H; [inversion H|].
  apply NoDup_cons in Hnd as [Hnotin Hnd].
  cbn [map bucket_append fst snd].
  destruct (String.eqb_spec t k) as [->|Hne].
  - cbn [for_each snd app].
    fold (bucket_append k h (map (fun t => (t, [])) keys)).
    destruct (apply_holder py s h) as [s'| |]; cbn; try reflexivity.
    apply for_each_buckets_skip; exact Hnotin.
  - cbn [for_each snd]. apply elem_of_cons in H as [?|H]; [congruence|].
    exact (IH Hnd H).
Qed.

Lemma collect_element_type type_ el acc h :
  style_type h = type_ -> style_target h = "element_type" ->
  is_Some (dict_get (target_id h) (el_type_styles acc)) ->
  collect type_ el acc h
  = mkMatches (bucket_append (target_id h) h (el_type_styles acc))
      (style_id_styles acc) (el_id_styles acc).
Proof.
  intros Ht Hg Hs. unfold collect. rewrite Ht, Hg, String.eqb_refl.
  rewrite (bool_decide_eq_true_2 _ Hs). reflexivity.
Qed.

Lemma collect_element_id type_ el acc h :
  style_type h = type_ -> style_target h = "element_id" ->
  target_id h = element_id el ->
  collect type_ el acc h
  = mkMatches (el_type_styles acc) (style_id_styles acc)
      (el_id_styles acc ++ [h]).
Proof.
  intros Ht Hg Hs. unfold collect.
  rewrite Ht, Hg, Hs, !String.eqb_refl. reflexivity.
Qed.

Lemma cascade_two_rules py el type_ (r_ty r_id : UIStyleHolder) :
  "button" ∈ element_types el -> element_id el = "submit" ->
  style_type r_ty = type_ -> style_target r_ty = "element_type" ->
  target_id r_ty = "button" ->
  style_type r_id = type_ -> style_target r_id = "element_id" ->
  target_id r_id = "submit" ->
  forall styles, styles = [r_ty; r_id] \/ styles = [r_id; r_ty] ->
  get_style_of_type py styles el type_
  = match baseline py type_ with
    | None => Raise UnboundLocalError
    | Some style =>
        style ← style;
        style ← apply_style_properties py (properties r_ty) style;
        apply_style_properties py (properties r_id) style
    end.
Proof.
  intros Hbt Hid T1 T2 T3 I1 I2 I3 styles Hst.
  destruct (dict_keys_spec (element_types el)) as [Hnd Hkeys].
  assert (Hb : "button" ∈ dict_keys (element_types el))
    by (apply Hkeys; exact Hbt).
  assert (Hm : fold_left (collect type_ el) styles
            (mkMatches (map (fun t => (t, [])) (dict_keys (element_types el)))
               [] [])
          = mkMatches (bucket_append "button" r_ty
                         (map (fun t => (t, [])) (dict_keys (element_types el))))
              [] [r_id]).
  { destruct Hst as [-> | ->]; cbn [fold_left].
    - rewrite (collect_element_type type_ el _ r_ty T1 T2)
        by (cbn [el_type_styles]; rewrite T3;
            rewrite (dict_get_buckets0 _ _ _ Hb); eauto).
      rewrite (collect_element_id type_ el _ r_id I1 I2)
        by (rewrite I3; symmetry; exact Hid).
      cbn [el_type_styles style_id_styles el_id_styles app].
      rewrite T3. reflexivity.
    - rewrite (collect_element_id type_ el _ r_id I1 I2)
        by (rewrite I3; symmetry; exact Hid).
      rewrite (collect_element_type type_ el _ r_ty T1 T2)
        by (cbn [el_type_styles]; rewrite T3;
            rewrite (dict_get_buckets0 _ _ _ Hb); eauto).
      cbn [el_type_styles style_id_styles el_id_styles app].
      rewrite T3. reflexivity. }
  unfold get_style_of_type. rewrite Hm.
  destruct (baseline py type_) as [[base| |]|]; try reflexivity.
  cbn [mbind result_bind bind el_type_styles style_id_styles el_id_styles].
  rewrite (for_each_buckets_one py _ _ _ _ Hnd Hb).
  unfold apply_holder.
  destruct (apply_style_properties py (properties r_ty) base) as [s1| |];
    cbn [mbind result_bind bind for_each]; try reflexivity.
  destruct (apply_style_properties py (properties r_id) s1); reflexivity.
Qed.

(** C2, cascade specificity: for a node with type tag "button" and
    element-id "submit", a rule on the type "button" and a rule on the
    element-id "submit" for the same interaction state, both setting the
    background colour, resolve to the same outcome in either registration
    order; every snapshot the resolution returns has the element-id rule's
    background colour; and the resolution does return a snapshot for each
    of the three states when the default font is found and neither rule
    assigns an attribute the font is built from. *)
Theorem cascade_element_id_overrides_type
    (py : Backend) (el : Element) (type_ : string)
    (p_ty p_id : dict (dict pyval)) (v_ty v_id : pyval) :
  "button" ∈ element_types el -> element_id el = "submit" ->
  known_props p_ty -> known_props p_id ->
  sets p_ty c_bg "color" v_ty -> sets p_id c_bg "color" v_id ->
  v_ty <> v_id ->
  let r_ty := mkHolder p_ty type_ "element_type" "button" in
  let r_id := mkHolder p_id type_ "element_id" "submit" in
  get_style_of_type py [r_ty; r_id] el type_
  = get_style_of_type py [r_id; r_ty] el type_
  /\ (forall s, get_style_of_type py [r_ty; r_id] el type_ = Ok s ->
        bg s !! "color" = Some v_id)
  /\ (type_ ∈ ["normal"; "hover"; "press"] -> default_font_builds py ->
      keeps_font p_ty -> keeps_font p_id ->
      exists s, get_style_of_type py [r_ty; r_id] el type_ = Ok s).
Proof.
  intros Hbt Hid Hk_ty Hk_id Hs_ty Hs_id _ r_ty r_id.
  pose proof (cascade_two_rules py el type_ r_ty r_id Hbt Hid
                eq_refl eq_refl eq_refl eq_refl eq_refl eq_refl) as Hrun.
  rewrite (Hrun [r_ty; r_id]) by (left; reflexivity).
  rewrite (Hrun [r_id; r_ty]) by (right; reflexivity).
  cbn [properties r_ty r_id].
  split; [reflexivity|]. split.
  - intros s H.
    destruct (baseline py type_) as [[base| |]|] eqn:Hbase;
      try discriminate.
    destruct (baseline_keys _ _ _ Hbase) as [Hk0 _].
    cbn [mbind result_bind bind] in H.
    apply bind_inv in H as (s1 & E1 & E2).
    destruct (apply_style_properties_inv py p_ty base s1 Hk0 Hk_ty E1)
      as [Hk1 _].
    destruct (apply_style_properties_inv py p_id s1 s Hk1 Hk_id E2)
      as [_ Hc].
    apply (Hc c_bg "color" v_id); [discriminate | exact Hs_id].
  - intros Hty Hb Hf_ty Hf_id.
    destruct (baseline_ok py type_ Hty Hb) as (base & Hbase).
    destruct (baseline_keys _ _ _ Hbase) as [Hk0 Hi0].
    rewrite Hbase. cbn [mbind result_bind bind].
    destruct (apply_style_properties_total py p_ty base Hk0 Hk_ty Hf_ty Hb Hi0)
      as (s1 & E1 & Hk1 & Hi1).
    destruct (apply_style_properties_total py p_id s1 Hk1 Hk_id Hf_id Hb Hi1)
      as (s2 & E2 & _).
    exists s2. rewrite E1. exact E2.
Qed.

Lemma known_bg_color_rule v : known_props (bg_color_rule v).
Proof.
  intros c props H. destruct c; cbn in H; try discriminate.
  injection H as <-. repeat constructor. vm_compute. eauto.
Qed.

Lemma sets_bg_color_rule v : sets (bg_color_rule v) c_bg "color" v.
Proof.
  exists [("color", v)]. split; [reflexivity|]. split; [|reflexivity].
  unfold dict_wf. cbn. apply NoDup_singleton.
Qed.

Lemma keeps_font_bg_color_rule v : keeps_font (bg_color_rule v).
Proof. intros props H. discriminate. Qed.

(** The cascade-specificity property on a "submit" button with a red type
    rule and a blue element-id rule: the resolution returns the same
    snapshot in both orders, and it is blue. *)
Lemma cascade_element_id_overrides_type_witness :
  let r_ty :=
    mkHolder (bg_color_rule (color 255 0 0)) "normal" "element_type" "button" in
  let r_id :=
    mkHolder (bg_color_rule (color 0 0 255)) "normal" "element_id" "submit" in
  exists s,
    get_style_of_type sample_backend [r_ty; r_id] submit_button "normal" = Ok s
    /\ get_style_of_type sample_backend [r_id; r_ty] submit_button "normal"
       = Ok s
    /\ bg s !! "color" = Some (color 0 0 255).
Proof.
  intros r_ty r_id.
  assert (Hb : "button" ∈ element_types submit_button)
    by (apply (bool_decide_unpack _); vm_compute; exact I).
  assert (Hn : ("normal" : string) ∈ ["normal"; "hover"; "press"])
    by (apply (bool_decide_unpack _); vm_compute; exact I).
  assert (Hne : color 255 0 0 <> color 0 0 255) by discriminate.
  pose proof (cascade_element_id_overrides_type sample_backend submit_button
                "normal" (bg_color_rule (color 255 0 0))
                (bg_color_rule (color 0 0 255)) (color 255 0 0)
                (color 0 0 255) Hb eq_refl (known_bg_color_rule _)
                (known_bg_color_rule _) (sets_bg_color_rule _)
                (sets_bg_color_rule _) Hne) as H.
  cbv zeta in H. destruct H as (Hsym & Hcol & Hret).
  destruct (Hret Hn eq_refl (keeps_font_bg_color_rule _)
              (keeps_font_bg_color_rule _)) as (s & Hs).
  exists s. split; [exact Hs|]. split; [|exact (Hcol s Hs)].
  unfold r_ty, r_id. rewrite <- Hsym. exact Hs.
Defined.

(** The same resolution, evaluated. *)
Example cascade_submit_button_is_blue :
  exists s,
    get_style_of_type sample_backend
      [mkHolder (bg_color_rule (color 255 0 0)) "normal" "element_type" "button";
       mkHolder (bg_color_rule (color 0 0 255)) "normal" "element_id" "submit"]
      submit_button "normal" = Ok s
    /\ bg s !! "color" = Some (color 0 0 255).
Proof. eexists. split; vm_compute; reflexivity. Qed.

(** A type rule that also sets the font size to a word stops the
    resolution with the ValueError of [int]. *)
Example cascade_font_size_word_raises :
  get_style_of_type sample_backend
    [mkHolder [("bg", [("color", color 255 0 0)]);
               ("text", [("font_size", VStr "big")])]
       "normal" "element_type" "button";
     mkHolder (bg_color_rule (color 0 0 255)) "normal" "element_id" "submit"]
    submit_button "normal" = Raise ValueError.
Proof. vm_compute. reflexivity. Qed.



(** [sample_style] is the fresh style of [sample_backend]. *)
Example default_style_sample : _default_style sample_backend = Ok sample_style.
Proof. reflexivity. Qed.

(** The sibling [set_style_id] goes through UIStyles and completes. *)
Example set_style_id_completes (g : UIStyleGroup) :
  snd (set_style_id sample_backend [] (mkStyled submit_button g false) "big")
  = Ok tt.
Proof. vm_compute. reflexivity. Qed.

(** *** Rules that do not apply, unknown properties and the font *)

Lemma for_each_app {A S} (body : S -> A -> result S) (l1 l2 : list A) s :
  for_each body (l1 ++ l2) s = (for_each body l1 s ≫= for_each body l2).
Proof.
  revert s. induction l1 as [|a l1 IH]; intros s; [reflexivity|].
  cbn [app for_each]. destruct (body s a); cbn; [apply IH|reflexivity ..].
Qed.

Lemma comp_name_inj c c' : comp_name c = comp_name c' -> c = c'.
Proof. destruct c, c'; intros H; try reflexivity; discriminate. Qed.

Lemma apply_comp_other py c props s c' :
  c' <> c -> apply_comp py [(comp_name c, props)] s c' = Ok s.
Proof.
  intros Hne. unfold apply_comp. cbn [dict_get].
  destruct (String.eqb_spec (comp_name c') (comp_name c)) as [E|_];
    [|reflexivity].
  destruct (Hne (comp_name_inj _ _ E)).
Qed.

Lemma apply_comps_other py c props l : forall s,
  c ∉ l -> for_each (apply_comp py [(comp_name c, props)]) l s = Ok s.
Proof.
  induction l as [|c' l IH]; intros s H; [reflexivity|].
  apply not_elem_of_cons in H as [Hne H]. cbn [for_each].
  rewrite apply_comp_other by congruence. cbn. exact (IH s H).
Qed.

Lemma comp_names_split c :
  exists l1 l2, comp_names = l1 ++ c :: l2 /\ c ∉ l1.
Proof.
  unfold comp_names.
  destruct c;
    [exists [] | exists [c_stack] | exists [c_stack; c_bg]
    | exists [c_stack; c_bg; c_image]
    | exists [c_stack; c_bg; c_image; c_shape]
    | exists [c_stack; c_bg; c_image; c_shape; c_text]
    | exists [c_stack; c_bg; c_image; c_shape; c_text; c_icon]];
    eexists; (split; [reflexivity|]);
    rewrite ?not_elem_of_cons; repeat split; try discriminate;
    apply not_elem_of_nil.
Qed.

Lemma own_attr_insert c obj k v k' :
  own_attr c (<[k := v]> obj) k' = own_attr c obj k' || bool_decide (k' = k).
Proof.
  unfold own_attr. destruct (decide (k' = k)) as [->|Hne].
  - rewrite lookup_insert_eq, (bool_decide_eq_true_2 (is_Some (Some v)))
      by eauto.
    rewrite (bool_decide_eq_true_2 (k = k)) by reflexivity.
    cbn. rewrite !orb_true_r. reflexivity.
  - rewrite lookup_insert_ne by congruence.
    rewrite (bool_decide_eq_false_2 (k' = k)) by exact Hne.
    rewrite orb_false_r. reflexivity.
Qed.

Lemma set_properties_known py c : forall pre obj,
  Forall (fun nv => own_attr c obj nv.1 = true) pre ->
  exists obj', for_each (set_property py c) pre obj = Ok obj'
    /\ forall k, own_attr c obj' k = true ->
         own_attr c obj k = true \/ k ∈ pre.*1.
Proof.
  induction pre as [|[k v] pre IH]; intros obj H.
  - exists obj. split; [reflexivity|]. auto.
  - inversion H as [|? ? Hk Hrest]; subst. cbn [fst] in Hk.
    destruct (IH (<[k := v]> obj)) as (obj' & E & Hobj').
    { eapply Forall_impl; [exact Hrest|]. intros [k' v'] Hk'. cbn [fst] in *.
      rewrite own_attr_insert, Hk'. reflexivity. }
    exists obj'. split.
    + cbn [for_each]. rewrite (set_property_own py c obj k v Hk). cbn.
      exact E.
    + intros k' Hk'. destruct (Hobj' k' Hk') as [H1|H1].
      * rewrite own_attr_insert in H1. apply orb_true_iff in H1 as [H1|H1];
          [left; exact H1|].
        right. apply bool_decide_eq_true_1 in H1. subst. cbn. left.
      * right. cbn. right. exact H1.
Qed.

(** X17: a property name that [hasattr] does not find on its component
    (it is not in the object's [__dict__], not a method of its class and
    not an attribute every object has) ends the resolution with the
    UIError of style.py 236-237, naming the component with a capital and
    the property; the properties written before it in the rule are
    attributes or methods of the component, the ones after it are never
    looked at. *)
Theorem unknown_property_raises (py : Backend) (s : UIStyle) (c : comp)
    (pre post : dict pyval) (name : string) (v : pyval) :
  Forall (fun nv => own_attr c (getattr_comp s c) nv.1 = true) pre ->
  hasattr py c (getattr_comp s c) name = false ->
  apply_style_properties py [(comp_name c, pre ++ (name, v) :: post)] s
  = Raise (UIError (title c ++ " style has no property '" ++ name ++ "'")).
Proof.
  intros Hpre Hname. unfold apply_style_properties.
  destruct (comp_names_split c) as (l1 & l2 & -> & Hnotin).
  rewrite for_each_app, apply_comps_other by exact Hnotin.
  cbn [mbind result_bind bind for_each].
  assert (Ec : apply_comp py [(comp_name c, pre ++ (name, v) :: post)] s c
               = Raise (UIError (title c ++ " style has no property '"
                                 ++ name ++ "'"))).
  { unfold apply_comp. cbn [dict_get]. rewrite String.eqb_refl.
    rewrite for_each_app.
    destruct (set_properties_known py c pre _ Hpre) as (obj' & E & Hobj').
    rewrite E. cbn [mbind result_bind bind for_each].
    unfold hasattr in Hname. apply orb_false_iff in Hname as [Hown Hobj].
    assert (Hno : hasattr py c obj' name = false).
    { unfold hasattr. rewrite Hobj, orb_false_r.
      destruct (own_attr c obj' name) eqn:Hh; [|reflexivity].
      destruct (Hobj' name Hh) as [H|H]; [congruence|].
      apply list_elem_of_fmap in H as ([k' v'] & Ek & Hin).
      rewrite Forall_forall in Hpre. specialize (Hpre _ Hin).
      cbn [fst] in Hpre, Ek. congruence. }
    assert (Es : set_property py c obj' (name, v)
                 = Raise (UIError (title c ++ " style has no property '"
                                   ++ name ++ "'")))
      by (unfold set_property; cbn [fst snd]; rewrite Hno; reflexivity).
    rewrite Es. reflexivity. }
  rewrite Ec. reflexivity.
Qed.

Lemma unknown_property_raises_witness :
  apply_style_properties sample_backend
    [("bg", [("color", color 1 2 3)] ++ ("colour", VNone)
            :: [("enabled", VBool false)])] sample_style
  = Raise (UIError "Bg style has no property 'colour'").
Proof.
  apply (unknown_property_raises sample_backend sample_style c_bg
           [("color", color 1 2 3)] [("enabled", VBool false)] "colour"
           VNone).
  - repeat constructor.
  - vm_compute. reflexivity.
Defined.

(** X18: the check of a property name is [hasattr], which also finds the
    methods of the component.  A text rule that names [build_font] passes
    the check, replaces the method by the rule's value and makes the call
    at the end of the same resolution fail with TypeError, for every
    style; a text rule that names [apply_mods] passes as well, the value
    is stored as one more attribute, and the outcome is that of building
    the font. *)
Theorem method_name_passes_property_check (py : Backend) (s : UIStyle)
    (v : pyval) :
  text s !! "build_font" = None ->
  apply_style_properties py [("text", [("build_font", v)])] s
  = Raise TypeError
  /\ apply_style_properties py [("text", [("apply_mods", v)])] s
     = (t ← build_font py (<["apply_mods" := v]> (text s));
        Ok (set_text s t)).
Proof.
  intros Hnone.
  assert (Hm : forall name obj,
            name ∈ methods c_text ->
            set_property py c_text obj (name, v) = Ok (<[name := v]> obj)).
  { intros name obj Hin. apply set_property_own. unfold own_attr.
    rewrite (bool_decide_eq_true_2 (name ∈ methods c_text)) by exact Hin.
    apply orb_true_r. }
  unfold apply_style_properties. split.
  - cbn. rewrite Hm by (apply list_elem_of_further, list_elem_of_here). cbn.
    unfold call_build_font. cbn [text set_text].
    rewrite bool_decide_eq_true_2; [reflexivity|].
    rewrite lookup_insert_eq. eauto.
  - cbn.
    rewrite Hm
      by (apply list_elem_of_further, list_elem_of_further, list_elem_of_here).
    cbn. unfold call_build_font. cbn [text set_text].
    rewrite bool_decide_eq_false_2.
    + destruct s; reflexivity.
    + rewrite lookup_insert_ne by discriminate. rewrite Hnone.
      apply is_Some_None.
Qed.

Lemma method_name_passes_property_check_witness :
  apply_style_properties sample_backend
    [("text", [("build_font", VInt 1)])] sample_style
  = Raise TypeError
  /\ apply_style_properties sample_backend
       [("text", [("apply_mods", VInt 1)])] sample_style
     = (t ← build_font sample_backend
              (<["apply_mods" := VInt 1]> (text sample_style));
        Ok (set_text sample_style t)).
Proof.
  apply (method_name_passes_property_check sample_backend sample_style
           (VInt 1)).
  vm_compute. reflexivity.
Defined.

Lemma dict_get_is_Some {V} k (d : dict V) :
  is_Some (dict_get k d) <-> k ∈ map fst d.
Proof.
  induction d as [|[k' v'] d IH]; cbn [dict_get map fst].
  - rewrite elem_of_nil. split; [intros [? H]; discriminate | tauto].
  - rewrite elem_of_cons. destruct (String.eqb_spec k k') as [->|Hne].
    + split; eauto.
    + rewrite IH. split; [auto|]. intros [?|?]; [congruence|assumption].
Qed.

Lemma bucket_append_keys k h d : map fst (bucket_append k h d) = map fst d.
Proof.
  unfold bucket_append. rewrite map_map. apply map_ext. intros [k' v'].
  cbn. destruct (String.eqb k' k); reflexivity.
Qed.

Lemma collect_keys type_ el acc h :
  map fst (el_type_styles (collect type_ el acc h))
  = map fst (el_type_styles acc).
Proof.
  unfold collect.
  repeat match goal with
  | |- context [if ?b then _ else _] => destruct b
  end; cbn [el_type_styles]; try reflexivity.
  apply bucket_append_keys.
Qed.

Lemma collect_not_applies type_ el acc h :
  map fst (el_type_styles acc) = dict_keys (element_types el) ->
  applies type_ el h = false -> collect type_ el acc h = acc.
Proof.
  intros Hk. unfold applies, collect.
  destruct (String.eqb (style_type h) type_); cbn [negb andb];
    [|reflexivity].
  assert (E : bool_decide (is_Some (dict_get (target_id h)
                                      (el_type_styles acc)))
              = bool_decide (target_id h ∈ element_types el)).
  { apply bool_decide_ext. rewrite dict_get_is_Some, Hk.
    apply (proj2 (dict_keys_spec (element_types el))). }
  rewrite E. intros H.
  apply orb_false_iff in H as [H H3]. apply orb_false_iff in H as [H1 H2].
  rewrite H1, H2, H3. reflexivity.
Qed.

Lemma collect_filter type_ el styles : forall acc,
  map fst (el_type_styles acc) = dict_keys (element_types el) ->
  fold_left (collect type_ el) styles acc
  = fold_left (collect type_ el)
      (filter (fun h => applies type_ el h = true) styles) acc.
Proof.
  induction styles as [|h styles IH]; intros acc Hk; [reflexivity|].
  cbn [fold_left]. destruct (applies type_ el h) eqn:Ha.
  - rewrite filter_cons_True by exact Ha. cbn [fold_left].
    apply IH. rewrite collect_keys. exact Hk.
  - rewrite filter_cons_False by congruence.
    rewrite (collect_not_applies _ _ _ _ Hk Ha). apply IH. exact Hk.
Qed.

(** X19: the resolution of a style for an interaction state depends only
    on the registered rules that apply to the element in that state: the
    rules of another state, the rules on a type the element does not
    have, on a style id that is not a substring of the element's, on
    another element id, and the rules whose target kind is none of the
    three, can be removed from the registry, wherever they stand, without
    changing the outcome. *)
Theorem get_style_of_type_applicable_only (py : Backend)
    (styles : list UIStyleHolder) (el : Element) (type_ : string) :
  get_style_of_type py styles el type_
  = get_style_of_type py (filter (fun h => applies type_ el h = true) styles)
      el type_.
Proof.
  unfold get_style_of_type. rewrite <- collect_filter; [reflexivity|].
  cbn [el_type_styles]. rewrite map_map. cbn. apply map_id.
Qed.

Lemma build_font_twice py t t' :
  build_font py t = Ok t' -> build_font py t' = Ok t'.
Proof.
  intros H. pose proof H as H0.
  apply build_font_inv in H0 as (func & fname & size & -> & _).
  revert H. unfold build_font, text_attr.
  rewrite !(lookup_insert_ne t "font") by discriminate.
  destruct (t !! "sysfont") as [sf|]; [|discriminate].
  cbn. destruct (truthy py sf) as [b| |]; [|discriminate ..].
  cbn. destruct (t !! "font_name") as [fn|]; [|discriminate].
  cbn. destruct (t !! "font_size") as [fs|]; [|discriminate].
  cbn. destruct (int_of py fs) as [z| |]; [|discriminate ..].
  cbn.
  match goal with
  | |- match font_error py ?f ?n ?z with _ => _ end = _ -> _ =>
      destruct (font_error py f n z); [discriminate|]
  end.
  intros [= E]. rewrite <- E at 2. rewrite insert_insert_eq. reflexivity.
Qed.

(** X20: every resolution that returns ends with [build_font] and never
    calls [apply_mods]: in the resulting style the font object is the one
    the font constructor returned for the style's own [sysfont] and
    [font_name] and for the integer [int(font_size)], with these two
    arguments and without the bold, italic, underline and strikethrough
    modifiers, whatever a rule assigned to [font]; [int] accepted the
    font size and the constructor did not raise. *)
Theorem apply_style_properties_rebuilds_font (py : Backend)
    (properties : dict (dict pyval)) (s s' : UIStyle) :
  apply_style_properties py properties s = Ok s' ->
  build_font py (text s') = Ok (text s')
  /\ exists func font_name size,
       text s' !! "font" = Some (VObj func [font_name; VInt size])
       /\ int_of py (attr (text s') "font_size") = Ok size
       /\ font_error py func font_name size = None.
Proof.
  unfold apply_style_properties. intros H.
  apply bind_inv in H as (s1 & _ & H). unfold call_build_font in H.
  destruct (bool_decide _); [discriminate|].
  apply bind_inv in H as (t & Ht & H). injection H as <-.
  cbn [text set_text]. split; [exact (build_font_twice py _ _ Ht)|].
  apply build_font_inv in Ht as (func & fname & size & -> & Hi & Hf).
  exists func, fname, size. rewrite lookup_insert_eq.
  split; [reflexivity|]. split; [|exact Hf].
  unfold attr in *. rewrite lookup_insert_ne by discriminate. exact Hi.
Qed.

Lemma apply_style_properties_rebuilds_font_witness :
  exists s',
    apply_style_properties sample_backend
      [("text", [("font", VInt 3); ("bold", VBool true);
                 ("font_size", VStr "31")])] sample_style
    = Ok s'
    /\ build_font sample_backend (text s') = Ok (text s')
    /\ exists func font_name size,
         text s' !! "font" = Some (VObj func [font_name; VInt size])
         /\ int_of sample_backend (attr (text s') "font_size") = Ok size
         /\ font_error sample_backend func font_name size = None.
Proof.
  eexists. split; [vm_compute; reflexivity|].
  apply (apply_style_properties_rebuilds_font sample_backend
           [("text", [("font", VInt 3); ("bold", VBool true);
                      ("font_size", VStr "31")])] sample_style).
  vm_compute. reflexivity.
Defined.

End CascadeFacts.

Module SceneFacts.
Import Scene PyFacts.

Lemma get_Ok m n e : elements m !! n = Some e -> get m n = Ok e.
Proof. unfold get. intros ->. reflexivity. Qed.

Lemma get_inv m n e : get m n = Ok e -> elements m !! n = Some e.
Proof. unfold get. destruct (elements m !! n); congruence. Qed.

(** *** Ancestor chains *)

Lemma ancestors_functional m n l1 :
  ancestors m n l1 -> forall l2, ancestors m n l2 -> l1 = l2.
Proof.
  induction 1 as [n e He Hp | n e p l He Hp _ IH]; intros l2 H2;
    inversion H2; subst; try congruence.
  assert (p0 = p) by congruence. subst. f_equal. auto.
Qed.

Lemma ancestors_suffix m n l :
  ancestors m n l -> forall x, x ∈ l ->
  exists l', ancestors m x l' /\ (length l' < length l)%nat.
Proof.
  induction 1 as [n e He Hp | n e p l He Hp Hanc IH]; intros x Hx.
  - inversion Hx.
  - apply elem_of_cons in Hx as [->|Hx].
    + exists l. split; [exact Hanc | cbn; lia].
    + destruct (IH x Hx) as (l' & H1 & H2). exists l'.
      split; [exact H1 | cbn; lia].
Qed.

Lemma ancestors_not_self m n l : ancestors m n l -> n ∉ l.
Proof.
  intros H Hin. destruct (ancestors_suffix m n l H n Hin) as (l' & H1 & H2).
  rewrite (ancestors_functional m n l H l' H1) in H2. lia.
Qed.

Lemma ancestors_NoDup m n l : ancestors m n l -> NoDup (n :: l).
Proof.
  induction 1 as [n e He Hp | n e p l He Hp Hanc IH].
  - apply NoDup_singleton.
  - apply NoDup_cons. split; [|exact IH].
    apply (ancestors_not_self m n (p :: l)). econstructor; eauto.
Qed.

Lemma ancestors_in_heap m n l :
  ancestors m n l -> forall x, x ∈ n :: l -> is_Some (elements m !! x).
Proof.
  induction 1 as [n e He Hp | n e p l He Hp Hanc IH]; intros x Hx.
  - apply list_elem_of_singleton in Hx as ->. eauto.
  - apply elem_of_cons in Hx as [->|Hx]; eauto.
Qed.

Lemma ancestors_length m n l :
  ancestors m n l -> (length l < size (elements m))%nat.
Proof.
  intros H.
  assert (Hsub : n :: l ⊆+ (map_to_list (elements m)).*1).
  { apply NoDup_submseteq; [exact (ancestors_NoDup m n l H)|].
    intros x Hx. destruct (ancestors_in_heap m n l H x Hx) as [e He].
    apply list_elem_of_fmap. exists (x, e). split; [reflexivity|].
    apply elem_of_map_to_list. exact He. }
  apply submseteq_length in Hsub.
  rewrite length_fmap, length_map_to_list in Hsub. cbn in Hsub. lia.
Qed.

(** *** Dirty propagation *)

Lemma with_dirty_id e : with_dirty e (dirty e) = e.
Proof. destruct e; reflexivity. Qed.

Lemma with_dirty_twice e d d' : with_dirty (with_dirty e d) d' = with_dirty e d'.
Proof. reflexivity. Qed.

Lemma is_dirty_put m n e x :
  is_dirty (put m n e) x = if decide (x = n) then dirty e else is_dirty m x.
Proof.
  unfold is_dirty, put. cbn [elements with_elements].
  destruct (decide (x = n)) as [->|Hne].
  - rewrite lookup_insert_eq. reflexivity.
  - rewrite lookup_insert_ne by congruence. reflexivity.
Qed.

Lemma same_but_dirty_refl m : same_but_dirty m m.
Proof.
  repeat split. intros x. unfold is_dirty.
  destruct (elements m !! x) as [e|]; cbn; [|reflexivity].
  rewrite with_dirty_id. reflexivity.
Qed.

Lemma same_but_dirty_trans m1 m2 m3 :
  same_but_dirty m1 m2 -> same_but_dirty m2 m3 -> same_but_dirty m1 m3.
Proof.
  intros (R1 & A1 & C1 & H1) (R2 & A2 & C2 & H2).
  repeat split; try congruence.
  intros x. rewrite H2, H1. destruct (elements m1 !! x); reflexivity.
Qed.

Lemma same_but_dirty_put m n e d :
  elements m !! n = Some e -> same_but_dirty m (put m n (with_dirty e d)).
Proof.
  intros He. repeat split. intros x. rewrite is_dirty_put.
  unfold put. cbn [elements with_elements].
  destruct (decide (x = n)) as [->|Hne].
  - rewrite lookup_insert_eq, He. reflexivity.
  - rewrite lookup_insert_ne by congruence. unfold is_dirty.
    destruct (elements m !! x) as [e'|]; cbn; [|reflexivity].
    rewrite with_dirty_id. reflexivity.
Qed.

Lemma ancestors_put m x e e' n l :
  elements m !! x = Some e -> parent e' = parent e ->
  ancestors m n l -> ancestors (put m x e') n l.
Proof.
  intros He Hp. induction 1 as [n e0 He0 Hp0 | n e0 p l He0 Hp0 _ IH].
  - destruct (decide (n = x)) as [->|Hne].
    + apply (ancestors_root _ x e'); [apply lookup_insert_eq | congruence].
    + apply (ancestors_root _ n e0); [|exact Hp0].
      cbn. rewrite lookup_insert_ne by congruence. exact He0.
  - destruct (decide (n = x)) as [->|Hne].
    + apply (ancestors_step _ x e' p); [apply lookup_insert_eq | congruence | exact IH].
    + apply (ancestors_step _ n e0 p); [|exact Hp0|exact IH].
      cbn. rewrite lookup_insert_ne by congruence. exact He0.
Qed.

Lemma clean_prefix_put m n e l :
  n ∉ l -> clean_prefix (put m n e) l = clean_prefix m l.
Proof.
  induction l as [|a l IH]; intros H; [reflexivity|].
  apply not_elem_of_cons in H as [Hne H]. cbn [clean_prefix].
  rewrite is_dirty_put. destruct (decide (a = n)); [congruence|].
  rewrite IH by exact H. reflexivity.
Qed.

(** What one [set_dirty()] does on a tree: it completes, writes dirty
    flags only, and marks exactly the clean prefix of the chain [n],
    parent, grandparent, ... *)
Lemma set_dirty_fuel_spec fuel : forall m n l,
  ancestors m n l -> (length l < fuel)%nat ->
  exists m', set_dirty_fuel fuel m n true = Ok m'
    /\ same_but_dirty m m'
    /\ forall x, is_dirty m' x
               = is_dirty m x || bool_decide (x ∈ clean_prefix m (n :: l)).
Proof.
  induction fuel as [|fuel IH]; intros m n l Hanc Hlen; [lia|].
  cbn [set_dirty_fuel clean_prefix].
  inversion Hanc as [n0 e He Hp | n0 e p l' He Hp Hanc']; subst.
  - rewrite (bind_Ok _ _ _ (get_Ok _ _ _ He)), Hp.
    assert (Hdn : is_dirty m n = dirty e)
      by (unfold is_dirty; rewrite He; reflexivity).
    unfold UIRoot_set_dirty.
    destruct (dirty e) eqn:Hd; destruct (is_dirty m n); try discriminate;
      cbn [Bool.eqb].
    + exists m. split; [reflexivity|]. split; [apply same_but_dirty_refl|].
      intros x. rewrite bool_decide_eq_false_2 by apply not_elem_of_nil.
      rewrite orb_false_r. reflexivity.
    + eexists. split; [reflexivity|].
      split; [apply same_but_dirty_put; exact He|].
      intros x. rewrite is_dirty_put. cbn [dirty with_dirty clean_prefix].
      destruct (decide (x = n)) as [->|Hne].
      * rewrite bool_decide_eq_true_2 by apply list_elem_of_here.
        rewrite orb_true_r. reflexivity.
      * rewrite bool_decide_eq_false_2
          by (rewrite list_elem_of_singleton; congruence).
        rewrite orb_false_r. reflexivity.
  - rewrite (bind_Ok _ _ _ (get_Ok _ _ _ He)), Hp.
    assert (Hdn : is_dirty m n = dirty e)
      by (unfold is_dirty; rewrite He; reflexivity).
    destruct (dirty e) eqn:Hd; destruct (is_dirty m n) eqn:Hmn;
      try discriminate; cbn [Bool.eqb].
    + exists m. split; [reflexivity|]. split; [apply same_but_dirty_refl|].
      intros x. rewrite bool_decide_eq_false_2 by apply not_elem_of_nil.
      rewrite orb_false_r. reflexivity.
    + assert (Hnotin : n ∉ p :: l') by exact (ancestors_not_self m n _ Hanc).
      destruct (IH (put m n (with_dirty e true)) p l') as (m' & E & Hsame & Hd').
      { apply (ancestors_put m n e); [exact He | reflexivity | exact Hanc']. }
      { cbn in Hlen. lia. }
      exists m'. split; [exact E|]. split.
      { eapply same_but_dirty_trans; [|exact Hsame].
        apply same_but_dirty_put; exact He. }
      intros x. rewrite Hd', is_dirty_put.
      rewrite (clean_prefix_put m n _ (p :: l') Hnotin).
      cbn [dirty with_dirty].
      destruct (decide (x = n)) as [->|Hne].
      * rewrite (bool_decide_eq_true_2 (n ∈ n :: _)) by apply list_elem_of_here.
        rewrite orb_true_r. reflexivity.
      * destruct (is_dirty m x); [reflexivity|]. cbn [orb].
        apply bool_decide_ext. rewrite (elem_of_cons _ x n). tauto.
Qed.

Lemma set_dirty_fuel_noop fuel m n e :
  elements m !! n = Some e -> dirty e = true ->
  set_dirty_fuel (S fuel) m n true = Ok m.
Proof.
  intros He Hd. cbn [set_dirty_fuel].
  rewrite (bind_Ok _ _ _ (get_Ok _ _ _ He)). unfold UIRoot_set_dirty.
  rewrite Hd. cbn [Bool.eqb]. destruct (parent e); reflexivity.
Qed.

Lemma dirty_ancestors_all_dirty m n l :
  dirty_upward_closed m -> ancestors m n l -> is_dirty m n = true ->
  forall x, x ∈ l -> is_dirty m x = true.
Proof.
  intros Hc. induction 1 as [n e He Hp | n e p l He Hp _ IH]; intros Hd x Hx.
  - inversion Hx.
  - assert (Hdp : is_dirty m p = true).
    { apply (Hc n e p He); [|exact Hp].
      unfold is_dirty in Hd. rewrite He in Hd. exact Hd. }
    apply elem_of_cons in Hx as [->|Hx]; [exact Hdp | exact (IH Hdp x Hx)].
Qed.

Lemma ancestors_dirty_or_prefix m n l :
  dirty_upward_closed m -> ancestors m n l ->
  forall x, x ∈ l -> is_dirty m x = true \/ x ∈ clean_prefix m l.
Proof.
  intros Hc. induction 1 as [n e He Hp | n e p l He Hp Hanc IH]; intros x Hx.
  - inversion Hx.
  - cbn [clean_prefix]. destruct (is_dirty m p) eqn:Hdp.
    + left. apply elem_of_cons in Hx as [->|Hx]; [exact Hdp|].
      exact (dirty_ancestors_all_dirty m p l Hc Hanc Hdp x Hx).
    + apply elem_of_cons in Hx as [->|Hx]; [right; apply list_elem_of_here|].
      destruct (IH x Hx) as [H|H]; [left; exact H|].
      right. apply list_elem_of_further. exact H.
Qed.

Lemma set_dirty_completes (m : Manager) (n : nat) (l : list nat) :
  ancestors m n l ->
  exists m', set_dirty m n true = Ok m' /\ same_but_dirty m m'.
Proof.
  intros Hanc. unfold set_dirty.
  destruct (set_dirty_fuel_spec (2 + size (elements m)) m n l Hanc)
    as (m' & E & Hsame & _).
  { pose proof (ancestors_length m n l Hanc). lia. }
  exists m'. split; [exact E | exact Hsame].
Qed.

(** C9 as the code has it: on a tree, [set_dirty()] completes and writes
    dirty flags only; it marks the element and its ancestors up to, not
    including, the first ancestor that is already dirty, and no other
    element; on a dirty element it changes nothing; when every dirty element
    had only dirty ancestors before the call, every ancestor up to the root
    is dirty after it. *)
Theorem set_dirty_marks_clean_prefix (m : Manager) (n : nat) (l : list nat) :
  ancestors m n l ->
  exists m', set_dirty m n true = Ok m'
    /\ same_but_dirty m m'
    /\ (forall x, is_dirty m' x
                = is_dirty m x || bool_decide (x ∈ clean_prefix m (n :: l)))
    /\ (is_dirty m n = true -> m' = m)
    /\ (dirty_upward_closed m ->
        forall x, x ∈ n :: l -> is_dirty m' x = true).
Proof.
  intros Hanc. unfold set_dirty.
  destruct (set_dirty_fuel_spec (2 + size (elements m)) m n l Hanc)
    as (m' & E & Hsame & Hd).
  { pose proof (ancestors_length m n l Hanc). lia. }
  exists m'. split; [exact E|]. split; [exact Hsame|]. split; [exact Hd|].
  split.
  - intros Hn. unfold is_dirty in Hn.
    destruct (elements m !! n) as [e|] eqn:He; [|discriminate].
    cbn [Nat.add] in E. rewrite (set_dirty_fuel_noop _ m n e He Hn) in E.
    congruence.
  - intros Hc x Hx. rewrite Hd. cbn [clean_prefix].
    destruct (is_dirty m n) eqn:Hn.
    + apply elem_of_cons in Hx as [->|Hx]; [rewrite Hn; reflexivity|].
      rewrite (dirty_ancestors_all_dirty m n l Hc Hanc Hn x Hx). reflexivity.
    + apply elem_of_cons in Hx as [->|Hx].
      * rewrite bool_decide_eq_true_2 by apply list_elem_of_here.
        apply orb_true_r.
      * destruct (ancestors_dirty_or_prefix m n l Hc Hanc x Hx) as [H|H].
        -- rewrite H. reflexivity.
        -- rewrite bool_decide_eq_true_2
             by (apply list_elem_of_further; exact H).
           apply orb_true_r.
Qed.

(** The propagation on the all-clean four-level tree, from the leaf. *)
Lemma set_dirty_marks_clean_prefix_witness :
  exists m', set_dirty chain4 3%nat true = Ok m'
    /\ same_but_dirty chain4 m'
    /\ (forall x, is_dirty m' x
                = is_dirty chain4 x
                  || bool_decide (x ∈ clean_prefix chain4 [3; 2; 1; 0]%nat))
    /\ (is_dirty chain4 3%nat = true -> m' = chain4)
    /\ (dirty_upward_closed chain4 ->
        forall x, x ∈ [3; 2; 1; 0]%nat -> is_dirty m' x = true).
Proof.
  apply (set_dirty_marks_clean_prefix chain4 3%nat [2; 1; 0]%nat).
  eapply ancestors_step; [reflexivity | reflexivity |].
  eapply ancestors_step; [reflexivity | reflexivity |].
  eapply ancestors_step; [reflexivity | reflexivity |].
  eapply ancestors_root; reflexivity.
Defined.

(** C9 as stated fails on a reachable tree: after [e2.set_dirty()] and
    [e1.set_dirty(False)] the leaf 3 is clean and has the ancestors 2, 1 and
    the root; [e3.set_dirty()] stops at the dirty parent 2 and leaves the
    ancestor 1 clean. *)
Lemma set_dirty_leaves_clean_ancestor :
  exists m m',
    stale_chain4 = Ok m
    /\ ancestors m 3%nat [2; 1; 0]%nat
    /\ is_dirty m 3%nat = false
    /\ set_dirty m 3%nat true = Ok m'
    /\ is_dirty m' 3%nat = true
    /\ is_dirty m' 1%nat = false.
Proof.
  eexists. eexists.
  split; [vm_compute; reflexivity|].
  split.
  { eapply ancestors_step; [vm_compute; reflexivity | reflexivity |].
    eapply ancestors_step; [vm_compute; reflexivity | reflexivity |].
    eapply ancestors_step; [vm_compute; reflexivity | reflexivity |].
    eapply ancestors_root; [vm_compute; reflexivity | reflexivity]. }
  split; [vm_compute; reflexivity|].
  split; [vm_compute; reflexivity|].
  split; vm_compute; reflexivity.
Qed.

(** *** Absolute rectangles *)







Lemma skeleton_with_dirty e d : skeleton (with_dirty e d) = skeleton e.
Proof. unfold skeleton. cbn. destruct (parent e); reflexivity. Qed.


Lemma same_but_dirty_layout m m' : same_but_dirty m m' -> same_layout m m'.
Proof.
  intros (R & _ & _ & H). split; [exact R|]. intros x. rewrite H.
  destruct (elements m !! x); cbn; [|reflexivity].
  rewrite skeleton_with_dirty. reflexivity.
Qed.





Lemma topleft_fuel_stable m x l :
  ancestors m x l -> forall fuel, (length l < fuel)%nat ->
  get_absolute_topleft_fuel fuel m x
  = get_absolute_topleft_fuel (S (length l)) m x.
Proof.
  induction 1 as [n e He Hp | n e p l He Hp _ IH]; intros fuel Hf;
    (destruct fuel as [|fuel]; [lia|]); cbn [get_absolute_topleft_fuel];
    rewrite (get_Ok _ _ _ He); cbn [mbind result_bind bind]; rewrite Hp;
    [reflexivity|].
  rewrite (IH fuel) by (cbn in Hf; lia). reflexivity.
Qed.




Lemma topleft_fuel_S fuel m n :
  get_absolute_topleft_fuel (S fuel) m n
  = (e ← get m n;
     match parent e with
     | None => Ok (UIRoot_get_absolute_topleft e)
     | Some p =>
         ptl ← get_absolute_topleft_fuel fuel m p;
         scroll ← applicable_scroll m e p;
         Ok (ptl.1 + rx (relative_rect e) - scroll.1,
             ptl.2 + ry (relative_rect e) - scroll.2)
     end).
Proof. reflexivity. Qed.

Lemma topleft_total m rank x l :
  tree m rank -> ancestors m x l ->
  exists tl, get_absolute_topleft m x = Ok tl.
Proof.
  intros Ht Hanc. unfold get_absolute_topleft.
  rewrite (topleft_fuel_stable m x l Hanc)
    by (pose proof (ancestors_length _ _ _ Hanc); lia).
  induction Hanc as [n e He Hp | n e p l He Hp Hanc IH];
    cbn [length]; rewrite topleft_fuel_S;
    rewrite (get_Ok _ _ _ He); cbn [mbind result_bind bind]; rewrite Hp;
    [eauto|].
  destruct IH as [ptl ->]. cbn [bind]. unfold applicable_scroll.
  destruct (tree_root _ _ Ht) as [r Hr].
  assert (Hpe : is_Some (elements m !! p))
    by (inversion Hanc; eauto).
  destruct Hpe as [pe Hpe].
  rewrite (get_Ok _ _ _ Hr), (get_Ok _ _ _ Hpe).
  destruct (ignore_scroll e); cbn; eauto.
Qed.

Lemma topleft_unfold m x e p l :
  elements m !! x = Some e -> parent e = Some p -> ancestors m x l ->
  get_absolute_topleft m x = resolved_absolute_topleft m x.
Proof.
  intros He Hp Hanc. unfold resolved_absolute_topleft, get_absolute_topleft.
  cbn [Nat.add]. rewrite topleft_fuel_S.
  rewrite (get_Ok _ _ _ He). cbn [mbind result_bind bind]. rewrite Hp.
  inversion Hanc as [|? ? p' l' He' Hp' Hanc']; subst; [congruence|].
  assert (p' = p) by congruence. subst p'.
  pose proof (ancestors_length _ _ _ Hanc) as Hlen. cbn in Hlen.
  rewrite (topleft_fuel_stable m p l' Hanc') by lia.
  rewrite (topleft_fuel_stable m p l' Hanc' (S (size (elements m)))) by lia.
  reflexivity.
Qed.




Lemma ancestors_exist m depth :
  map_Forall (fun x e =>
    match parent e with
    | Some p => is_Some (elements m !! p) /\ (depth p < depth x)%nat
    | None => True
    end) (elements m) ->
  forall d x, (depth x < d)%nat -> is_Some (elements m !! x) ->
  exists l, ancestors m x l.
Proof.
  intros H. induction d as [|d IH]; intros x Hd [e He]; [lia|].
  pose proof (H x e He) as Hx. cbn in Hx.
  destruct (parent e) as [p|] eqn:Hp.
  - destruct Hx as [Hpe Hlt]. destruct (IH p ltac:(lia) Hpe) as [l Hl].
    exists (p :: l). econstructor; eassumption.
  - exists []. econstructor; eassumption.
Qed.

Lemma tree_ok_tree m rank depth : tree_ok m rank depth -> tree m rank.
Proof.
  intros (Hc & Hp & Hr). split; [| |exact Hr].
  - intros x e c He Hin. pose proof (Hc x e He) as Hx. cbn in Hx.
    rewrite Forall_forall in Hx. apply Hx. exact Hin.
  - intros x Hx. apply (ancestors_exist m depth Hp (S (depth x))); [lia|exact Hx].
Qed.





(** *** Destruction *)

Lemma lookup_put m y e x :
  elements (put m y e) !! x
  = if decide (x = y) then Some e else elements m !! x.
Proof.
  cbn. destruct (decide (x = y)) as [->|Hne].
  - apply lookup_insert_eq.
  - apply lookup_insert_ne. congruence.
Qed.

(** Lists: [occ], [list_remove], [discard]. *)

Lemma occ_elem x l : (0 < occ x l)%nat <-> x ∈ l.
Proof.
  induction l as [|y l IH]; cbn.
  - rewrite elem_of_nil. lia.
  - rewrite elem_of_cons. destruct (decide (y = x)) as [->|Hne].
    + split; [auto | lia].
    + rewrite <- IH. split; [intros; right; lia|].
      intros [?|?]; [congruence | lia].
Qed.

Lemma list_remove_Some x l :
  (0 < occ x l)%nat ->
  exists l', list_remove x l = Some l'
    /\ forall z, occ z l' = (occ z l - (if decide (z = x) then 1 else 0))%nat.
Proof.
  induction l as [|y l IH]; cbn; intros H; [lia|].
  destruct (decide (y = x)) as [->|Hne].
  - exists l. split; [reflexivity|]. intros z.
    destruct (decide (x = z)), (decide (z = x)); subst; try congruence; lia.
  - destruct (IH ltac:(lia)) as (l' & -> & Hocc). exists (y :: l').
    split; [reflexivity|]. intros z. cbn. rewrite Hocc.
    destruct (decide (y = z)), (decide (z = x)); subst; try congruence; lia.
Qed.

Lemma list_remove_elem x l l' c :
  list_remove x l = Some l' -> (c ∈ l' -> c ∈ l) /\ (c ∈ l -> c ∈ l' \/ c = x).
Proof.
  revert l'. induction l as [|y l IH]; cbn; intros l' H; [discriminate|].
  destruct (decide (y = x)) as [->|Hne].
  - injection H as <-. rewrite elem_of_cons. split; [auto|].
    intros [->|?]; auto.
  - destruct (list_remove x l) as [l0|]; [|discriminate]. injection H as <-.
    destruct (IH l0 eq_refl) as [H1 H2]. rewrite !elem_of_cons. split.
    + intros [?|?]; auto.
    + intros [?|?]; [auto|]. destruct (H2 H); auto.
Qed.

Lemma list_remove_NoDup x l l' :
  list_remove x l = Some l' -> NoDup l -> NoDup l' /\ x ∉ l'.
Proof.
  revert l'. induction l as [|y l IH]; cbn; intros l' H Hnd; [discriminate|].
  apply NoDup_cons in Hnd as [Hy Hnd].
  destruct (decide (y = x)) as [->|Hne].
  - injection H as <-. auto.
  - destruct (list_remove x l) as [l0|] eqn:E; [|discriminate].
    injection H as <-. destruct (IH l0 eq_refl Hnd) as [H1 H2].
    split.
    + apply NoDup_cons. split; [|exact H1]. intros Hin.
      apply Hy. apply (list_remove_elem x l l0 y E). exact Hin.
    + rewrite elem_of_cons. intros [?|?]; [congruence | auto].
Qed.

Lemma list_remove_None x l : list_remove x l = None -> x ∉ l.
Proof.
  induction l as [|y l IH]; cbn; intros H; [apply not_elem_of_nil|].
  destruct (decide (y = x)); [discriminate|].
  destruct (list_remove x l); [discriminate|].
  rewrite elem_of_cons. intros [?|?]; [congruence|]. apply IH; auto.
Qed.

Lemma discard_elem x l c :
  (c ∈ discard x l -> c ∈ l) /\ (c ∈ l -> c ∈ discard x l \/ c = x).
Proof.
  unfold discard. destruct (list_remove x l) as [l'|] eqn:E; cbn.
  - exact (list_remove_elem x l l' c E).
  - auto.
Qed.

Lemma discard_NoDup x l : NoDup l -> NoDup (discard x l) /\ x ∉ discard x l.
Proof.
  unfold discard. destruct (list_remove x l) as [l'|] eqn:E; cbn; intros H.
  - exact (list_remove_NoDup x l l' E H).
  - split; [exact H | exact (list_remove_None x l E)].
Qed.

(** Anchor slots: [slots_to], [clear_first], [cleared]. *)

Lemma slots_to_clear_first d t l :
  slots_to t (clear_first d l)
  = (slots_to t l - (if decide (t = d) then 1 else 0))%nat.
Proof.
  induction l as [|[an [ad|]] l IH]; cbn [clear_first slots_to].
  - lia.
  - destruct (decide (target ad = d)) as [Hd|Hd]; cbn [slots_to].
    + destruct (decide (target ad = t)), (decide (t = d)); try congruence; lia.
    + rewrite IH.
      destruct (decide (target ad = t)), (decide (t = d)); try congruence; lia.
  - exact IH.
Qed.

Lemma slots_to_iter_clear_first d t k l :
  slots_to t (Nat.iter k (clear_first d) l)
  = (slots_to t l - (if decide (t = d) then k else 0))%nat.
Proof.
  induction k as [|k IH].
  - cbn. destruct (decide (t = d)); lia.
  - rewrite Nat.iter_succ, slots_to_clear_first, IH.
    destruct (decide (t = d)); lia.
Qed.

Lemma cleared_anchors_set na K l :
  cleared K (anchors_set na None l) = cleared (na :: K) l.
Proof.
  unfold cleared, anchors_set. rewrite map_map. apply map_ext. intros [k v].
  cbn [fst]. destruct (decide (k = na)) as [->|Hne]; cbn [fst].
  - rewrite (decide_True (P := na ∈ na :: K)) by apply list_elem_of_here.
    destruct (decide (na ∈ K)); reflexivity.
  - destruct (decide (k ∈ K)) as [Hin|Hnin].
    + rewrite decide_True by (apply list_elem_of_further; exact Hin). reflexivity.
    + rewrite decide_False; [reflexivity|].
      rewrite elem_of_cons. intros [?|?]; congruence.
Qed.

Lemma cleared_nil l : cleared [] l = l.
Proof.
  unfold cleared. rewrite <- (map_id l) at 2. apply map_ext. intros p.
  rewrite decide_False by apply not_elem_of_nil. reflexivity.
Qed.

Lemma slots_to_cleared_le t K l :
  (slots_to t (cleared K l) <= slots_to t l)%nat.
Proof.
  unfold cleared.
  induction l as [|[k [ad|]] l IH]; cbn [map slots_to fst]; [lia| |].
  - destruct (decide (k ∈ K)); cbn [slots_to];
      destruct (decide (target ad = t)); lia.
  - destruct (decide (k ∈ K)); cbn [slots_to]; exact IH.
Qed.

Lemma slots_to_cleared_all t K l :
  (forall k ad, (k, Some ad) ∈ l -> k ∈ K) -> slots_to t (cleared K l) = 0%nat.
Proof.
  unfold cleared.
  induction l as [|[k [ad|]] l IH]; cbn [map slots_to fst]; intros H;
    [reflexivity| |].
  - rewrite decide_True by (apply (H k ad), list_elem_of_here).
    cbn [slots_to].
    apply IH. intros k' ad' Hin. apply (H k' ad'), list_elem_of_further, Hin.
  - destruct (decide (k ∈ K)); cbn [slots_to];
      apply IH; intros k' ad' Hin; apply (H k' ad'), list_elem_of_further, Hin.
Qed.

Lemma set_keys_elem k ad l : (k, Some ad) ∈ l -> k ∈ set_keys l.
Proof.
  intros H. unfold set_keys. apply list_elem_of_omap.
  exists (k, Some ad). split; [exact H | reflexivity].
Qed.

(** Reading attributes after a write. *)

Lemma put_dom m y e e' x :
  elements m !! y = Some e ->
  is_Some (elements (put m y e') !! x) <-> is_Some (elements m !! x).
Proof.
  intros He. rewrite lookup_put. destruct (decide (x = y)) as [->|?];
    [rewrite He; split; eauto | reflexivity].
Qed.

Lemma put_parent_of m y e' x :
  parent_of (put m y e') x = if decide (x = y) then parent e' else parent_of m x.
Proof. unfold parent_of. rewrite lookup_put. destruct (decide (x = y)); reflexivity. Qed.

Lemma put_ghost_of m y e' x :
  ghost_of (put m y e') x
  = if decide (x = y) then ghost_element e' else ghost_of m x.
Proof. unfold ghost_of. rewrite lookup_put. destruct (decide (x = y)); reflexivity. Qed.

Lemma put_children_of m y e' x :
  children_of (put m y e') x
  = if decide (x = y) then children e' else children_of m x.
Proof. unfold children_of. rewrite lookup_put. destruct (decide (x = y)); reflexivity. Qed.

Lemma put_observers_of m y e' x :
  observers_of (put m y e') x
  = if decide (x = y) then _anchor_observers e' else observers_of m x.
Proof. unfold observers_of. rewrite lookup_put. destruct (decide (x = y)); reflexivity. Qed.

Lemma put_anchors_of m y e' x :
  anchors_of (put m y e') x
  = if decide (x = y) then _anchors e' else anchors_of m x.
Proof. unfold anchors_of. rewrite lookup_put. destruct (decide (x = y)); reflexivity. Qed.

Lemma lookup_fields m y e :
  elements m !! y = Some e ->
  parent_of m y = parent e /\ ghost_of m y = ghost_element e
  /\ children_of m y = children e /\ observers_of m y = _anchor_observers e
  /\ anchors_of m y = _anchors e.
Proof.
  intros He. unfold parent_of, ghost_of, children_of, observers_of, anchors_of.
  rewrite He. repeat split.
Qed.

(** [same_refs] and [shrinks]. *)

Lemma same_refs_refl m : same_refs m m.
Proof. split; reflexivity. Qed.

Lemma same_refs_trans m1 m2 m3 :
  same_refs m1 m2 -> same_refs m2 m3 -> same_refs m1 m3.
Proof.
  intros [] []. split; intros; try congruence.
  etransitivity; eauto.
Qed.

Lemma same_but_dirty_refs m m' : same_but_dirty m m' -> same_refs m m'.
Proof.
  intros (R & A & C & H).
  split; try assumption; intros y;
    unfold parent_of, ghost_of, children_of, observers_of, anchors_of;
    rewrite ?(H y); destruct (elements m !! y); cbn; try reflexivity;
    split; try (intros [? ?]; discriminate); eauto.
Qed.

Lemma same_refs_shrinks m m' : same_refs m m' -> shrinks m m'.
Proof.
  intros []. split; try assumption; intros.
  - rewrite <- (sr_children0 y). assumption.
  - rewrite (sr_observers0 y). lia.
  - rewrite (sr_anchors0 y). lia.
  - rewrite <- sr_all0. assumption.
  - rewrite <- sr_cbs0. assumption.
Qed.

Lemma shrinks_refl m : shrinks m m.
Proof. apply same_refs_shrinks, same_refs_refl. Qed.

Lemma shrinks_trans m1 m2 m3 : shrinks m1 m2 -> shrinks m2 m3 -> shrinks m1 m3.
Proof.
  intros [] []. split; intros; try congruence; eauto.
  - etransitivity; eauto.
  - etransitivity; eauto.
  - etransitivity; eauto.
Qed.

Lemma same_refs_covered m m' : same_refs m m' -> covered m -> covered m'.
Proof.
  intros [] H o t. rewrite (sr_anchors0 o), (sr_observers0 t). apply H.
Qed.

Lemma ancestors_parent_of m n l :
  ancestors m n l <->
  is_Some (elements m !! n)
  /\ match l with
     | [] => parent_of m n = None
     | p :: l' => parent_of m n = Some p /\ ancestors m p l'
     end.
Proof.
  split.
  - intros H. inversion H as [? e He Hp | ? e p l' He Hp Hanc]; subst;
      destruct (lookup_fields _ _ _ He) as (-> & _); eauto.
  - intros [[e He] H]. destruct (lookup_fields _ _ _ He) as (Hpo & _).
    rewrite Hpo in H. destruct l as [|p l'].
    + econstructor; eassumption.
    + destruct H. econstructor; eassumption.
Qed.

Lemma shrinks_ancestors m m' y l :
  shrinks m m' -> ancestors m y l -> ancestors m' y l.
Proof.
  intros Hs. revert y. induction l as [|p l IH]; intros y H;
    apply ancestors_parent_of in H as [Hy H]; apply ancestors_parent_of;
    (split; [apply (sh_dom _ _ Hs); exact Hy|]);
    rewrite (sh_parent _ _ Hs).
  - exact H.
  - destruct H. split; auto.
Qed.

Lemma shrinks_destroyed m m' x :
  shrinks m m' -> destroyed m x -> destroyed m' x.
Proof.
  intros Hs [(Ha & Hall & Hcb) Hch]. split; [split; [|split]|].
  - intros o. pose proof (sh_anchors _ _ Hs o x). rewrite Ha in *. lia.
  - intros H. apply Hall, (sh_all _ _ Hs), H.
  - intros H. apply Hcb, (sh_cbs _ _ Hs), H.
  - destruct (children_of m' x) as [|c l] eqn:E; [reflexivity|].
    pose proof (sh_children _ _ Hs x c) as H. rewrite E, Hch in H.
    specialize (H (list_elem_of_here _ _)). inversion H.
Qed.

Lemma scene_shrinks m m' rank :
  scene m rank -> shrinks m m' -> covered m' ->
  NoDup (_all_elements m') -> NoDup (_event_callbacks m') -> scene m' rank.
Proof.
  intros Hsc Hs Hcov Hn1 Hn2. split; try assumption.
  - intros y c Hc. apply (sh_children _ _ Hs) in Hc.
    destruct (sc_children _ _ Hsc y c Hc) as (H1 & H2 & H3).
    split; [apply (sh_dom _ _ Hs); exact H1|]. split; [exact H2|].
    rewrite (sh_parent _ _ Hs). exact H3.
  - intros y g Hg. rewrite (sh_ghost _ _ Hs) in Hg.
    destruct (sc_ghost _ _ Hsc y g Hg) as (H1 & H2 & H3).
    split; [apply (sh_dom _ _ Hs); exact H1|]. split; [exact H2|].
    rewrite (sh_parent _ _ Hs). exact H3.
  - intros y o Ho. apply (sh_dom _ _ Hs). apply (sc_observers _ _ Hsc y o).
    apply occ_elem. apply occ_elem in Ho.
    pose proof (sh_observers _ _ Hs y o). lia.
  - intros y t Ht. apply (sh_dom _ _ Hs). apply (sc_targets _ _ Hsc y t).
    pose proof (sh_anchors _ _ Hs y t). lia.
  - intros y Hy. apply (sh_dom _ _ Hs) in Hy.
    destruct (sc_ancestors _ _ Hsc y Hy) as [l Hl]. exists l.
    eapply shrinks_ancestors; eassumption.
Qed.

Lemma orphans_destroyed_trans X m1 m2 m3 :
  orphans_destroyed X m1 m2 -> shrinks m2 m3 -> orphans_destroyed [] m2 m3 ->
  orphans_destroyed X m1 m3.
Proof.
  intros H12 Hs H23 y c Hc. destruct (H12 y c Hc) as [H|[H|H]].
  - destruct (H23 y c H) as [?|[?|Hn]]; auto. inversion Hn.
  - right. left. eapply shrinks_destroyed; eassumption.
  - auto.
Qed.

Lemma same_refs_orphans m m' : same_refs m m' -> orphans_destroyed [] m m'.
Proof. intros Hs y c Hc. left. rewrite (sr_children _ _ Hs). exact Hc. Qed.

Lemma same_frame_refl m : same_frame m m.
Proof. split; reflexivity. Qed.

Lemma same_frame_trans m1 m2 m3 :
  same_frame m1 m2 -> same_frame m2 m3 -> same_frame m1 m3.
Proof.
  intros [] []. split; intros; try congruence. etransitivity; eauto.
Qed.

Lemma same_refs_frame m m' : same_refs m m' -> same_frame m m'.
Proof. intros []. split; assumption. Qed.

Lemma same_frame_put m y e e' :
  elements m !! y = Some e -> parent e' = parent e ->
  ghost_element e' = ghost_element e -> same_frame m (put m y e').
Proof.
  intros He Hp Hg. destruct (lookup_fields _ _ _ He) as (Hpo & Hgo & _).
  split; try reflexivity; intros x.
  - apply (put_dom m y e e' x He).
  - rewrite put_parent_of. destruct (decide (x = y)); congruence.
  - rewrite put_ghost_of. destruct (decide (x = y)); congruence.
Qed.

Lemma same_frame_shrinks m m' :
  same_frame m m' ->
  (forall y c, c ∈ children_of m' y -> c ∈ children_of m y) ->
  (forall y z, (occ z (observers_of m' y) <= occ z (observers_of m y))%nat) ->
  (forall y t, (slots_to t (anchors_of m' y) <= slots_to t (anchors_of m y))%nat) ->
  shrinks m m'.
Proof.
  intros [] Hc Ho Ha. split; try assumption; intros z Hz; congruence.
Qed.

(** The observer loop of [destroy] (element.py 193-194). *)
Lemma dead_anchor_loop d L : forall m,
  (forall o, o ∈ L -> is_Some (elements m !! o)) ->
  exists m', for_each (fun m obs => _remove_dead_anchor m obs d) L m = Ok m'
    /\ same_frame m m'
    /\ (forall y, children_of m' y = children_of m y)
    /\ (forall y, observers_of m' y = observers_of m y)
    /\ (forall o, anchors_of m' o
                = Nat.iter (occ o L) (clear_first d) (anchors_of m o)).
Proof.
  induction L as [|o L IH]; intros m HL.
  - exists m. split; [reflexivity|]. split; [apply same_frame_refl|].
    repeat split; reflexivity.
  - destruct (HL o (list_elem_of_here _ _)) as [oe Hoe].
    set (m1 := put m o (with_anchors oe (clear_first d (_anchors oe)))).
    destruct (IH m1) as (m' & E & Hf & Hc & Ho & Ha).
    { intros o' Ho'. apply (put_dom m o oe _ o' Hoe).
      apply HL, list_elem_of_further, Ho'. }
    assert (E1 : _remove_dead_anchor m o d = Ok m1).
    { unfold _remove_dead_anchor. rewrite (get_Ok _ _ _ Hoe). reflexivity. }
    exists m'. cbn [for_each]. rewrite E1. cbn [mbind result_bind bind].
    split; [exact E|].
    destruct (lookup_fields _ _ _ Hoe) as (_ & _ & Hch & Hob & Han).
    split; [|split; [|split]].
    + apply (same_frame_trans m m1 m'); [|exact Hf].
      apply (same_frame_put m o oe); [exact Hoe | reflexivity | reflexivity].
    + intros y. rewrite Hc. unfold m1. rewrite put_children_of.
      destruct (decide (y = o)) as [->|?]; [symmetry; exact Hch | reflexivity].
    + intros y. rewrite Ho. unfold m1. rewrite put_observers_of.
      destruct (decide (y = o)) as [->|?]; [symmetry; exact Hob | reflexivity].
    + intros o'. rewrite Ha. unfold m1. rewrite put_anchors_of. cbn [occ].
      destruct (decide (o' = o)) as [->|Hne].
      * rewrite decide_True by reflexivity. cbn [_anchors with_anchors].
        rewrite Han. change (1 + occ o L)%nat with (S (occ o L)).
        rewrite Nat.iter_succ_r. reflexivity.
      * rewrite decide_False by congruence. reflexivity.
Qed.

(** The loop of [remove_anchors] over a list [l] of slots. *)
Lemma remove_anchor_loop d l : forall m,
  is_Some (elements m !! d) ->
  (forall t, (slots_to t l <= occ d (observers_of m t))%nat) ->
  (forall t, (0 < slots_to t l)%nat -> is_Some (elements m !! t)) ->
  exists m', for_each (remove_anchor d) l m = Ok m'
    /\ same_frame m m'
    /\ (forall y, children_of m' y = children_of m y)
    /\ (forall o, o <> d -> anchors_of m' o = anchors_of m o)
    /\ anchors_of m' d = cleared (set_keys l) (anchors_of m d)
    /\ (forall t z, occ z (observers_of m' t)
          = (occ z (observers_of m t)
             - (if decide (z = d) then slots_to t l else 0))%nat).
Proof.
  induction l as [|[na [ad|]] l IH]; intros m Hd Hocc Hin.
  - exists m. split; [reflexivity|]. split; [apply same_frame_refl|].
    split; [reflexivity|]. split; [reflexivity|].
    split; [cbn; rewrite cleared_nil; reflexivity|].
    intros t z. cbn. destruct (decide (z = d)); lia.
  - (* a set slot *)
    set (t0 := target ad).
    assert (Ht0 : (0 < slots_to t0 ((na, Some ad) :: l))%nat).
    { cbn [slots_to]. unfold t0. rewrite decide_True by reflexivity. lia. }
    destruct (Hin t0 Ht0) as [te Hte].
    destruct (lookup_fields _ _ _ Hte) as (_ & _ & Hte_ch & Hte_ob & Hte_an).
    destruct (list_remove_Some d (_anchor_observers te)) as (obs & Eobs & Hobs).
    { rewrite <- Hte_ob. specialize (Hocc t0). lia. }
    set (m1 := put m t0 (with_observers te obs)).
    assert (Hd1 : is_Some (elements m1 !! d))
      by (apply (put_dom m t0 te _ d Hte); exact Hd).
    destruct Hd1 as [se Hse].
    destruct (lookup_fields _ _ _ Hse) as (_ & _ & Hse_ch & Hse_ob & Hse_an).
    set (m2 := put m1 d (with_anchors se (anchors_set na None (_anchors se)))).
    assert (Hf2 : same_frame m m2).
    { apply (same_frame_trans m m1 m2).
      - apply (same_frame_put m t0 te); [exact Hte | reflexivity | reflexivity].
      - apply (same_frame_put m1 d se); [exact Hse | reflexivity | reflexivity]. }
    assert (Hch2 : forall y, children_of m2 y = children_of m y).
    { intros y. unfold m2. rewrite put_children_of.
      destruct (decide (y = d)) as [->|?].
      - cbn [children with_anchors]. rewrite <- Hse_ch. unfold m1.
        rewrite put_children_of.
        destruct (decide (d = t0)) as [->|?]; [symmetry; exact Hte_ch | reflexivity].
      - unfold m1. rewrite put_children_of.
        destruct (decide (y = t0)) as [->|?]; [symmetry; exact Hte_ch | reflexivity]. }
    assert (Hob1 : forall y, observers_of m1 y
                     = if decide (y = t0) then obs else observers_of m y).
    { intros y. unfold m1. rewrite put_observers_of. reflexivity. }
    assert (Hob2 : forall y, observers_of m2 y
                     = if decide (y = t0) then obs else observers_of m y).
    { intros y. unfold m2. rewrite put_observers_of.
      destruct (decide (y = d)) as [->|?]; [|apply Hob1].
      cbn [_anchor_observers with_anchors]. rewrite <- Hse_ob. apply Hob1. }
    assert (Han1 : forall y, anchors_of m1 y = anchors_of m y).
    { intros y. unfold m1. rewrite put_anchors_of.
      destruct (decide (y = t0)) as [->|?]; [symmetry; exact Hte_an | reflexivity]. }
    assert (Han2 : forall y, anchors_of m2 y
                     = if decide (y = d) then anchors_set na None (anchors_of m d)
                       else anchors_of m y).
    { intros y. unfold m2. rewrite put_anchors_of.
      destruct (decide (y = d)) as [->|?]; [|apply Han1].
      cbn [_anchors with_anchors]. rewrite <- Hse_an, Han1. reflexivity. }
    destruct (IH m2) as (m' & E & Hf & Hc & Ha & Had & Ho).
    { apply (sf_dom _ _ Hf2). exact Hd. }
    { intros t. rewrite Hob2. specialize (Hocc t). cbn [slots_to] in Hocc.
      fold t0 in Hocc. destruct (decide (t = t0)) as [->|?].
      - rewrite Hobs, <- Hte_ob.
        destruct (decide (t0 = t0)); [|congruence].
        destruct (decide (d = d)); [|congruence]. lia.
      - destruct (decide (t0 = t)); [congruence|]. lia. }
    { intros t Ht. apply (sf_dom _ _ Hf2). apply Hin. cbn [slots_to].
      destruct (decide (target ad = t)); lia. }
    assert (E1 : remove_anchor d m (na, Some ad) = Ok m2).
    { unfold remove_anchor. cbn [snd fst].
      fold t0. rewrite (get_Ok _ _ _ Hte). cbn [mbind result_bind bind].
      rewrite Eobs. fold m1. rewrite (get_Ok _ _ _ Hse). reflexivity. }
    exists m'. cbn [for_each]. rewrite E1. cbn [mbind result_bind bind].
    split; [exact E|]. split; [eapply same_frame_trans; eassumption|].
    split; [intros y; rewrite Hc; apply Hch2|].
    split; [intros o Hne; rewrite (Ha o Hne), Han2, decide_False by exact Hne;
            reflexivity|].
    split.
    + rewrite Had, Han2, decide_True by reflexivity.
      rewrite cleared_anchors_set. reflexivity.
    + intros t z. rewrite Ho, Hob2. cbn [slots_to]. fold t0.
      destruct (decide (t = t0)) as [->|Hne].
      * rewrite Hobs, <- Hte_ob.
        destruct (decide (t0 = t0)); [|congruence].
        destruct (decide (z = d)); lia.
      * destruct (decide (t0 = t)); [congruence|].
        destruct (decide (z = d)); lia.
  - (* an empty slot *)
    destruct (IH m Hd) as (m' & E & Hrest).
    { intros t. apply Hocc. }
    { intros t Ht. apply Hin. exact Ht. }
    exists m'. split; [exact E | exact Hrest].
Qed.

Lemma list_remove_in x l l' : list_remove x l = Some l' -> x ∈ l.
Proof.
  revert l'. induction l as [|y l IH]; cbn; intros l' E; [discriminate|].
  destruct (decide (y = x)) as [->|?]; [apply list_elem_of_here|].
  destruct (list_remove x l) as [l0|]; [|discriminate].
  apply list_elem_of_further. exact (IH l0 eq_refl).
Qed.

Lemma discard_notin x l : x ∉ l -> discard x l = l.
Proof.
  intros H. unfold discard. destruct (list_remove x l) as [l'|] eqn:E;
    [|reflexivity].
  exfalso. apply H. exact (list_remove_in x l l' E).
Qed.

(** [self.parent.remove_child(self)] (element.py 198). *)
Lemma parent_remove_child_spec m p x l :
  ancestors m p l ->
  exists m', parent_remove_child m p x = Ok m'
    /\ same_frame m m'
    /\ (forall y, children_of m' y
          = if decide (y = p) then discard x (children_of m p)
            else children_of m y)
    /\ (forall y, observers_of m' y = observers_of m y)
    /\ (forall y, anchors_of m' y = anchors_of m y).
Proof.
  intros Hanc.
  assert (Hp : is_Some (elements m !! p)) by (inversion Hanc; eauto).
  destruct Hp as [pe Hpe].
  destruct (lookup_fields _ _ _ Hpe) as (_ & _ & Hch & Hob & Han).
  assert (E : parent_remove_child m p x
              = if bool_decide (x ∈ children pe)
                then set_dirty (put m p (with_children pe
                                           (discard x (children pe)))) p true
                else Ok m).
  { unfold parent_remove_child, UIRoot_remove_child, remove_child.
    rewrite (get_Ok _ _ _ Hpe). cbn [mbind result_bind bind].
    destruct (parent pe); reflexivity. }
  rewrite E. clear E.
  destruct (bool_decide_reflect (x ∈ children pe)) as [Hin|Hnin].
  - set (m1 := put m p (with_children pe (discard x (children pe)))).
    assert (Hanc1 : ancestors m1 p l)
      by (apply (ancestors_put m p pe); [exact Hpe | reflexivity | exact Hanc]).
    destruct (set_dirty_completes m1 p l Hanc1) as (m' & E & Hsd).
    pose proof (same_but_dirty_refs _ _ Hsd) as Hr.
    exists m'. split; [exact E|]. split.
    { apply (same_frame_trans m m1 m'); [|apply same_refs_frame; exact Hr].
      apply (same_frame_put m p pe); [exact Hpe | reflexivity | reflexivity]. }
    split; [|split].
    + intros y. rewrite (sr_children _ _ Hr). unfold m1.
      rewrite put_children_of. rewrite Hch. reflexivity.
    + intros y. rewrite (sr_observers _ _ Hr). unfold m1.
      rewrite put_observers_of.
      destruct (decide (y = p)) as [->|?]; [symmetry; exact Hob | reflexivity].
    + intros y. rewrite (sr_anchors _ _ Hr). unfold m1.
      rewrite put_anchors_of.
      destruct (decide (y = p)) as [->|?]; [symmetry; exact Han | reflexivity].
  - exists m. split; [reflexivity|]. split; [apply same_frame_refl|].
    split; [|split; reflexivity].
    intros y. destruct (decide (y = p)) as [->|?]; [|reflexivity].
    rewrite Hch, discard_notin by exact Hnin. reflexivity.
Qed.

Lemma orphans_destroyed_app X Y m1 m2 m3 :
  orphans_destroyed X m1 m2 -> shrinks m2 m3 -> orphans_destroyed Y m2 m3 ->
  orphans_destroyed (X ++ Y) m1 m3.
Proof.
  intros H12 Hs H23 y c Hc. rewrite elem_of_app.
  destruct (H12 y c Hc) as [H|[H|H]]; [|right; left|tauto].
  - destruct (H23 y c H) as [?|[?|?]]; tauto.
  - eapply shrinks_destroyed; eassumption.
Qed.

Lemma orphans_destroyed_settle X m m' :
  orphans_destroyed X m m' -> (forall c, c ∈ X -> destroyed m' c) ->
  orphans_destroyed [] m m'.
Proof. intros H HX y c Hc. destruct (H y c Hc) as [?|[?|?]]; auto. Qed.

Lemma orphans_same_children m m' :
  (forall y, children_of m' y = children_of m y) -> orphans_destroyed [] m m'.
Proof. intros H y c Hc. left. rewrite H. exact Hc. Qed.

Lemma destroy_S fuel m n e :
  elements m !! n = Some e ->
  destroy (S fuel) m n true
  = (m ← for_each (fun m obs => _remove_dead_anchor m obs n)
           (_anchor_observers e) m;
     m ← remove_anchors m n;
     m ← match ghost_element e with
         | Some g => destroy fuel m g true
         | None => Ok m
         end;
     p ← match parent e with
         | Some p => Ok p
         | None => Raise ReferenceError
         end;
     m ← parent_remove_child m p n;
     e ← get m n;
     m ← for_each (fun m child => destroy fuel m child true) (children e) m;
     e ← get m n;
     Ok (unregister (put m n (with_children e [])) n)).
Proof.
  intros He. cbn [destroy]. rewrite (get_Ok _ _ _ He).
  cbn [mbind result_bind bind]. rewrite andb_false_r. reflexivity.
Qed.

(** One [destroy(True)] on a well-formed scene: it completes, only drops
    references, leaves the scene well formed, and the element destroyed. *)
Lemma destroy_spec rank fuel : forall m x,
  scene m rank -> is_Some (elements m !! x) -> is_Some (parent_of m x) ->
  (rank x < fuel)%nat ->
  exists m', destroy fuel m x true = Ok m'
    /\ scene m' rank /\ shrinks m m' /\ orphans_destroyed [] m m'
    /\ destroyed m' x
    /\ (forall t, t <> x ->
          (occ x (observers_of m' t)
           <= occ x (observers_of m t) - slots_to t (anchors_of m x))%nat).
Proof.
  induction fuel as [|fuel IH]; intros m x Hsc [e He] [p Hp] Hrk; [lia|].
  rewrite (destroy_S fuel m x e He).
  destruct (lookup_fields _ _ _ He) as (Hpo & Hgo & Hcho & Hobo & Hano).
  (* the observers' anchors *)
  destruct (dead_anchor_loop x (_anchor_observers e) m)
    as (m3 & E3 & Hf3 & Hc3 & Ho3 & Ha3).
  { intros o Ho. apply (sc_observers _ _ Hsc x o). rewrite Hobo. exact Ho. }
  rewrite E3. cbn [mbind result_bind bind].
  assert (Hs3 : shrinks m m3).
  { apply same_frame_shrinks; [exact Hf3 | | |].
    - intros y c. rewrite Hc3. auto.
    - intros y z. rewrite Ho3. lia.
    - intros y t. rewrite Ha3, slots_to_iter_clear_first. lia. }
  assert (Hcov3 : covered m3).
  { intros o t. rewrite Ho3. pose proof (sh_anchors _ _ Hs3 o t).
    pose proof (sc_covered _ _ Hsc o t). lia. }
  assert (Hsc3 : scene m3 rank).
  { apply (scene_shrinks m m3 rank Hsc Hs3 Hcov3).
    - rewrite (sf_all _ _ Hf3). apply (sc_all _ _ Hsc).
    - rewrite (sf_cbs _ _ Hf3). apply (sc_cbs _ _ Hsc). }
  assert (HA3 : forall o, slots_to x (anchors_of m3 o) = 0%nat).
  { intros o. rewrite Ha3, slots_to_iter_clear_first.
    rewrite decide_True by reflexivity.
    pose proof (sc_covered _ _ Hsc o x) as H. rewrite Hobo in H. lia. }
  assert (HB3 : forall t, t <> x ->
            slots_to t (anchors_of m3 x) = slots_to t (anchors_of m x)).
  { intros t Hne. rewrite Ha3, slots_to_iter_clear_first.
    rewrite decide_False by exact Hne. lia. }
  (* the element's own anchors *)
  assert (Hx3 : is_Some (elements m3 !! x))
    by (apply (sh_dom _ _ Hs3); eauto).
  destruct Hx3 as [e3 He3].
  destruct (lookup_fields _ _ _ He3) as (_ & _ & _ & _ & Han3).
  destruct (remove_anchor_loop x (_anchors e3) m3)
    as (m4 & E4 & Hf4 & Hc4 & Ha4 & Had4 & Ho4).
  { eauto. }
  { intros t. rewrite <- Han3. apply Hcov3. }
  { intros t Ht. apply (sc_targets _ _ Hsc3 x t). rewrite Han3. exact Ht. }
  assert (E4' : remove_anchors m3 x = Ok m4).
  { unfold remove_anchors. rewrite (get_Ok _ _ _ He3). exact E4. }
  rewrite E4'. cbn [mbind result_bind bind].
  assert (Hx4 : forall t, slots_to t (anchors_of m4 x) = 0%nat).
  { intros t. rewrite Had4, Han3. apply slots_to_cleared_all.
    intros k ad Hin. exact (set_keys_elem k ad _ Hin). }
  assert (Hs4 : shrinks m3 m4).
  { apply same_frame_shrinks; [exact Hf4 | | |].
    - intros y c. rewrite Hc4. auto.
    - intros y z. rewrite Ho4. lia.
    - intros y t. destruct (decide (y = x)) as [->|Hne].
      + rewrite Hx4. lia.
      + rewrite (Ha4 y Hne). lia. }
  assert (Hcov4 : covered m4).
  { intros o t. destruct (decide (o = x)) as [->|Hne].
    - rewrite Hx4. lia.
    - rewrite (Ha4 o Hne), Ho4, decide_False by exact Hne.
      pose proof (Hcov3 o t). lia. }
  assert (Hsc4 : scene m4 rank).
  { apply (scene_shrinks m3 m4 rank Hsc3 Hs4 Hcov4).
    - rewrite (sf_all _ _ Hf4). apply (sc_all _ _ Hsc3).
    - rewrite (sf_cbs _ _ Hf4). apply (sc_cbs _ _ Hsc3). }
  assert (HA4 : forall o, slots_to x (anchors_of m4 o) = 0%nat).
  { intros o. destruct (decide (o = x)) as [->|Hne]; [apply Hx4|].
    rewrite (Ha4 o Hne). apply HA3. }
  assert (HB4 : forall t, t <> x ->
            (occ x (observers_of m4 t)
             <= occ x (observers_of m t) - slots_to t (anchors_of m x))%nat).
  { intros t Hne. rewrite Ho4, decide_True by reflexivity.
    rewrite Ho3, <- Han3, (HB3 t Hne). lia. }
  assert (Hs04 : shrinks m m4) by (eapply shrinks_trans; eassumption).
  assert (Hor04 : orphans_destroyed [] m m4).
  { apply orphans_same_children. intros y. rewrite Hc4. apply Hc3. }
  (* the ghost *)
  assert (Hghost : exists m5,
            match ghost_element e with
            | Some g => destroy fuel m4 g true
            | None => Ok m4
            end = Ok m5
            /\ scene m5 rank /\ shrinks m4 m5 /\ orphans_destroyed [] m4 m5).
  { destruct (ghost_element e) as [g|] eqn:Hg.
    - assert (Hg4 : ghost_of m4 x = Some g).
      { rewrite (sh_ghost _ _ Hs04), Hgo. reflexivity. }
      destruct (sc_ghost _ _ Hsc4 x g Hg4) as (G1 & G2 & G3).
      destruct (IH m4 g Hsc4 G1 G3 ltac:(lia)) as (m5 & E5 & ? & ? & ? & _).
      exists m5. auto.
    - exists m4. split; [reflexivity|]. split; [exact Hsc4|].
      split; [apply shrinks_refl|]. apply orphans_same_children. reflexivity. }
  destruct Hghost as (m5 & E5 & Hsc5 & Hs5 & Hor5).
  rewrite E5. cbn [mbind result_bind bind].
  assert (Hs05 : shrinks m m5) by (eapply shrinks_trans; eassumption).
  (* detaching from the parent *)
  rewrite Hpo in Hp. rewrite Hp. cbn [mbind result_bind bind].
  assert (Hx5 : is_Some (elements m5 !! x)) by (apply (sh_dom _ _ Hs05); eauto).
  destruct (sc_ancestors _ _ Hsc5 x Hx5) as [lx Hlx].
  apply ancestors_parent_of in Hlx as [_ Hlx].
  assert (Hp5 : parent_of m5 x = Some p)
    by (rewrite (sh_parent _ _ Hs05), Hpo; exact Hp).
  rewrite Hp5 in Hlx. destruct lx as [|p' lp]; [discriminate|].
  destruct Hlx as [Hpp Hlp]. injection Hpp as <-.
  destruct (parent_remove_child_spec m5 p x lp Hlp)
    as (m6 & E6 & Hf6 & Hc6 & Ho6 & Ha6).
  rewrite E6. cbn [mbind result_bind bind].
  assert (Hs6 : shrinks m5 m6).
  { apply same_frame_shrinks; [exact Hf6 | | |].
    - intros y c. rewrite Hc6. destruct (decide (y = p)) as [->|?]; [|auto].
      apply discard_elem.
    - intros y z. rewrite Ho6. lia.
    - intros y t. rewrite Ha6. lia. }
  assert (Hcov6 : covered m6).
  { intros o t. rewrite Ha6, Ho6. apply (sc_covered _ _ Hsc5). }
  assert (Hsc6 : scene m6 rank).
  { apply (scene_shrinks m5 m6 rank Hsc5 Hs6 Hcov6).
    - rewrite (sf_all _ _ Hf6). apply (sc_all _ _ Hsc5).
    - rewrite (sf_cbs _ _ Hf6). apply (sc_cbs _ _ Hsc5). }
  assert (Hor6 : orphans_destroyed [x] m5 m6).
  { intros y c Hc. rewrite Hc6. destruct (decide (y = p)) as [->|?]; [|auto].
    destruct (proj2 (discard_elem x (children_of m5 p) c) Hc) as [H|H];
      [auto|]. subst c. right. right. apply list_elem_of_here. }
  assert (Hs06 : shrinks m m6) by (eapply shrinks_trans; eassumption).
  (* the children *)
  assert (Hx6 : is_Some (elements m6 !! x)) by (apply (sh_dom _ _ Hs06); eauto).
  destruct Hx6 as [e6 He6]. rewrite (get_Ok _ _ _ He6).
  cbn [mbind result_bind bind].
  destruct (lookup_fields _ _ _ He6) as (_ & _ & Hch6 & _ & _).
  assert (Hfold : forall cs ma,
            scene ma rank ->
            (forall c, c ∈ cs -> is_Some (elements ma !! c)
                                 /\ (rank c < fuel)%nat
                                 /\ is_Some (parent_of ma c)) ->
            exists mb,
              for_each (fun m child => destroy fuel m child true) cs ma = Ok mb
              /\ scene mb rank /\ shrinks ma mb /\ orphans_destroyed [] ma mb
              /\ forall c, c ∈ cs -> destroyed mb c).
  { induction cs as [|c cs IHcs]; intros ma Hsa Hcs.
    - exists ma. split; [reflexivity|]. split; [exact Hsa|].
      split; [apply shrinks_refl|].
      split; [apply orphans_same_children; reflexivity|].
      intros c Hc. inversion Hc.
    - destruct (Hcs c (list_elem_of_here _ _)) as (C1 & C2 & C3).
      destruct (IH ma c Hsa C1 C3 C2) as (mc & Ec & Hscc & Hsc' & Horc & Hdc & _).
      destruct (IHcs mc Hscc) as (mb & Eb & Hscb & Hsb & Horb & Hdb).
      { intros c' Hc'.
        destruct (Hcs c' (list_elem_of_further _ _ _ Hc')) as (D1 & D2 & D3).
        split; [apply (sh_dom _ _ Hsc'); exact D1|]. split; [exact D2|].
        rewrite (sh_parent _ _ Hsc'). exact D3. }
      exists mb. cbn [for_each]. rewrite Ec. cbn [mbind result_bind bind].
      split; [exact Eb|]. split; [exact Hscb|].
      split; [eapply shrinks_trans; eassumption|].
      split; [apply (orphans_destroyed_app [] [] ma mc mb); assumption|].
      intros c' Hc'. apply elem_of_cons in Hc' as [->|Hc'].
      + eapply shrinks_destroyed; eassumption.
      + apply Hdb. exact Hc'. }
  destruct (Hfold (children e6) m6 Hsc6) as (m7 & E7 & Hsc7 & Hs7 & Hor7 & Hd7).
  { intros c Hc. rewrite <- Hch6 in Hc.
    destruct (sc_children _ _ Hsc6 x c Hc) as (C1 & C2 & C3).
    split; [exact C1|]. split; [lia | exact C3]. }
  rewrite E7. cbn [mbind result_bind bind].
  assert (Hs07 : shrinks m m7) by (eapply shrinks_trans; eassumption).
  (* clearing the children and the registries *)
  assert (Hx7 : is_Some (elements m7 !! x)) by (apply (sh_dom _ _ Hs07); eauto).
  destruct Hx7 as [e7 He7]. rewrite (get_Ok _ _ _ He7).
  cbn [mbind result_bind bind].
  destruct (lookup_fields _ _ _ He7) as (_ & _ & Hch7 & Hob7 & Han7).
  set (m8 := put m7 x (with_children e7 [])).
  set (m9 := unregister m8 x).
  assert (Hf8 : same_frame m7 m8)
    by (apply (same_frame_put m7 x e7); [exact He7 | reflexivity | reflexivity]).
  assert (Hc9 : forall y, children_of m9 y
                  = if decide (y = x) then [] else children_of m7 y).
  { intros y. change (children_of m9 y) with (children_of m8 y).
    unfold m8. apply put_children_of. }
  assert (Ho9 : forall y, observers_of m9 y = observers_of m7 y).
  { intros y. change (observers_of m9 y) with (observers_of m8 y).
    unfold m8. rewrite put_observers_of.
    destruct (decide (y = x)) as [->|?]; [symmetry; exact Hob7 | reflexivity]. }
  assert (Ha9 : forall y, anchors_of m9 y = anchors_of m7 y).
  { intros y. change (anchors_of m9 y) with (anchors_of m8 y).
    unfold m8. rewrite put_anchors_of.
    destruct (decide (y = x)) as [->|?]; [symmetry; exact Han7 | reflexivity]. }
  destruct (discard_NoDup x _ (sc_all _ _ Hsc7)) as [Hnd1 Hnot1].
  destruct (discard_NoDup x _ (sc_cbs _ _ Hsc7)) as [Hnd2 Hnot2].
  assert (Hs9 : shrinks m7 m9).
  { split.
    - reflexivity.
    - intros y. apply (sf_dom _ _ Hf8 y).
    - intros y. apply (sf_parent _ _ Hf8 y).
    - intros y. apply (sf_ghost _ _ Hf8 y).
    - intros y c. rewrite Hc9. destruct (decide (y = x)); [|auto].
      intros H. inversion H.
    - intros y z. rewrite Ho9. lia.
    - intros y t. rewrite Ha9. lia.
    - intros z. apply discard_elem.
    - intros z. apply discard_elem. }
  assert (Hcov9 : covered m9).
  { intros o t. rewrite Ha9, Ho9. apply (sc_covered _ _ Hsc7). }
  assert (Hsc9 : scene m9 rank)
    by (apply (scene_shrinks m7 m9 rank Hsc7 Hs9 Hcov9); assumption).
  assert (Hs49 : shrinks m4 m9).
  { eapply shrinks_trans; [exact Hs5|]. eapply shrinks_trans; [exact Hs6|].
    eapply shrinks_trans; [exact Hs7 | exact Hs9]. }
  assert (Hdx : destroyed m9 x).
  { split; [split; [|split]|].
    - intros o. pose proof (sh_anchors _ _ Hs49 o x). rewrite HA4 in *. lia.
    - exact Hnot1.
    - exact Hnot2.
    - rewrite Hc9, decide_True by reflexivity. reflexivity. }
  assert (Hor9 : orphans_destroyed [] m7 m9).
  { intros y c Hc. rewrite Hc9. destruct (decide (y = x)) as [->|?]; [|auto].
    right. left. apply (shrinks_destroyed m7 m9 c Hs9). apply Hd7.
    rewrite <- Hch6. apply (sh_children _ _ Hs7). exact Hc. }
  exists m9. split; [reflexivity|]. split; [exact Hsc9|].
  split; [eapply shrinks_trans; eassumption|]. split; [|split; [exact Hdx|]].
  - apply (orphans_destroyed_settle [x]).
    + change [x] with ([] ++ [] ++ [x] ++ [] ++ ([] : list nat)).
      apply (orphans_destroyed_app _ _ m m4 m9 Hor04 Hs49).
      apply (orphans_destroyed_app _ _ m4 m5 m9 Hor5).
      { eapply shrinks_trans; [exact Hs6|].
        eapply shrinks_trans; [exact Hs7 | exact Hs9]. }
      apply (orphans_destroyed_app _ _ m5 m6 m9 Hor6).
      { eapply shrinks_trans; [exact Hs7 | exact Hs9]. }
      apply (orphans_destroyed_app _ _ m6 m7 m9 Hor7 Hs9 Hor9).
    + intros c Hc. apply list_elem_of_singleton in Hc as ->. exact Hdx.
  - intros t Hne. pose proof (sh_observers _ _ Hs49 t x).
    pose proof (HB4 t Hne). lia.
Qed.

Lemma destroy_force fuel m n e force :
  elements m !! n = Some e -> can_destroy e = true \/ force = true ->
  destroy fuel m n force = destroy fuel m n true.
Proof.
  intros He H. destruct fuel as [|fuel]; [reflexivity|].
  cbn [destroy]. rewrite (get_Ok _ _ _ He). cbn [mbind result_bind bind].
  destruct H as [-> | ->]; cbn [negb andb]; [reflexivity|].
  rewrite andb_false_r. reflexivity.
Qed.

Lemma descendants_destroyed m m' :
  orphans_destroyed [] m m' ->
  forall x y, descendant m x y -> destroyed m' x -> destroyed m' y.
Proof.
  intros Hor. induction 1 as [x | x e c y He Hc _ IH]; intros Hx; [exact Hx|].
  apply IH. destruct (lookup_fields _ _ _ He) as (_ & _ & Hch & _).
  destruct (Hor x c) as [H|[H|H]]; [rewrite Hch; exact Hc | | exact H |].
  - rewrite (proj2 Hx) in H. inversion H.
  - inversion H.
Qed.

Lemma slots_to_absent (m : Manager) t l :
  elements m !! t = None ->
  Forall (fun p : Anchor * option UIAnchorData =>
            Forall (fun ad => is_Some (elements m !! target ad))
              (option_list p.2)) l ->
  slots_to t l = 0%nat.
Proof.
  intros Ht. induction 1 as [|[k [ad|]] l H1 _ IH]; cbn [slots_to];
    [reflexivity| |exact IH].
  cbn [snd option_list] in H1. inversion H1 as [|? ? [x Hx] _]; subst.
  destruct (decide (target ad = t)) as [<-|_]; [congruence|exact IH].
Qed.

Lemma occ_absent (m : Manager) o l :
  elements m !! o = None ->
  Forall (fun z => is_Some (elements m !! z)) l -> occ o l = 0%nat.
Proof.
  intros Ho. induction 1 as [|z l [x Hx] _ IH]; cbn [occ]; [reflexivity|].
  destruct (decide (z = o)) as [<-|_]; [congruence|exact IH].
Qed.

Lemma lifecycle_ok_scene m rank depth :
  lifecycle_ok m rank depth -> scene m rank /\ mirrored m.
Proof.
  intros (Hall & Hn1 & Hn2).
  assert (Hmir : mirrored m).
  { intros o t. unfold observers_of, anchors_of.
    destruct (elements m !! o) as [oe|] eqn:Ho, (elements m !! t) as [te|] eqn:Ht;
      cbn.
    - destruct (Hall o oe Ho) as (_ & _ & _ & _ & _ & H). exact (H t te Ht).
    - destruct (Hall o oe Ho) as (_ & _ & _ & H & _).
      symmetry. exact (slots_to_absent m t _ Ht H).
    - destruct (Hall t te Ht) as (_ & _ & H & _).
      exact (occ_absent m o _ Ho H).
    - reflexivity. }
  split; [|exact Hmir]. split; try assumption.
  - intros y c Hc. unfold children_of in Hc.
    destruct (elements m !! y) as [e|] eqn:He; [|inversion Hc].
    destruct (Hall y e He) as (H & _). rewrite Forall_forall in H.
    exact (H c Hc).
  - intros y g Hg. unfold ghost_of in Hg.
    destruct (elements m !! y) as [e|] eqn:He; [|discriminate].
    cbn in Hg. destruct (Hall y e He) as (_ & H & _). rewrite Hg in H.
    inversion H; assumption.
  - intros y o Ho. unfold observers_of in Ho.
    destruct (elements m !! y) as [e|] eqn:He; [|inversion Ho].
    destruct (Hall y e He) as (_ & _ & H & _). rewrite Forall_forall in H.
    exact (H o Ho).
  - intros y t Ht.
    destruct (elements m !! t) as [te|] eqn:Hte; [eauto|].
    pose proof (Hmir y t) as H. unfold observers_of in H at 1.
    rewrite Hte in H. cbn in H. lia.
  - intros y Hy. apply (ancestors_exist m depth) with (d := S (depth y));
      [|lia|exact Hy].
    intros z e He. destruct (Hall z e He) as (_ & _ & _ & _ & H & _).
    cbn. destruct (parent e); [inversion H; assumption | exact I].
  - intros o t. rewrite (Hmir o t). lia.
Qed.

(** C4: on a well-formed scene whose observer lists mirror the anchor
    slots, [destroy] of an element [d] (with [can_destroy] set, or forced)
    completes; afterwards no anchor slot of any element references [d], [d]
    is in no other element's observer list, [d] is in neither registry, and
    every descendant of [d] has been destroyed likewise: it is referenced
    by no anchor slot, is in neither registry and has no children left. *)
Theorem destroy_detaches (rank depth : nat -> nat) (fuel : nat)
    (m : Manager) (d : nat) (force : bool) :
  lifecycle_ok m rank depth ->
  is_Some (parent_of m d) ->
  (forall e, elements m !! d = Some e -> can_destroy e = true \/ force = true) ->
  (rank d < fuel)%nat ->
  exists m', destroy fuel m d force = Ok m'
    /\ (forall o, slots_to d (anchors_of m' o) = 0%nat)
    /\ (forall t, t <> d -> d ∉ observers_of m' t)
    /\ (d ∉ _all_elements m') /\ (d ∉ _event_callbacks m')
    /\ (forall y, descendant m d y -> destroyed m' y).
Proof.
  intros Hok Hp Hcan Hrk.
  destruct (lifecycle_ok_scene _ _ _ Hok) as [Hsc Hmir].
  assert (Hd : is_Some (elements m !! d)).
  { unfold parent_of in Hp. destruct (elements m !! d); [eauto|].
    destruct Hp; discriminate. }
  destruct (destroy_spec rank fuel m d Hsc Hd Hp Hrk)
    as (m' & E & _ & _ & Hor & Hdx & Hobs).
  destruct Hd as [e He].
  exists m'. rewrite (destroy_force fuel m d e force He (Hcan e He)).
  split; [exact E|]. destruct Hdx as [(Ha & Hr1 & Hr2) Hch].
  split; [exact Ha|]. split; [|split; [exact Hr1|split; [exact Hr2|]]].
  - intros t Hne Hin. apply occ_elem in Hin.
    pose proof (Hobs t Hne). rewrite (Hmir d t) in *. lia.
  - intros y Hy. apply (descendants_destroyed m m' Hor d y Hy).
    split; [split; [|split]|]; assumption.
Qed.

(** [destroy] of element 2 of [anchored_scene]. *)
Lemma destroy_detaches_witness :
  exists m', destroy 2 anchored_scene 2%nat false = Ok m'
    /\ (forall o, slots_to 2%nat (anchors_of m' o) = 0%nat)
    /\ (forall t, t <> 2%nat -> 2%nat ∉ observers_of m' t)
    /\ (2%nat ∉ _all_elements m') /\ (2%nat ∉ _event_callbacks m')
    /\ (forall y, descendant anchored_scene 2%nat y -> destroyed m' y).
Proof.
  apply (destroy_detaches anchored_rank anchored_depth 2 anchored_scene
           2%nat false).
  - apply (bool_decide_unpack _). vm_compute. exact I.
  - vm_compute. eauto.
  - intros e He. left. vm_compute in He. injection He as <-. reflexivity.
  - vm_compute. lia.
Defined.

(** The same call, evaluated: the slots of element 3 are empty, element 4
    has no observer left, and 2 and 5 have left the registries. *)
Example destroy_anchored_scene :
  (fun m' => (anchors_of m' 3%nat, observers_of m' 4%nat,
              children_of m' 1%nat, _all_elements m', _event_callbacks m'))
    <$> destroy 2 anchored_scene 2%nat false
  = Ok (no_anchors, [], [3; 4]%nat, [1; 3; 4]%nat, []).
Proof. vm_compute. reflexivity. Qed.

(** *** Anchor resolution *)

(** C7: element 2 of [anchored_scene] has a top anchor only, and its
    panel is scrolled by 5 along x.  One [_apply_anchors] leaves its
    absolute rectangle at x = 100, a second one at x = 95: each call moves
    the axis without an anchor by the scroll offset of the parent. *)
Theorem apply_anchors_twice_drifts :
  absolute_rect_of anchored_scene 2%nat = Ok (mkRect 105 150 50 30)
  /\ (m1 ← _apply_anchors 3 anchored_scene 2%nat; absolute_rect_of m1 2%nat)
     = Ok (mkRect 100 150 50 30)
  /\ (m1 ← _apply_anchors 3 anchored_scene 2%nat;
      m2 ← _apply_anchors 3 m1 2%nat; absolute_rect_of m2 2%nat)
     = Ok (mkRect 95 150 50 30).
Proof. repeat split; vm_compute; reflexivity. Qed.

(** The same scene with the panel not scrolled: the stored rectangles are
    a fixed point of [_apply_anchors]. *)
Example apply_anchors_unscrolled :
  absolute_rect_of (anchored_panel 0) 2%nat = Ok (mkRect 110 150 50 30)
  /\ _apply_anchors 3 (anchored_panel 0) 2%nat = Ok (anchored_panel 0).
Proof. split; vm_compute; reflexivity. Qed.

End SceneFacts.
(** ** The order of the children, reparenting *)

Module SceneOrderFacts.
Import Scene PyFacts SceneFacts.

Lemma list_index_spec x l i :
  list_index x l = Some i ->
  l !! i = Some x /\ (x ∉ take i l) /\ (i < length l)%nat
  /\ list_remove x l = Some (take i l ++ drop (S i) l).
Proof.
  revert i. induction l as [|y l IH]; intros i; cbn; [discriminate|].
  destruct (decide (y = x)) as [->|Hne].
  - intros [= <-]. cbn. rewrite drop_0.
    split; [reflexivity|]. split; [apply not_elem_of_nil|].
    split; [lia | reflexivity].
  - destruct (list_index x l) as [j|] eqn:E; cbn; [|discriminate].
    intros [= <-]. destruct (IH j eq_refl) as (H1 & H2 & H3 & H4).
    cbn. split; [exact H1|]. split.
    + intros [?|?]%elem_of_cons; [congruence | contradiction].
    + split; [lia|]. rewrite H4. reflexivity.
Qed.

Lemma list_index_None x l : list_index x l = None -> x ∉ l.
Proof.
  induction l as [|y l IH]; cbn; [intros _; apply not_elem_of_nil|].
  destruct (decide (y = x)); [discriminate|].
  destruct (list_index x l); cbn; [discriminate|].
  intros _ [?|?]%elem_of_cons; [congruence | exact (IH eq_refl H)].
Qed.

Lemma list_index_elem x l : x ∈ l -> is_Some (list_index x l).
Proof.
  intros H. destruct (list_index x l) eqn:E; [eauto|].
  destruct (list_index_None _ _ E H).
Qed.

Lemma list_index_middle x l1 l2 :
  x ∉ l1 -> list_index x (l1 ++ x :: l2) = Some (length l1).
Proof.
  induction l1 as [|y l1 IH]; cbn; intros H.
  - rewrite decide_True by reflexivity. reflexivity.
  - rewrite decide_False by (intros ->; apply H, list_elem_of_here).
    rewrite IH; [reflexivity|].
    intros ?; apply H, list_elem_of_further; assumption.
Qed.

Lemma list_remove_middle x l1 l2 :
  x ∉ l1 -> list_remove x (l1 ++ x :: l2) = Some (l1 ++ l2).
Proof.
  induction l1 as [|y l1 IH]; cbn; intros H.
  - rewrite decide_True by reflexivity. reflexivity.
  - rewrite decide_False by (intros ->; apply H, list_elem_of_here).
    rewrite IH; [reflexivity|].
    intros ?; apply H, list_elem_of_further; assumption.
Qed.

Lemma py_insert_in_range (i : nat) x l :
  (i <= length l)%nat ->
  py_insert (Z.of_nat i) x l = take i l ++ x :: drop i l.
Proof.
  intros H. unfold py_insert.
  destruct (Z.ltb_spec (Z.of_nat i) 0) as [?|_]; [lia|].
  rewrite Z.min_l by lia. rewrite Nat2Z.id. reflexivity.
Qed.

Lemma clamp_range v lo hi : lo <= hi -> lo <= clamp v lo hi <= hi.
Proof.
  intros H. unfold clamp.
  destruct (Z.ltb_spec v lo); [lia|]. destruct (Z.ltb_spec hi v); lia.
Qed.

Lemma clamp_id v lo hi : lo <= v <= hi -> clamp v lo hi = v.
Proof.
  intros H. unfold clamp.
  destruct (Z.ltb_spec v lo); [lia|]. destruct (Z.ltb_spec hi v); lia.
Qed.

Lemma put_same m y e : elements m !! y = Some e -> put m y e = m.
Proof.
  intros H. unfold put, with_elements. rewrite insert_id by exact H.
  destruct m; reflexivity.
Qed.

Lemma with_children_same e : with_children e (children e) = e.
Proof. destruct e; reflexivity. Qed.

Lemma get_index_inv m n i :
  get_index_in_parent m n = Ok i ->
  exists e p pe (j : nat),
    elements m !! n = Some e /\ parent e = Some p
    /\ elements m !! p = Some pe /\ list_index n (children pe) = Some j
    /\ i = Z.of_nat j.
Proof.
  unfold get_index_in_parent, parent_ref, get. intros H.
  destruct (elements m !! n) as [e|] eqn:He; [|discriminate].
  cbn in H. destruct (parent e) as [p|] eqn:Hp; [|discriminate].
  cbn in H. destruct (elements m !! p) as [pe|] eqn:Hpe; [|discriminate].
  cbn in H. destruct (list_index n (children pe)) as [j|] eqn:Hj;
    [|discriminate].
  injection H as <-. exists e, p, pe, j. auto.
Qed.

Lemma take_drop_length {A} (i : nat) (l : list A) :
  (i < length l)%nat -> length (take i l ++ drop (S i) l) = (length l - 1)%nat.
Proof.
  intros H. rewrite length_app, length_take, length_drop. lia.
Qed.

Lemma insert_back (i : nat) x (l : list nat) :
  l !! i = Some x ->
  take i (take i l ++ drop (S i) l) ++ x :: drop i (take i l ++ drop (S i) l)
  = l.
Proof.
  intros H. pose proof (lookup_lt_Some _ _ _ H) as Hlt.
  rewrite take_app_le by (rewrite length_take; lia).
  rewrite take_take, Nat.min_id.
  rewrite drop_app_ge by (rewrite length_take; lia).
  rewrite length_take, Nat.min_l by lia. rewrite Nat.sub_diag, drop_0.
  rewrite <- (take_drop_middle l i x H) at 3. reflexivity.
Qed.

(** X1: [set_index_in_parent(get_index_in_parent())] changes nothing:
    the element is taken out of the children of its parent and put back at
    the same place. *)
Theorem set_index_in_parent_round_trip (m : Manager) (n : nat) (i : Z) :
  get_index_in_parent m n = Ok i -> set_index_in_parent m n i = Ok m.
Proof.
  intros H. destruct (get_index_inv _ _ _ H) as (e & p & pe & j & He & Hp
    & Hpe & Hj & ->).
  destruct (list_index_spec _ _ _ Hj) as (Hl & _ & Hlt & Hr).
  unfold set_index_in_parent, parent_ref.
  rewrite (get_Ok _ _ _ He). cbn. rewrite Hp. cbn.
  rewrite (get_Ok _ _ _ Hpe). cbn. rewrite Hr.
  rewrite take_drop_length by exact Hlt.
  rewrite clamp_id by lia.
  rewrite py_insert_in_range by (rewrite take_drop_length by exact Hlt; lia).
  rewrite (insert_back _ _ _ Hl), with_children_same.
  rewrite (put_same _ _ _ Hpe). reflexivity.
Qed.

Lemma set_index_in_parent_round_trip_witness :
  get_index_in_parent anchored_scene 3%nat = Ok 1
  /\ set_index_in_parent anchored_scene 3%nat 1 = Ok anchored_scene.
Proof.
  split; [reflexivity|].
  apply (set_index_in_parent_round_trip anchored_scene 3%nat 1). reflexivity.
Defined.

(** X2: for an element that is among the children of its parent,
    [move_in_parent(k)] is [set_index_in_parent(get_index_in_parent() + k)],
    whatever the number of children. *)
Theorem move_in_parent_as_set_index (m : Manager) (n : nat) (i k : Z) :
  get_index_in_parent m n = Ok i ->
  move_in_parent m n k = set_index_in_parent m n (i + k).
Proof.
  intros H. destruct (get_index_inv _ _ _ H) as (e & p & pe & j & He & Hp
    & Hpe & Hj & ->).
  destruct (list_index_spec _ _ _ Hj) as (Hl & _ & Hlt & Hr).
  unfold move_in_parent, set_index_in_parent, parent_ref.
  rewrite (get_Ok _ _ _ He). cbn. rewrite Hp. cbn.
  rewrite (get_Ok _ _ _ Hpe). cbn. rewrite Hj, Hr.
  rewrite take_drop_length by exact Hlt.
  replace (Z.of_nat (length (children pe) - 1))
    with (Z.of_nat (length (children pe)) - 1) by lia.
  destruct (Nat.leb_spec (length (children pe)) 1) as [Hle|_];
    [|reflexivity].
  assert (j = 0%nat) as -> by lia.
  assert (Hone : children pe = [n]).
  { destruct (children pe) as [|y [|z l]]; cbn in *; try lia.
    congruence. }
  rewrite Hone. cbn [length take drop app].
  assert (E : clamp (Z.of_nat 0 + k) 0 (Z.of_nat 1 - 1) = 0)
    by (pose proof (clamp_range (Z.of_nat 0 + k) 0 (Z.of_nat 1 - 1)); lia).
  rewrite E. change (py_insert 0 n []) with [n].
  rewrite <- Hone, with_children_same.
  rewrite (put_same _ _ _ Hpe). reflexivity.
Qed.

Lemma move_in_parent_as_set_index_witness :
  get_index_in_parent anchored_scene 2%nat = Ok 0
  /\ move_in_parent anchored_scene 2%nat 5
     = set_index_in_parent anchored_scene 2%nat (0 + 5).
Proof.
  split; [reflexivity|].
  apply (move_in_parent_as_set_index anchored_scene 2%nat 0 5). reflexivity.
Defined.

(** X3: on a children list without duplicates, [set_index_in_parent(i)]
    puts the element at index [i] clamped to the list, keeps the other
    children in their order and leaves every other object as it was. *)
Theorem set_index_in_parent_places (m : Manager) (n p : nat) (i : Z) :
  parent_of m n = Some p -> n ∈ children_of m p ->
  NoDup (children_of m p) ->
  exists m', set_index_in_parent m n i = Ok m'
    /\ get_index_in_parent m' n
       = Ok (clamp i 0 (Z.of_nat (length (children_of m p)) - 1))
    /\ children_of m' p ≡ₚ children_of m p
    /\ list_remove n (children_of m' p) = list_remove n (children_of m p)
    /\ (forall y, y <> p -> elements m' !! y = elements m !! y).
Proof.
  intros Hp Hin Hnd.
  unfold parent_of in Hp. destruct (elements m !! n) as [e|] eqn:He;
    [|discriminate]. cbn in Hp.
  unfold children_of in *. destruct (elements m !! p) as [pe|] eqn:Hpe;
    [|cbn in Hin; inversion Hin]. cbn in Hin, Hnd. cbn [default fmap option_fmap option_map].
  destruct (list_index_elem _ _ Hin) as [j Hj].
  destruct (list_index_spec _ _ _ Hj) as (Hl & Hnot & Hlt & Hr).
  set (l := take j (children pe) ++ drop (S j) (children pe)) in *.
  assert (Hlen : length l = (length (children pe) - 1)%nat)
    by (apply take_drop_length; exact Hlt).
  assert (Hsplit : children pe = take j (children pe) ++ n :: drop (S j) (children pe))
    by (symmetry; apply take_drop_middle; exact Hl).
  assert (Hnl : n ∉ l).
  { rewrite Hsplit in Hnd. apply NoDup_app in Hnd as (_ & Hd & Hnd').
    apply NoDup_cons in Hnd' as [Hn2 _].
    unfold l. intros [?|?]%elem_of_app; [|contradiction].
    exact (Hd n H (list_elem_of_here _ _)). }
  set (c := clamp i 0 (Z.of_nat (length (children pe)) - 1)).
  assert (Hc : 0 <= c <= Z.of_nat (length l))
    by (unfold c; pose proof (clamp_range i 0
          (Z.of_nat (length (children pe)) - 1)); lia).
  set (l2 := py_insert (clamp i 0 (Z.of_nat (length l))) n l).
  assert (Hl2 : l2 = take (Z.to_nat c) l ++ n :: drop (Z.to_nat c) l).
  { unfold l2. replace (Z.of_nat (length l))
      with (Z.of_nat (length (children pe)) - 1) by lia.
    fold c. rewrite <- (Z2Nat.id c) at 1 by lia.
    apply py_insert_in_range. lia. }
  exists (put m p (with_children pe l2)).
  split.
  { unfold set_index_in_parent, parent_ref.
    rewrite (get_Ok _ _ _ He). cbn. rewrite Hp. cbn.
    rewrite (get_Ok _ _ _ Hpe). cbn. rewrite Hr. reflexivity. }
  assert (Hnt : n ∉ take (Z.to_nat c) l)
    by (intros H; apply Hnl; exact (subseteq_take _ _ _ H)).
  split.
  { assert (Hg : exists e', get (put m p (with_children pe l2)) n = Ok e'
                            /\ parent e' = Some p).
    { unfold get. rewrite lookup_put. destruct (decide (n = p)) as [->|Hne].
      - eexists. split; [reflexivity|]. cbn. congruence.
      - rewrite He. eauto. }
    destruct Hg as (e' & Hg & Hp').
    unfold get_index_in_parent. rewrite Hg. cbn [mbind result_bind bind].
    unfold parent_ref. rewrite Hp'. cbn [mbind result_bind bind].
    unfold get. rewrite lookup_put, decide_True by reflexivity.
    cbn [mbind result_bind bind children with_children].
    rewrite Hl2, list_index_middle by exact Hnt.
    rewrite length_take, Nat.min_l by lia. f_equal.
    unfold id. fold c. lia. }
  rewrite lookup_put, decide_True by reflexivity. cbn.
  split.
  { rewrite Hl2. rewrite <- Permutation_middle.
    rewrite take_drop. rewrite Hsplit. rewrite <- Permutation_middle.
    reflexivity. }
  split.
  { rewrite Hl2, list_remove_middle by exact Hnt.
    rewrite take_drop. rewrite Hr. reflexivity. }
  intros y Hy. apply lookup_insert_ne. congruence.
Qed.

Lemma set_index_in_parent_places_witness :
  exists m', set_index_in_parent anchored_scene 2%nat 7 = Ok m'
    /\ get_index_in_parent m' 2%nat
       = Ok (clamp 7 0 (Z.of_nat (length (children_of anchored_scene 1%nat)) - 1))
    /\ children_of m' 1%nat ≡ₚ children_of anchored_scene 1%nat
    /\ list_remove 2%nat (children_of m' 1%nat)
       = list_remove 2%nat (children_of anchored_scene 1%nat)
    /\ (forall y, y <> 1%nat ->
          elements m' !! y = elements anchored_scene !! y).
Proof.
  apply (set_index_in_parent_places anchored_scene 2%nat 1%nat 7).
  - reflexivity.
  - apply (bool_decide_unpack _). vm_compute. exact I.
  - apply (bool_decide_unpack _). vm_compute. exact I.
Defined.

Lemma list_index_notin x l : x ∉ l -> list_index x l = None.
Proof.
  intros H. destruct (list_index x l) as [i|] eqn:E; [|reflexivity].
  destruct (list_index_spec _ _ _ E) as (Hl & _). exfalso. apply H.
  eapply list_elem_of_lookup_2. exact Hl.
Qed.

Lemma list_remove_notin x l : x ∉ l -> list_remove x l = None.
Proof.
  intros H. destruct (list_remove x l) as [l'|] eqn:E; [|reflexivity].
  exfalso. apply H. exact (list_remove_in x l l' E).
Qed.

Lemma same_frame_ancestors m m' y l :
  same_frame m m' -> ancestors m y l -> ancestors m' y l.
Proof.
  intros Hs. revert y. induction l as [|p l IH]; intros y H;
    apply ancestors_parent_of in H as [Hy H]; apply ancestors_parent_of;
    (split; [apply (sf_dom _ _ Hs); exact Hy|]);
    rewrite (sf_parent _ _ Hs).
  - exact H.
  - destruct H. split; auto.
Qed.

Lemma ancestors_put_other m x e' n l :
  x ∉ n :: l -> ancestors m n l -> ancestors (put m x e') n l.
Proof.
  intros Hx H. induction H as [n e0 He0 Hp0 | n e0 p l He0 Hp0 _ IH].
  - apply (ancestors_root _ n e0); [|exact Hp0].
    rewrite lookup_put, decide_False; [exact He0|].
    intros ->. apply Hx, list_elem_of_here.
  - apply (ancestors_step _ n e0 p); [|exact Hp0|].
    + rewrite lookup_put, decide_False; [exact He0|].
      intros ->. apply Hx, list_elem_of_here.
    + apply IH. intros H. apply Hx, list_elem_of_further, H.
Qed.

Lemma lookup_parent_of m y p :
  parent_of m y = Some p ->
  exists e, elements m !! y = Some e /\ parent e = Some p.
Proof.
  unfold parent_of. destruct (elements m !! y) as [e|]; [|discriminate].
  cbn. eauto.
Qed.

(** X4: [remove_child] takes the child out of the children list and
    leaves the child's [parent] attribute as it was; the child then still
    names the parent, and [get_index_in_parent], [set_index_in_parent] and
    (when the parent keeps two children or more) [move_in_parent] raise
    ValueError on it. *)
Theorem remove_child_keeps_parent_pointer
    (m : Manager) (p g n : nat) (l : list nat) :
  ancestors m p (g :: l) ->
  parent_of m n = Some p -> n ∈ children_of m p ->
  NoDup (children_of m p) ->
  exists m', remove_child m p n = Ok m'
    /\ parent_of m' n = Some p
    /\ children_of m' p = discard n (children_of m p)
    /\ (n ∉ children_of m' p)
    /\ get_index_in_parent m' n = Raise ValueError
    /\ (forall i, set_index_in_parent m' n i = Raise ValueError)
    /\ (forall k, move_in_parent m' n k
                  = if (length (children_of m' p) <=? 1)%nat then Ok m'
                    else Raise ValueError).
Proof.
  intros Hanc Hp Hin Hnd.
  destruct (parent_remove_child_spec m p n (g :: l) Hanc)
    as (m' & E & Hf & Hch & _ & _).
  assert (E' : remove_child m p n = Ok m').
  { rewrite <- E. unfold parent_remove_child.
    inversion Hanc as [|? pe ? ? Hpe Hpp _]; subst.
    rewrite (get_Ok _ _ _ Hpe). cbn [mbind result_bind bind].
    rewrite Hpp. reflexivity. }
  exists m'. split; [exact E'|].
  assert (Hp' : parent_of m' n = Some p) by (rewrite (sf_parent _ _ Hf); exact Hp).
  assert (Hc' : children_of m' p = discard n (children_of m p))
    by (rewrite Hch, decide_True by reflexivity; reflexivity).
  assert (Hn' : n ∉ children_of m' p)
    by (rewrite Hc'; apply discard_NoDup; exact Hnd).
  split; [exact Hp'|]. split; [exact Hc'|]. split; [exact Hn'|].
  destruct (lookup_parent_of _ _ _ Hp') as (e' & He' & Hpe').
  assert (Hpl : is_Some (elements m' !! p)).
  { apply (sf_dom _ _ Hf). inversion Hanc; eauto. }
  destruct Hpl as [pe' Hpe2].
  assert (Hcp : children pe' = children_of m' p)
    by (unfold children_of; rewrite Hpe2; reflexivity).
  rewrite <- Hcp in Hn'. rewrite <- Hcp.
  split; [|split].
  - unfold get_index_in_parent, parent_ref.
    rewrite (get_Ok _ _ _ He'). cbn [mbind result_bind bind]. rewrite Hpe'.
    cbn [mbind result_bind bind]. rewrite (get_Ok _ _ _ Hpe2).
    cbn [mbind result_bind bind].
    rewrite list_index_notin by exact Hn'. reflexivity.
  - intros i. unfold set_index_in_parent, parent_ref.
    rewrite (get_Ok _ _ _ He'). cbn [mbind result_bind bind]. rewrite Hpe'.
    cbn [mbind result_bind bind]. rewrite (get_Ok _ _ _ Hpe2).
    cbn [mbind result_bind bind].
    rewrite list_remove_notin by exact Hn'. reflexivity.
  - intros k. unfold move_in_parent, parent_ref.
    rewrite (get_Ok _ _ _ He'). cbn [mbind result_bind bind]. rewrite Hpe'.
    cbn [mbind result_bind bind]. rewrite (get_Ok _ _ _ Hpe2).
    cbn [mbind result_bind bind].
    rewrite list_index_notin by exact Hn'. reflexivity.
Qed.

Lemma remove_child_keeps_parent_pointer_witness :
  exists m', remove_child anchored_scene 1%nat 3%nat = Ok m'
    /\ parent_of m' 3%nat = Some 1%nat
    /\ children_of m' 1%nat = discard 3%nat (children_of anchored_scene 1%nat)
    /\ (3%nat ∉ children_of m' 1%nat)
    /\ get_index_in_parent m' 3%nat = Raise ValueError
    /\ (forall i, set_index_in_parent m' 3%nat i = Raise ValueError)
    /\ (forall k, move_in_parent m' 3%nat k
                  = if (length (children_of m' 1%nat) <=? 1)%nat then Ok m'
                    else Raise ValueError).
Proof.
  apply (remove_child_keeps_parent_pointer anchored_scene 1%nat 0%nat 3%nat []).
  - eapply ancestors_step; [reflexivity | reflexivity |].
    eapply ancestors_root; reflexivity.
  - reflexivity.
  - apply (bool_decide_unpack _). vm_compute. exact I.
  - apply (bool_decide_unpack _). vm_compute. exact I.
Defined.

Lemma family_notin m n p q :
  family m -> parent_of m n = Some p -> q <> p -> n ∉ children_of m q.
Proof.
  intros [Hf _] Hp Hne Hin. apply Hf in Hin. congruence.
Qed.

(** X5: [set_parent] moves the element: it is dropped from the children
    of the old parent, appended to the children of the new one, and its
    [parent] attribute names the new parent; nothing else changes in the
    parent and children attributes, and the children lists still agree with
    the parent pointers and hold no element twice.  The new parent is
    neither the element nor one of its descendants. *)
Theorem set_parent_moves (m : Manager) (n p q : nat) (lp lq : list nat) :
  family m ->
  parent_of m n = Some p -> q <> p ->
  ancestors m p lp -> ancestors m q lq -> n ∉ q :: lq ->
  exists m', set_parent m n (Some q) = Ok m'
    /\ parent_of m' n = Some q
    /\ children_of m' q = children_of m q ++ [n]
    /\ children_of m' p = discard n (children_of m p)
    /\ (forall y, y <> p -> y <> q -> children_of m' y = children_of m y)
    /\ (forall y, y <> n -> parent_of m' y = parent_of m y)
    /\ family m'.
Proof.
  intros Hfam Hp Hqp Hancp Hancq Hnq.
  destruct (lookup_parent_of _ _ _ Hp) as (e & He & Hpe).
  assert (Hnq' : n <> q) by (intros ->; apply Hnq, list_elem_of_here).
  destruct (parent_remove_child_spec m p n lp Hancp)
    as (m1 & E1 & Hf1 & Hch1 & _ & _).
  assert (Hn1 : is_Some (elements m1 !! n))
    by (apply (sf_dom _ _ Hf1); eauto).
  destruct Hn1 as [e1 He1].
  assert (Hq1 : is_Some (elements m1 !! q)).
  { apply (sf_dom _ _ Hf1). inversion Hancq; eauto. }
  destruct Hq1 as [qe1 Hqe1].
  set (m2 := put m1 n (with_parent e1 (Some q))).
  assert (Hqe2 : elements m2 !! q = Some qe1).
  { unfold m2. rewrite lookup_put, decide_False by congruence. exact Hqe1. }
  assert (Hcq1 : children qe1 = children_of m q).
  { transitivity (children_of m1 q).
    - unfold children_of. rewrite Hqe1. reflexivity.
    - rewrite Hch1, decide_False by exact Hqp. reflexivity. }
  pose proof (family_notin m n p q Hfam Hp Hqp) as Hnin.
  set (m3 := put m2 q (with_children qe1 (children qe1 ++ [n]))).
  assert (Hanc3 : ancestors m3 q lq).
  { apply (ancestors_put m2 q qe1); [exact Hqe2 | reflexivity |].
    apply ancestors_put_other; [exact Hnq|].
    exact (same_frame_ancestors _ _ _ _ Hf1 Hancq). }
  destruct (set_dirty_completes m3 q lq Hanc3) as (m' & E3 & Hsd).
  pose proof (same_but_dirty_refs _ _ Hsd) as Hr.
  assert (Epar : forall y, parent_of m' y
                 = if decide (y = n) then Some q else parent_of m y).
  { intros y. rewrite (sr_parent _ _ Hr). unfold m3, m2.
    rewrite !put_parent_of. cbn [parent with_children with_parent].
    destruct (decide (y = q)) as [->|Hyq].
    - rewrite decide_False by congruence.
      rewrite <- (sf_parent _ _ Hf1). unfold parent_of. rewrite Hqe1.
      reflexivity.
    - destruct (decide (y = n)); [reflexivity|]. apply (sf_parent _ _ Hf1). }
  assert (Ech : forall y, children_of m' y
                = if decide (y = q) then children_of m q ++ [n]
                  else if decide (y = p) then discard n (children_of m p)
                  else children_of m y).
  { intros y. rewrite (sr_children _ _ Hr). unfold m3, m2.
    rewrite !put_children_of. cbn [children with_children with_parent].
    destruct (decide (y = q)) as [->|Hyq]; [rewrite Hcq1; reflexivity|].
    destruct (decide (y = n)) as [->|Hyn].
    - transitivity (children_of m1 n);
        [unfold children_of; rewrite He1; reflexivity | apply Hch1].
    - apply Hch1. }
  exists m'. split.
  { unfold set_parent. change (default (root m) (Some q)) with q.
    rewrite (get_Ok _ _ _ He).
    cbn [mbind result_bind bind].
    rewrite decide_False by (rewrite Hpe; congruence).
    unfold parent_ref. rewrite Hpe. cbn [mbind result_bind bind].
    rewrite E1. cbn [mbind result_bind bind].
    rewrite (get_Ok _ _ _ He1). cbn [mbind result_bind bind]. fold m2.
    assert (Eadd : parent_add_child m2 q n = _add_child m2 q n).
    { unfold parent_add_child. rewrite (get_Ok _ _ _ Hqe2).
      cbn [mbind result_bind bind]. destruct (parent qe1); reflexivity. }
    rewrite Eadd. unfold _add_child. rewrite (get_Ok _ _ _ Hqe2).
    cbn [mbind result_bind bind].
    rewrite bool_decide_eq_false_2 by (rewrite Hcq1; exact Hnin).
    exact E3. }
  split; [rewrite Epar, decide_True by reflexivity; reflexivity|].
  split; [rewrite Ech, decide_True by reflexivity; reflexivity|].
  split.
  { rewrite Ech, decide_False by congruence.
    rewrite decide_True by reflexivity. reflexivity. }
  split.
  { intros y Hyp Hyq. rewrite Ech, !decide_False by assumption.
    reflexivity. }
  split.
  { intros y Hy. rewrite Epar, decide_False by exact Hy. reflexivity. }
  destruct Hfam as [Hback Hnd]. split.
  - intros y c. rewrite Ech, Epar.
    destruct (decide (y = q)) as [->|Hyq].
    + intros [Hc| ->%list_elem_of_singleton]%elem_of_app.
      * rewrite decide_False; [apply Hback; exact Hc|].
        intros ->. exact (Hnin Hc).
      * rewrite decide_True by reflexivity. reflexivity.
    + destruct (decide (y = p)) as [->|Hyp].
      * intros Hc. destruct (discard_NoDup n _ (Hnd p)) as [_ Hn].
        rewrite decide_False by (intros ->; exact (Hn Hc)).
        apply Hback. apply (discard_elem n). exact Hc.
      * intros Hc. rewrite decide_False; [apply Hback; exact Hc|].
        intros ->. apply Hback in Hc. congruence.
  - intros y. rewrite Ech.
    destruct (decide (y = q)) as [->|Hyq].
    + apply NoDup_app. split; [apply Hnd|]. split; [|apply NoDup_singleton].
      intros x Hx ->%list_elem_of_singleton. exact (Hnin Hx).
    + destruct (decide (y = p)) as [->|Hyp]; [|apply Hnd].
      apply discard_NoDup, Hnd.
Qed.


Lemma family_ok_family m : family_ok m -> family m.
Proof.
  intros H. split.
  - intros p c. unfold children_of.
    destruct (elements m !! p) as [e|] eqn:He; cbn; [|intros Hc; inversion Hc].
    intros Hc. destruct (H p e He) as [Hf _].
    rewrite Forall_forall in Hf. exact (Hf c Hc).
  - intros p. unfold children_of.
    destruct (elements m !! p) as [e|] eqn:He; cbn; [|apply NoDup_nil_2].
    exact (proj2 (H p e He)).
Qed.

Lemma set_parent_moves_witness :
  exists m', set_parent anchored_scene 5%nat (Some 4%nat) = Ok m'
    /\ parent_of m' 5%nat = Some 4%nat
    /\ children_of m' 4%nat = children_of anchored_scene 4%nat ++ [5%nat]
    /\ children_of m' 2%nat = discard 5%nat (children_of anchored_scene 2%nat)
    /\ (forall y, y <> 2%nat -> y <> 4%nat ->
          children_of m' y = children_of anchored_scene y)
    /\ (forall y, y <> 5%nat -> parent_of m' y = parent_of anchored_scene y)
    /\ family m'.
Proof.
  apply (set_parent_moves anchored_scene 5%nat 2%nat 4%nat
           [1; 0]%nat [1; 0]%nat).
  - apply family_ok_family. apply (bool_decide_unpack _). vm_compute. exact I.
  - reflexivity.
  - lia.
  - eapply ancestors_step; [reflexivity | reflexivity |].
    eapply ancestors_step; [reflexivity | reflexivity |].
    eapply ancestors_root; reflexivity.
  - eapply ancestors_step; [reflexivity | reflexivity |].
    eapply ancestors_step; [reflexivity | reflexivity |].
    eapply ancestors_root; reflexivity.
  - apply (bool_decide_unpack _). vm_compute. exact I.
Defined.

End SceneOrderFacts.

(** ** Moving and resizing an element *)

Module SceneGeometryFacts.
Import Scene PyFacts SceneFacts SceneOrderFacts.












Lemma frame_key_fields e e' :
  frame_key e' = frame_key e ->
  parent e' = parent e /\ children e' = children e
  /\ ghost_element e' = ghost_element e
  /\ scroll_offset e' = scroll_offset e /\ ignore_scroll e' = ignore_scroll e
  /\ _anchor_observers e' = _anchor_observers e /\ _anchors e' = _anchors e.
Proof.
  intros H.
  pose proof (f_equal (fun t => t.1.1.1.1.1.1.1.1.1) H) as H1.
  pose proof (f_equal (fun t => t.1.1.1.1.1.1.1.1.2) H) as H2.
  pose proof (f_equal (fun t => t.1.1.1.1.1.1.1.2) H) as H3.
  pose proof (f_equal (fun t => t.1.1.1.1.1.1.2) H) as H4.
  pose proof (f_equal (fun t => t.1.1.1.2) H) as H5.
  pose proof (f_equal (fun t => t.1.2) H) as H6.
  pose proof (f_equal (fun t => t.2) H) as H7.
  cbn in H1, H2, H3, H4, H5, H6, H7. auto 10.
Qed.


Lemma same_but_rects_refl m : same_but_rects m m.
Proof. split; reflexivity. Qed.

Lemma same_but_rects_trans m1 m2 m3 :
  same_but_rects m1 m2 -> same_but_rects m2 m3 -> same_but_rects m1 m3.
Proof.
  intros (R1 & H1) (R2 & H2).
  split; [congruence|]. intros y. rewrite H2. apply H1.
Qed.

Lemma same_but_rects_put m n e e' :
  elements m !! n = Some e -> frame_key e' = frame_key e ->
  same_but_rects m (put m n e').
Proof.
  intros He Hk. split; [reflexivity|]. intros y. rewrite lookup_put.
  destruct (decide (y = n)) as [->|]; [|reflexivity].
  rewrite He. cbn. rewrite Hk. reflexivity.
Qed.

Lemma skeleton_frame_key e e' :
  skeleton e' = skeleton e -> frame_key e' = frame_key e.
Proof.
  assert (Hf : forall x, frame_key (skeleton x) = frame_key x).
  { intros x. unfold skeleton, frame_key.
    destruct (parent x) eqn:E; cbn; rewrite ?E; reflexivity. }
  intros H. rewrite <- (Hf e'), H. apply Hf.
Qed.

Lemma same_layout_rects m m' : same_layout m m' -> same_but_rects m m'.
Proof.
  intros [R H]. split; [exact R|].
  intros y. specialize (H y).
  destruct (elements m !! y) as [e|], (elements m' !! y) as [e'|];
    cbn in H |- *; try discriminate; [|reflexivity].
  f_equal. apply skeleton_frame_key. congruence.
Qed.





Lemma same_but_dirty_rects m m' : same_but_dirty m m' -> same_but_rects m m'.
Proof.
  intros Hsd. apply same_layout_rects, same_but_dirty_layout. exact Hsd.
Qed.



Lemma pair_eta (a : Z * Z) : (a.1, a.2) = a.
Proof. destruct a; reflexivity. Qed.





Lemma settled_intro m n e tl :
  elements m !! n = Some e ->
  get_absolute_topleft m n = Ok tl -> tl = topleft (absolute_rect e) ->
  rect_size (absolute_rect e) = rect_size (relative_rect e) ->
  1 <= rw (relative_rect e) -> 1 <= rh (relative_rect e) ->
  settled m n.
Proof.
  intros He Htl -> Hs Hw Hh. split; [exists e; split; assumption|].
  exists e. auto.
Qed.









Lemma settled_resolved m rank n p :
  tree m rank -> settled m n -> parent_of m n = Some p ->
  exists e ptl scroll,
    elements m !! n = Some e /\ parent e = Some p
    /\ get_absolute_topleft m p = Ok ptl /\ scroll_of m n = Ok scroll
    /\ topleft (absolute_rect e)
       = (ptl.1 + rx (relative_rect e) - scroll.1,
          ptl.2 + ry (relative_rect e) - scroll.2).
Proof.
  intros Ht Hset Hp. pose proof Hset as (Hpos & e & He & Hsz & Hw & Hh).
  destruct (lookup_parent_of _ _ _ Hp) as (e0 & He0 & Hpe).
  assert (e0 = e) by congruence. subst e0.
  destruct (tree_ancestors _ _ Ht n (ex_intro _ e He)) as [l0 Hl0].
  inversion Hl0 as [? ? ? Hpn | ? ea p0 l Hea Hp0 Hlp]; subst; [congruence|].
  assert (ea = e) by congruence. subst ea.
  assert (p0 = p) by congruence. subst p0. clear Hea.
  destruct (topleft_total m rank p l Ht Hlp) as [ptl Hptl].
  destruct Hpos as (eb & Heb & Hp0').
  assert (eb = e) by congruence. subst eb.
  rewrite (topleft_unfold m n e p (p :: l) He Hpe Hl0) in Hp0'.
  unfold resolved_absolute_topleft in Hp0'.
  rewrite (get_Ok _ _ _ He) in Hp0'. cbn [mbind result_bind bind] in Hp0'.
  rewrite Hpe, Hptl in Hp0'. cbn [mbind result_bind bind] in Hp0'.
  destruct (applicable_scroll m e p) as [scroll| |] eqn:Hsc;
    cbn [bind] in Hp0'; try discriminate.
  cbn [mbind result_bind bind] in Hp0'.
  exists e, ptl, scroll. split; [exact He|]. split; [exact Hpe|].
  split; [exact Hptl|]. split; [|congruence].
  unfold scroll_of, parent_ref. rewrite (get_Ok _ _ _ He).
  cbn [mbind result_bind bind]. rewrite Hpe. exact Hsc.
Qed.

(** X9: an element that sits on its anchors, under a parent whose
    applicable scroll offset is zero, is a fixed point of
    [_apply_anchors]: the call changes nothing, whatever is anchored to the
    element. *)
Theorem apply_anchors_fixed_point (rank : nat -> nat) (fuel : nat)
    (m : Manager) (n p : nat) (e : Element) :
  tree m rank -> settled m n -> parent_of m n = Some p ->
  scroll_of m n = Ok (0, 0) ->
  elements m !! n = Some e ->
  anchored_rect m e = Ok (absolute_rect e) ->
  _apply_anchors (S fuel) m n = Ok m.
Proof.
  intros Ht Hset Hp Hsc He Hr.
  destruct (settled_resolved m rank n p Ht Hset Hp)
    as (e0 & ptl & scroll & He0 & Hpe & Hptl & Hsc' & Habs).
  assert (e0 = e) by congruence. subst e0.
  assert (scroll = (0, 0)) by congruence. subst scroll.
  destruct Hset as (_ & e0 & He0' & Hsz & _).
  assert (e0 = e) by congruence. subst e0.
  cbn [_apply_anchors]. rewrite (get_Ok _ _ _ He).
  cbn [mbind result_bind bind].
  destruct (forallb _ (_anchors e)); [reflexivity|].
  rewrite Hr. cbn [mbind result_bind bind].
  unfold set_size. rewrite (get_Ok _ _ _ He). cbn [mbind result_bind bind].
  unfold rect_size in Hsz. rewrite decide_True by (symmetry; exact Hsz).
  cbn [mbind result_bind bind].
  unfold set_absolute_pos. rewrite (get_Ok _ _ _ He).
  cbn [mbind result_bind bind]. rewrite Hpe. cbn [mbind result_bind bind].
  rewrite Hptl. cbn [mbind result_bind bind].
  rewrite decide_True; [reflexivity|].
  rewrite Habs. unfold topleft. cbn. f_equal; lia.
Qed.

Lemma apply_anchors_fixed_point_witness :
  _apply_anchors 1 (anchored_panel 0) 3%nat = Ok (anchored_panel 0).
Proof.
  eapply (apply_anchors_fixed_point anchored_rank 0 (anchored_panel 0)
            3%nat 1%nat).
  - apply (tree_ok_tree _ _ anchored_depth).
    apply (bool_decide_unpack _). vm_compute. exact I.
  - eapply settled_intro;
      [reflexivity | vm_compute; reflexivity | reflexivity | reflexivity
      | vm_compute; discriminate | vm_compute; discriminate].
  - reflexivity.
  - reflexivity.
  - reflexivity.
  - vm_compute. reflexivity.
Defined.

End SceneGeometryFacts.

(** ** Anchors: removing and setting *)

Module SceneAnchorFacts.
Import Scene PyFacts SceneFacts SceneOrderFacts SceneGeometryFacts.

Lemma observers_absent m t : elements m !! t = None -> observers_of m t = [].
Proof. unfold observers_of. intros ->. reflexivity. Qed.

Lemma cleared_all_none l : Forall (fun p => p.2 = None) (cleared (set_keys l) l).
Proof.
  apply Forall_forall. intros x Hx. apply list_elem_of_In in Hx.
  unfold cleared in Hx. apply in_map_iff in Hx as (p & <- & Hp).
  apply list_elem_of_In in Hp.
  destruct (decide (p.1 ∈ set_keys l)) as [|Hn]; [reflexivity|].
  destruct p as [k [ad|]]; [|reflexivity].
  exfalso. apply Hn. eapply set_keys_elem. exact Hp.
Qed.

Lemma mirrored_live m n t :
  mirrored m -> (0 < slots_to t (anchors_of m n))%nat ->
  is_Some (elements m !! t).
Proof.
  intros Hm Hs. rewrite <- (Hm n t) in Hs.
  destruct (elements m !! t) eqn:E; [eauto|].
  rewrite (observers_absent m t E) in Hs. cbn in Hs. lia.
Qed.

(** X10: on a scene whose observer lists mirror the anchor slots,
    [remove_anchors()] completes, empties every anchor slot of the
    element, takes the element out of every observer list and leaves the
    other elements' anchors and observer entries alone; the observer lists
    mirror the anchor slots afterwards. *)
Theorem remove_anchors_clears (m : Manager) (n : nat) :
  mirrored m -> is_Some (elements m !! n) ->
  exists m', remove_anchors m n = Ok m'
    /\ Forall (fun p => p.2 = None) (anchors_of m' n)
    /\ (forall t, n ∉ observers_of m' t)
    /\ (forall o, o <> n -> anchors_of m' o = anchors_of m o)
    /\ (forall t z, z <> n ->
          occ z (observers_of m' t) = occ z (observers_of m t))
    /\ mirrored m'.
Proof.
  intros Hm [e He].
  destruct (lookup_fields _ _ _ He) as (_ & _ & _ & _ & Han).
  destruct (remove_anchor_loop n (_anchors e) m (ex_intro _ e He))
    as (m' & E & _ & _ & Ha & Had & Ho).
  { intros t. rewrite <- Han, (Hm n t). lia. }
  { intros t Ht. apply (mirrored_live m n t Hm). rewrite Han. exact Ht. }
  exists m'. split.
  { unfold remove_anchors. rewrite (get_Ok _ _ _ He). exact E. }
  assert (Hz : forall t, occ n (observers_of m' t) = 0%nat).
  { intros t. rewrite Ho, decide_True by reflexivity.
    rewrite (Hm n t), Han. lia. }
  split; [rewrite Had, Han; apply cleared_all_none|].
  split.
  { intros t Hin. apply occ_elem in Hin. rewrite Hz in Hin. lia. }
  split; [exact Ha|].
  split.
  { intros t z Hz'. rewrite Ho, decide_False by exact Hz'. lia. }
  intros o t. destruct (decide (o = n)) as [->|Hne].
  - rewrite Hz, Had, Han. symmetry. apply slots_to_cleared_all.
    intros k ad Hk. eapply set_keys_elem. exact Hk.
  - rewrite Ho, decide_False by exact Hne. rewrite (Ha o Hne), (Hm o t). lia.
Qed.

Lemma remove_anchors_clears_witness :
  exists m', remove_anchors anchored_scene 3%nat = Ok m'
    /\ Forall (fun p => p.2 = None) (anchors_of m' 3%nat)
    /\ (forall t, 3%nat ∉ observers_of m' t)
    /\ (forall o, o <> 3%nat -> anchors_of m' o = anchors_of anchored_scene o)
    /\ (forall t z, z <> 3%nat ->
          occ z (observers_of m' t) = occ z (observers_of anchored_scene t))
    /\ mirrored m'.
Proof.
  apply (remove_anchors_clears anchored_scene 3%nat).
  - apply (lifecycle_ok_scene anchored_scene anchored_rank anchored_depth).
    apply (bool_decide_unpack _). vm_compute. exact I.
  - vm_compute. eauto.
Defined.

(** *** What moving, resizing and anchoring never touch *)

Lemma for_each_inv {A S} (R : S -> S -> Prop) (body : S -> A -> result S)
    (l : list A) :
  (forall s, R s s) -> (forall a b c, R a b -> R b c -> R a c) ->
  (forall s a s', a ∈ l -> body s a = Ok s' -> R s s') ->
  forall s s', for_each body l s = Ok s' -> R s s'.
Proof.
  intros Hrefl Htrans. induction l as [|a l IH]; intros Hb s s' H.
  - injection H as <-. apply Hrefl.
  - cbn [for_each] in H. apply bind_inv in H as (s1 & H1 & H).
    apply (Htrans s s1 s').
    + exact (Hb s a s1 (list_elem_of_here _ _) H1).
    + apply IH; [|exact H]. intros s0 a0 s0' Ha0. apply Hb.
      apply list_elem_of_further. exact Ha0.
Qed.

Lemma put_rects m n e e' :
  get m n = Ok e -> frame_key e' = frame_key e -> same_but_rects m (put m n e').
Proof. intros H. apply same_but_rects_put. apply get_inv. exact H. Qed.

Lemma set_dirty_fuel_rects fuel : forall m n d m',
  set_dirty_fuel fuel m n d = Ok m' -> same_but_rects m m'.
Proof.
  induction fuel as [|fuel IH]; intros m n d m' H; [discriminate|].
  cbn [set_dirty_fuel] in H. apply bind_inv in H as (e & He & H).
  destruct (parent e).
  - destruct (Bool.eqb d (dirty e)).
    + injection H as <-. apply same_but_rects_refl.
    + apply (same_but_rects_trans m (put m n (with_dirty e d)) m');
        [|exact (IH _ _ _ _ H)].
      apply (put_rects m n e); [exact He | reflexivity].
  - injection H as <-. unfold UIRoot_set_dirty.
    destruct (Bool.eqb d (dirty e)); [apply same_but_rects_refl|].
    apply (put_rects m n e); [exact He | reflexivity].
Qed.

Lemma update_rects fuel : forall m n m',
  _update_absolute_rect_pos fuel m n = Ok m' -> same_but_rects m m'.
Proof.
  induction fuel as [|fuel IH]; intros m n m' H; [discriminate|].
  cbn [_update_absolute_rect_pos] in H.
  apply bind_inv in H as (tl & _ & H). apply bind_inv in H as (e & He & H).
  apply bind_inv in H as (m1 & H1 & H).
  match type of H1 with
  | for_each _ _ ?mm = _ =>
      apply (same_but_rects_trans m mm m');
        [apply (put_rects m n e); [exact He | reflexivity]|]
  end.
  eapply same_but_rects_trans; [|exact (set_dirty_fuel_rects _ _ _ _ _ H)].
  revert H1. apply for_each_inv;
    [apply same_but_rects_refl | apply same_but_rects_trans|].
  intros s a s' _. apply IH.
Qed.

Lemma set_size_rects apply m n size b m' :
  (forall m n m', apply m n = Ok m' -> same_but_rects m m') ->
  set_size apply m n size b = Ok m' -> same_but_rects m m'.
Proof.
  intros Happ H. unfold set_size in H. apply bind_inv in H as (e & He & H).
  destruct (decide _); [injection H as <-; apply same_but_rects_refl|].
  apply bind_inv in H as (m1 & H1 & H). apply bind_inv in H as (e1 & _ & H).
  apply bind_inv in H as (m2 & H2 & H).
  match type of H1 with
  | set_dirty ?mm _ _ = _ =>
      apply (same_but_rects_trans m mm m');
        [apply (put_rects m n e); [exact He | reflexivity]|]
  end.
  apply (same_but_rects_trans _ m1 m');
    [exact (set_dirty_fuel_rects _ _ _ _ _ H1)|].
  apply (same_but_rects_trans _ m2 m').
  - revert H2. apply for_each_inv;
      [apply same_but_rects_refl | apply same_but_rects_trans|].
    intros s a s' _. apply Happ.
  - destruct b; [exact (Happ _ _ _ H)|]. injection H as <-.
    apply same_but_rects_refl.
Qed.

Lemma set_absolute_pos_rects apply m n position b m' :
  (forall m n m', apply m n = Ok m' -> same_but_rects m m') ->
  set_absolute_pos apply m n position b = Ok m' -> same_but_rects m m'.
Proof.
  intros Happ H. unfold set_absolute_pos in H.
  apply bind_inv in H as (e & He & H). apply bind_inv in H as (p & _ & H).
  apply bind_inv in H as (ptl & _ & H).
  destruct (decide _); [injection H as <-; apply same_but_rects_refl|].
  apply bind_inv in H as (m1 & H1 & H). apply bind_inv in H as (e1 & _ & H).
  apply bind_inv in H as (m2 & H2 & H).
  match type of H1 with
  | _update_absolute_rect_pos _ ?mm _ = _ =>
      apply (same_but_rects_trans m mm m');
        [apply (put_rects m n e); [exact He | reflexivity]|]
  end.
  apply (same_but_rects_trans _ m1 m'); [exact (update_rects _ _ _ _ H1)|].
  apply (same_but_rects_trans _ m2 m').
  - revert H2. apply for_each_inv;
      [apply same_but_rects_refl | apply same_but_rects_trans|].
    intros s a s' _. apply Happ.
  - destruct b; [exact (Happ _ _ _ H)|]. injection H as <-.
    apply same_but_rects_refl.
Qed.

Lemma apply_anchors_rects fuel : forall m n m',
  _apply_anchors fuel m n = Ok m' -> same_but_rects m m'.
Proof.
  induction fuel as [|fuel IH]; intros m n m' H; [discriminate|].
  cbn [_apply_anchors] in H. apply bind_inv in H as (e & He & H).
  destruct (forallb _ _); [injection H as <-; apply same_but_rects_refl|].
  apply bind_inv in H as (r & _ & H). apply bind_inv in H as (m1 & H1 & H).
  eapply same_but_rects_trans.
  - exact (set_size_rects _ _ _ _ _ _ IH H1).
  - exact (set_absolute_pos_rects _ _ _ _ _ _ IH H).
Qed.

Lemma same_but_rects_fields m m' y :
  same_but_rects m m' ->
  parent_of m' y = parent_of m y /\ children_of m' y = children_of m y
  /\ observers_of m' y = observers_of m y /\ anchors_of m' y = anchors_of m y
  /\ ignore_stack <$> elements m' !! y = ignore_stack <$> elements m !! y.
Proof.
  intros (_ & H). specialize (H y).
  unfold parent_of, children_of, observers_of, anchors_of.
  destruct (elements m !! y) as [e|], (elements m' !! y) as [e'|];
    try discriminate; [|cbn; auto].
  assert (Hk : frame_key e' = frame_key e) by (apply (inj Some); exact H).
  destruct (frame_key_fields _ _ Hk) as (H1 & H2 & _ & _ & _ & H3 & H4).
  pose proof (f_equal (fun t => t.1.1.1.1.2) Hk) as Hi. cbn in Hi.
  cbn. rewrite H1, H2, H3, H4, Hi. auto.
Qed.

Lemma same_but_rects_mirrored m m' :
  same_but_rects m m' -> mirrored m -> mirrored m'.
Proof.
  intros Hs Hm o t.
  destruct (same_but_rects_fields m m' t Hs) as (_ & _ & -> & _).
  destruct (same_but_rects_fields m m' o Hs) as (_ & _ & _ & -> & _).
  apply Hm.
Qed.

(** X11: moving and resizing write rectangles and dirty flags only:
    whenever [_apply_anchors] returns, whatever the anchors and however
    far the calls spread along the observer lists, every element has the
    parent, children, ghost, scroll and render offsets, flags, observers
    and anchors it had. *)
Theorem apply_anchors_writes_rects_only (fuel : nat) (m m' : Manager)
    (n : nat) :
  _apply_anchors fuel m n = Ok m' ->
  same_but_rects m m'
  /\ forall y, parent_of m' y = parent_of m y
       /\ children_of m' y = children_of m y
       /\ observers_of m' y = observers_of m y
       /\ anchors_of m' y = anchors_of m y.
Proof.
  intros H. pose proof (apply_anchors_rects fuel m n m' H) as Hs.
  split; [exact Hs|]. intros y.
  destruct (same_but_rects_fields m m' y Hs) as (? & ? & ? & ? & _). auto.
Qed.

Lemma apply_anchors_writes_rects_only_witness :
  exists m', _apply_anchors 3 anchored_scene 2%nat = Ok m'
    /\ same_but_rects anchored_scene m'
    /\ forall y, parent_of m' y = parent_of anchored_scene y
         /\ children_of m' y = children_of anchored_scene y
         /\ observers_of m' y = observers_of anchored_scene y
         /\ anchors_of m' y = anchors_of anchored_scene y.
Proof.
  destruct (_apply_anchors 3 anchored_scene 2%nat) as [m'| |] eqn:E;
    [|vm_compute in E; discriminate|vm_compute in E; discriminate].
  exists m'. split; [reflexivity|].
  exact (apply_anchors_writes_rects_only 3 anchored_scene m' 2%nat E).
Defined.

(** *** [set_anchor] *)

(** The contribution of slot [a] of [l] to the anchors that target [t]. *)
Lemma slots_to_anchors_set t a v l :
  NoDup l.*1 -> a ∈ l.*1 ->
  (slots_to t (anchors_set a v l)
   + match anchors_get a l with
     | Some ad => if decide (target ad = t) then 1 else 0
     | None => 0
     end
   = slots_to t l
     + match v with
       | Some ad => if decide (target ad = t) then 1 else 0
       | None => 0
       end)%nat.
Proof.
  induction l as [|[k w] l IH]; intros Hnd Hin; [inversion Hin|].
  cbn [fmap list_fmap fst] in Hnd, Hin. apply NoDup_cons in Hnd as [Hk Hnd].
  cbn [anchors_set map anchors_get fst snd].
  destruct (decide (k = a)) as [->|Hne].
  - assert (Hrest : anchors_set a v l = l).
    { clear -Hk. induction l as [|[k' w'] l IH]; [reflexivity|].
      cbn [anchors_set map fst]. cbn [fmap list_fmap fst] in Hk.
      rewrite decide_False
        by (intros ->; apply Hk, list_elem_of_here).
      f_equal. apply IH. intros H. apply Hk, list_elem_of_further, H. }
    unfold anchors_set in Hrest. rewrite Hrest.
    destruct v as [ad|], w as [ad'|]; cbn [slots_to];
      repeat destruct (decide _); lia.
  - apply elem_of_cons in Hin as [->|Hin]; [congruence|].
    specialize (IH Hnd Hin). unfold anchors_set in IH.
    destruct w as [ad'|]; cbn [slots_to]; lia.
Qed.

Lemma anchors_get_set a v l :
  a ∈ l.*1 -> anchors_get a (anchors_set a v l) = v.
Proof.
  induction l as [|[k w] l IH]; intros Hin; [inversion Hin|].
  cbn [fmap list_fmap fst] in Hin.
  cbn [anchors_set map anchors_get fst snd].
  destruct (decide (k = a)) as [->|Hne].
  - cbn [anchors_get]. rewrite decide_True by reflexivity. reflexivity.
  - cbn [anchors_get]. rewrite decide_False by exact Hne.
    apply elem_of_cons in Hin as [->|Hin]; [congruence|]. exact (IH Hin).
Qed.

Lemma anchors_set_keys a v l : (anchors_set a v l).*1 = l.*1.
Proof.
  induction l as [|[k w] l IH]; [reflexivity|].
  cbn [anchors_set map fmap list_fmap fst].
  destruct (decide (k = a)) as [->|]; cbn [fst]; f_equal; exact IH.
Qed.

Lemma occ_app x l1 l2 : occ x (l1 ++ l2) = (occ x l1 + occ x l2)%nat.
Proof. induction l1 as [|y l1 IH]; cbn; [reflexivity|]. rewrite IH. lia. Qed.

Lemma list_remove_occ x l l' z :
  list_remove x l = Some l' ->
  (occ z l' + (if decide (z = x) then 1 else 0) = occ z l)%nat.
Proof.
  intros H. pose proof (list_remove_in _ _ _ H) as Hin.
  apply occ_elem in Hin.
  destruct (list_remove_Some x l Hin) as (l'' & E & Ho).
  assert (l'' = l') by congruence. subst l''. rewrite Ho.
  destruct (decide (z = x)) as [->|]; lia.
Qed.

(** The effect of the detaching step on the observer lists. *)
Lemma detach_slot_inv m n a m1 :
  detach_slot m n a = Ok m1 ->
  (forall y, anchors_of m1 y = anchors_of m y)
  /\ (forall y, is_Some (elements m1 !! y) <-> is_Some (elements m !! y))
  /\ (forall y, ignore_stack <$> elements m1 !! y
                = ignore_stack <$> elements m !! y)
  /\ (forall t z,
        (occ z (observers_of m1 t)
         + (if decide (z = n)
            then match anchors_get a (anchors_of m n) with
                 | Some ad => if decide (target ad = t) then 1 else 0
                 | None => 0
                 end
            else 0)
         = occ z (observers_of m t))%nat).
Proof.
  unfold detach_slot. intros H. apply bind_inv in H as (e & He & H).
  apply get_inv in He.
  destruct (lookup_fields _ _ _ He) as (_ & _ & _ & _ & Han). rewrite Han.
  destruct (anchors_get a (_anchors e)) as [ad|].
  - apply bind_inv in H as (te & Hte & H). apply get_inv in Hte.
    destruct (lookup_fields _ _ _ Hte) as (_ & _ & _ & Hob & Han').
    destruct (list_remove n (_anchor_observers te)) as [obs|] eqn:Er;
      [|discriminate].
    injection H as <-. split; [|split; [|split]].
    + intros y. rewrite put_anchors_of.
      destruct (decide (y = target ad)) as [->|]; [|reflexivity].
      symmetry. exact Han'.
    + intros y. apply (put_dom m (target ad) te). exact Hte.
    + intros y. rewrite lookup_put.
      destruct (decide (y = target ad)) as [->|]; [|reflexivity].
      rewrite Hte. reflexivity.
    + intros t z. rewrite put_observers_of.
      destruct (decide (t = target ad)) as [->|Hne].
      * cbn [_anchor_observers with_observers]. rewrite Hob.
        rewrite (decide_True (P := target ad = target ad)) by reflexivity.
        exact (list_remove_occ n _ obs z Er).
      * rewrite (decide_False (P := target ad = t)) by congruence.
        destruct (decide (z = n)); lia.
  - injection H as <-. split; [reflexivity|]. split; [reflexivity|].
    split; [reflexivity|]. intros t z. destruct (decide (z = n)); lia.
Qed.

(** X12: [set_anchor] keeps the observer lists in step with the anchor
    slots.  On a scene where every observer list holds an element once per
    anchor slot of that element that targets the owner of the list,
    whenever [set_anchor] returns the same holds afterwards; the slot named
    holds the new anchor (or nothing, for the target [None]) and the
    element ignores stacks.  Nothing is said about calls that raise. *)
Theorem set_anchor_keeps_mirrored (fuel : nat) (m m' : Manager) (n : nat)
    (tgt : anchor_target) (self_anchor target_anchor : string)
    (offset : Z) :
  mirrored m -> six_slots (anchors_of m n) ->
  set_anchor (_apply_anchors fuel) m n tgt self_anchor target_anchor offset
  = Ok m' ->
  mirrored m'
  /\ six_slots (anchors_of m' n)
  /\ ignore_stack <$> elements m' !! n = Some true
  /\ exists sa ta,
       anchor_of_name self_anchor = Some sa
       /\ anchor_of_name target_anchor = Some ta
       /\ match tgt with
          | TNone => anchors_get sa (anchors_of m' n) = None
          | TParent =>
              exists p, parent_of m n = Some p
                /\ anchors_get sa (anchors_of m' n)
                   = Some (mkAnchor p sa ta offset)
          | TElement t =>
              anchors_get sa (anchors_of m' n)
              = Some (mkAnchor t sa ta offset)
          end.
Proof.
  intros Hm Hsix H. unfold set_anchor in H.
  apply bind_inv in H as (e & He & H). apply get_inv in He.
  destruct (lookup_fields _ _ _ He) as (Hpar & _ & _ & Hob & Han).
  set (m0 := put m n (set_ignore e (Some true) None)) in H.
  assert (Han0 : forall y, anchors_of m0 y = anchors_of m y).
  { intros y. unfold m0. rewrite put_anchors_of.
    destruct (decide (y = n)) as [->|]; [|reflexivity]. symmetry. exact Han. }
  assert (Hob0 : forall y, observers_of m0 y = observers_of m y).
  { intros y. unfold m0. rewrite put_observers_of.
    destruct (decide (y = n)) as [->|]; [|reflexivity]. symmetry. exact Hob. }
  assert (Hpar0 : forall y, parent_of m0 y = parent_of m y).
  { intros y. unfold m0. rewrite put_parent_of.
    destruct (decide (y = n)) as [->|]; [|reflexivity]. symmetry. exact Hpar. }
  assert (Hig0 : ignore_stack <$> elements m0 !! n = Some true).
  { unfold m0. rewrite lookup_put, decide_True by reflexivity. reflexivity. }
  assert (Hkeys : forall a, a ∈ (anchors_of m n).*1).
  { intros a. rewrite Hsix. destruct a; set_solver. }
  assert (Hnd : NoDup (anchors_of m n).*1).
  { rewrite Hsix. apply (bool_decide_unpack _). vm_compute. exact I. }
  destruct (anchor_of_name self_anchor) as [sa|]; [|discriminate].
  destruct (anchor_of_name target_anchor) as [ta|]; [|discriminate].
  (* the part shared by both branches: detach, then write the slot *)
  assert (Hstore : forall v m1 e1,
            detach_slot m0 n sa = Ok m1 -> get m1 n = Ok e1 ->
            let m2 := put m1 n (with_anchors e1
                                  (anchors_set sa v (_anchors e1))) in
            (forall y, anchors_of m2 y
                       = if decide (y = n)
                         then anchors_set sa v (anchors_of m n)
                         else anchors_of m y)
            /\ (forall y, is_Some (elements m2 !! y)
                          <-> is_Some (elements m0 !! y))
            /\ ignore_stack <$> elements m2 !! n = Some true
            /\ (forall t z, z <> n ->
                  occ z (observers_of m2 t) = occ z (observers_of m t))
            /\ (forall t,
                  (occ n (observers_of m2 t)
                   + match v with
                     | Some ad => if decide (target ad = t) then 1 else 0
                     | None => 0
                     end
                   = slots_to t (anchors_set sa v (anchors_of m n)))%nat)).
  { intros v m1 e1 Hd He1 m2. apply get_inv in He1.
    destruct (detach_slot_inv _ _ _ _ Hd) as (Ha1 & Hd1 & Hi1 & Ho1).
    destruct (lookup_fields _ _ _ He1) as (_ & _ & _ & Hob1 & Han1).
    assert (Hob2 : forall y, observers_of m2 y = observers_of m1 y).
    { intros y. unfold m2. rewrite put_observers_of.
      destruct (decide (y = n)) as [->|]; [|reflexivity].
      symmetry. exact Hob1. }
    split; [|split; [|split; [|split]]].
    - intros y. unfold m2. rewrite put_anchors_of.
      destruct (decide (y = n)) as [->|].
      + cbn [_anchors with_anchors]. rewrite <- Han1, Ha1, Han0. reflexivity.
      + rewrite Ha1, Han0. reflexivity.
    - intros y. unfold m2. rewrite (put_dom m1 n e1 _ y He1). apply Hd1.
    - unfold m2. rewrite lookup_put, decide_True by reflexivity.
      cbn. pose proof (Hi1 n) as Hi. rewrite He1, Hig0 in Hi. exact Hi.
    - intros t z Hz. rewrite Hob2. specialize (Ho1 t z).
      rewrite decide_False in Ho1 by exact Hz. rewrite Hob0 in Ho1. lia.
    - intros t. rewrite Hob2. specialize (Ho1 t n).
      rewrite decide_True in Ho1 by reflexivity.
      rewrite Han0, Hob0, (Hm n t) in Ho1.
      pose proof (slots_to_anchors_set t sa v (anchors_of m n) Hnd (Hkeys sa)).
      lia. }
  assert (Hfin : forall v m2,
            (forall y, anchors_of m2 y
                       = if decide (y = n)
                         then anchors_set sa v (anchors_of m n)
                         else anchors_of m y) ->
            (forall t z, z <> n ->
               occ z (observers_of m2 t) = occ z (observers_of m t)) ->
            (forall t, occ n (observers_of m2 t)
                       = slots_to t (anchors_set sa v (anchors_of m n))) ->
            mirrored m2 /\ six_slots (anchors_of m2 n)
            /\ anchors_get sa (anchors_of m2 n) = v).
  { intros v m2 Ha2 Hoz Hon. split; [|split].
    - intros o t. rewrite Ha2. destruct (decide (o = n)) as [->|Hne].
      + apply Hon.
      + rewrite (Hoz t o Hne). apply Hm.
    - unfold six_slots. rewrite Ha2, decide_True by reflexivity.
      rewrite anchors_set_keys. exact Hsix.
    - rewrite Ha2, decide_True by reflexivity.
      apply anchors_get_set, Hkeys. }
  destruct tgt as [| |t].
  - (* target None: the slot is emptied *)
    apply bind_inv in H as (m1 & Hd & H). apply bind_inv in H as (e1 & He1 & H).
    injection H as <-.
    destruct (Hstore None m1 e1 Hd He1) as (Ha2 & _ & Hi2 & Hoz & Hon).
    destruct (Hfin None _ Ha2 Hoz) as (Hm2 & Hs2 & Hg2).
    { intros t. specialize (Hon t). lia. }
    split; [exact Hm2|]. split; [exact Hs2|]. split; [exact Hi2|].
    exists sa, ta. auto.
  - (* target "parent" *)
    destruct (_ || _); [discriminate|].
    apply bind_inv in H as (t & Ht & H).
    apply bind_inv in Ht as (e0 & He0 & Ht). apply get_inv in He0.
    assert (Hpt : parent_of m n = Some t).
    { rewrite <- Hpar0. unfold parent_of. rewrite He0. cbn.
      unfold parent_ref in Ht. destruct (parent e0); congruence. }
    apply bind_inv in H as (r & _ & H). destruct r; [discriminate|].
    apply bind_inv in H as (m1 & Hd & H). apply bind_inv in H as (e1 & He1 & H).
    set (v := Some (mkAnchor t sa ta offset)) in H.
    destruct (Hstore v m1 e1 Hd He1) as (Ha2 & Hd2 & Hi2 & Hoz & Hon).
    cbn zeta in Ha2, Hd2, Hi2, Hoz, Hon.
    set (m2 := put m1 n (with_anchors e1 (anchors_set sa v (_anchors e1))))
      in *.
    apply bind_inv in H as (te & Hte & H). apply get_inv in Hte.
    destruct (lookup_fields _ _ _ Hte) as (_ & _ & _ & Hobt & Hant).
    set (m3 := put m2 t (with_observers te (_anchor_observers te ++ [n])))
      in H.
    apply bind_inv in H as (e3 & _ & H).
    destruct (_ && _); [discriminate|]. destruct (_ && _); [discriminate|].
    pose proof (apply_anchors_rects _ _ _ _ H) as Hr.
    assert (Ha3 : forall y, anchors_of m3 y = anchors_of m2 y).
    { intros y. unfold m3. rewrite put_anchors_of.
      destruct (decide (y = t)) as [->|]; [|reflexivity]. symmetry. exact Hant. }
    assert (Ho3 : forall y z, occ z (observers_of m3 y)
                  = (occ z (observers_of m2 y)
                     + if decide (y = t) then if decide (n = z) then 1 else 0
                       else 0)%nat).
    { intros y z. unfold m3. rewrite put_observers_of.
      destruct (decide (y = t)) as [->|]; [|lia].
      cbn [_anchor_observers with_observers]. rewrite occ_app, Hobt. cbn.
      destruct (decide (n = z)); lia. }
    destruct (Hfin v m3) as (Hm3 & Hs3 & Hg3).
    { intros y. rewrite Ha3. apply Ha2. }
    { intros y z Hz. rewrite Ho3, (Hoz y z Hz).
      destruct (decide (y = t)); [|lia].
      rewrite decide_False by congruence. lia. }
    { intros y. rewrite Ho3. specialize (Hon y). unfold v in Hon at 1.
      cbn [target] in Hon. rewrite (decide_True (P := n = n)) by reflexivity.
      destruct (decide (y = t)) as [->|Hne].
      - rewrite decide_True in Hon by reflexivity. lia.
      - rewrite decide_False in Hon by congruence. lia. }
    split; [exact (same_but_rects_mirrored _ _ Hr Hm3)|].
    destruct (same_but_rects_fields m3 m' n Hr) as (_ & _ & _ & Hae & Hie).
    split; [rewrite Hae; exact Hs3|].
    split.
    { rewrite Hie. unfold m3. rewrite lookup_put.
      destruct (decide (n = t)) as [->|]; [|exact Hi2].
      rewrite Hte in Hi2. exact Hi2. }
    exists sa, ta. split; [reflexivity|]. split; [reflexivity|].
    exists t. split; [exact Hpt|]. rewrite Hae. exact Hg3.
  - (* target an element *)
    destruct (_ || _); [discriminate|].
    apply bind_inv in H as (t' & Ht & H). injection Ht as <-.
    apply bind_inv in H as (r & _ & H). destruct r; [discriminate|].
    apply bind_inv in H as (m1 & Hd & H). apply bind_inv in H as (e1 & He1 & H).
    set (v := Some (mkAnchor t sa ta offset)) in H.
    destruct (Hstore v m1 e1 Hd He1) as (Ha2 & Hd2 & Hi2 & Hoz & Hon).
    cbn zeta in Ha2, Hd2, Hi2, Hoz, Hon.
    set (m2 := put m1 n (with_anchors e1 (anchors_set sa v (_anchors e1))))
      in *.
    apply bind_inv in H as (te & Hte & H). apply get_inv in Hte.
    destruct (lookup_fields _ _ _ Hte) as (_ & _ & _ & Hobt & Hant).
    set (m3 := put m2 t (with_observers te (_anchor_observers te ++ [n])))
      in H.
    apply bind_inv in H as (e3 & _ & H).
    destruct (_ && _); [discriminate|]. destruct (_ && _); [discriminate|].
    pose proof (apply_anchors_rects _ _ _ _ H) as Hr.
    assert (Ha3 : forall y, anchors_of m3 y = anchors_of m2 y).
    { intros y. unfold m3. rewrite put_anchors_of.
      destruct (decide (y = t)) as [->|]; [|reflexivity]. symmetry. exact Hant. }
    assert (Ho3 : forall y z, occ z (observers_of m3 y)
                  = (occ z (observers_of m2 y)
                     + if decide (y = t) then if decide (n = z) then 1 else 0
                       else 0)%nat).
    { intros y z. unfold m3. rewrite put_observers_of.
      destruct (decide (y = t)) as [->|]; [|lia].
      cbn [_anchor_observers with_observers]. rewrite occ_app, Hobt. cbn.
      destruct (decide (n = z)); lia. }
    destruct (Hfin v m3) as (Hm3 & Hs3 & Hg3).
    { intros y. rewrite Ha3. apply Ha2. }
    { intros y z Hz. rewrite Ho3, (Hoz y z Hz).
      destruct (decide (y = t)); [|lia].
      rewrite decide_False by congruence. lia. }
    { intros y. rewrite Ho3. specialize (Hon y). unfold v in Hon at 1.
      cbn [target] in Hon. rewrite (decide_True (P := n = n)) by reflexivity.
      destruct (decide (y = t)) as [->|Hne].
      - rewrite decide_True in Hon by reflexivity. lia.
      - rewrite decide_False in Hon by congruence. lia. }
    split; [exact (same_but_rects_mirrored _ _ Hr Hm3)|].
    destruct (same_but_rects_fields m3 m' n Hr) as (_ & _ & _ & Hae & Hie).
    split; [rewrite Hae; exact Hs3|].
    split.
    { rewrite Hie. unfold m3. rewrite lookup_put.
      destruct (decide (n = t)) as [->|]; [|exact Hi2].
      rewrite Hte in Hi2. exact Hi2. }
    exists sa, ta. split; [reflexivity|]. split; [reflexivity|].
    rewrite Hae. exact Hg3.
Qed.

Lemma set_anchor_keeps_mirrored_witness :
  exists m',
    set_anchor (_apply_anchors 3) anchored_scene 5%nat (TElement 4%nat)
      "left" "right" 2 = Ok m'
    /\ mirrored m'
    /\ six_slots (anchors_of m' 5%nat)
    /\ ignore_stack <$> elements m' !! 5%nat = Some true
    /\ exists sa ta,
         anchor_of_name "left" = Some sa
         /\ anchor_of_name "right" = Some ta
         /\ anchors_get sa (anchors_of m' 5%nat)
            = Some (mkAnchor 4%nat sa ta 2).
Proof.
  destruct (set_anchor (_apply_anchors 3) anchored_scene 5%nat
              (TElement 4%nat) "left" "right" 2) as [m'| |] eqn:E;
    [|vm_compute in E; discriminate|vm_compute in E; discriminate].
  exists m'. split; [reflexivity|].
  apply (set_anchor_keeps_mirrored 3 anchored_scene m' 5%nat
           (TElement 4%nat) "left" "right" 2).
  - apply (lifecycle_ok_scene anchored_scene anchored_rank anchored_depth).
    apply (bool_decide_unpack _). vm_compute. exact I.
  - reflexivity.
  - exact E.
Defined.

Lemma anchor_name_not_none s a :
  anchor_of_name s = Some a -> String.eqb s "none" = false.
Proof.
  unfold anchor_of_name. intros H.
  repeat match type of H with
  | (if String.eqb s ?x then _ else _) = _ =>
      destruct (String.eqb_spec s x) as [->|_]; [reflexivity|]
  end.
  discriminate.
Qed.

Lemma bind_raise_inv {A B} (r : result A) (f : A -> result B) err :
  (r ≫= f) = Raise err ->
  r = Raise err \/ exists a, r = Ok a /\ f a = Raise err.
Proof.
  destruct r; cbn; intros H; [right; eauto | left; congruence | discriminate].
Qed.

Lemma get_no_UIError m n msg : get m n <> Raise (UIError msg).
Proof. unfold get. destruct (elements m !! n); discriminate. Qed.

Lemma parent_ref_no_UIError e msg : parent_ref e <> Raise (UIError msg).
Proof. unfold parent_ref. destruct (parent e); discriminate. Qed.

Lemma detach_slot_no_UIError m n a msg :
  detach_slot m n a <> Raise (UIError msg).
Proof.
  unfold detach_slot. intros H.
  apply bind_raise_inv in H as [H | (e & _ & H)];
    [exact (get_no_UIError _ _ _ H)|].
  destruct (anchors_get a (_anchors e)); [|discriminate].
  apply bind_raise_inv in H as [H | (te & _ & H)];
    [exact (get_no_UIError _ _ _ H)|].
  destruct (list_remove n (_anchor_observers te)); discriminate.
Qed.

Lemma no_ui_bind {A B} (r : result A) (f : A -> result B) msg :
  r <> Raise (UIError msg) -> (forall a, f a <> Raise (UIError msg)) ->
  (r ≫= f) <> Raise (UIError msg).
Proof.
  intros Hr Hf. destruct r; cbn; [apply Hf | congruence | discriminate].
Qed.

Ltac no_ui :=
  repeat first
    [ discriminate
    | apply get_no_UIError
    | solve [auto]
    | apply no_ui_bind; [|intro]
    | match goal with
      | |- (if ?x then _ else _) <> _ => destruct x
      | |- (match ?x with _ => _ end) <> _ => destruct x
      end
    | progress cbv zeta ].

Lemma for_each_no_UIError {A S} (body : S -> A -> result S) (l : list A) msg :
  (forall s a, body s a <> Raise (UIError msg)) ->
  forall s, for_each body l s <> Raise (UIError msg).
Proof.
  intros Hb. induction l as [|a l IH]; intros s; cbn [for_each]; no_ui.
Qed.

Lemma set_dirty_fuel_no_UIError fuel msg : forall m n d,
  set_dirty_fuel fuel m n d <> Raise (UIError msg).
Proof.
  induction fuel as [|fuel IH]; intros m n d; cbn [set_dirty_fuel]; no_ui.
Qed.

Lemma topleft_fuel_no_UIError fuel msg : forall m n,
  get_absolute_topleft_fuel fuel m n <> Raise (UIError msg).
Proof.
  induction fuel as [|fuel IH]; intros m n;
    cbn [get_absolute_topleft_fuel]; unfold applicable_scroll; no_ui.
Qed.

Lemma update_no_UIError fuel msg : forall m n,
  _update_absolute_rect_pos fuel m n <> Raise (UIError msg).
Proof.
  induction fuel as [|fuel IH]; intros m n;
    cbn [_update_absolute_rect_pos]; [discriminate|].
  apply no_ui_bind; [apply topleft_fuel_no_UIError|intro].
  apply no_ui_bind; [apply get_no_UIError|intro]. cbv zeta.
  apply no_ui_bind; [apply for_each_no_UIError; exact IH|intro].
  apply set_dirty_fuel_no_UIError.
Qed.

Lemma anchored_rect_no_UIError m e msg :
  anchored_rect m e <> Raise (UIError msg).
Proof. unfold anchored_rect, anchored_span, anchor_value. no_ui. Qed.

Lemma apply_anchors_no_UIError fuel msg : forall m n,
  _apply_anchors fuel m n <> Raise (UIError msg).
Proof.
  induction fuel as [|fuel IH]; intros m n; cbn [_apply_anchors];
    [discriminate|].
  apply no_ui_bind; [apply get_no_UIError|intro].
  destruct (forallb _ _); [discriminate|].
  apply no_ui_bind; [apply anchored_rect_no_UIError|intro].
  apply no_ui_bind.
  - unfold set_size. apply no_ui_bind; [apply get_no_UIError|intro].
    destruct (decide _); [discriminate|]. cbv zeta.
    apply no_ui_bind; [apply set_dirty_fuel_no_UIError|intro].
    apply no_ui_bind; [apply get_no_UIError|intro].
    apply no_ui_bind; [apply for_each_no_UIError; exact IH|intro].
    discriminate.
  - intro. unfold set_absolute_pos.
    apply no_ui_bind; [apply get_no_UIError|intro].
    apply no_ui_bind; [destruct (parent _); discriminate|intro].
    apply no_ui_bind; [apply topleft_fuel_no_UIError|intro]. cbv zeta.
    destruct (decide _); [discriminate|].
    apply no_ui_bind; [apply update_no_UIError|intro].
    apply no_ui_bind; [apply get_no_UIError|intro].
    apply no_ui_bind; [apply for_each_no_UIError; exact IH|intro].
    discriminate.
Qed.

(** X13: [set_anchor] checks the two anchor names before it looks at the
    target.  With a self or target anchor that is not one of the six
    names, as the default ["none"] of either argument, it raises UIError
    "Invalid anchor" for every target, the target [None] that removes an
    anchor included; the later test for ["none"] therefore never raises.
    With valid names, a target without parent (the root) raises UIError
    "Anchor target cannot be root". *)
Theorem set_anchor_configuration_errors (fuel : nat) (m : Manager)
    (n : nat) :
  let apply := _apply_anchors fuel in
  is_Some (elements m !! n) ->
  (forall tgt sa ta off,
     anchor_of_name sa = None \/ anchor_of_name ta = None ->
     set_anchor apply m n tgt sa ta off
     = Raise (UIError "Invalid anchor. Valid anchors are left, right, top, bottom, centerx, centery"))
  /\ (forall tgt sa off,
        set_anchor apply m n tgt sa "none" off
        = Raise (UIError "Invalid anchor. Valid anchors are left, right, top, bottom, centerx, centery"))
  /\ (forall tgt sa ta off,
        set_anchor apply m n tgt sa ta off
        <> Raise (UIError "If target is not None self and target anchors must not be 'none'"))
  /\ (forall t sa ta a b off,
        anchor_of_name sa = Some a -> anchor_of_name ta = Some b ->
        is_Some (elements m !! t) -> parent_of m t = None ->
        set_anchor apply m n (TElement t) sa ta off
        = Raise (UIError "Anchor target cannot be root")).
Proof.
  intros apply [e He].
  assert (Happ : forall m n msg, apply m n <> Raise (UIError msg))
    by (intros; apply apply_anchors_no_UIError).
  assert (Hinv : forall tgt sa ta off,
            anchor_of_name sa = None \/ anchor_of_name ta = None ->
            set_anchor apply m n tgt sa ta off
            = Raise (UIError "Invalid anchor. Valid anchors are left, right, top, bottom, centerx, centery")).
  { intros tgt sa ta off H. unfold set_anchor. rewrite (get_Ok _ _ _ He).
    cbn [mbind result_bind bind].
    destruct H as [-> | ->]; [reflexivity|].
    destruct (anchor_of_name sa); reflexivity. }
  split; [exact Hinv|]. split; [intros; apply Hinv; right; reflexivity|].
  split.
  - intros tgt sa ta off.
    destruct (anchor_of_name sa) as [a|] eqn:Ea;
      [|rewrite Hinv by (left; exact Ea); discriminate].
    destruct (anchor_of_name ta) as [b|] eqn:Eb;
      [|rewrite Hinv by (right; exact Eb); discriminate].
    unfold set_anchor. rewrite (get_Ok _ _ _ He).
    cbn [mbind result_bind bind]. rewrite Ea, Eb.
    rewrite (anchor_name_not_none sa a Ea), (anchor_name_not_none ta b Eb).
    cbn [orb].
    set (m0 := put m n (set_ignore e (Some true) None)).
    assert (Htail : forall t,
      (r ← is_root m0 t;
       if (r : bool) then Raise (UIError "Anchor target cannot be root")
       else
         m ← detach_slot m0 n a;
         e ← get m n;
         let m :=
           put m n (with_anchors e
                      (anchors_set a (Some (mkAnchor t a b off))
                         (_anchors e))) in
         te ← get m t;
         let m :=
           put m t (with_observers te (_anchor_observers te ++ [n])) in
         e ← get m n;
         if (slot_set e Left || slot_set e Right) && slot_set e CenterX
         then Raise (UIError "If the centerx anchor is set left and right anchors cannot be set too")
         else if (slot_set e Top || slot_set e Bottom)
                 && slot_set e CenterY
         then Raise (UIError "If the centery anchor is set top and bottom anchors cannot be set too")
         else apply m n)
      <> Raise (UIError "If target is not None self and target anchors must not be 'none'")).
    { intros t H.
      apply bind_raise_inv in H as [H | (r & _ & H)].
      { unfold is_root in H.
        apply bind_raise_inv in H as [H | (? & _ & H)];
          [exact (get_no_UIError _ _ _ H) | discriminate]. }
      destruct r; [discriminate|].
      apply bind_raise_inv in H as [H | (m1 & _ & H)];
        [exact (detach_slot_no_UIError _ _ _ _ H)|].
      apply bind_raise_inv in H as [H | (e1 & _ & H)];
        [exact (get_no_UIError _ _ _ H)|].
      cbv zeta in H.
      apply bind_raise_inv in H as [H | (te & _ & H)];
        [exact (get_no_UIError _ _ _ H)|].
      apply bind_raise_inv in H as [H | (e2 & _ & H)];
        [exact (get_no_UIError _ _ _ H)|].
      destruct (_ && _) in H; [discriminate|].
      destruct (_ && _) in H; [discriminate|].
      exact (Happ _ _ _ H). }
    destruct tgt as [| |t].
    + intros H.
      apply bind_raise_inv in H as [H | (m1 & _ & H)];
        [exact (detach_slot_no_UIError _ _ _ _ H)|].
      apply bind_raise_inv in H as [H | (e1 & _ & H)];
        [exact (get_no_UIError _ _ _ H) | discriminate].
    + intros H.
      apply bind_raise_inv in H as [H | (t & _ & H)]; [|exact (Htail t H)].
      apply bind_raise_inv in H as [H | (e1 & _ & H)];
        [exact (get_no_UIError _ _ _ H)
        |exact (parent_ref_no_UIError _ _ H)].
    + cbn [mbind result_bind bind]. apply Htail.
  - intros t sa ta a b off Ea Eb [te Hte] Hp.
    unfold set_anchor. rewrite (get_Ok _ _ _ He).
    cbn [mbind result_bind bind]. rewrite Ea, Eb.
    rewrite (anchor_name_not_none sa a Ea), (anchor_name_not_none ta b Eb).
    cbn [orb mbind result_bind bind].
    assert (Hr : is_root (put m n (set_ignore e (Some true) None)) t
                 = Ok true).
    { unfold is_root, get, put. cbn.
      unfold parent_of in Hp. rewrite Hte in Hp. cbn in Hp.
      destruct (decide (t = n)) as [->|Hne].
      - rewrite lookup_insert_eq. cbn.
        assert (te = e) by congruence. subst te. rewrite Hp. reflexivity.
      - rewrite lookup_insert_ne by congruence. rewrite Hte. cbn.
        rewrite Hp. reflexivity. }
    rewrite Hr. reflexivity.
Qed.

Lemma set_anchor_configuration_errors_witness :
  set_anchor (_apply_anchors 3) anchored_scene 5%nat TNone "left" "none" 0
  = Raise (UIError "Invalid anchor. Valid anchors are left, right, top, bottom, centerx, centery")
  /\ set_anchor (_apply_anchors 3) anchored_scene 5%nat (TElement 0%nat)
       "left" "right" 0
     = Raise (UIError "Anchor target cannot be root").
Proof.
  assert (H5 : is_Some (elements anchored_scene !! 5%nat))
    by (vm_compute; eexists; reflexivity).
  destruct (set_anchor_configuration_errors 3 anchored_scene 5%nat H5)
    as (_ & Hnone & _ & Hroot).
  split; [apply Hnone|].
  apply (Hroot 0%nat "left" "right" Left Right 0);
    [reflexivity | reflexivity | vm_compute; eexists; reflexivity
    | reflexivity].
Defined.

End SceneAnchorFacts.


(** ** Facts about destroying the children *)

Module SceneChildrenFacts.
Import Scene PyFacts SceneFacts SceneOrderFacts SceneGeometryFacts
  SceneAnchorFacts.

Lemma scd_refl m : same_can_destroy m m.
Proof. intros y. reflexivity. Qed.

Lemma scd_trans m1 m2 m3 :
  same_can_destroy m1 m2 -> same_can_destroy m2 m3 -> same_can_destroy m1 m3.
Proof. intros H1 H2 y. rewrite H2. apply H1. Qed.

Lemma scd_put m y e e' :
  get m y = Ok e -> can_destroy e' = can_destroy e ->
  same_can_destroy m (put m y e').
Proof.
  intros H Hc z. apply get_inv in H. unfold can_destroy_of, put. cbn.
  destruct (decide (z = y)) as [->|Hne].
  - rewrite lookup_insert_eq, H. cbn. exact Hc.
  - rewrite lookup_insert_ne by congruence. reflexivity.
Qed.

Lemma scd_rects m m' : same_but_rects m m' -> same_can_destroy m m'.
Proof.
  intros (_ & H) y. specialize (H y). unfold can_destroy_of.
  destruct (elements m !! y) as [e|], (elements m' !! y) as [e'|];
    try discriminate; [|reflexivity].
  assert (Hk : frame_key e' = frame_key e) by (apply (inj Some); exact H).
  exact (f_equal (fun t => t.1.1.2) Hk).
Qed.

Lemma set_dirty_scd m n d m' :
  set_dirty m n d = Ok m' -> same_can_destroy m m'.
Proof. intros H. apply scd_rects. exact (set_dirty_fuel_rects _ _ _ _ _ H). Qed.

Lemma remove_child_scd m p x m' :
  parent_remove_child m p x = Ok m' -> same_can_destroy m m'.
Proof.
  unfold parent_remove_child. intros H. apply bind_inv in H as (pe & _ & H).
  assert (Hb : (pe' ← get m p;
                if bool_decide (x ∈ children pe') then
                  set_dirty
                    (put m p (with_children pe' (discard x (children pe'))))
                    p true
                else Ok m) = Ok m').
  { destruct (parent pe); exact H. }
  clear H. apply bind_inv in Hb as (pe' & Hpe & H).
  destruct (bool_decide _); [|injection H as <-; apply scd_refl].
  apply (scd_trans m (put m p (with_children pe' (discard x (children pe'))))).
  - apply (scd_put m p pe'); [exact Hpe | reflexivity].
  - exact (set_dirty_scd _ _ _ _ H).
Qed.

Lemma destroy_scd fuel : forall m x force m',
  destroy fuel m x force = Ok m' -> same_can_destroy m m'.
Proof.
  induction fuel as [|fuel IH]; intros m x force m' H; [discriminate|].
  cbn [destroy] in H. apply bind_inv in H as (e & _ & H).
  destruct (negb (can_destroy e) && negb force);
    [injection H as <-; apply scd_refl|].
  apply bind_inv in H as (m1 & H1 & H). apply bind_inv in H as (m2 & H2 & H).
  apply bind_inv in H as (m3 & H3 & H). apply bind_inv in H as (p & _ & H).
  apply bind_inv in H as (m4 & H4 & H). apply bind_inv in H as (e4 & _ & H).
  apply bind_inv in H as (m5 & H5 & H). apply bind_inv in H as (e5 & He5 & H).
  injection H as <-.
  apply (scd_trans m m1).
  { revert H1. apply for_each_inv; [apply scd_refl | apply scd_trans|].
    intros s o s' _ Ho. unfold _remove_dead_anchor in Ho.
    apply bind_inv in Ho as (oe & Hoe & Ho). injection Ho as <-.
    apply (scd_put s o oe); [exact Hoe | reflexivity]. }
  apply (scd_trans m1 m2).
  { unfold remove_anchors in H2. apply bind_inv in H2 as (e1 & _ & H2).
    revert H2. apply for_each_inv; [apply scd_refl | apply scd_trans|].
    intros s item s' _ Hi. unfold remove_anchor in Hi.
    destruct (item.2) as [ad|]; [|injection Hi as <-; apply scd_refl].
    apply bind_inv in Hi as (te & Hte & Hi).
    destruct (list_remove x (_anchor_observers te)) as [obs|]; [|discriminate].
    apply bind_inv in Hi as (se & Hse & Hi). injection Hi as <-.
    apply (scd_trans s (put s (target ad) (with_observers te obs))).
    - apply (scd_put s (target ad) te); [exact Hte | reflexivity].
    - apply (scd_put _ x se); [exact Hse | reflexivity]. }
  apply (scd_trans m2 m3).
  { destruct (ghost_element e) as [g|]; [exact (IH _ _ _ _ H3)|].
    injection H3 as <-. apply scd_refl. }
  apply (scd_trans m3 m4); [exact (remove_child_scd _ _ _ _ H4)|].
  apply (scd_trans m4 m5).
  { revert H5. apply for_each_inv; [apply scd_refl | apply scd_trans|].
    intros s c s' _ Hc. exact (IH _ _ _ _ Hc). }
  intros y. change (can_destroy_of (unregister (put m5 x (with_children e5 [])) x) y)
    with (can_destroy_of (put m5 x (with_children e5 [])) y).
  apply (scd_put m5 x e5); [exact He5 | reflexivity].
Qed.

Lemma destroyable_loop m cs : forall acc,
  Forall (fun c => is_Some (elements m !! c)) cs ->
  for_each (fun acc el =>
              ce ← get m el;
              Ok (if can_destroy ce then acc ++ [el] else acc)) cs acc
  = Ok (acc ++ filter (fun c => can_destroy_of m c = true) cs).
Proof.
  induction cs as [|c cs IH]; intros acc H.
  - cbn. rewrite app_nil_r. reflexivity.
  - inversion H as [|? ? [ce Hc] Hcs]; subst. cbn [for_each].
    rewrite (get_Ok _ _ _ Hc). cbn [mbind result_bind bind].
    rewrite IH by exact Hcs.
    assert (Hcd : can_destroy_of m c = can_destroy ce)
      by (unfold can_destroy_of; rewrite Hc; reflexivity).
    destruct (can_destroy ce).
    + rewrite filter_cons_True by exact Hcd. rewrite <- app_assoc.
      reflexivity.
    + rewrite filter_cons_False by congruence. reflexivity.
Qed.

Lemma destroy_children_loop rank fuel cs : forall ma,
  scene ma rank ->
  (forall c, c ∈ cs -> is_Some (elements ma !! c) /\ (rank c < fuel)%nat
                       /\ is_Some (parent_of ma c)) ->
  exists mb,
    for_each (fun m child => destroy fuel m child false) cs ma = Ok mb
    /\ scene mb rank /\ shrinks ma mb /\ orphans_destroyed [] ma mb
    /\ same_can_destroy ma mb
    /\ forall c, c ∈ cs -> can_destroy_of ma c = true -> destroyed mb c.
Proof.
  induction cs as [|c cs IH]; intros ma Hsa Hcs.
  - exists ma. split; [reflexivity|]. split; [exact Hsa|].
    split; [apply shrinks_refl|].
    split; [apply orphans_same_children; reflexivity|].
    split; [apply scd_refl|]. intros c Hc. inversion Hc.
  - destruct (Hcs c (list_elem_of_here _ _)) as ([ce Hce] & C2 & C3).
    assert (Hstep : exists mc,
              destroy fuel ma c false = Ok mc
              /\ scene mc rank /\ shrinks ma mc /\ orphans_destroyed [] ma mc
              /\ (can_destroy_of ma c = true -> destroyed mc c)).
    { destruct (can_destroy ce) eqn:Hcd.
      - rewrite (destroy_force fuel ma c ce false Hce (or_introl Hcd)).
        destruct (destroy_spec rank fuel ma c Hsa ltac:(eauto) C3 C2)
          as (mc & Ec & H1 & H2 & H3 & H4 & _).
        exists mc. auto 10.
      - exists ma. split.
        + destruct fuel as [|fuel]; [lia|]. cbn [destroy].
          rewrite (get_Ok _ _ _ Hce). cbn [mbind result_bind bind].
          rewrite Hcd. reflexivity.
        + split; [exact Hsa|]. split; [apply shrinks_refl|].
          split; [apply orphans_same_children; reflexivity|].
          unfold can_destroy_of. rewrite Hce. cbn. congruence. }
    destruct Hstep as (mc & Ec & Hscc & Hsc' & Horc & Hdc).
    pose proof (destroy_scd _ _ _ _ _ Ec) as Hcdc.
    destruct (IH mc Hscc) as (mb & Eb & Hscb & Hsb & Horb & Hcdb & Hdb).
    { intros c' Hc'.
      destruct (Hcs c' (list_elem_of_further _ _ _ Hc')) as (D1 & D2 & D3).
      split; [apply (sh_dom _ _ Hsc'); exact D1|]. split; [exact D2|].
      rewrite (sh_parent _ _ Hsc'). exact D3. }
    exists mb. cbn [for_each]. rewrite Ec. cbn [mbind result_bind bind].
    split; [exact Eb|]. split; [exact Hscb|].
    split; [eapply shrinks_trans; eassumption|].
    split; [apply (orphans_destroyed_app [] [] ma mc mb); assumption|].
    split; [eapply scd_trans; eassumption|].
    intros c' Hc' Hcan. apply elem_of_cons in Hc' as [->|Hc'].
    + eapply shrinks_destroyed; [exact Hsb|]. exact (Hdc Hcan).
    + apply Hdb; [exact Hc'|]. rewrite Hcdc. exact Hcan.
Qed.

(** X27: [destroy_children] on a well-formed scene completes, given fuel
    for the height of the element.  The children it destroys are the
    ones [get_destroyable_children] lists, those with [can_destroy] set,
    in the order of the children: each of them and every element below it
    ends detached (no anchor slot references it, it is in neither
    registry) and without children.  A child that is dropped from any
    children list has been destroyed; no parent, ghost or [can_destroy]
    flag changes, nothing is added to a children list, and the scene
    stays well formed. *)
Theorem destroy_children_destroys_destroyable (rank : nat -> nat)
    (fuel : nat) (m : Manager) (n : nat) (l : list nat) :
  scene m rank -> ancestors m n l -> (rank n <= fuel)%nat ->
  exists m' ds,
    destroy_children fuel m n = Ok m'
    /\ get_destroyable_children m n = Ok ds
    /\ ds = filter (fun c => can_destroy_of m c = true) (children_of m n)
    /\ (forall c y, c ∈ ds -> descendant m c y -> destroyed m' y)
    /\ orphans_destroyed [] m m'
    /\ shrinks m m' /\ same_can_destroy m m' /\ scene m' rank.
Proof.
  intros Hsc Hanc Hrk.
  assert (Hn : is_Some (elements m !! n)) by (inversion Hanc; eauto).
  destruct Hn as [e He].
  destruct (lookup_fields _ _ _ He) as (_ & _ & Hch & _ & _).
  assert (Hcs : forall c, c ∈ children e ->
            is_Some (elements m !! c) /\ (rank c < fuel)%nat
            /\ is_Some (parent_of m c)).
  { intros c Hc. rewrite <- Hch in Hc.
    destruct (sc_children _ _ Hsc n c Hc) as (C1 & C2 & C3).
    split; [exact C1|]. split; [lia | exact C3]. }
  destruct (destroy_children_loop rank fuel (children e) m Hsc Hcs)
    as (m1 & E1 & Hsc1 & Hs1 & Hor1 & Hcd1 & Hd1).
  pose proof (shrinks_ancestors _ _ _ _ Hs1 Hanc) as Hanc1.
  destruct (set_dirty_completes m1 n l Hanc1) as (m' & E & Hsd).
  pose proof (same_but_dirty_refs _ _ Hsd) as Hrefs.
  pose proof (same_refs_shrinks _ _ Hrefs) as Hs2.
  assert (Hs : shrinks m m') by (eapply shrinks_trans; eassumption).
  assert (Hor : orphans_destroyed [] m m').
  { apply (orphans_destroyed_app [] [] m m1 m' Hor1 Hs2).
    apply same_refs_orphans. exact Hrefs. }
  exists m', (filter (fun c => can_destroy_of m c = true) (children e)).
  split.
  { unfold destroy_children. rewrite (get_Ok _ _ _ He).
    cbn [mbind result_bind bind]. rewrite E1. exact E. }
  split.
  { unfold get_destroyable_children. rewrite (get_Ok _ _ _ He).
    cbn [mbind result_bind bind]. rewrite destroyable_loop; [reflexivity|].
    rewrite Forall_forall. intros c Hc. apply (Hcs c Hc). }
  split; [rewrite Hch; reflexivity|].
  split.
  { intros c y Hc Hy. apply list_elem_of_filter in Hc as [Hcan Hc].
    apply (descendants_destroyed m m' Hor c y Hy).
    apply (shrinks_destroyed m1 m' c Hs2). exact (Hd1 c Hc Hcan). }
  split; [exact Hor|]. split; [exact Hs|]. split.
  { eapply scd_trans; [exact Hcd1|].
    apply scd_rects. apply same_but_dirty_rects. exact Hsd. }
  apply (scene_shrinks m1 m' rank Hsc1 Hs2).
  - apply (same_refs_covered _ _ Hrefs). apply (sc_covered _ _ Hsc1).
  - rewrite (sr_all _ _ Hrefs). apply (sc_all _ _ Hsc1).
  - rewrite (sr_cbs _ _ Hrefs). apply (sc_cbs _ _ Hsc1).
Qed.

Lemma destroy_children_destroys_destroyable_witness :
  exists m' ds,
    destroy_children 2 anchored_scene 1%nat = Ok m'
    /\ get_destroyable_children anchored_scene 1%nat = Ok ds
    /\ ds = filter (fun c => can_destroy_of anchored_scene c = true)
              (children_of anchored_scene 1%nat)
    /\ (forall c y, c ∈ ds -> descendant anchored_scene c y ->
          destroyed m' y)
    /\ orphans_destroyed [] anchored_scene m'
    /\ shrinks anchored_scene m' /\ same_can_destroy anchored_scene m'
    /\ scene m' anchored_rank.
Proof.
  apply (destroy_children_destroys_destroyable anchored_rank 2
           anchored_scene 1%nat [0%nat]).
  - apply (lifecycle_ok_scene anchored_scene anchored_rank anchored_depth).
    apply (bool_decide_unpack _). vm_compute. exact I.
  - eapply ancestors_step; [reflexivity | reflexivity|].
    eapply ancestors_root; reflexivity.
  - vm_compute. lia.
Defined.

End SceneChildrenFacts.
(** ** Facts about the hit test and the state machine *)

Module InteractFacts.
Import Interact PyFacts.

Lemma get_some st n e : elements st !! n = Some e -> get st n = Ok e.
Proof. unfold get. intros ->. reflexivity. Qed.

Lemma get_all_spec st l :
  Forall (fun x => is_Some (elements st !! x)) l ->
  exists cs, get_all st l = Ok cs /\ fst <$> cs = l
    /\ Forall (fun p => elements st !! p.1 = Some p.2) cs.
Proof.
  induction 1 as [|x l [e He] _ (cs & E & Hm & Hf)]; cbn [get_all].
  - exists []. repeat split. constructor.
  - exists ((x, e) :: cs). rewrite (get_some _ _ _ He). cbn.
    rewrite E. cbn. repeat split; [congruence|].
    constructor; [exact He|exact Hf].
Qed.

(** [sorted] orders by key and keeps the elements. *)
Lemma insert_by_key_perm {A} (key : A -> Z) x l :
  insert_by_key key x l ≡ₚ x :: l.
Proof.
  induction l as [|y l IH]; cbn [insert_by_key]; [reflexivity|].
  destruct (key x <=? key y); [reflexivity|].
  rewrite IH. apply Permutation_swap.
Qed.

Lemma sorted_perm {A} (key : A -> Z) l : sorted key l ≡ₚ l.
Proof.
  induction l as [|x l IH]; cbn [sorted]; [reflexivity|].
  rewrite insert_by_key_perm, IH. reflexivity.
Qed.

Lemma insert_by_key_sorted {A} (key : A -> Z) x l :
  StronglySorted (fun a b => key a <= key b) l ->
  StronglySorted (fun a b => key a <= key b) (insert_by_key key x l).
Proof.
  induction 1 as [|y l Hs IH Hy]; cbn [insert_by_key].
  - repeat constructor.
  - destruct (key x <=? key y) eqn:E.
    + constructor; [constructor; assumption|].
      apply Z.leb_le in E. constructor; [exact E|].
      eapply Forall_impl; [exact Hy|]. cbn. intros. lia.
    + apply Z.leb_gt in E. constructor; [exact IH|].
      rewrite insert_by_key_perm. constructor; [lia|exact Hy].
Qed.

Lemma sorted_sorted {A} (key : A -> Z) l :
  StronglySorted (fun a b => key a <= key b) (sorted key l).
Proof.
  induction l as [|x l IH]; cbn [sorted]; [constructor|].
  apply insert_by_key_sorted, IH.
Qed.

Lemma rev_sorted_descending {A} (key : A -> Z) l :
  StronglySorted (fun a b => key a <= key b) l ->
  StronglySorted (fun a b => key b <= key a) (rev l).
Proof.
  induction 1 as [|x l Hs IH Hx]; cbn [rev]; [constructor|].
  revert IH. generalize (Forall_rev Hx : Forall _ (rev l)).
  induction (rev l) as [|y r IHr]; intros Hf IH; cbn.
  - repeat constructor.
  - inversion IH; subst. inversion Hf; subst. constructor.
    + apply IHr; assumption.
    + apply Forall_app. split; [assumption|]. repeat constructor. assumption.
Qed.

Lemma elem_of_rev {A} (x : A) l : x ∈ rev l <-> x ∈ l.
Proof. rewrite !list_elem_of_In. symmetry. apply in_rev. Qed.

Lemma hit_qualifies st position c e :
  elements st !! c = Some e ->
  hit position e = true <-> qualifies st position c.
Proof.
  intros He. unfold hit, qualifies. split.
  - intros H. exists e. split; [exact He|].
    destruct (collidepoint _ _), (visible _), (ignore_raycast _);
      cbn in H; try discriminate; auto.
  - intros (e' & He' & H1 & H2 & H3). assert (e' = e) as -> by congruence.
    rewrite H1, H2, H3. reflexivity.
Qed.

(** The loop stops at the first child that is hit; in a list in descending
    key order no child that is hit has a greater key. *)
Lemma raycast_children_first st position rec fall l :
  StronglySorted (fun a b => z_index b.2 <= z_index a.2) l ->
  (Forall (fun p => hit position p.2 = false) l
   /\ raycast_children st position rec fall l = fall)
  \/ (exists c ce, (c, ce) ∈ l /\ hit position ce = true
       /\ Forall (fun p => hit position p.2 = true ->
                           z_index p.2 <= z_index ce) l
       /\ raycast_children st position rec fall l = descend st rec c ce).
Proof.
  induction 1 as [|[c ce] l Hs IH Hc]; cbn [raycast_children].
  - left. split; [constructor|reflexivity].
  - destruct (hit position ce) eqn:Hh.
    + right. exists c, ce. split; [left|]. split; [exact Hh|].
      split; [|reflexivity]. constructor; [cbn; lia|].
      eapply Forall_impl; [exact Hc|]. cbn. auto.
    + destruct IH as [[Hf E]|(x & xe & Hin & Hx & Hf & E)].
      * left. split; [constructor; assumption|exact E].
      * right. exists x, xe. split; [right; exact Hin|]. split; [exact Hx|].
        split; [|exact E]. constructor; [cbn; congruence|exact Hf].
Qed.

Lemma hit_test_qualifies st position c r :
  hit_test st position c (Some r) -> qualifies st position r.
Proof.
  remember (Some r) as o eqn:Ho. intros H. revert r Ho.
  induction H as [c Hn | c x Hf _ _ | c x r' Hf _ IH]; intros r Ho;
    [discriminate| |].
  - injection Ho as <-. apply Hf.
  - apply IH. exact Ho.
Qed.

Lemma children_of_some st c e :
  elements st !! c = Some e -> children_of st c = children e.
Proof. unfold children_of. intros ->. reflexivity. Qed.

Lemma z_of_some st c e : elements st !! c = Some e -> z_of st c = z_index e.
Proof. unfold z_of. intros ->. reflexivity. Qed.

(** The hit test of a visible container, without keyboard navigation. *)
Lemma raycast_search st rank position :
  tabbed_element st = None -> forest st rank ->
  forall fuel c e,
    elements st !! c = Some e -> visible (status e) = true ->
    (rank c < fuel)%nat ->
    exists r, raycast fuel st position (Some c) false = Ok r
      /\ hit_test st position c r
      /\ (r <> None -> collidepoint (absolute_rect e) position = true ->
          ignore_raycast e = false ->
          raycast fuel st position (Some c) true = Ok r).
Proof.
  intros Htab Hfo. induction fuel as [|fuel IH]; intros c e He Hv Hrk; [lia|].
  pose proof (Hfo c e He) as Hch. cbn beta in Hch.
  destruct (get_all_spec st (children e)) as (cs & Ecs & Hm & Hcs).
  { eapply Forall_impl; [exact Hch|]. cbn. tauto. }
  assert (Hmem : forall x xe, (x, xe) ∈ rev (sorted (fun p => z_index p.2) cs)
            -> elements st !! x = Some xe /\ x ∈ children e).
  { intros x xe Hin. rewrite elem_of_rev, sorted_perm in Hin. split.
    - rewrite Forall_forall in Hcs. exact (Hcs _ Hin).
    - rewrite <- Hm. apply (list_elem_of_fmap_2 fst) in Hin. exact Hin. }
  assert (Hall : forall x xe, x ∈ children e -> elements st !! x = Some xe ->
            (x, xe) ∈ rev (sorted (fun p => z_index p.2) cs)).
  { intros x xe Hin Hx. rewrite elem_of_rev, sorted_perm.
    rewrite <- Hm in Hin. apply list_elem_of_fmap in Hin as ([y ye] & -> & Hy).
    rewrite Forall_forall in Hcs. pose proof (Hcs _ Hy) as H. cbn in H, Hx.
    assert (ye = xe) as -> by congruence. exact Hy. }
  assert (Eray : forall above,
    (above = true -> collidepoint (absolute_rect e) position = true
                     /\ ignore_raycast e = false) ->
    raycast (S fuel) st position (Some c) above =
    raycast_children st position
      (fun c => raycast fuel st position (Some c) false)
      (if above then raycast fuel st position (parent e) true else Ok None)
      (rev (sorted (fun p => z_index p.2) cs))).
  { intros above Hab. cbn [raycast]. rewrite Htab, (get_some _ _ _ He).
    cbn [mbind result_bind bind]. rewrite Hv. cbn [negb].
    destruct above.
    - destruct (Hab eq_refl) as [-> ->]. cbn [negb orb andb].
      rewrite Ecs. reflexivity.
    - rewrite andb_false_r. rewrite Ecs. reflexivity. }
  destruct (raycast_children_first st position
              (fun c => raycast fuel st position (Some c) false) (Ok None)
              (rev (sorted (fun p => z_index p.2) cs)))
    as [[Hf E]|(x & xe & Hin & Hx & Hf & E)].
  { apply rev_sorted_descending, sorted_sorted. }
  - exists None. rewrite (Eray false) by discriminate.
    split; [exact E|]. split; [|congruence].
    apply hit_none. intros x Hin Hq. rewrite (children_of_some _ _ _ He) in Hin.
    destruct Hq as (xe & Hxe & Hq).
    pose proof (Hall x xe Hin Hxe) as Hl. rewrite Forall_forall in Hf.
    pose proof (Hf _ Hl) as Hh. cbn in Hh.
    assert (hit position xe = true); [|congruence].
    apply (hit_qualifies st position x xe Hxe). exists xe. tauto.
  - destruct (Hmem x xe Hin) as [Hxe Hxc].
    assert (Hfront : frontmost st position c x).
    { split; [rewrite (children_of_some _ _ _ He); exact Hxc|].
      split; [apply (hit_qualifies st position x xe Hxe); exact Hx|].
      intros y Hy Hq. rewrite (children_of_some _ _ _ He) in Hy.
      destruct Hq as (ye & Hye & Hq).
      rewrite (z_of_some _ _ _ Hye), (z_of_some _ _ _ Hxe).
      rewrite Forall_forall in Hf. apply (Hf _ (Hall y ye Hy Hye)). cbn.
      apply (hit_qualifies st position y ye Hye). exists ye. tauto. }
    assert (Hxv : visible (status xe) = true).
    { apply (hit_qualifies st position x xe Hxe) in Hx.
      destruct Hx as (xe' & Hxe' & _ & Hv' & _). congruence. }
    assert (Hxr : (rank x < fuel)%nat).
    { rewrite Forall_forall in Hch. destruct (Hch x Hxc). lia. }
    assert (Hd : exists r, descend st
                (fun c => raycast fuel st position (Some c) false) x xe
                = Ok (Some r) /\ hit_test st position c (Some r)).
    { unfold descend. destruct (0 <? length (children xe))%nat eqn:El.
      - destruct (IH x xe Hxe Hxv Hxr) as (r & Er & Hr & _). rewrite Er.
        cbn [mbind result_bind bind]. destruct r as [r|].
        + pose proof (hit_test_qualifies _ _ _ _ Hr) as (re & Hre & _ & Hrv & _).
          rewrite (get_some _ _ _ Hre). cbn. rewrite Hrv.
          exists r. split; [reflexivity|]. apply (hit_deeper _ _ c x r); assumption.
        + exists x. split; [reflexivity|]. apply hit_child; assumption.
      - exists x. split; [reflexivity|]. apply hit_child; [assumption|].
        apply hit_none. intros y Hy. rewrite (children_of_some _ _ _ Hxe) in Hy.
        apply Nat.ltb_ge in El. destruct (children xe); [inversion Hy|].
        cbn in El. lia. }
    destruct Hd as (r & Ed & Hr). exists (Some r).
    rewrite (Eray false) by discriminate. rewrite E.
    split; [exact Ed|]. split; [exact Hr|].
    intros _ Hcol Hig. rewrite (Eray true) by auto.
    destruct (raycast_children_first st position
              (fun c => raycast fuel st position (Some c) false)
              (raycast fuel st position (parent e) true)
              (rev (sorted (fun p => z_index p.2) cs)))
      as [[Hf' _]|(x' & xe' & Hin' & Hx' & Hf' & E')].
    { apply rev_sorted_descending, sorted_sorted. }
    + rewrite Forall_forall in Hf'. pose proof (Hf' _ Hin) as H. cbn in H.
      congruence.
    + clear E'. revert Ed E. clear. intros.
      induction (rev (sorted (fun p => z_index p.2) cs)) as [|[y ye] l IHl];
        cbn [raycast_children] in *; [congruence|].
      destruct (hit position ye); [congruence|]. apply IHl. exact E.
Qed.

(** C5: the hit test of a visible container [c] in a forest.  A
    keyboard-navigation target is returned whatever the arguments.  Without
    one, [raycast] returns the result of the search the specification
    describes: a first qualifying child in descending z-index order, or
    what the same search finds below it; the call that may recurse above
    agrees when the container itself holds the position and something is
    hit.  Of two childless children with z-index 0 and 1 that both qualify,
    the one with z-index 1 is returned. *)
Theorem raycast_front_most_wins (rank : nat -> nat) (fuel : nat)
    (st : UIInteract) (position : Z * Z) (c : nat) (e : Element) :
  forest st rank -> elements st !! c = Some e ->
  visible (status e) = true -> (rank c < fuel)%nat ->
  (forall t start_parent can_recurse_above,
     tabbed_element st = Some t ->
     raycast fuel st position start_parent can_recurse_above = Ok (Some t))
  /\ (tabbed_element st = None ->
      (exists r, raycast fuel st position (Some c) false = Ok r
         /\ hit_test st position c r
         /\ (r <> None -> collidepoint (absolute_rect e) position = true ->
             ignore_raycast e = false ->
             raycast fuel st position (Some c) true = Ok r))
      /\ (forall a b ea eb,
            children e = [a; b] \/ children e = [b; a] ->
            elements st !! a = Some ea -> elements st !! b = Some eb ->
            z_index ea = 0 -> z_index eb = 1 ->
            qualifies st position a -> qualifies st position b ->
            children ea = [] -> children eb = [] ->
            raycast fuel st position (Some c) false = Ok (Some b))).
Proof.
  intros Hfo He Hv Hrk. split.
  - intros t sp above Ht. destruct fuel as [|fuel]; [lia|].
    cbn [raycast]. rewrite Ht. reflexivity.
  - intros Htab.
    destruct (raycast_search st rank position Htab Hfo fuel c e He Hv Hrk)
      as (r & E & Hr & Hab).
    split; [exists r; auto|].
    intros a b ea eb Hch Ha Hb Hza Hzb Hqa Hqb Hca Hcb. rewrite E. f_equal.
    assert (Hin : forall x, x ∈ children_of st c -> x = a \/ x = b).
    { intros x. rewrite (children_of_some _ _ _ He).
      destruct Hch as [-> | ->]; rewrite !elem_of_cons, elem_of_nil; tauto. }
    assert (Hbin : b ∈ children_of st c).
    { rewrite (children_of_some _ _ _ He).
      destruct Hch as [-> | ->]; rewrite !elem_of_cons; tauto. }
    assert (Hfb : forall x, frontmost st position c x -> x = b).
    { intros x (Hx & _ & Hmax). destruct (Hin x Hx) as [-> | ->]; [|reflexivity].
      pose proof (Hmax b Hbin Hqb) as H.
      rewrite (z_of_some _ _ _ Ha), (z_of_some _ _ _ Hb) in H. lia. }
    inversion Hr as [c' Hnone | c' x Hf Hx | c' x r' Hf Hx]; subst.
    + destruct (Hnone b Hbin Hqb).
    + rewrite (Hfb x Hf). reflexivity.
    + rewrite (Hfb x Hf) in Hx.
      apply hit_test_qualifies in Hx as Hq.
      inversion Hx as [| ? y [Hy _] _ | ? y ? [Hy _] _]; subst;
        rewrite (children_of_some _ _ _ Hb), Hcb in Hy; inversion Hy.
Qed.

(** The hit test of the container of [overlap_scene] at a point of the
    innermost element. *)
Lemma raycast_front_most_wins_witness :
  exists r, raycast 3 overlap_scene (310, 210) (Some 1%nat) false = Ok r
    /\ hit_test overlap_scene (310, 210) 1%nat r.
Proof.
  destruct (raycast_front_most_wins overlap_rank 3 overlap_scene (310, 210)
              1%nat (box (Some 0%nat) [2; 3]%nat (mkRect 100 100 400 300) 0))
    as [_ H].
  - apply (bool_decide_unpack _). vm_compute. exact I.
  - vm_compute. reflexivity.
  - reflexivity.
  - vm_compute. lia.
  - destruct (H eq_refl) as [(r & E & Hr & _) _]. exists r. auto.
Defined.

(** [overlap_scene]: the point (160, 160) lies in both siblings and the
    one with z-index 1 is returned; (310, 210) also lies in its child,
    which is returned; (130, 130) lies in the z-index-0 sibling only; the
    frame call, which starts at the container and may recurse above, agrees
    and finds nothing outside the root. *)
Example raycast_overlap_scene :
  raycast 3 overlap_scene (160, 160) (Some 1%nat) false = Ok (Some 3%nat)
  /\ raycast 3 overlap_scene (310, 210) (Some 1%nat) false = Ok (Some 4%nat)
  /\ raycast 3 overlap_scene (130, 130) (Some 1%nat) false = Ok (Some 2%nat)
  /\ raycast 3 overlap_scene (160, 160) (Some 3%nat) true = Ok (Some 3%nat)
  /\ raycast 4 overlap_scene (900, 900) (Some 3%nat) true = Ok None.
Proof. repeat split; vm_compute; reflexivity. Qed.

(** *** The state machine *)

Lemma evolves_refl st : evolves [] st st.
Proof.
  split; try reflexivity. exists []. rewrite app_nil_r. split; reflexivity.
Qed.

Lemma evolves_trans o1 o2 st1 st2 st3 :
  evolves o1 st1 st2 -> evolves o2 st2 st3 -> evolves (o1 ++ o2) st1 st3.
Proof.
  intros [T1 L1 C1 (n1 & E1 & F1)] [T2 L2 C2 (n2 & E2 & F2)]. split.
  - congruence.
  - congruence.
  - intros x. rewrite C2. apply C1.
  - exists (n1 ++ n2). rewrite E2, E1, <- app_assoc. split; [reflexivity|].
    rewrite filter_app. congruence.
Qed.

Lemma quiet_refl st : quiet st st.
Proof. split; try reflexivity. apply evolves_refl. Qed.

Lemma quiet_trans st1 st2 st3 : quiet st1 st2 -> quiet st2 st3 -> quiet st1 st3.
Proof.
  intros [E1 P1 R1 F1] [E2 P2 R2 F2]. split.
  - apply (evolves_trans [] [] st1 st2 st3); assumption.
  - congruence.
  - congruence.
  - intros x. rewrite F2. apply F1.
Qed.

Lemma evolves_live o st st' r : evolves o st st' -> live st r -> live st' r.
Proof.
  intros [_ _ C _]. destruct r as [x|]; cbn; [|auto].
  intros [e He]. specialize (C x). rewrite He in C.
  destruct (elements st' !! x); [eauto|discriminate].
Qed.

Lemma put_lookup st n e x :
  elements (put st n e) !! x = if decide (n = x) then Some e else elements st !! x.
Proof. unfold put. cbn. apply lookup_insert. Qed.

Lemma put_evolves st n e e' :
  elements st !! n = Some e -> core e' = core e -> evolves [] st (put st n e').
Proof.
  intros He Hc. split; try reflexivity.
  - intros x. rewrite put_lookup. destruct (decide (n = x)) as [<-|]; [|reflexivity].
    rewrite He. cbn. congruence.
  - exists []. cbn. rewrite app_nil_r. split; reflexivity.
Qed.

Lemma put_quiet st n e e' :
  elements st !! n = Some e -> core e' = core e -> flags e' = flags e ->
  quiet st (put st n e').
Proof.
  intros He Hc Hf. split; try reflexivity.
  - apply (put_evolves st n e e' He Hc).
  - intros x. rewrite put_lookup. destruct (decide (n = x)) as [<-|]; [|reflexivity].
    rewrite He. cbn. congruence.
Qed.

Lemma emit_evolves st x :
  evolves (if press_related x then [x] else []) st (emit x st).
Proof.
  split; try reflexivity. exists [x]. split; [reflexivity|].
  cbn. destruct (press_related x) eqn:E.
  - rewrite decide_True by reflexivity. reflexivity.
  - rewrite decide_False by discriminate. reflexivity.
Qed.

Lemma emit_quiet st x : press_related x = false -> quiet st (emit x st).
Proof.
  intros Hx. split; try reflexivity.
  pose proof (emit_evolves st x) as H. rewrite Hx in H. exact H.
Qed.

(** The writes of hover and text selection. *)
Lemma set_hover_flag st n e f :
  elements st !! n = Some e ->
  (forall s, exists h sh, f s = set_scroll_hovered (set_hovered s h) sh) ->
  exists st', set_status st n f = Ok st' /\ quiet st st'
    /\ hovered_el st' = hovered_el st
    /\ last_scroll_hovered st' = last_scroll_hovered st
    /\ text_select_el st' = text_select_el st
    /\ elements st' !! n = Some (with_status e (f (status e))).
Proof.
  intros He Hf. unfold set_status. rewrite (get_some _ _ _ He). cbn.
  eexists. split; [reflexivity|]. split; [|repeat split].
  - destruct (Hf (status e)) as (h & sh & ->).
    apply (put_quiet st n e); [exact He| |]; reflexivity.
  - rewrite put_lookup, decide_True by reflexivity. reflexivity.
Qed.

Lemma set_text_quiet st n e f :
  elements st !! n = Some e ->
  exists st', set_text st n f = Ok st' /\ quiet st st'
    /\ hovered_el st' = hovered_el st
    /\ last_scroll_hovered st' = last_scroll_hovered st
    /\ text_select_el st' = text_select_el st
    /\ start_idxs st' = start_idxs st /\ last_idxs st' = last_idxs st.
Proof.
  intros He. unfold set_text. rewrite (get_some _ _ _ He). cbn.
  eexists. split; [reflexivity|]. split; [|repeat split].
  apply (put_quiet st n e); [exact He| |]; reflexivity.
Qed.

Lemma quiet_live st st' r : quiet st st' -> live st r -> live st' r.
Proof. intros [H _ _ _]. apply (evolves_live _ _ _ _ H). Qed.

Lemma live_refs_same st st' :
  quiet st st' -> hovered_el st' = hovered_el st ->
  last_scroll_hovered st' = last_scroll_hovered st ->
  text_select_el st' = text_select_el st -> live_refs st -> live_refs st'.
Proof.
  unfold live_refs. intros Hq -> -> -> (H1 & H2 & H3).
  repeat split; apply (quiet_live _ _ _ Hq); assumption.
Qed.

(** A step that leaves the press alone and keeps the references. *)
Ltac field_quiet :=
  split; [split; [reflexivity..|];
          exists []; rewrite app_nil_r; split; reflexivity
         |reflexivity..].

Ltac same_state st :=
  exists st; split; [reflexivity|];
  split; [apply quiet_refl|repeat split; congruence].

Lemma text_selection_quiet io st :
  live st (text_select_el st) ->
  exists st', text_selection io st = Ok st' /\ quiet st st'
    /\ hovered_el st' = hovered_el st
    /\ last_scroll_hovered st' = last_scroll_hovered st
    /\ text_select_el st' = text_select_el st.
Proof.
  intros Hl. unfold text_selection.
  destruct (text_select_el st) as [t|] eqn:Et; [|same_state st].
  destruct (start_idxs st) as [start|] eqn:Es; [|same_state st].
  cbn in Hl.
  match goal with
  | |- exists st', mbind _ ?m = Ok st' /\ _ =>
      assert (H1 : exists st1, m = Ok st1 /\ quiet st st1
        /\ hovered_el st1 = hovered_el st
        /\ last_scroll_hovered st1 = last_scroll_hovered st
        /\ text_select_el st1 = text_select_el st)
  end.
  { destruct (mouse_pressed_0 io); [|same_state st].
    destruct (text_click_idx io t) as [idx|]; [|same_state st].
    cbn zeta. destruct Hl as [e He].
    assert (Hq0 : quiet st (set_last_idxs st (Some idx))) by field_quiet.
    rewrite (get_some (set_last_idxs st (Some idx)) t e He).
    cbn [mbind result_bind bind].
    destruct (decide (_selection_end_idxs (text e) = Some idx)).
    - eexists. split; [reflexivity|]. split; [exact Hq0|repeat split].
    - destruct (set_text_quiet (set_last_idxs st (Some idx)) t e
                 (fun x => set_selection_end_idxs x (Some idx)) He)
        as (st2 & E2 & Hq2 & Hh & Hs & Ht & _).
      rewrite E2. cbn [mbind result_bind bind].
      eexists. split; [reflexivity|].
      split; [|repeat split; cbn in *; congruence].
      eapply quiet_trans; [exact Hq0|]. eapply quiet_trans; [exact Hq2|].
      apply emit_quiet. reflexivity. }
  destruct H1 as (st1 & E1 & Hq1 & Hh1 & Hs1 & Ht1). rewrite E1.
  cbn [mbind result_bind bind].
  destruct (last_idxs st1) as [last|];
    [|exists st1; split; [reflexivity|];
      split; [exact Hq1|repeat split; congruence]].
  cbn zeta.
  set (st2 := if mouse_pressed_0 io then
                if tot_i start <? tot_i last
                then emit (SetCursorIndex t (tot_i last + 1)) st1
                else emit (SetCursorIndex t (tot_i last)) st1
              else st1).
  assert (Hq2 : quiet st1 st2
                /\ hovered_el st2 = hovered_el st1
                /\ last_scroll_hovered st2 = last_scroll_hovered st1
                /\ text_select_el st2 = text_select_el st1).
  { unfold st2. destruct (mouse_pressed_0 io);
      [destruct (tot_i start <? tot_i last)|];
      (split; [try apply quiet_refl; apply emit_quiet; reflexivity
              |repeat split]). }
  destruct Hq2 as (Hq2 & Hh2 & Hs2 & Ht2).
  clearbody st2.
  assert (Hq12 : quiet st st2) by (eapply quiet_trans; eassumption).
  destruct (bool_decide (text_select_rects io t start last = [])).
  { exists st2. split; [reflexivity|].
    split; [exact Hq12|]. repeat split; congruence. }
  destruct (quiet_live _ _ (Some t) Hq12 Hl) as [e He].
  rewrite (get_some st2 t e He). cbn [mbind result_bind bind].
  destruct (decide (text_select_rects io t start last = selection_rects (text e))).
  { exists st2. split; [reflexivity|].
    split; [exact Hq12|]. repeat split; congruence. }
  destruct (set_text_quiet st2 t e
              (fun x => set_selection_rects x (text_select_rects io t start last))
              He) as (st3 & E3 & Hq3 & Hh3 & Hs3 & Ht3 & _).
  rewrite E3. cbn [mbind result_bind bind].
  eexists. split; [reflexivity|]. split; [|repeat split; cbn; congruence].
  eapply quiet_trans; [exact Hq12|].
  eapply quiet_trans; [exact Hq3|].
  eapply quiet_trans; apply emit_quiet; reflexivity.
Qed.

(** The hit test reads the [core] of the elements only. *)
Lemma get_ext st st' x :
  (forall x, core <$> elements st' !! x = core <$> elements st !! x) ->
  match get st' x, get st x with
  | Ok e', Ok e => core e' = core e
  | Raise a', Raise a => a' = a
  | _, _ => False
  end.
Proof.
  intros H. specialize (H x). unfold get.
  destruct (elements st' !! x), (elements st !! x); cbn in H;
    try discriminate; [congruence|reflexivity].
Qed.

Lemma get_all_ext st st' l :
  (forall x, core <$> elements st' !! x = core <$> elements st !! x) ->
  match get_all st' l, get_all st l with
  | Ok cs', Ok cs =>
      Forall2 (fun p' p => p'.1 = p.1 /\ core p'.2 = core p.2) cs' cs
  | Raise a', Raise a => a' = a
  | _, _ => False
  end.
Proof.
  intros H. induction l as [|x l IH]; cbn [get_all]; [constructor|].
  pose proof (get_ext st st' x H) as Hx.
  destruct (get st' x) as [e'|a'|], (get st x) as [e|a|]; try contradiction;
    cbn [mbind result_bind bind]; [|exact Hx].
  destruct (get_all st' l) as [cs'|b'|], (get_all st l) as [cs|b|];
    try contradiction; cbn [mbind result_bind bind]; [|exact IH].
  constructor; [split; [reflexivity|exact Hx]|exact IH].
Qed.

Lemma insert_by_key_ext {A} (R : A -> A -> Prop) (key : A -> Z) x' x l' l :
  (forall a' a, R a' a -> key a' = key a) ->
  R x' x -> Forall2 R l' l ->
  Forall2 R (insert_by_key key x' l') (insert_by_key key x l).
Proof.
  intros Hk Hx. induction 1 as [|y' y l' l Hy Hl IH]; cbn [insert_by_key].
  - repeat constructor. exact Hx.
  - rewrite (Hk _ _ Hx), (Hk _ _ Hy). destruct (key x <=? key y).
    + repeat constructor; assumption.
    + constructor; assumption.
Qed.

Lemma sorted_ext {A} (R : A -> A -> Prop) (key : A -> Z) l' l :
  (forall a' a, R a' a -> key a' = key a) ->
  Forall2 R l' l -> Forall2 R (sorted key l') (sorted key l).
Proof.
  intros Hk. induction 1; cbn [sorted]; [constructor|].
  apply insert_by_key_ext; assumption.
Qed.

Lemma core_hit position e' e : core e' = core e -> hit position e' = hit position e.
Proof. unfold core, hit. intros [= _ _ -> _ -> _ -> _]. reflexivity. Qed.

Lemma raycast_children_ext st st' position rec' rec fall' fall l' l :
  (forall x, core <$> elements st' !! x = core <$> elements st !! x) ->
  (forall c, rec' c = rec c) -> fall' = fall ->
  Forall2 (fun p' p => p'.1 = p.1 /\ core p'.2 = core p.2) l' l ->
  raycast_children st' position rec' fall' l'
  = raycast_children st position rec fall l.
Proof.
  intros Hc Hrec ->.
  induction 1 as [|[c' e'] [c e] l' l [Hn He] Hl IH]; cbn [raycast_children];
    [reflexivity|].
  cbn in Hn, He. subst c'. rewrite (core_hit position e' e He).
  destruct (hit position e); [|exact IH].
  unfold descend.
  assert (children e' = children e) as -> by (unfold core in He; congruence).
  destruct (0 <? length (children e))%nat; [|reflexivity].
  rewrite Hrec. destruct (rec c) as [[r|]|a0|]; cbn [mbind result_bind bind];
    try reflexivity.
  pose proof (get_ext st st' r Hc) as Hr.
  destruct (get st' r) as [re'|a'|], (get st r) as [re|a|]; try contradiction;
    cbn [mbind result_bind bind]; [|congruence].
  assert (visible (status re') = visible (status re)) as ->
    by (unfold core in Hr; congruence).
  reflexivity.
Qed.

Lemma raycast_ext st st' :
  (forall x, core <$> elements st' !! x = core <$> elements st !! x) ->
  tabbed_element st' = tabbed_element st ->
  forall fuel position start_parent can_recurse_above,
    raycast fuel st' position start_parent can_recurse_above
    = raycast fuel st position start_parent can_recurse_above.
Proof.
  intros Hc Ht. induction fuel as [|fuel IH]; intros position sp above;
    [reflexivity|].
  cbn [raycast]. rewrite Ht. destruct (tabbed_element st); [reflexivity|].
  destruct sp as [sp|]; [|reflexivity].
  pose proof (get_ext st st' sp Hc) as Hsp.
  destruct (get st' sp) as [e'|a'|], (get st sp) as [e|a|]; try contradiction;
    cbn [mbind result_bind bind]; [|congruence].
  assert (E : (parent e', children e', absolute_rect e', ignore_raycast e',
               visible (status e'))
            = (parent e, children e, absolute_rect e, ignore_raycast e,
               visible (status e))) by (unfold core in Hsp; congruence).
  injection E as -> -> -> -> ->.
  destruct (negb (visible (status e))); [reflexivity|].
  destruct ((negb (collidepoint (absolute_rect e) position)
             || ignore_raycast e) && above); [apply IH|].
  pose proof (get_all_ext st st' (children e) Hc) as Hall.
  destruct (get_all st' (children e)) as [cs'|b'|],
           (get_all st (children e)) as [cs|b|]; try contradiction;
    cbn [mbind result_bind bind]; [|congruence].
  apply raycast_children_ext.
  - exact Hc.
  - intros c. apply IH.
  - destruct above; [apply IH|reflexivity].
  - rewrite !rev_alt. apply (Forall2_reverse _ _ _).
    apply sorted_ext; [|exact Hall]. intros a' a [_ H].
    unfold core in H. congruence.
Qed.

Lemma hover_form_hovered v s :
  exists h sh, set_hovered s v = set_scroll_hovered (set_hovered s h) sh.
Proof. exists v, (scroll_hovered s). destruct s. reflexivity. Qed.

Lemma hover_form_scroll v s :
  exists h sh, set_scroll_hovered s v = set_scroll_hovered (set_hovered s h) sh.
Proof. exists (hovered s), v. destruct s. reflexivity. Qed.

Lemma live_refs_intro st st' :
  quiet st st' -> live st (hovered_el st') ->
  live st (last_scroll_hovered st') -> live st (text_select_el st') ->
  live_refs st'.
Proof.
  intros Hq H1 H2 H3. unfold live_refs.
  split; [|split]; apply (quiet_live _ _ _ Hq); assumption.
Qed.

Lemma rehover_quiet fuel io st lr lre h :
  elements st !! lr = Some lre -> live_refs st ->
  raycast fuel st (mouse_pos io) (parent lre) true = Ok h -> live st h ->
  exists st', rehover fuel io st lr = Ok st' /\ quiet st st'
    /\ hovered_el st' = h /\ live_refs st'.
Proof.
  intros Hlr (Hlh & Hls & Hlt) Hray Hh. unfold rehover.
  rewrite (get_some _ _ _ Hlr). cbn [mbind result_bind bind].
  destruct (hovered_el st) as [old|] eqn:Eold.
  - destruct Hlh as [oe Hoe].
    destruct (set_hover_flag st old oe (fun s => set_hovered s false) Hoe
                (hover_form_hovered false))
      as (st1 & E1 & Hq1 & Hh1 & Hs1 & Ht1 & Hold1).
    rewrite E1. cbn [mbind result_bind bind].
    rewrite (raycast_ext st st1 (ev_core _ _ _ (q_evolves _ _ Hq1))
               (ev_tabbed _ _ _ (q_evolves _ _ Hq1))), Hray.
    cbn [mbind result_bind bind].
    assert (Hq2 : quiet st (set_hovered_el st1 h)).
    { eapply quiet_trans; [exact Hq1|]. field_quiet. }
    destruct (decide (h = Some old)) as [->|Hne].
    + destruct (set_hover_flag (set_hovered_el st1 (Some old)) old _
                  (fun s => set_hovered s true) Hold1 (hover_form_hovered true))
        as (st3 & E3 & Hq3 & Hh3 & Hs3 & Ht3 & _).
      rewrite E3. exists st3. split; [reflexivity|].
      assert (Hq : quiet st st3) by (eapply quiet_trans; eassumption).
      split; [exact Hq|]. split; [exact Hh3|].
      apply (live_refs_intro st st3 Hq).
      * rewrite Hh3. exact Hh.
      * rewrite Hs3. cbn. rewrite Hs1. exact Hls.
      * rewrite Ht3. cbn. rewrite Ht1. exact Hlt.
    + set (st3 := _post_base_event "STOP_HOVER" old
                    (invoke_callback "on_stop_hover" old
                       (set_hovered_el st1 h))).
      assert (Hq3 : quiet st st3).
      { eapply quiet_trans; [exact Hq2|].
        eapply quiet_trans; apply emit_quiet; reflexivity. }
      assert (Hs3 : last_scroll_hovered st3 = last_scroll_hovered st)
        by exact Hs1.
      assert (Hh3 : hovered_el st3 = h) by reflexivity.
      assert (Ht3 : text_select_el st3 = text_select_el st) by exact Ht1.
      clearbody st3.
      destruct (last_scroll_hovered st3) as [s|] eqn:Es.
      * rewrite <- Hs3 in Hls.
        destruct (quiet_live _ _ (Some s) Hq3 Hls) as [se Hse].
        destruct (set_hover_flag st3 s se (fun x => set_scroll_hovered x false)
                    Hse (hover_form_scroll false))
          as (st4 & E4 & Hq4 & Hh4 & Hs4 & Ht4 & _).
        rewrite E4. cbn [mbind result_bind bind].
        eexists. split; [reflexivity|].
        assert (Hq : quiet st (set_last_scroll_hovered st4 None)).
        { eapply quiet_trans; [exact Hq3|].
          eapply quiet_trans; [exact Hq4|]. field_quiet. }
        split; [exact Hq|]. split; [cbn; congruence|].
        apply (live_refs_intro st _ Hq); cbn.
        -- rewrite Hh4, Hh3. exact Hh.
        -- exact I.
        -- rewrite Ht4, Ht3. exact Hlt.
      * exists st3. split; [reflexivity|]. split; [exact Hq3|].
        split; [exact Hh3|].
        apply (live_refs_intro st _ Hq3).
        -- rewrite Hh3. exact Hh.
        -- rewrite Es. exact I.
        -- rewrite Ht3. exact Hlt.
  - rewrite Hray. cbn [mbind result_bind bind]. eexists.
    split; [reflexivity|].
    assert (Hq : quiet st (set_hovered_el st h)) by field_quiet.
    split; [exact Hq|]. split; [reflexivity|].
    apply (live_refs_intro st _ Hq); cbn; assumption.
Qed.

Lemma find_scroll_hovered_quiet depth bound st :
  rooted st depth bound -> live st (last_scroll_hovered st) ->
  forall fuel x, is_Some (elements st !! x) -> (depth x < fuel)%nat ->
  exists st', _find_scroll_hovered fuel st x = Ok st' /\ quiet st st'
    /\ hovered_el st' = hovered_el st
    /\ text_select_el st' = text_select_el st
    /\ live st' (last_scroll_hovered st').
Proof.
  intros Hro Hls. induction fuel as [|fuel IH]; intros x [e He] Hd; [lia|].
  cbn [_find_scroll_hovered]. rewrite (get_some _ _ _ He).
  cbn [mbind result_bind bind]. destruct (scrollable e).
  - destruct (set_hover_flag st x e (fun s => set_scroll_hovered s true) He
                (hover_form_scroll true))
      as (st1 & E1 & Hq1 & Hh1 & Hs1 & Ht1 & Hx1).
    rewrite E1. cbn [mbind result_bind bind]. eexists.
    split; [reflexivity|]. split.
    + eapply quiet_trans; [exact Hq1|]. field_quiet.
    + repeat split; [exact Hh1|exact Ht1|]. cbn. eauto.
  - pose proof (Hro x e He) as [_ Hp]. destruct (parent e) as [p|].
    + destruct Hp as [Hpe Hlt]. apply IH; [exact Hpe|lia].
    + exists st. split; [reflexivity|]. split; [apply quiet_refl|].
      repeat split. exact Hls.
Qed.

Lemma text_select_start_press_quiet io st x :
  live st (text_select_el st) -> is_Some (elements st !! x) ->
  exists st', _text_select_start_press io st x = Ok st' /\ quiet st st'
    /\ hovered_el st' = hovered_el st
    /\ last_scroll_hovered st' = last_scroll_hovered st
    /\ live st' (text_select_el st').
Proof.
  intros Hl [e He]. unfold _text_select_start_press.
  rewrite (get_some _ _ _ He). cbn [mbind result_bind bind].
  destruct (negb (text_can_select (text e))).
  { exists st. split; [reflexivity|]. split; [apply quiet_refl|].
    repeat split. exact Hl. }
  match goal with
  | |- exists st', mbind _ ?m = Ok st' /\ _ =>
      assert (H1 : exists st1, m = Ok st1 /\ quiet st st1
        /\ hovered_el st1 = hovered_el st
        /\ last_scroll_hovered st1 = last_scroll_hovered st)
  end.
  { destruct (text_select_el st) as [t|].
    - destruct Hl as [te Hte].
      destruct (set_text_quiet st t te (fun x => set_selection_rects x []) Hte)
        as (st1 & E1 & Hq1 & Hh1 & Hs1 & _).
      rewrite E1. cbn [mbind result_bind bind]. eexists.
      split; [reflexivity|]. split; [|split; assumption].
      eapply quiet_trans; [exact Hq1|]. apply emit_quiet. reflexivity.
    - exists st. split; [reflexivity|]. split; [apply quiet_refl|].
      split; reflexivity. }
  destruct H1 as (st1 & E1 & Hq1 & Hh1 & Hs1). rewrite E1.
  cbn [mbind result_bind bind]. cbn zeta.
  assert (Hq2 : quiet st (set_text_select_el st1 None)).
  { eapply quiet_trans; [exact Hq1|]. field_quiet. }
  destruct (bool_decide (real_text (text e) = EmptyString)).
  { eexists. split; [reflexivity|]. split; [exact Hq2|].
    repeat split; assumption. }
  destruct (text_click_idx io x) as [idx|].
  2:{ eexists. split; [reflexivity|]. split; [exact Hq2|].
      repeat split; assumption. }
  set (st3 := set_start_idxs (set_text_select_el (set_text_select_el st1 None)
                                (Some x)) (Some idx)).
  assert (Hq3 : quiet st st3).
  { eapply quiet_trans; [exact Hq2|]. field_quiet. }
  assert (Hh3 : hovered_el st3 = hovered_el st) by exact Hh1.
  assert (Hs3 : last_scroll_hovered st3 = last_scroll_hovered st) by exact Hs1.
  assert (Ht3 : text_select_el st3 = Some x) by reflexivity.
  clearbody st3.
  destruct (quiet_live st st3 (Some x) Hq3 (ex_intro _ e He)) as [e3 He3].
  destruct (set_text_quiet st3 x e3
              (fun t => set_selection_start_idxs t (Some idx)) He3)
    as (st4 & E4 & Hq4 & Hh4 & Hs4 & Ht4 & _).
  rewrite E4. cbn [mbind result_bind bind]. eexists.
  split; [reflexivity|].
  assert (Hq : quiet st (invoke_callback "on_text_selection_change" x st4)).
  { eapply quiet_trans; [exact Hq3|]. eapply quiet_trans; [exact Hq4|].
    apply emit_quiet. reflexivity. }
  split; [exact Hq|]. repeat split; cbn; try congruence.
  rewrite Ht4, Ht3. apply (quiet_live st _ (Some x) Hq). cbn. eauto.
Qed.

Lemma evolves_at o st st' n e :
  evolves o st st' -> elements st !! n = Some e ->
  exists e', elements st' !! n = Some e' /\ core e' = core e.
Proof.
  intros [_ _ C _] He. specialize (C n). rewrite He in C.
  destruct (elements st' !! n) as [e'|]; [|discriminate].
  exists e'. split; [reflexivity|]. cbn in C. congruence.
Qed.

Lemma quiet_at st st' n e :
  quiet st st' -> elements st !! n = Some e ->
  exists e', elements st' !! n = Some e' /\ core e' = core e
    /\ flags e' = flags e.
Proof.
  intros [Hev _ _ F] He.
  destruct (evolves_at _ _ _ _ _ Hev He) as (e' & He' & Hc).
  exists e'. split; [exact He'|]. split; [exact Hc|].
  specialize (F n). rewrite He, He' in F. cbn in F. congruence.
Qed.

Lemma rooted_quiet st st' depth bound :
  quiet st st' -> rooted st depth bound -> rooted st' depth bound.
Proof.
  intros Hq Hro x e' He'.
  pose proof (ev_core _ _ _ (q_evolves _ _ Hq) x) as C. rewrite He' in C.
  destruct (elements st !! x) as [e|] eqn:He; [|discriminate].
  cbn in C. assert (parent e' = parent e) as -> by (unfold core in C; congruence).
  destruct (Hro x e He) as [Hd Hp]. split; [exact Hd|].
  destruct (parent e) as [p|]; [|exact I]. destruct Hp as [Hl Hlt].
  split; [|exact Hlt]. apply (quiet_live st st' (Some p) Hq Hl).
Qed.

Lemma emit_press st x :
  press_related x = true -> evolves [x] st (emit x st).
Proof.
  intros Hx. pose proof (emit_evolves st x) as H. rewrite Hx in H. exact H.
Qed.

Lemma start_hover_quiet depth fuel st n e :
  rooted st depth fuel -> live_refs st -> elements st !! n = Some e ->
  exists st', start_hover fuel st n = Ok st' /\ quiet st st'
    /\ live_refs st'.
Proof.
  intros Hro (Hlh & Hls & Hlt) He. unfold start_hover.
  rewrite (get_some _ _ _ He). cbn [mbind result_bind bind].
  destruct (negb (hovered (status e)));
    [|exists st; split; [reflexivity|];
      split; [apply quiet_refl|repeat split; assumption]].
  destruct (set_hover_flag st n e (fun s => set_hovered s true) He
              (hover_form_hovered true))
    as (st1 & E1 & Hq1 & Hh1 & Hs1 & Ht1 & Hn1).
  rewrite E1. cbn [mbind result_bind bind].
  set (st2 := _post_base_event "START_HOVER" n
                (invoke_callback "on_start_hover" n st1)).
  assert (Hq2 : quiet st st2).
  { eapply quiet_trans; [exact Hq1|].
    eapply quiet_trans; apply emit_quiet; reflexivity. }
  assert (Hh2 : hovered_el st2 = hovered_el st) by exact Hh1.
  assert (Hs2 : last_scroll_hovered st2 = last_scroll_hovered st)
    by exact Hs1.
  assert (Ht2 : text_select_el st2 = text_select_el st) by exact Ht1.
  clearbody st2.
  destruct (find_scroll_hovered_quiet depth fuel st2
              (rooted_quiet _ _ _ _ Hq2 Hro)
              ltac:(rewrite Hs2; apply (quiet_live _ _ _ Hq2 Hls))
              fuel n (quiet_live st st2 (Some n) Hq2 (ex_intro _ e He))
              (proj1 (Hro n e He)))
    as (st3 & E3 & Hq3 & Hh3 & Ht3 & Hs3).
  rewrite E3. exists st3. split; [reflexivity|].
  assert (Hq : quiet st st3) by (eapply quiet_trans; eassumption).
  split; [exact Hq|]. split; [|split; [exact Hs3|]].
  - rewrite Hh3, Hh2. apply (quiet_live _ _ _ Hq Hlh).
  - rewrite Ht3, Ht2. apply (quiet_live _ _ _ Hq Hlt).
Qed.

(** The start of a left press on the hovered element. *)
Lemma hovering_press depth fuel io st n e :
  rooted st depth fuel -> live_refs st -> elements st !! n = Some e ->
  pressed (status e) = false -> mouse_pressed_0 io = true ->
  exists st', hovering fuel io st n = Ok st'
    /\ evolves [Callback "on_start_press" n; Event "START_PRESS" n] st st'
    /\ pressed_el st' = Some n /\ live st' (text_select_el st')
    /\ exists e', elements st' !! n = Some e'
         /\ selected (status e') = selected (status e).
Proof.
  intros Hro Hlive He Hp Hm. unfold hovering.
  destruct (start_hover_quiet depth fuel st n e Hro Hlive He)
    as (st1 & E1 & Hq1 & (_ & _ & Ht1)).
  rewrite E1.
  cbn [mbind result_bind bind]. cbn zeta.
  set (st2 := _post_base_event "HOVERED" n
                (invoke_callback "when_hovered" n st1)).
  assert (Hq2 : quiet st st2).
  { eapply quiet_trans; [exact Hq1|].
    eapply quiet_trans; apply emit_quiet; reflexivity. }
  assert (Ht2 : live st2 (text_select_el st2)) by exact Ht1.
  clearbody st2.
  destruct (quiet_at _ _ _ _ Hq2 He) as (e2 & He2 & Hc2 & Hf2).
  rewrite (get_some _ _ _ He2). cbn [mbind result_bind bind].
  rewrite Hm. cbn [orb].
  assert (pressed (status e2) = false) as ->
    by (unfold flags in Hf2; congruence).
  cbn [negb]. unfold set_status. rewrite (get_some _ _ _ He2).
  cbn [mbind result_bind bind].
  set (e3 := with_status e2 (set_pressed (status e2) true)).
  set (st3 := set_pressed_el
                (_post_base_event "START_PRESS" n
                   (invoke_callback "on_start_press" n (put st2 n e3)))
                (Some n)).
  assert (Hev3 : evolves [Callback "on_start_press" n; Event "START_PRESS" n]
                   st st3).
  { apply (evolves_trans [] _ st st2); [exact (q_evolves _ _ Hq2)|].
    apply (evolves_trans [] _ st2 (put st2 n e3));
      [apply (put_evolves st2 n e2 e3 He2); reflexivity|].
    apply (evolves_trans [Callback "on_start_press" n]
             [Event "START_PRESS" n] _
             (invoke_callback "on_start_press" n (put st2 n e3)));
      [apply emit_press; reflexivity|].
    apply (evolves_trans [Event "START_PRESS" n] [] _
             (_post_base_event "START_PRESS" n
                (invoke_callback "on_start_press" n (put st2 n e3))));
      [apply emit_press; reflexivity|].
    split; try reflexivity. exists []. rewrite app_nil_r. split; reflexivity. }
  assert (Hn3 : elements st3 !! n = Some e3).
  { unfold st3. cbn. apply lookup_insert_eq. }
  assert (Ht3 : live st3 (text_select_el st3)).
  { unfold st3. cbn. destruct (text_select_el st2) as [t|]; [|exact I].
    cbn in *. rewrite lookup_insert. destruct (decide (n = t)); eauto. }
  assert (Hp3 : pressed_el st3 = Some n) by reflexivity.
  clearbody st3.
  destruct (text_select_start_press_quiet io st3 n Ht3 (ex_intro _ e3 Hn3))
    as (st4 & E4 & Hq4 & _ & _ & Ht4).
  rewrite E4. exists st4. split; [reflexivity|]. split.
  { rewrite <- (app_nil_r [_; _]).
    eapply evolves_trans; [exact Hev3|exact (q_evolves _ _ Hq4)]. }
  split; [rewrite (q_pressed_el _ _ Hq4); exact Hp3|].
  split; [exact Ht4|].
  destruct (quiet_at _ _ _ _ Hq4 Hn3) as (e4 & He4 & _ & Hf4).
  exists e4. split; [exact He4|].
  unfold flags in Hf4, Hf2. unfold e3 in Hf4. cbn in Hf4. congruence.
Qed.

(** The frames of a left press that is held, and the frame that ends
    it. *)
Ltac left_pressed_head io st p e He :=
  unfold left_pressed; cbn zeta;
  set (st1 := _post_base_event "PRESSED" p
                (invoke_callback "when_pressed" p st));
  assert (Hq1 : quiet st st1)
    by (eapply quiet_trans; apply emit_quiet; reflexivity);
  assert (He1 : elements st1 !! p = Some e) by exact He;
  assert (Ht1 : text_select_el st1 = text_select_el st) by reflexivity;
  assert (Hh1 : hovered_el st1 = hovered_el st) by reflexivity;
  assert (Hs1 : last_scroll_hovered st1 = last_scroll_hovered st)
    by reflexivity;
  clearbody st1; rewrite (get_some _ _ _ He1); cbn [mbind result_bind bind];
  destruct (set_hover_flag st1 p e
              (fun s => set_hovered s
                          (collidepoint (absolute_rect e) (mouse_pos io)))
              He1 (hover_form_hovered _))
    as (st2 & E2 & Hq2' & Hh2 & Hs2 & Ht2 & He2);
  rewrite E2; cbn [mbind result_bind bind];
  assert (Hq2 : quiet st st2) by (eapply quiet_trans; eassumption).

Lemma left_pressed_hold io st p :
  is_Some (elements st !! p) -> tabbed_element st = None ->
  mouse_pressed_0 io = true ->
  exists st', left_pressed io st p = Ok st' /\ quiet st st'
    /\ text_select_el st' = text_select_el st.
Proof.
  intros [e He] Ht Hm. left_pressed_head io st p e He.
  unfold press_over. rewrite (ev_tabbed _ _ _ (q_evolves _ _ Hq2)), Ht, Hm.
  cbn. exists st2. split; [reflexivity|]. split; [exact Hq2|congruence].
Qed.

Lemma left_pressed_release io st p e :
  elements st !! p = Some e -> tabbed_element st = None ->
  mouse_pressed_0 io = false ->
  can_select (status e) = true -> selected (status e) = false ->
  exists st', left_pressed io st p = Ok st'
    /\ evolves [Callback "on_stop_press" p; Callback "on_click" p;
                Event "STOP_PRESS" p; Event "CLICK" p;
                Callback "on_select" p; Event "SELECT" p] st st'
    /\ pressed_el st' = None
    /\ exists e', elements st' !! p = Some e'
         /\ selected (status e') = true /\ pressed (status e') = false.
Proof.
  intros He Ht Hm Hcan Hsel. left_pressed_head io st p e He.
  set (e2 := with_status e (set_hovered (status e)
               (collidepoint (absolute_rect e) (mouse_pos io)))) in He2.
  assert (Hc2 : core e2 = core e) by reflexivity.
  assert (Hf2 : flags e2 = flags e) by reflexivity.
  clearbody e2.
  unfold press_over. rewrite (ev_tabbed _ _ _ (q_evolves _ _ Hq2)), Ht, Hm.
  cbn [negb andb orb bool_decide decide_rel]. cbn [bool_decide].
  replace (bool_decide (None = Some p)) with false
    by (symmetry; apply bool_decide_eq_false; discriminate).
  cbn [negb andb orb].
  unfold set_status. rewrite (get_some _ _ _ He2).
  cbn [mbind result_bind bind].
  set (e3 := with_status e2 (set_pressed (status e2) false)).
  set (st3 := _post_base_event "CLICK" p
                (_post_base_event "STOP_PRESS" p
                   (invoke_callbacks ["on_stop_press"; "on_click"] p
                      (put st2 p e3)))).
  assert (Hev3 : evolves [Callback "on_stop_press" p; Callback "on_click" p;
                          Event "STOP_PRESS" p; Event "CLICK" p] st st3).
  { apply (evolves_trans [] _ st st2); [exact (q_evolves _ _ Hq2)|].
    apply (evolves_trans [] _ st2 (put st2 p e3));
      [apply (put_evolves st2 p e2 e3 He2); reflexivity|].
    apply (evolves_trans [Callback "on_stop_press" p] _ _
             (invoke_callback "on_stop_press" p (put st2 p e3)));
      [apply emit_press; reflexivity|].
    apply (evolves_trans [Callback "on_click" p] _ _
             (invoke_callbacks ["on_stop_press"; "on_click"] p (put st2 p e3)));
      [apply emit_press; reflexivity|].
    apply (evolves_trans [Event "STOP_PRESS" p] [Event "CLICK" p] _
             (_post_base_event "STOP_PRESS" p
                (invoke_callbacks ["on_stop_press"; "on_click"] p
                   (put st2 p e3))));
      apply emit_press; reflexivity. }
  assert (He3 : elements st3 !! p = Some e3).
  { unfold st3. cbn. apply lookup_insert_eq. }
  clearbody st3. rewrite (get_some _ _ _ He3). cbn [mbind result_bind bind].
  assert (Hcan3 : can_select (status e3) = true).
  { unfold e3. cbn. unfold core in Hc2. congruence. }
  assert (Hsel3 : selected (status e3) = false).
  { unfold e3. cbn. unfold flags in Hf2. congruence. }
  rewrite Hcan3, Hsel3. cbn zeta. cbn [mbind result_bind bind].
  cbn [negb].
  set (e4 := with_status e3 (set_selected (status e3) true)).
  eexists. split; [reflexivity|]. split; [|split; [reflexivity|]].
  - apply (evolves_trans
             [Callback "on_stop_press" p; Callback "on_click" p;
              Event "STOP_PRESS" p; Event "CLICK" p]
             [Callback "on_select" p; Event "SELECT" p] st st3);
      [exact Hev3|].
    apply (evolves_trans [] _ st3 (put st3 p e4));
      [apply (put_evolves st3 p e3 e4 He3); reflexivity|].
    apply (evolves_trans [Callback "on_select" p] _ _
             (invoke_callback "on_select" p (put st3 p e4)));
      [apply emit_press; reflexivity|].
    apply (evolves_trans [] [Event "SELECT" p] _
             (emit (BufferUpdate p "selected" true)
                (invoke_callback "on_select" p (put st3 p e4))));
      [apply q_evolves, emit_quiet; reflexivity|].
    apply (evolves_trans [Event "SELECT" p] [] _
             (_post_base_event "SELECT" p
                (emit (BufferUpdate p "selected" true)
                   (invoke_callback "on_select" p (put st3 p e4)))));
      [apply emit_press; reflexivity|].
    split; try reflexivity. exists []. rewrite app_nil_r. split; reflexivity.
  - exists e4. split; [cbn; apply lookup_insert_eq|].
    unfold e4. cbn. split; reflexivity.
Qed.

(** The frame in which the press starts. *)
Lemma logic_press depth fuel io st lr lre n e :
  rooted st depth fuel -> live_refs st ->
  _last_rendered st = Some lr -> elements st !! lr = Some lre ->
  pressed_el st = None -> right_pressed_el st = None ->
  elements st !! n = Some e -> pressed (status e) = false ->
  mouse_pressed_0 io = true ->
  raycast fuel st (mouse_pos io) (parent lre) true = Ok (Some n) ->
  exists st', _logic fuel io st = Ok st'
    /\ evolves [Callback "on_start_press" n; Event "START_PRESS" n] st st'
    /\ pressed_el st' = Some n /\ live st' (text_select_el st')
    /\ exists e', elements st' !! n = Some e'
         /\ selected (status e') = selected (status e).
Proof.
  intros Hro Hlive Hlast Hlr Hp Hrp He Hpr Hm Hray. unfold _logic.
  rewrite Hlast.
  destruct (text_selection_quiet io st (proj2 (proj2 Hlive)))
    as (st1 & E1 & Hq1 & Hh1 & Hs1 & Ht1).
  rewrite E1. cbn [mbind result_bind bind].
  rewrite (q_pressed_el _ _ Hq1), Hp, (q_right_pressed_el _ _ Hq1), Hrp.
  destruct (quiet_at _ _ _ _ Hq1 Hlr) as (lre1 & Hlr1 & Hc1 & _).
  assert (Hray1 : raycast fuel st1 (mouse_pos io) (parent lre1) true
                  = Ok (Some n)).
  { rewrite (raycast_ext st st1 (ev_core _ _ _ (q_evolves _ _ Hq1))
               (ev_tabbed _ _ _ (q_evolves _ _ Hq1))).
    assert (parent lre1 = parent lre) as -> by (unfold core in Hc1; congruence).
    exact Hray. }
  destruct (rehover_quiet fuel io st1 lr lre1 (Some n) Hlr1
              (live_refs_same _ _ Hq1 Hh1 Hs1 Ht1 Hlive) Hray1
              (quiet_live st st1 (Some n) Hq1 (ex_intro _ e He)))
    as (st2 & E2 & Hq2 & Hh2 & Hl2).
  rewrite E2. cbn [mbind result_bind bind]. rewrite Hh2.
  assert (Hq : quiet st st2) by (eapply quiet_trans; eassumption).
  destruct (quiet_at _ _ _ _ Hq He) as (e2 & He2 & _ & Hf2).
  destruct (hovering_press depth fuel io st2 n e2
              (rooted_quiet _ _ _ _ Hq Hro) Hl2 He2
              ltac:(unfold flags in Hf2; congruence) Hm)
    as (st3 & E3 & Hev3 & Hp3 & Ht3 & e3 & He3 & Hs3).
  exists st3. split; [exact E3|]. split.
  { apply (evolves_trans [] _ st st2); [exact (q_evolves _ _ Hq)|exact Hev3]. }
  split; [exact Hp3|]. split; [exact Ht3|].
  exists e3. split; [exact He3|]. unfold flags in Hf2. congruence.
Qed.

(** A frame in which the press is held. *)
Lemma logic_hold fuel io st lr n :
  _last_rendered st = Some lr -> tabbed_element st = None ->
  pressed_el st = Some n -> is_Some (elements st !! n) ->
  live st (text_select_el st) -> mouse_pressed_0 io = true ->
  exists st', _logic fuel io st = Ok st' /\ quiet st st'
    /\ live st' (text_select_el st').
Proof.
  intros Hlast Htab Hp Hn Hlt Hm. unfold _logic. rewrite Hlast.
  destruct (text_selection_quiet io st Hlt) as (st1 & E1 & Hq1 & _ & _ & Ht1).
  rewrite E1. cbn [mbind result_bind bind].
  rewrite (q_pressed_el _ _ Hq1), Hp.
  destruct (left_pressed_hold io st1 n (quiet_live st st1 (Some n) Hq1 Hn)
              ltac:(rewrite (ev_tabbed _ _ _ (q_evolves _ _ Hq1)); exact Htab)
              Hm) as (st2 & E2 & Hq2 & Ht2).
  exists st2. split; [exact E2|].
  assert (Hq : quiet st st2) by (eapply quiet_trans; eassumption).
  split; [exact Hq|]. rewrite Ht2, Ht1. apply (quiet_live _ _ _ Hq Hlt).
Qed.

(** The frame in which the button is released. *)
Lemma logic_release fuel io st lr n e :
  _last_rendered st = Some lr -> tabbed_element st = None ->
  pressed_el st = Some n -> elements st !! n = Some e ->
  live st (text_select_el st) -> mouse_pressed_0 io = false ->
  can_select (status e) = true -> selected (status e) = false ->
  exists st', _logic fuel io st = Ok st'
    /\ evolves [Callback "on_stop_press" n; Callback "on_click" n;
                Event "STOP_PRESS" n; Event "CLICK" n;
                Callback "on_select" n; Event "SELECT" n] st st'
    /\ pressed_el st' = None
    /\ exists e', elements st' !! n = Some e'
         /\ selected (status e') = true /\ pressed (status e') = false.
Proof.
  intros Hlast Htab Hp He Hlt Hm Hcan Hsel. unfold _logic. rewrite Hlast.
  destruct (text_selection_quiet io st Hlt) as (st1 & E1 & Hq1 & _).
  rewrite E1. cbn [mbind result_bind bind].
  rewrite (q_pressed_el _ _ Hq1), Hp.
  destruct (quiet_at _ _ _ _ Hq1 He) as (e1 & He1 & Hc1 & Hf1).
  destruct (left_pressed_release io st1 n e1 He1
              ltac:(rewrite (ev_tabbed _ _ _ (q_evolves _ _ Hq1)); exact Htab)
              Hm ltac:(unfold core in Hc1; congruence)
              ltac:(unfold flags in Hf1; congruence))
    as (st2 & E2 & Hev2 & Hp2 & He2).
  exists st2. split; [exact E2|]. split; [|split; assumption].
  apply (evolves_trans [] _ st st1); [exact (q_evolves _ _ Hq1)|exact Hev2].
Qed.

Lemma run_holds fuel holds : forall st lr n e,
  _last_rendered st = Some lr -> tabbed_element st = None ->
  pressed_el st = Some n -> elements st !! n = Some e ->
  live st (text_select_el st) ->
  Forall (fun io => mouse_pressed_0 io = true) holds ->
  exists st', run fuel holds st = Ok st' /\ quiet st st'
    /\ live st' (text_select_el st').
Proof.
  induction holds as [|io holds IH]; intros st lr n e Hlast Htab Hp He Hlt Hf.
  - exists st. split; [reflexivity|]. split; [apply quiet_refl|exact Hlt].
  - inversion Hf as [|? ? Hio Hrest]; subst. unfold run. cbn [for_each].
    destruct (logic_hold fuel io st lr n Hlast Htab Hp (ex_intro _ e He) Hlt Hio)
      as (st1 & E1 & Hq1 & Hlt1).
    rewrite E1. cbn [mbind result_bind bind].
    destruct (quiet_at _ _ _ _ Hq1 He) as (e1 & He1 & _).
    destruct (IH st1 lr n e1) as (st2 & E2 & Hq2 & Hlt2); try assumption.
    + rewrite (ev_last _ _ _ (q_evolves _ _ Hq1)). exact Hlast.
    + rewrite (ev_tabbed _ _ _ (q_evolves _ _ Hq1)). exact Htab.
    + rewrite (q_pressed_el _ _ Hq1). exact Hp.
    + exists st2. split; [exact E2|]. split; [|exact Hlt2].
      eapply quiet_trans; eassumption.
Qed.

Lemma run_app fuel l1 l2 st st1 :
  run fuel l1 st = Ok st1 -> run fuel (l1 ++ l2) st = run fuel l2 st1.
Proof.
  unfold run. revert st. induction l1 as [|io l1 IH]; intros st; cbn [for_each app].
  - intros [= ->]. reflexivity.
  - destruct (_logic fuel io st) as [s| |]; cbn [mbind result_bind bind];
      [apply IH|discriminate..].
Qed.

Lemma callbacks_press l :
  filter (fun c => c.1 ∈ press_names) (callbacks l)
  = callbacks (filter (fun x => press_related x = true) l).
Proof.
  induction l as [|x l IH]; [reflexivity|].
  rewrite (filter_cons _ x l).
  destruct x as [name el|type el| | |]; cbn; fold (callbacks l).
  - destruct (decide (name ∈ press_names)) as [Hin|Hin],
      (decide (bool_decide (name ∈ press_names) = true)) as [Hb|Hb].
    + cbn. f_equal. exact IH.
    + destruct Hb. apply bool_decide_eq_true_2, Hin.
    + destruct Hin. apply (bool_decide_eq_true_1 _ Hb).
    + exact IH.
  - destruct (decide (bool_decide (type ∈ press_types) = true)); exact IH.
  - destruct (decide (false = true)); [discriminate|exact IH].
  - destruct (decide (false = true)); [discriminate|exact IH].
  - destruct (decide (false = true)); [discriminate|exact IH].
Qed.

Lemma events_press l :
  filter (fun c => c.1 ∈ press_types) (events l)
  = events (filter (fun x => press_related x = true) l).
Proof.
  induction l as [|x l IH]; [reflexivity|].
  rewrite (filter_cons _ x l).
  destruct x as [name el|type el| | |]; cbn; fold (events l).
  - destruct (decide (bool_decide (name ∈ press_names) = true)); exact IH.
  - destruct (decide (type ∈ press_types)) as [Hin|Hin],
      (decide (bool_decide (type ∈ press_types) = true)) as [Hb|Hb].
    + cbn. f_equal. exact IH.
    + destruct Hb. apply bool_decide_eq_true_2, Hin.
    + destruct Hin. apply (bool_decide_eq_true_1 _ Hb).
    + exact IH.
  - destruct (decide (false = true)); [discriminate|exact IH].
  - destruct (decide (false = true)); [discriminate|exact IH].
  - destruct (decide (false = true)); [discriminate|exact IH].
Qed.

(** *** Any sequence of frames *)

Lemma evolves_emits l : forall st,
  evolves (filter (fun x => press_related x = true) l) st
    (fold_left (fun st x => emit x st) l st).
Proof.
  induction l as [|x l IH]; intros st; cbn [fold_left]; [apply evolves_refl|].
  rewrite filter_cons. pose proof (emit_evolves st x) as Hx.
  destruct (press_related x) eqn:E.
  - rewrite decide_True by reflexivity.
    apply (evolves_trans [x] _ st (emit x st)); [exact Hx|apply IH].
  - rewrite decide_False by discriminate.
    apply (evolves_trans [] _ st (emit x st)); [exact Hx|apply IH].
Qed.

Lemma evolves_forest o st st' rank :
  evolves o st st' -> forest st rank -> forest st' rank.
Proof.
  intros Hev Hfo x e' He'.
  pose proof (ev_core _ _ _ Hev x) as C. rewrite He' in C.
  destruct (elements st !! x) as [e|] eqn:He; [|discriminate].
  cbn in C. assert (children e' = children e) as ->
    by (unfold core in C; congruence).
  eapply Forall_impl; [exact (Hfo x e He)|]. cbn. intros c [Hl Hr].
  split; [|exact Hr]. apply (evolves_live _ _ _ (Some c) Hev Hl).
Qed.

Lemma evolves_rooted o st st' depth bound :
  evolves o st st' -> rooted st depth bound -> rooted st' depth bound.
Proof.
  intros Hev Hro x e' He'.
  pose proof (ev_core _ _ _ Hev x) as C. rewrite He' in C.
  destruct (elements st !! x) as [e|] eqn:He; [|discriminate].
  cbn in C. assert (parent e' = parent e) as -> by (unfold core in C; congruence).
  destruct (Hro x e He) as [Hd Hp]. split; [exact Hd|].
  destruct (parent e) as [p|]; [|exact I]. destruct Hp as [Hl Hlt].
  split; [|exact Hlt]. apply (evolves_live _ _ _ (Some p) Hev Hl).
Qed.

Lemma evolves_bounded o st st' (P : nat -> Prop) :
  evolves o st st' ->
  map_Forall (fun x _ => P x) (elements st) ->
  map_Forall (fun x _ => P x) (elements st').
Proof.
  intros Hev H x e' He'.
  pose proof (ev_core _ _ _ Hev x) as C. rewrite He' in C.
  destruct (elements st !! x) as [e|] eqn:He; [|discriminate].
  exact (H x e He).
Qed.

(** The hit test completes and returns a live element. *)
Lemma raycast_children_total st position rec fall l :
  Forall (fun p => elements st !! p.1 = Some p.2
                   /\ exists r, rec p.1 = Ok r /\ live st r) l ->
  (exists r, fall = Ok r /\ live st r) ->
  exists r, raycast_children st position rec fall l = Ok r /\ live st r.
Proof.
  intros Hl Hfall. induction Hl as [|[c ce] l [Hc (r & Er & Hr)] _ IH];
    cbn [raycast_children]; [exact Hfall|].
  cbn in Hc, Er. destruct (hit position ce); [|exact IH].
  unfold descend. destruct (0 <? length (children ce))%nat.
  - rewrite Er. cbn [mbind result_bind bind]. destruct r as [r|].
    + destruct Hr as [re Hre]. rewrite (get_some _ _ _ Hre). cbn.
      destruct (visible (status re)); eexists; (split; [reflexivity|]);
        cbn; eauto.
    + eexists. split; [reflexivity|]. cbn. eauto.
  - eexists. split; [reflexivity|]. cbn. eauto.
Qed.

Lemma raycast_total st rank depth bound top position :
  forest st rank -> rooted st depth top ->
  map_Forall (fun x _ => (rank x < bound)%nat) (elements st) ->
  live st (tabbed_element st) ->
  forall (fuel : nat) (start_parent : option nat) (can_recurse_above : bool),
    live st start_parent ->
    match start_parent with
    | Some x =>
        ((if can_recurse_above then depth x + bound else rank x) < fuel)%nat
    | None => (0 < fuel)%nat
    end ->
    exists r, raycast fuel st position start_parent can_recurse_above = Ok r
      /\ live st r.
Proof.
  intros Hfo Hro Hb Htab.
  induction fuel as [|fuel IH]; intros sp above Hsp Hfuel.
  { destruct sp as [x|]; [destruct above|]; lia. }
  cbn [raycast]. destruct (tabbed_element st) as [t|].
  { eexists. split; [reflexivity|exact Htab]. }
  destruct sp as [x|]; [|exists None; split; [reflexivity|exact I]].
  destruct Hsp as [e He]. rewrite (get_some _ _ _ He).
  cbn [mbind result_bind bind].
  destruct (negb (visible (status e)));
    [exists None; split; [reflexivity|exact I]|].
  pose proof (Hb x e He) as Hbx. cbn beta in Hbx.
  assert (Hup : above = true ->
            exists r, raycast fuel st position (parent e) true = Ok r
                      /\ live st r).
  { intros ->. destruct (Hro x e He) as [_ Hp]. apply IH.
    - destruct (parent e); [apply Hp|exact I].
    - destruct (parent e) as [p|]; [destruct Hp; lia|lia]. }
  destruct ((negb (collidepoint (absolute_rect e) position)
             || ignore_raycast e) && above) eqn:Econd.
  { apply Hup. destruct above; [reflexivity|].
    rewrite andb_false_r in Econd. discriminate. }
  pose proof (Hfo x e He) as Hch. cbn beta in Hch.
  destruct (get_all_spec st (children e)) as (cs & Ecs & Hm & Hcs).
  { eapply Forall_impl; [exact Hch|]. cbn. tauto. }
  rewrite Ecs. cbn [mbind result_bind bind].
  apply raycast_children_total.
  - rewrite Forall_forall. intros [c ce] Hin.
    rewrite elem_of_rev, sorted_perm in Hin.
    rewrite Forall_forall in Hcs. pose proof (Hcs _ Hin) as Hc. cbn in Hc.
    split; [exact Hc|]. cbn. apply IH; [cbn; eauto|].
    apply (list_elem_of_fmap_2 fst) in Hin. rewrite Hm in Hin. cbn in Hin.
    rewrite Forall_forall in Hch. destruct (Hch c Hin) as [_ Hlt].
    destruct above; lia.
  - destruct above; [apply Hup; reflexivity|].
    exists None. split; [reflexivity|exact I].
Qed.

Lemma field_evolves st st' :
  elements st' = elements st -> log st' = log st ->
  tabbed_element st' = tabbed_element st ->
  _last_rendered st' = _last_rendered st -> evolves [] st st'.
Proof.
  intros He Hl Ht Hr. split; [exact Ht|exact Hr| |].
  - intros x. rewrite He. reflexivity.
  - exists []. rewrite app_nil_r. split; [exact Hl|reflexivity].
Qed.

Lemma put_live st n e r :
  is_Some (elements st !! n) -> live st r -> live (put st n e) r.
Proof.
  intros Hn. destruct r as [x|]; [|auto]. cbn. rewrite lookup_insert.
  destruct (decide (n = x)); eauto.
Qed.

(** The hovered element: a left press starts, or nothing press-related
    happens. *)
Lemma hovering_general depth fuel io st h :
  rooted st depth fuel -> refs_live st -> is_Some (elements st !! h) ->
  pressed_el st = None ->
  exists st', hovering fuel io st h = Ok st' /\ frame_step st st'
    /\ refs_live st'.
Proof.
  intros Hro (Hlive & Hlp & Hlr) [e He] Hp. unfold hovering.
  destruct (start_hover_quiet depth fuel st h e Hro Hlive He)
    as (st1 & E1 & Hq1 & Hl1).
  rewrite E1. cbn [mbind result_bind bind]. cbn zeta.
  set (st2 := _post_base_event "HOVERED" h
                (invoke_callback "when_hovered" h st1)).
  assert (Hq2 : quiet st st2).
  { eapply quiet_trans; [exact Hq1|].
    eapply quiet_trans; apply emit_quiet; reflexivity. }
  assert (Hl2 : live_refs st2) by exact Hl1.
  clearbody st2.
  assert (Hp2 : pressed_el st2 = None)
    by (rewrite (q_pressed_el _ _ Hq2); exact Hp).
  assert (Hr2 : live st2 (right_pressed_el st2)).
  { rewrite (q_right_pressed_el _ _ Hq2). apply (quiet_live _ _ _ Hq2 Hlr). }
  destruct (quiet_at _ _ _ _ Hq2 He) as (e2 & He2 & _).
  rewrite (get_some _ _ _ He2). cbn [mbind result_bind bind].
  unfold frame_step. rewrite Hp.
  assert (Hidle : exists st', Ok st2 = Ok st'
            /\ ((evolves [] st st' /\ pressed_el st' = None)
                \/ (exists h0, evolves (press_start h0) st st'
                               /\ pressed_el st' = Some h0))
            /\ refs_live st').
  { exists st2. split; [reflexivity|].
    split; [left; split; [exact (q_evolves _ _ Hq2)|exact Hp2]|].
    split; [exact Hl2|]. split; [rewrite Hp2; exact I|exact Hr2]. }
  destruct (mouse_pressed_0 io
            || space_pressed io && bool_decide (tabbed_element st2 = Some h)).
  - destruct (negb (pressed (status e2))); [|exact Hidle].
    unfold set_status. rewrite (get_some _ _ _ He2).
    cbn [mbind result_bind bind].
    set (e3 := with_status e2 (set_pressed (status e2) true)).
    set (st3 := set_pressed_el
                  (_post_base_event "START_PRESS" h
                     (invoke_callback "on_start_press" h (put st2 h e3)))
                  (Some h)).
    assert (Hev3 : evolves (press_start h) st st3).
    { apply (evolves_trans [] _ st st2); [exact (q_evolves _ _ Hq2)|].
      apply (evolves_trans [] _ st2 (put st2 h e3));
        [apply (put_evolves st2 h e2 e3 He2); reflexivity|].
      apply (evolves_trans (press_start h) [] (put st2 h e3)
               (_post_base_event "START_PRESS" h
                  (invoke_callback "on_start_press" h (put st2 h e3))));
        [exact (evolves_emits [Callback "on_start_press" h;
                               Event "START_PRESS" h] (put st2 h e3))|].
      apply field_evolves; reflexivity. }
    assert (Hn3 : elements st3 !! h = Some e3).
    { unfold st3. cbn. apply lookup_insert_eq. }
    assert (Hl3 : live_refs st3 /\ live st3 (right_pressed_el st3)).
    { destruct Hl2 as (H1 & H2 & H3).
      repeat split; apply (put_live st2 h e3); eauto. }
    assert (Hp3 : pressed_el st3 = Some h) by reflexivity.
    clearbody st3. destruct Hl3 as [(Hh3 & Hs3 & Ht3) Hr3].
    destruct (text_select_start_press_quiet io st3 h Ht3 (ex_intro _ e3 Hn3))
      as (st4 & E4 & Hq4 & Hh4 & Hs4 & Ht4).
    rewrite E4. exists st4. split; [reflexivity|].
    assert (Hp4 : pressed_el st4 = Some h)
      by (rewrite (q_pressed_el _ _ Hq4); exact Hp3).
    split.
    { right. exists h. split; [|exact Hp4].
      apply (evolves_trans (press_start h) [] st st3 st4);
        [exact Hev3|exact (q_evolves _ _ Hq4)]. }
    split; [split; [|split; [|exact Ht4]]|split].
    + rewrite Hh4. apply (quiet_live _ _ _ Hq4 Hh3).
    + rewrite Hs4. apply (quiet_live _ _ _ Hq4 Hs3).
    + rewrite Hp4. apply (quiet_live _ _ (Some h) Hq4).
      exact (ex_intro _ e3 Hn3).
    + rewrite (q_right_pressed_el _ _ Hq4). apply (quiet_live _ _ _ Hq4 Hr3).
  - destruct (mouse_pressed_1 io); [|exact Hidle].
    destruct (negb (right_pressed (status e2))); [|exact Hidle].
    unfold set_status. rewrite (get_some _ _ _ He2).
    cbn [mbind result_bind bind].
    set (e3 := with_status e2 (set_right_pressed (status e2) true)).
    eexists. split; [reflexivity|]. split.
    { left. split; [|exact Hp2].
      apply (evolves_trans [] _ st st2); [exact (q_evolves _ _ Hq2)|].
      apply (evolves_trans [] _ st2 (put st2 h e3));
        [apply (put_evolves st2 h e2 e3 He2); reflexivity|].
      apply (evolves_trans [] [] _ _ _
               (evolves_emits [Callback "on_start_right_press" h;
                               Event "START_RIGHT_PRESS" h] (put st2 h e3))).
      apply field_evolves; reflexivity. }
    destruct Hl2 as (H1 & H2 & H3).
    split; [split; [|split]|split]; cbn [pressed_el right_pressed_el
      hovered_el last_scroll_hovered text_select_el set_right_pressed_el
      _post_base_event invoke_callback emit set_log].
    + apply (put_live st2 h e3); eauto.
    + apply (put_live st2 h e3); eauto.
    + apply (put_live st2 h e3); eauto.
    + cbn. rewrite Hp2. exact I.
    + cbn. rewrite lookup_insert_eq. eauto.
Qed.

Lemma quiet_refs_live st st' :
  quiet st st' -> hovered_el st' = hovered_el st ->
  last_scroll_hovered st' = last_scroll_hovered st ->
  text_select_el st' = text_select_el st -> refs_live st -> refs_live st'.
Proof.
  intros Hq Hh Hs Ht (Hl & Hp & Hr). split; [|split].
  - apply (live_refs_same st st' Hq Hh Hs Ht Hl).
  - rewrite (q_pressed_el _ _ Hq). apply (quiet_live _ _ _ Hq Hp).
  - rewrite (q_right_pressed_el _ _ Hq). apply (quiet_live _ _ _ Hq Hr).
Qed.

(** The element under a left press: the press goes on, or it ends. *)
Lemma left_pressed_general io st p :
  pressed_el st = Some p -> refs_live st ->
  exists st', left_pressed io st p = Ok st' /\ frame_step st st'
    /\ refs_live st'.
Proof.
  intros Hp Hlive. pose proof Hlive as (_ & Hlp & _). rewrite Hp in Hlp.
  destruct Hlp as [e He]. unfold frame_step. rewrite Hp.
  left_pressed_head io st p e He.
  assert (Hl2 : refs_live st2).
  { apply (quiet_refs_live st st2 Hq2); try assumption; congruence. }
  destruct (press_over io st2 p).
  2:{ exists st2. split; [reflexivity|]. split; [|exact Hl2].
      left. split; [exact (q_evolves _ _ Hq2)|].
      rewrite (q_pressed_el _ _ Hq2). exact Hp. }
  set (e2 := with_status e (set_hovered (status e)
               (collidepoint (absolute_rect e) (mouse_pos io)))) in He2.
  clearbody e2.
  unfold set_status. rewrite (get_some _ _ _ He2).
  cbn [mbind result_bind bind].
  set (e3 := with_status e2 (set_pressed (status e2) false)).
  set (st3 := _post_base_event "CLICK" p
                (_post_base_event "STOP_PRESS" p
                   (invoke_callbacks ["on_stop_press"; "on_click"] p
                      (put st2 p e3)))).
  assert (Hev3 : evolves (press_stop p) st st3).
  { apply (evolves_trans [] _ st st2); [exact (q_evolves _ _ Hq2)|].
    apply (evolves_trans [] _ st2 (put st2 p e3));
      [apply (put_evolves st2 p e2 e3 He2); reflexivity|].
    exact (evolves_emits [Callback "on_stop_press" p; Callback "on_click" p;
                          Event "STOP_PRESS" p; Event "CLICK" p]
             (put st2 p e3)). }
  assert (He3 : elements st3 !! p = Some e3).
  { unfold st3. cbn. apply lookup_insert_eq. }
  assert (Hl3 : live_refs st3 /\ live st3 (right_pressed_el st3)).
  { destruct Hl2 as ((H1 & H2 & H3) & _ & H4).
    repeat split; apply (put_live st2 p e3); eauto. }
  clearbody st3. destruct Hl3 as [(Hh3 & Hs3 & Ht3) Hr3].
  rewrite (get_some _ _ _ He3). cbn [mbind result_bind bind].
  destruct (can_select (status e3)).
  2:{ cbn [mbind result_bind bind]. eexists. split; [reflexivity|]. split.
      - right. exists []. split; [constructor|]. split; [|reflexivity].
        rewrite app_nil_r.
        apply (evolves_trans (press_stop p) [] st st3); [exact Hev3|].
        apply field_evolves; reflexivity.
      - split; [split; [|split]|split]; cbn; assumption || exact I. }
  cbn zeta. cbn [mbind result_bind bind].
  set (e4 := with_status e3 (set_selected (status e3)
                               (negb (selected (status e3))))).
  assert (Hl4 : forall r, live st3 r -> live (put st3 p e4) r)
    by (intros r; apply put_live; eauto).
  destruct (selected (status e3)); cbn [mbind result_bind bind];
    (eexists; split; [reflexivity|]; split;
     [right; eexists; split; [|split; [|reflexivity]]
     |split; [split; [|split]|split];
      cbn; try exact I; apply Hl4; assumption]).
  - apply toggle_deselect.
  - apply (evolves_trans (press_stop p) _ st st3); [exact Hev3|].
    apply (evolves_trans [] _ st3 (put st3 p e4));
      [apply (put_evolves st3 p e3 e4 He3); reflexivity|].
    apply (evolves_trans [Callback "on_deselect" p; Event "DESELECT" p] []
             _ _ _
             (evolves_emits [Callback "on_deselect" p;
                             BufferUpdate p "selected" false;
                             Event "DESELECT" p] (put st3 p e4))).
    apply field_evolves; reflexivity.
  - apply toggle_select.
  - apply (evolves_trans (press_stop p) _ st st3); [exact Hev3|].
    apply (evolves_trans [] _ st3 (put st3 p e4));
      [apply (put_evolves st3 p e3 e4 He3); reflexivity|].
    apply (evolves_trans [Callback "on_select" p; Event "SELECT" p] []
             _ _ _
             (evolves_emits [Callback "on_select" p;
                             BufferUpdate p "selected" true;
                             Event "SELECT" p] (put st3 p e4))).
    apply field_evolves; reflexivity.
Qed.

(** The element under a right press: nothing of the left press. *)
Lemma right_pressed_general io st p :
  pressed_el st = None -> right_pressed_el st = Some p -> refs_live st ->
  exists st', right_pressed_logic io st p = Ok st' /\ frame_step st st'
    /\ refs_live st'.
Proof.
  intros Hp Hrp Hlive. pose proof Hlive as ((Hlh & Hls & Hlt) & _ & Hlr).
  rewrite Hrp in Hlr. destruct Hlr as [e He].
  unfold frame_step. rewrite Hp. unfold right_pressed_logic. cbn zeta.
  set (st1 := _post_base_event "RIGHT_PRESSED" p
                (invoke_callback "when_right_pressed" p st)).
  assert (Hq1 : quiet st st1)
    by (eapply quiet_trans; apply emit_quiet; reflexivity).
  assert (He1 : elements st1 !! p = Some e) by exact He.
  assert (Hl1 : refs_live st1) by exact Hlive.
  clearbody st1. rewrite (get_some _ _ _ He1). cbn [mbind result_bind bind].
  destruct (set_hover_flag st1 p e
              (fun s => set_hovered s
                          (collidepoint (absolute_rect e) (mouse_pos io)))
              He1 (hover_form_hovered _))
    as (st2 & E2 & Hq2' & Hh2 & Hs2 & Ht2 & He2).
  rewrite E2. cbn [mbind result_bind bind].
  assert (Hq2 : quiet st st2) by (eapply quiet_trans; eassumption).
  assert (Hl2 : refs_live st2)
    by (apply (quiet_refs_live st1 st2 Hq2'); assumption).
  assert (Hp2 : pressed_el st2 = None)
    by (rewrite (q_pressed_el _ _ Hq2); exact Hp).
  destruct (negb (mouse_pressed_1 io)).
  2:{ exists st2. split; [reflexivity|]. split; [|exact Hl2].
      left. split; [exact (q_evolves _ _ Hq2)|exact Hp2]. }
  unfold set_status. rewrite (get_some _ _ _ He2).
  cbn [mbind result_bind bind].
  match goal with
  | |- context [put st2 p ?x] => set (e3 := x)
  end.
  eexists. split; [reflexivity|]. split.
  - left. split; [|exact Hp2].
    apply (evolves_trans [] _ st st2); [exact (q_evolves _ _ Hq2)|].
    apply (evolves_trans [] _ st2 (put st2 p e3));
      [eapply (put_evolves st2 p _ e3 He2); reflexivity|].
    apply (evolves_trans [] [] _ _ _
             (evolves_emits [Callback "on_stop_right_press" p;
                             Callback "on_right_click" p;
                             Event "STOP_RIGHT_PRESS" p;
                             Event "RIGHT_CLICK" p] (put st2 p e3))).
    apply field_evolves; reflexivity.
  - destruct Hl2 as ((H1 & H2 & H3) & H4 & _).
    split; [split; [|split]|split]; cbn; try exact I;
      apply (put_live st2 p e3); eauto.
Qed.

Lemma frame_step_after_quiet st st1 st2 :
  quiet st st1 -> frame_step st1 st2 -> frame_step st st2.
Proof.
  intros Hq. unfold frame_step. rewrite (q_pressed_el _ _ Hq).
  pose proof (q_evolves _ _ Hq) as Hev.
  destruct (pressed_el st) as [p|].
  - intros [[H1 H2]|(tail & Ht & H1 & H2)].
    + left. split; [|exact H2]. apply (evolves_trans [] [] st st1); assumption.
    + right. exists tail. split; [exact Ht|]. split; [|exact H2].
      apply (evolves_trans [] _ st st1); assumption.
  - intros [[H1 H2]|(h & H1 & H2)].
    + left. split; [|exact H2]. apply (evolves_trans [] [] st st1); assumption.
    + right. exists h. split; [|exact H2].
      apply (evolves_trans [] _ st st1); assumption.
Qed.

Lemma frame_step_evolves st st' : frame_step st st' -> exists o, evolves o st st'.
Proof.
  unfold frame_step. destruct (pressed_el st).
  - intros [[H _]|(tail & _ & H & _)]; eauto.
  - intros [[H _]|(h & H & _)]; eauto.
Qed.

(** One frame on a well-formed scene. *)
Lemma logic_general rank depth bound fuel io st :
  well_formed st rank depth bound fuel ->
  exists st', _logic fuel io st = Ok st' /\ frame_step st st'
    /\ well_formed st' rank depth bound fuel.
Proof.
  intros (Hfo & Hro & Hb & Hl & Hlp & Hlr & Hlast & Htab).
  assert (Hwf : forall st', frame_step st st' -> refs_live st' ->
            well_formed st' rank depth bound fuel).
  { intros st' Hstep (Hl' & Hlp' & Hlr').
    destruct (frame_step_evolves _ _ Hstep) as [o Hev].
    split; [exact (evolves_forest _ _ _ _ Hev Hfo)|].
    split; [exact (evolves_rooted _ _ _ _ _ Hev Hro)|].
    split; [exact (evolves_bounded _ _ _ _ Hev Hb)|].
    split; [exact Hl'|]. split; [exact Hlp'|]. split; [exact Hlr'|].
    rewrite (ev_last _ _ _ Hev), (ev_tabbed _ _ _ Hev).
    split; apply (evolves_live _ _ _ _ Hev); assumption. }
  assert (Hsame : frame_step st st).
  { unfold frame_step. destruct (pressed_el st);
      left; split; try reflexivity; apply evolves_refl. }
  unfold _logic. destruct (_last_rendered st) as [lr|] eqn:Elr.
  2:{ exists st. split; [reflexivity|]. split; [exact Hsame|].
      apply Hwf; [exact Hsame|]. repeat split; assumption || apply Hl. }
  destruct (text_selection_quiet io st (proj2 (proj2 Hl)))
    as (st1 & E1 & Hq1 & Hh1 & Hs1 & Ht1).
  rewrite E1. cbn [mbind result_bind bind].
  assert (Hl1 : refs_live st1).
  { apply (quiet_refs_live st st1 Hq1 Hh1 Hs1 Ht1). repeat split;
      assumption || apply Hl. }
  assert (Hfin : forall m,
    (exists st', m = Ok st' /\ frame_step st1 st' /\ refs_live st') ->
    exists st', m = Ok st' /\ frame_step st st'
      /\ well_formed st' rank depth bound fuel).
  { intros m (st' & E & Hstep & Hl'). exists st'. split; [exact E|].
    pose proof (frame_step_after_quiet _ _ _ Hq1 Hstep) as Hs.
    split; [exact Hs|]. apply Hwf; assumption. }
  apply Hfin.
  destruct (pressed_el st1) as [p|] eqn:Ep;
    [apply left_pressed_general; assumption|].
  destruct (right_pressed_el st1) as [p|] eqn:Erp;
    [apply right_pressed_general; assumption|].
  cbn in Hlast. destruct (quiet_live st st1 (Some lr) Hq1 Hlast) as [lre Hlre].
  pose proof (rooted_quiet _ _ _ _ Hq1 Hro) as Hro1.
  pose proof (evolves_forest _ _ _ _ (q_evolves _ _ Hq1) Hfo) as Hfo1.
  pose proof (evolves_bounded _ _ _ _ (q_evolves _ _ Hq1) Hb) as Hb1.
  destruct (raycast_total st1 rank depth bound fuel (mouse_pos io) Hfo1 Hro1)
    with (fuel := fuel) (start_parent := parent lre)
         (can_recurse_above := true) as (h & Eh & Hh).
  { intros x e He. exact (proj1 (Hb1 x e He)). }
  { rewrite (ev_tabbed _ _ _ (q_evolves _ _ Hq1)).
    apply (quiet_live _ _ _ Hq1 Htab). }
  { destruct (Hro1 lr lre Hlre) as [_ H]. destruct (parent lre); [apply H|exact I]. }
  { destruct (Hro1 lr lre Hlre) as [_ H]. pose proof (Hb1 lr lre Hlre) as Hblr.
    cbn beta in Hblr. destruct (parent lre) as [q|].
    - destruct H as [[qe Hqe] Hlt]. pose proof (Hb1 q qe Hqe) as Hq. cbn in Hq. lia.
    - lia. }
  destruct (rehover_quiet fuel io st1 lr lre h Hlre (proj1 Hl1) Eh Hh)
    as (st2 & E2 & Hq2 & Hh2 & Hl2).
  rewrite E2. cbn [mbind result_bind bind].
  assert (Hp2 : pressed_el st2 = None)
    by (rewrite (q_pressed_el _ _ Hq2); exact Ep).
  assert (Hrl2 : refs_live st2).
  { split; [exact Hl2|]. rewrite Hp2, (q_right_pressed_el _ _ Hq2), Erp.
    split; exact I. }
  assert (Hfin2 : forall m,
    (exists st', m = Ok st' /\ frame_step st2 st' /\ refs_live st') ->
    exists st', m = Ok st' /\ frame_step st1 st' /\ refs_live st').
  { intros m (st' & E & Hstep & Hl'). exists st'. split; [exact E|].
    split; [|exact Hl']. exact (frame_step_after_quiet _ _ _ Hq2 Hstep). }
  apply Hfin2. rewrite Hh2. destruct h as [h|].
  - apply (hovering_general depth); try assumption.
    + exact (rooted_quiet _ _ _ _ Hq2 Hro1).
    + exact (quiet_live st1 st2 (Some h) Hq2 Hh).
  - exists st2. split; [reflexivity|]. split; [|exact Hrl2].
    unfold frame_step. rewrite Hp2. left. split; [apply evolves_refl|reflexivity].
Qed.

Lemma frame_step_trace st st' :
  frame_step st st' ->
  exists new, log st' = log st ++ new
    /\ forall l, press_trace (pressed_el st) l ->
         press_trace (pressed_el st')
           (l ++ filter (fun x => press_related x = true) new).
Proof.
  unfold frame_step. destruct (pressed_el st) as [p|].
  - intros [[[_ _ _ (new & E & F)] ->]|(tail & Ht & [_ _ _ (new & E & F)] & ->)];
      exists new; (split; [exact E|]); intros l Hl; rewrite F.
    + rewrite app_nil_r. exact Hl.
    + apply trace_stop; assumption.
  - intros [[[_ _ _ (new & E & F)] ->]|(h & [_ _ _ (new & E & F)] & ->)];
      exists new; (split; [exact E|]); intros l Hl; rewrite F.
    + rewrite app_nil_r. exact Hl.
    + apply trace_start. exact Hl.
Qed.

(** Any sequence of frames on a well-formed scene completes, and its
    press-related emissions continue a well-formed trace. *)
Lemma run_general rank depth bound fuel frames : forall st,
  well_formed st rank depth bound fuel ->
  exists st' new, run fuel frames st = Ok st' /\ log st' = log st ++ new
    /\ well_formed st' rank depth bound fuel
    /\ forall l, press_trace (pressed_el st) l ->
         press_trace (pressed_el st')
           (l ++ filter (fun x => press_related x = true) new).
Proof.
  induction frames as [|io frames IH]; intros st Hwf.
  - exists st, []. split; [reflexivity|]. rewrite app_nil_r.
    split; [reflexivity|]. split; [exact Hwf|].
    intros l Hl. cbn. rewrite app_nil_r. exact Hl.
  - destruct (logic_general rank depth bound fuel io st Hwf)
      as (st1 & E1 & Hstep & Hwf1).
    destruct (frame_step_trace _ _ Hstep) as (new1 & Elog1 & Htr1).
    destruct (IH st1 Hwf1) as (st2 & new2 & E2 & Elog2 & Hwf2 & Htr2).
    exists st2, (new1 ++ new2). unfold run. cbn [for_each]. rewrite E1.
    cbn [mbind result_bind bind]. split; [exact E2|].
    split; [rewrite Elog2, Elog1, app_assoc; reflexivity|].
    split; [exact Hwf2|]. intros l Hl. rewrite filter_app, app_assoc.
    apply Htr2, Htr1, Hl.
Qed.

(** C6: a left press on the unselected, select-capable element [n] under
    the pointer, held for any number of frames and then released, with no
    keyboard-navigation target and no press in progress before.  The frames
    complete, and of the callbacks and events of the left press they
    produce exactly: on the callback channel on_start_press, on_stop_press,
    on_click, on_select, on the event channel START_PRESS, STOP_PRESS,
    CLICK, SELECT, all on [n]; the two channels interleave as listed.  The
    element ends selected and the press is over.  Moreover any sequence of
    frames on a well-formed scene with no press in progress completes, and
    its press-related emissions are whole presses one after the other:
    stop, click and select or deselect on an element come only after the
    start of the press on that element, in that order. *)
Theorem press_release_order (depth : nat -> nat) (fuel : nat)
    (st : UIInteract) (press release : UIState) (holds : list UIState)
    (n lr : nat) (e lre : Element) :
  rooted st depth fuel -> live_refs st ->
  _last_rendered st = Some lr -> elements st !! lr = Some lre ->
  tabbed_element st = None ->
  pressed_el st = None -> right_pressed_el st = None ->
  elements st !! n = Some e ->
  pressed (status e) = false -> selected (status e) = false ->
  can_select (status e) = true ->
  mouse_pressed_0 press = true ->
  Forall (fun io => mouse_pressed_0 io = true) holds ->
  mouse_pressed_0 release = false ->
  raycast fuel st (mouse_pos press) (parent lre) true = Ok (Some n) ->
  (exists st' new,
     run fuel (press :: holds ++ [release]) st = Ok st'
     /\ log st' = log st ++ new
     /\ filter (fun c => c.1 ∈ press_names) (callbacks new)
        = [("on_start_press", n); ("on_stop_press", n); ("on_click", n);
           ("on_select", n)]
     /\ filter (fun c => c.1 ∈ press_types) (events new)
        = [("START_PRESS", n); ("STOP_PRESS", n); ("CLICK", n); ("SELECT", n)]
     /\ filter (fun x => press_related x = true) new
        = press_start n ++ press_stop n
          ++ [Callback "on_select" n; Event "SELECT" n]
     /\ pressed_el st' = None
     /\ exists e', elements st' !! n = Some e'
          /\ selected (status e') = true /\ pressed (status e') = false)
  /\ (forall rank depth0 bound fuel0 frames st0,
        well_formed st0 rank depth0 bound fuel0 -> pressed_el st0 = None ->
        exists st1 new,
          run fuel0 frames st0 = Ok st1 /\ log st1 = log st0 ++ new
          /\ press_trace (pressed_el st1)
               (filter (fun x => press_related x = true) new)).
Proof.
  intros Hro Hlive Hlast Hlr Htab Hp Hrp He Hpr Hsel Hcan Hm1 Hm2 Hm3 Hray.
  split.
  2:{ intros rank depth0 bound fuel0 frames st0 Hwf Hidle.
      destruct (run_general rank depth0 bound fuel0 frames st0 Hwf)
        as (st1 & new & E & Hlog & _ & Htr).
      exists st1, new. split; [exact E|]. split; [exact Hlog|].
      apply (Htr []). rewrite Hidle. constructor. }
  destruct (logic_press depth fuel press st lr lre n e Hro Hlive Hlast Hlr
              Hp Hrp He Hpr Hm1 Hray)
    as (st1 & E1 & Hev1 & Hp1 & Hlt1 & e1 & He1 & Hs1).
  assert (Hlast1 : _last_rendered st1 = Some lr)
    by (rewrite (ev_last _ _ _ Hev1); exact Hlast).
  assert (Htab1 : tabbed_element st1 = None)
    by (rewrite (ev_tabbed _ _ _ Hev1); exact Htab).
  destruct (run_holds fuel holds st1 lr n e1 Hlast1 Htab1 Hp1 He1 Hlt1 Hm2)
    as (st2 & E2 & Hq2 & Hlt2).
  destruct (quiet_at _ _ _ _ Hq2 He1) as (e2 & He2 & Hc2 & Hf2).
  destruct (evolves_at _ _ _ _ _ Hev1 He) as (e1' & He1' & Hc1).
  assert (e1' = e1) as -> by congruence.
  destruct (logic_release fuel release st2 lr n e2) as (st3 & E3 & Hev3 & Hp3 & He3).
  { rewrite (ev_last _ _ _ (q_evolves _ _ Hq2)). exact Hlast1. }
  { rewrite (ev_tabbed _ _ _ (q_evolves _ _ Hq2)). exact Htab1. }
  { rewrite (q_pressed_el _ _ Hq2). exact Hp1. }
  { exact He2. }
  { exact Hlt2. }
  { exact Hm3. }
  { unfold core in Hc2, Hc1. congruence. }
  { unfold flags in Hf2. congruence. }
  pose proof (evolves_trans _ _ _ _ _
                (evolves_trans _ _ _ _ _ Hev1 (q_evolves _ _ Hq2)) Hev3)
    as [_ _ _ (new & Hlog & Hnew)].
  exists st3, new. split.
  { unfold run. cbn [for_each]. rewrite E1. cbn [mbind result_bind bind].
    change (for_each (fun st io => _logic fuel io st) (holds ++ [release]) st1)
      with (run fuel (holds ++ [release]) st1).
    rewrite (run_app fuel holds [release] st1 st2 E2).
    unfold run. cbn [for_each]. rewrite E3. reflexivity. }
  split; [exact Hlog|].
  rewrite callbacks_press, events_press, Hnew.
  split; [reflexivity|]. split; [reflexivity|]. split; [reflexivity|].
  split; [exact Hp3|exact He3].
Qed.

(** The press on element 3 of [overlap_scene] at (160, 160), held for two
    frames. *)
Lemma press_release_order_witness :
  exists st' new,
    run 4 (frame_at (160, 160) true
           :: [frame_at (160, 160) true; frame_at (161, 160) true]
              ++ [frame_at (161, 160) false]) overlap_scene = Ok st'
    /\ log st' = log overlap_scene ++ new
    /\ filter (fun c => c.1 ∈ press_names) (callbacks new)
       = [("on_start_press", 3%nat); ("on_stop_press", 3%nat);
          ("on_click", 3%nat); ("on_select", 3%nat)]
    /\ filter (fun c => c.1 ∈ press_types) (events new)
       = [("START_PRESS", 3%nat); ("STOP_PRESS", 3%nat); ("CLICK", 3%nat);
          ("SELECT", 3%nat)]
    /\ filter (fun x => press_related x = true) new
       = press_start 3 ++ press_stop 3
         ++ [Callback "on_select" 3; Event "SELECT" 3]
    /\ pressed_el st' = None
    /\ exists e', elements st' !! 3%nat = Some e'
         /\ selected (status e') = true /\ pressed (status e') = false.
Proof.
  refine (proj1 (press_release_order overlap_depth 4 overlap_scene
           (frame_at (160, 160) true) (frame_at (161, 160) false)
           [frame_at (160, 160) true; frame_at (161, 160) true]
           3%nat 4%nat
           (box (Some 1%nat) [4%nat] (mkRect 150 150 200 100) 1)
           (box (Some 3%nat) [] (mkRect 300 200 20 20) 0)
           _ _ _ _ _ _ _ _ _ _ _ _ _ _ _)).
  - apply (bool_decide_unpack _). vm_compute. exact I.
  - repeat split.
  - reflexivity.
  - vm_compute. reflexivity.
  - reflexivity.
  - reflexivity.
  - reflexivity.
  - vm_compute. reflexivity.
  - reflexivity.
  - reflexivity.
  - reflexivity.
  - reflexivity.
  - repeat constructor.
  - reflexivity.
  - vm_compute. reflexivity.
Defined.

(** [overlap_scene] is well formed, with heights below 4 and 8 units of
    fuel. *)
Example overlap_scene_well_formed :
  well_formed overlap_scene overlap_rank overlap_depth 4 8.
Proof. apply (bool_decide_unpack _). vm_compute. exact I. Qed.

(** The log of that run. *)
Example press_release_log :
  log <$> run 4 [frame_at (160, 160) true; frame_at (161, 160) false]
            overlap_scene
  = Ok [Callback "on_start_hover" 3; Event "START_HOVER" 3;
        Callback "when_hovered" 3; Event "HOVERED" 3;
        Callback "on_start_press" 3; Event "START_PRESS" 3;
        Callback "when_pressed" 3; Event "PRESSED" 3;
        Callback "on_stop_press" 3; Callback "on_click" 3;
        Event "STOP_PRESS" 3; Event "CLICK" 3;
        Callback "on_select" 3; BufferUpdate 3 "selected" true;
        Event "SELECT" 3].
Proof. vm_compute. reflexivity. Qed.

(** *** What the hit test returns, and one frame of the state machine *)

Lemma get_all_inv st l : forall cs,
  get_all st l = Ok cs ->
  Forall (fun p => elements st !! p.1 = Some p.2) cs.
Proof.
  induction l as [|n l IH]; cbn [get_all]; intros cs H.
  - injection H as <-. constructor.
  - apply bind_inv in H as (e & He & H). apply bind_inv in H as (es & Hes & H).
    injection H as <-. constructor; [|exact (IH _ Hes)].
    cbn. unfold get in He. destruct (elements st !! n); congruence.
Qed.

Lemma raycast_children_sound st position rec fall l r :
  Forall (fun p => elements st !! p.1 = Some p.2) l ->
  (forall c x, rec c = Ok (Some x) -> qualifies st position x) ->
  (fall = Ok (Some r) -> qualifies st position r) ->
  raycast_children st position rec fall l = Ok (Some r) ->
  qualifies st position r.
Proof.
  intros Hl Hrec Hfall.
  induction Hl as [|[c ce] l Hc _ IH]; cbn [raycast_children]; [exact Hfall|].
  cbn in Hc. destruct (hit position ce) eqn:Hh; [|exact IH].
  pose proof (proj1 (hit_qualifies st position c ce Hc) Hh) as Hq.
  unfold descend. destruct (0 <? length (children ce))%nat.
  - intros H. apply bind_inv in H as (res & Eres & H). destruct res as [x|].
    + apply bind_inv in H as (re & _ & H).
      destruct (visible (status re)); injection H as <-;
        [exact (Hrec _ _ Eres) | exact Hq].
    + injection H as <-. exact Hq.
  - intros H. injection H as <-. exact Hq.
Qed.

Lemma raycast_sound fuel : forall st position sp above r,
  tabbed_element st = None ->
  raycast fuel st position sp above = Ok (Some r) ->
  qualifies st position r.
Proof.
  induction fuel as [|fuel IH]; intros st position sp above r Htab H;
    [discriminate|].
  cbn [raycast] in H. rewrite Htab in H. destruct sp as [x|]; [|discriminate].
  apply bind_inv in H as (spe & _ & H).
  destruct (negb (visible (status spe))); [discriminate|].
  destruct (_ && above).
  - exact (IH _ _ _ _ _ Htab H).
  - apply bind_inv in H as (cs & Ecs & H).
    revert H. apply raycast_children_sound.
    + rewrite Forall_forall. intros p Hin.
      rewrite elem_of_rev, sorted_perm in Hin.
      pose proof (get_all_inv _ _ _ Ecs) as Hcs.
      rewrite Forall_forall in Hcs. exact (Hcs _ Hin).
    + intros c y Hy. exact (IH _ _ _ _ _ Htab Hy).
    + destruct above; [|discriminate]. intros Hy. exact (IH _ _ _ _ _ Htab Hy).
Qed.

(** X15: on a scene whose children lists form a forest and whose parent
    chains end, the hit test returns, also when it climbs to the parents
    of the start element ([can_recurse_above]), given fuel for the depth
    of the start element plus the height of the forest.  Without keyboard
    navigation it returns nothing or an element that contains the
    position, is visible and does not ignore the raycast: never the start
    element's invisible or missed relatives. *)
Theorem raycast_returns_qualifying (st : UIInteract)
    (rank depth : nat -> nat) (bound top fuel : nat) (position : Z * Z)
    (start_parent : option nat) (can_recurse_above : bool) :
  forest st rank -> rooted st depth top ->
  map_Forall (fun x _ => (rank x < bound)%nat) (elements st) ->
  tabbed_element st = None -> live st start_parent ->
  match start_parent with
  | Some x =>
      ((if can_recurse_above then depth x + bound else rank x) < fuel)%nat
  | None => (0 < fuel)%nat
  end ->
  exists r, raycast fuel st position start_parent can_recurse_above = Ok r
    /\ forall x, r = Some x -> qualifies st position x.
Proof.
  intros Hfo Hro Hb Htab Hsp Hfuel.
  destruct (raycast_total st rank depth bound top position Hfo Hro Hb
              ltac:(rewrite Htab; exact I) fuel start_parent
              can_recurse_above Hsp Hfuel) as (r & E & _).
  exists r. split; [exact E|]. intros x ->.
  exact (raycast_sound _ _ _ _ _ _ Htab E).
Qed.

Lemma raycast_returns_qualifying_witness :
  exists r, raycast 8 overlap_scene (160, 160) (Some 4%nat) true = Ok r
    /\ forall x, r = Some x -> qualifies overlap_scene (160, 160) x.
Proof.
  apply (raycast_returns_qualifying overlap_scene overlap_rank overlap_depth
           4 8 8 (160, 160) (Some 4%nat) true).
  - apply (bool_decide_unpack _). vm_compute. exact I.
  - apply (bool_decide_unpack _). vm_compute. exact I.
  - apply (bool_decide_unpack _). vm_compute. exact I.
  - reflexivity.
  - apply (bool_decide_unpack _). vm_compute. exact I.
  - vm_compute. lia.
Defined.

(** X16: one frame of [_logic] on a well-formed scene returns, never
    changes the parent, children, rectangle, z-index or the ignore,
    scrollable, visible and select-capable flags of an element, only
    appends to what it emitted, makes at most one transition of the left
    press (none, a start, or the end of the press in progress), and leaves
    the scene well formed: the elements it refers to as hovered, pressed,
    right pressed, scroll hovered and text selected exist. *)
Theorem logic_keeps_well_formed (rank depth : nat -> nat)
    (bound fuel : nat) (io : UIState) (st : UIInteract) :
  well_formed st rank depth bound fuel ->
  exists st', _logic fuel io st = Ok st'
    /\ (forall x, core <$> elements st' !! x = core <$> elements st !! x)
    /\ (exists new, log st' = log st ++ new)
    /\ frame_step st st'
    /\ well_formed st' rank depth bound fuel.
Proof.
  intros Hwf.
  destruct (logic_general rank depth bound fuel io st Hwf)
    as (st' & E & Hstep & Hwf').
  exists st'. split; [exact E|].
  destruct (frame_step_evolves _ _ Hstep) as [o Hev].
  split; [exact (ev_core _ _ _ Hev)|].
  split; [|split; [exact Hstep | exact Hwf']].
  destruct (ev_log _ _ _ Hev) as (new & Hnew & _). exists new. exact Hnew.
Qed.

Lemma logic_keeps_well_formed_witness :
  exists st', _logic 8 (frame_at (160, 160) true) overlap_scene = Ok st'
    /\ (forall x, core <$> elements st' !! x
                  = core <$> elements overlap_scene !! x)
    /\ (exists new, log st' = log overlap_scene ++ new)
    /\ frame_step overlap_scene st'
    /\ well_formed st' overlap_rank overlap_depth 4 8.
Proof.
  apply (logic_keeps_well_formed overlap_rank overlap_depth 4 8
           (frame_at (160, 160) true) overlap_scene).
  apply (bool_decide_unpack _). vm_compute. exact I.
Defined.

End InteractFacts.

(** ** Facts about the navigation queries and the resizers *)

Module NavigationFacts.
Import Navigation PyFacts.

Lemma nav_get m n e : m !! n = Some e -> get m n = Ok e.
Proof. unfold get. intros ->. reflexivity. Qed.

Lemma find_loop_first m rec l :
  Forall (fun c => is_Some (m !! c)) l ->
  (forall c, navigable m c = false -> is_Some (m !! c) -> rec c = Ok None) ->
  find_loop m rec l = Ok (head (filter (fun c => navigable m c = true) l)).
Proof.
  intros Hl Hrec. induction Hl as [|c l [ce Hc] _ IH]; [reflexivity|].
  cbn [find_loop]. rewrite (nav_get _ _ _ Hc). cbn [mbind result_bind bind].
  assert (Hn : navigable m c = can_navigate ce)
    by (unfold navigable; rewrite Hc; reflexivity).
  destruct (can_navigate ce) eqn:Hcan.
  - rewrite filter_cons_True by exact Hn. reflexivity.
  - rewrite filter_cons_False by congruence.
    rewrite (Hrec c Hn) by eauto. cbn. exact IH.
Qed.

Lemma has_loop_spec m l :
  Forall (fun c => is_Some (m !! c)) l ->
  has_loop m l = Ok (existsb (navigable m) l).
Proof.
  induction 1 as [|c l [ce Hc] _ IH]; [reflexivity|].
  cbn [has_loop existsb]. rewrite (nav_get _ _ _ Hc).
  cbn [mbind result_bind bind]. unfold navigable at 1. rewrite Hc.
  destruct (can_navigate ce); [reflexivity|exact IH].
Qed.

Lemma count_loop_spec m l : forall count,
  Forall (fun c => is_Some (m !! c)) l ->
  for_each (fun count child =>
              ce ← get m child;
              Ok (if can_navigate ce then count + 1 else count)) l count
  = Ok (count
        + Z.of_nat (length (filter (fun c => navigable m c = true) l))).
Proof.
  induction l as [|c l IH]; intros count H.
  - cbn. f_equal. lia.
  - inversion H as [|? ? [ce Hc] Hl]; subst. cbn [for_each].
    rewrite (nav_get _ _ _ Hc). cbn [mbind result_bind bind].
    rewrite IH by exact Hl.
    assert (Hn : navigable m c = can_navigate ce)
      by (unfold navigable; rewrite Hc; reflexivity).
    destruct (can_navigate ce).
    + rewrite filter_cons_True by exact Hn. cbn [length]. f_equal. lia.
    + rewrite filter_cons_False by congruence. reflexivity.
Qed.

(** X21: [find_navigable_child] never looks below the children.  A child
    that cannot be navigated answers [None] before it reads its own
    children, so for an element whose children exist the search returns,
    with two levels of calls, the first child that can be navigated when
    the element itself can be navigated, and [None] otherwise: never a
    grandchild.  It finds a child exactly when [has_navigable_child]
    answers [True], and [navigable_children_count] is the number of such
    children. *)
Theorem find_navigable_child_is_first_child (fuel : nat)
    (m : gmap nat Element) (n : nat) (e : Element) :
  m !! n = Some e ->
  Forall (fun c => is_Some (m !! c)) (children e) ->
  let first := head (filter (fun c => navigable m c = true) (children e)) in
  find_navigable_child (S (S fuel)) m n
  = Ok (if can_navigate e then first else None)
  /\ (forall x, first = Some x -> x ∈ children e /\ navigable m x = true)
  /\ has_navigable_child m n = Ok (bool_decide (is_Some first))
  /\ navigable_children_count m n
     = Ok (Z.of_nat (length (filter (fun c => navigable m c = true)
                               (children e)))).
Proof.
  intros He Hch first. split; [|split; [|split]].
  - cbn [find_navigable_child]. rewrite (nav_get _ _ _ He).
    cbn [mbind result_bind bind]. destruct (can_navigate e); [|reflexivity].
    cbn [negb]. apply find_loop_first; [exact Hch|].
    intros c Hn [ce Hc]. rewrite (nav_get _ _ _ Hc).
    cbn [mbind result_bind bind].
    unfold navigable in Hn. rewrite Hc in Hn. rewrite Hn. reflexivity.
  - intros x Hx. apply head_Some_elem_of in Hx.
    apply list_elem_of_filter in Hx as [Hnav Hin]. auto.
  - unfold has_navigable_child. rewrite (nav_get _ _ _ He).
    cbn [mbind result_bind bind].
    rewrite (has_loop_spec m _ Hch). f_equal. subst first.
    clear Hch. induction (children e) as [|c l IH]; [reflexivity|].
    cbn [existsb]. destruct (navigable m c) eqn:Hn.
    + rewrite filter_cons_True by exact Hn. reflexivity.
    + rewrite filter_cons_False by congruence. exact IH.
  - unfold navigable_children_count. rewrite (nav_get _ _ _ He).
    cbn [mbind result_bind bind]. rewrite (count_loop_spec m _ 0 Hch).
    reflexivity.
Qed.

Lemma find_navigable_child_is_first_child_witness :
  find_navigable_child 2 hidden_group_scene 0%nat = Ok (Some 2%nat)
  /\ find_navigable_child 2 hidden_group_scene 1%nat = Ok None
  /\ has_navigable_child hidden_group_scene 1%nat = Ok true.
Proof.
  destruct (find_navigable_child_is_first_child 0 hidden_group_scene 0%nat
              (mkElement [1; 2]%nat true true)) as (H0 & _);
    [reflexivity | apply (bool_decide_unpack _); vm_compute; exact I |].
  destruct (find_navigable_child_is_first_child 0 hidden_group_scene 1%nat
              (mkElement [3%nat] true false)) as (H1 & _ & H2 & _);
    [reflexivity | apply (bool_decide_unpack _); vm_compute; exact I |].
  split; [exact H0|]. split; [exact H1 | exact H2].
Defined.

End NavigationFacts.

Module ResizersFacts.
Import Resizers PyFacts.

Lemma remove_resizers_loop_keeps (e : Element) (size : Z * Z) :
  forall (items : list (string * nat)) (s : Element * list nat),
  for_each (fun (s : Element * list nat) (item : string * nat) =>
              b ← name_in_resize_max item.1 (Some size);
              if b && negb (bool_decide (item.1 ∈ resizers s.1)) then
                Ok (mkElement (resizers s.1) (resize_max s.1)
                      (dict_del item.1 (_resizers_elements s.1)),
                    s.2 ++ [item.2])
              else Ok s) items s = Ok s.
Proof.
  induction items as [|item items IH]; intros s; [reflexivity|].
  cbn [for_each name_in_resize_max mbind result_bind bind andb]. apply IH.
Qed.

(** X22: [remove_resizers] tests the resizer names against
    [self.resize_max], not against the resizers the element had.  With a
    maximum size set, the call updates the tuple [resizers] (each named
    resizer dropped once) and destroys no resizer element: the dict
    [_resizers_elements] is left as it was, whatever names are passed.
    With the default [resize_max = None] the call raises TypeError as
    soon as the element has a resizer element, and completes only when it
    has none. *)
Theorem remove_resizers_destroys_nothing (e : Element)
    (names : list string) :
  let kept :=
    fold_left (fun l r => if bool_decide (r ∈ l) then remove_first r l else l)
      names (resizers e) in
  match resize_max e with
  | Some size =>
      remove_resizers e names
      = Ok (mkElement kept (Some size) (_resizers_elements e), [])
  | None =>
      remove_resizers e names
      = if bool_decide (_resizers_elements e = []) then
          Ok (mkElement kept None [], [])
        else Raise TypeError
  end.
Proof.
  intros kept. unfold remove_resizers. fold kept.
  destruct (resize_max e) as [size|] eqn:Em.
  - cbn [_resizers_elements]. apply remove_resizers_loop_keeps; exact e.
  - cbn [_resizers_elements].
    destruct (_resizers_elements e) as [|item items]; reflexivity.
Qed.

End ResizersFacts.

(** ** Facts about scrolling and the text helpers *)

Module ScrollFacts.
Import Layout Scroll.

Lemma vscrollbar_refresh_offset st s :
  (scroll_offset (vscrollbar_refresh st s)).1 = (scroll_offset st).1
  /\ (scroll_offset (vscrollbar_refresh st s)).2
     = (if negb (scroll_y (self_style st)) || grow_y (self_style st)
        then (scroll_offset st).2
        else if total_y st <=? rh (self_rect st) then 0
        else (scroll_offset st).2)
  /\ visible (sb_element (vscrollbar (vscrollbar_refresh st s)))
     = negb (negb (scroll_y (self_style st)) || grow_y (self_style st))
       && negb (total_y st <=? rh (self_rect st))
  /\ hscrollbar (vscrollbar_refresh st s) = hscrollbar st
  /\ (self_rect (vscrollbar_refresh st s), self_style (vscrollbar_refresh st s),
      children (vscrollbar_refresh st s), content_x (vscrollbar_refresh st s),
      content_y (vscrollbar_refresh st s), total_x (vscrollbar_refresh st s),
      total_y (vscrollbar_refresh st s))
     = (self_rect st, self_style st, children st, content_x st, content_y st,
        total_x st, total_y st).
Proof.
  unfold vscrollbar_refresh.
  destruct (negb (scroll_y (self_style st)) || grow_y (self_style st));
    [cbn; auto|].
  destruct (total_y st <=? rh (self_rect st)); [|cbn; auto].
  destruct (Z.eqb_spec (scroll_offset st).2 0) as [E|E]; cbn; auto.
Qed.

Lemma hscrollbar_refresh_offset st s :
  (scroll_offset (hscrollbar_refresh st s)).2 = (scroll_offset st).2
  /\ (scroll_offset (hscrollbar_refresh st s)).1
     = (if negb (scroll_x (self_style st)) || grow_x (self_style st)
        then (scroll_offset st).1
        else if total_x st <=? rw (self_rect st) then 0
        else (scroll_offset st).1)
  /\ visible (sb_element (hscrollbar (hscrollbar_refresh st s)))
     = negb (negb (scroll_x (self_style st)) || grow_x (self_style st))
       && negb (total_x st <=? rw (self_rect st))
  /\ vscrollbar (hscrollbar_refresh st s) = vscrollbar st
  /\ (self_rect (hscrollbar_refresh st s), self_style (hscrollbar_refresh st s),
      children (hscrollbar_refresh st s), content_x (hscrollbar_refresh st s),
      content_y (hscrollbar_refresh st s), total_x (hscrollbar_refresh st s),
      total_y (hscrollbar_refresh st s))
     = (self_rect st, self_style st, children st, content_x st, content_y st,
        total_x st, total_y st).
Proof.
  unfold hscrollbar_refresh.
  destruct (negb (scroll_x (self_style st)) || grow_x (self_style st));
    [cbn; auto|].
  destruct (total_x st <=? rw (self_rect st)); [|cbn; auto].
  destruct (Z.eqb_spec (scroll_offset st).1 0) as [E|E]; cbn; auto.
Qed.

(** X23: [set_scroll] clamps the requested offset to the total size and
    then lets the scrollbars correct it.  On a stack with non-negative
    totals the offset ends between 0 and the total on each axis, and the
    sizes and children stay.  Where scrolling along y is enabled and the
    content fits the height, the y offset ends at 0 whatever was asked
    and the vertical scrollbar is hidden.  Where the content is higher
    than the stack, or scrolling is disabled by the style ([scroll_y]
    false or [grow_y] set), the y offset is the clamped request: a stack
    whose style disables scrolling is scrolled all the same, with its
    scrollbar hidden. *)
Theorem set_scroll_within_total (st : UIStack) (pixels_x pixels_y : Z) :
  0 <= total_x st -> 0 <= total_y st ->
  let st' := set_scroll st pixels_x pixels_y in
  0 <= (scroll_offset st').1 <= total_x st
  /\ 0 <= (scroll_offset st').2 <= total_y st
  /\ (self_rect st', self_style st', children st', content_x st',
      content_y st', total_x st', total_y st')
     = (self_rect st, self_style st, children st, content_x st, content_y st,
        total_x st, total_y st)
  /\ (scroll_y (self_style st) = true -> grow_y (self_style st) = false ->
      total_y st <= rh (self_rect st) ->
      (scroll_offset st').2 = 0
      /\ visible (sb_element (vscrollbar st')) = false)
  /\ (rh (self_rect st) < total_y st ->
      (scroll_offset st').2 = Scene.clamp pixels_y 0 (total_y st))
  /\ (scroll_y (self_style st) = false \/ grow_y (self_style st) = true ->
      (scroll_offset st').2 = Scene.clamp pixels_y 0 (total_y st)
      /\ visible (sb_element (vscrollbar st')) = false).
Proof.
  intros Hx Hy st'. subst st'. unfold set_scroll. cbv zeta.
  set (s1 := set_scroll_offset
               (set_scroll_offset st
                  (Scene.clamp pixels_x 0 (total_x st), (scroll_offset st).2))
               _).
  assert (E1 : scroll_offset s1
               = (Scene.clamp pixels_x 0 (total_x st),
                  Scene.clamp pixels_y 0 (total_y st))) by reflexivity.
  assert (F1 : (self_rect s1, self_style s1, children s1, content_x s1,
                content_y s1, total_x s1, total_y s1)
               = (self_rect st, self_style st, children st, content_x st,
                  content_y st, total_x st, total_y st)) by reflexivity.
  set (sv := total_y s1 - content_y s1).
  destruct (vscrollbar_refresh_offset s1 sv) as (V1 & V2 & V3 & V4 & V5).
  set (s2 := vscrollbar_refresh s1 sv) in *.
  set (sh := total_x s2 - content_x s2).
  destruct (hscrollbar_refresh_offset s2 sh) as (H1 & H2 & H3 & H4 & H5).
  set (s3 := hscrollbar_refresh s2 sh) in *.
  assert (F3 : (self_rect s3, self_style s3, children s3, content_x s3,
                content_y s3, total_x s3, total_y s3)
               = (self_rect st, self_style st, children st, content_x st,
                  content_y st, total_x st, total_y st)) by congruence.
  assert (Fs : self_style s1 = self_style st /\ self_rect s1 = self_rect st
               /\ total_y s1 = total_y st /\ total_x s1 = total_x st)
    by (repeat split; congruence).
  destruct Fs as (Fs1 & Fs2 & Fs3 & Fs4).
  assert (Fs' : self_style s2 = self_style st /\ self_rect s2 = self_rect st
                /\ total_x s2 = total_x st)
    by (repeat split; congruence).
  destruct Fs' as (Fs5 & Fs6 & Fs7).
  rewrite Fs1, Fs2, Fs3 in V2, V3. rewrite E1 in V1, V2.
  cbn [fst snd] in V1, V2.
  rewrite Fs5, Fs6, Fs7, V1 in H2.
  assert (Cx : 0 <= Scene.clamp pixels_x 0 (total_x st) <= total_x st).
  { unfold Scene.clamp. destruct (Z.ltb_spec pixels_x 0); [lia|].
    destruct (Z.ltb_spec (total_x st) pixels_x); lia. }
  assert (Cy : 0 <= Scene.clamp pixels_y 0 (total_y st) <= total_y st).
  { unfold Scene.clamp. destruct (Z.ltb_spec pixels_y 0); [lia|].
    destruct (Z.ltb_spec (total_y st) pixels_y); lia. }
  split.
  { rewrite H2.
    destruct (negb (scroll_x (self_style st)) || grow_x (self_style st));
      [exact Cx|].
    destruct (total_x st <=? rw (self_rect st)); [lia | exact Cx]. }
  split.
  { rewrite H1, V2.
    destruct (negb (scroll_y (self_style st)) || grow_y (self_style st));
      [exact Cy|].
    destruct (total_y st <=? rh (self_rect st)); [lia | exact Cy]. }
  split; [exact F3|]. split; [|split].
  - intros Hs Hg Hfit. rewrite H1, V2, H4, V3, Hs, Hg. cbn.
    destruct (Z.leb_spec (total_y st) (rh (self_rect st))); [|lia].
    split; reflexivity.
  - intros Hbig. rewrite H1, V2.
    destruct (negb (scroll_y (self_style st)) || grow_y (self_style st));
      [reflexivity|].
    destruct (Z.leb_spec (total_y st) (rh (self_rect st))); [lia|reflexivity].
  - intros Hoff. rewrite H1, V2, H4, V3.
    destruct Hoff as [-> | ->]; cbn; [auto|].
    rewrite orb_true_r. cbn. auto.
Qed.

Lemma set_scroll_within_total_witness :
  let st := set_total one_child_vstack 0 300 in
  let st' := set_scroll st 40 500 in
  scroll_offset st' = (0, 300).
Proof.
  intros st st'.
  destruct (set_scroll_within_total st 40 500) as (H1 & _ & _ & _ & H2 & _);
    [vm_compute; discriminate | vm_compute; discriminate |].
  fold st' in H1, H2.
  specialize (H2 ltac:(vm_compute; reflexivity)).
  change (total_x st) with 0 in H1.
  change (Scene.clamp 500 0 (total_y st)) with 300 in H2.
  destruct (scroll_offset st') as [x y]. cbn [fst snd] in *.
  f_equal; lia.
Defined.

End ScrollFacts.

Module CommonFacts.
Import Common.

Lemma half_le a b :
  0 <= a <= b -> a ÷ 2 <= b ÷ 2 /\ a - a ÷ 2 <= b - b ÷ 2.
Proof.
  intros H. rewrite !Z.quot_div_nonneg by lia.
  pose proof (Z.div_mod a 2 ltac:(lia)). pose proof (Z.div_mod b 2 ltac:(lia)).
  pose proof (Z.mod_pos_bound a 2 ltac:(lia)).
  pose proof (Z.mod_pos_bound b 2 ltac:(lia)). lia.
Qed.

(** X24: [align_text] moves the text rectangle and keeps its size.  For
    each of the thirteen alignments, a text that fits into the element
    with the padding on both sides of each axis ends within the element
    rectangle, and aligning the result again leaves it where it is.  Any
    other alignment raises UIError naming it. *)
Theorem align_text_within (t_rect el_rect : Rect) (padding y_padding : Z)
    (align : string) :
  (align ∈ text_aligns ->
   0 <= padding -> 0 <= y_padding -> 0 <= rw t_rect -> 0 <= rh t_rect ->
   rw t_rect + 2 * padding <= rw el_rect ->
   rh t_rect + 2 * y_padding <= rh el_rect ->
   exists r, align_text t_rect el_rect padding y_padding align = Ok r
     /\ rw r = rw t_rect /\ rh r = rh t_rect
     /\ rect_within r el_rect
     /\ align_text r el_rect padding y_padding align = Ok r)
  /\ (align ∉ text_aligns ->
      align_text t_rect el_rect padding y_padding align
      = Raise (UIError ("Unsupported text align: '" ++ align ++ "'"))).
Proof.
  split.
  - intros Hin Hp Hyp Hw Hh Hfw Hfh.
    destruct (half_le (rw t_rect) (rw el_rect)) as [Hw1 Hw2]; [lia|].
    destruct (half_le (rh t_rect) (rh el_rect)) as [Hh1 Hh2]; [lia|].
    unfold text_aligns in Hin.
    repeat (apply elem_of_cons in Hin as [->|Hin]);
      [..|inversion Hin];
      (eexists; split; [reflexivity|];
       split; [reflexivity|]; split; [reflexivity|];
       split; [|reflexivity]);
      unfold rect_within, rect_left, rect_right, rect_top, rect_bottom,
        rect_centerx, rect_centery; cbn; lia.
  - intros Hnot. unfold text_aligns in Hnot.
    rewrite !not_elem_of_cons in Hnot.
    destruct Hnot as (N1 & N2 & N3 & N4 & N5 & N6 & N7 & N8 & N9 & N10
                      & N11 & N12 & N13 & _).
    unfold align_text.
    repeat match goal with
    | H : align <> ?x |- _ =>
        rewrite (proj2 (String.eqb_neq align x) H); clear H
    end.
    reflexivity.
Qed.

Lemma align_text_within_witness :
  exists r,
    align_text (mkRect 0 0 41 17) (mkRect 100 50 80 31) 5 2 "midright" = Ok r
    /\ rw r = 41 /\ rh r = 17
    /\ rect_within r (mkRect 100 50 80 31)
    /\ align_text r (mkRect 100 50 80 31) 5 2 "midright" = Ok r.
Proof.
  apply (proj1 (align_text_within (mkRect 0 0 41 17) (mkRect 100 50 80 31)
                  5 2 "midright"));
    try (cbn; lia).
  apply (bool_decide_unpack _). vm_compute. exact I.
Defined.

Lemma append_cons c s t :
  String.append (String c s) t = String c (String.append s t).
Proof. reflexivity. Qed.

Lemma append_length s t :
  String.length (String.append s t) = (String.length s + String.length t)%nat.
Proof.
  induction s as [|c s IH]; [reflexivity|].
  rewrite append_cons. cbn [String.length]. rewrite IH. reflexivity.
Qed.

Lemma get_append_left s t n :
  (n < String.length s)%nat ->
  String.get n (String.append s t) = String.get n s.
Proof.
  revert n. induction s as [|c s IH]; intros n H; [cbn in H; lia|].
  rewrite append_cons. destruct n as [|n]; [reflexivity|].
  cbn [String.get]. apply IH. cbn in H. lia.
Qed.

Lemma get_append_right s t n :
  String.get (String.length s + n) (String.append s t) = String.get n t.
Proof.
  induction s as [|c s IH]; [reflexivity|].
  rewrite append_cons. cbn [String.length Nat.add String.get]. exact IH.
Qed.

Lemma concat_cons x xs :
  String.concat "" (x :: xs) = String.append x (String.concat "" xs).
Proof.
  destruct xs as [|y ys]; cbn [String.concat].
  - induction x as [|c x IH]; [reflexivity|].
    rewrite append_cons. f_equal. exact IH.
  - reflexivity.
Qed.

Lemma fold_lengths_concat (l : list string) : forall acc,
  fold_left (fun tot_i l => tot_i + Z.of_nat (String.length l)) l acc
  = acc + Z.of_nat (String.length (String.concat "" l)).
Proof.
  induction l as [|x l IH]; intros acc; [cbn; lia|].
  cbn [fold_left]. rewrite IH, concat_cons, append_length. lia.
Qed.

Lemma get_concat (lines : list string) : forall i line n,
  lines !! i = Some line -> (n < String.length line)%nat ->
  String.get (String.length (String.concat "" (take i lines)) + n)
    (String.concat "" lines)
  = String.get n line.
Proof.
  induction lines as [|x lines IH]; intros i line n Hi Hn; [inversion Hi|].
  destruct i as [|i].
  - injection Hi as ->. cbn [take]. rewrite concat_cons.
    cbn [String.concat String.length Nat.add].
    apply get_append_left. exact Hn.
  - cbn [take]. rewrite !concat_cons, append_length, <- Nat.add_assoc.
    rewrite get_append_right. apply (IH i line n Hi Hn).
Qed.

Lemma click_loop_spec font start_x x line : forall tot_w i char_i,
  click_loop font start_x x tot_w i line = Some char_i ->
  (i <= char_i < i + String.length line)%nat.
Proof.
  induction line as [|c line IH]; intros tot_w i char_i H; [discriminate|].
  cbn [click_loop] in H. cbn zeta in H.
  destruct (Z.leb_spec x (tot_w + char_width font c + start_x)) as [Hle|Hgt].
  - injection H as <-. cbn [String.length]. lia.
  - pose proof (IH _ _ _ H) as Hr. cbn [String.length]. lia.
Qed.

(** X25: what [text_click_idx] returns addresses a character.  Whenever
    it returns indices, the line index is that of an existing line whose
    band of one font height contains the click, the character index lies
    within that line, the flat index is the sum of the lengths of the
    lines above plus the character index, and the character at the flat
    index of the joined text is the character at the character index of
    the line. *)
Theorem text_click_idx_addresses_char (lines : list string) (font : Font)
    (pos absolute_topleft : Z * Z) (rect : Rect)
    (char_i line_idx tot_i : Z) (joined : string) :
  text_click_idx lines font pos rect absolute_topleft
  = Some (char_i, line_idx, tot_i, joined) ->
  joined = String.concat "" lines
  /\ 0 <= line_idx < Z.of_nat (length lines)
  /\ (let y := pos.2 - absolute_topleft.2 - rect_top rect in
      Zpos (get_height font) * line_idx <= y
      < Zpos (get_height font) * (line_idx + 1))
  /\ exists line,
       lines !! Z.to_nat line_idx = Some line
       /\ 0 <= char_i < Z.of_nat (String.length line)
       /\ tot_i
          = Z.of_nat (String.length
                        (String.concat "" (take (Z.to_nat line_idx) lines)))
            + char_i
       /\ String.get (Z.to_nat tot_i) joined
          = String.get (Z.to_nat char_i) line
       /\ is_Some (String.get (Z.to_nat char_i) line).
Proof.
  unfold text_click_idx. intros H.
  destruct (length lines <=? 0)%nat; [discriminate|].
  destruct (negb (collidepoint rect _)); [discriminate|].
  set (y := pos.2 - absolute_topleft.2 - rect_top rect) in *.
  cbn [fst snd] in H. fold y in H.
  set (h := Zpos (get_height font)) in *.
  destruct (Z.ltb_spec (y / h) 0) as [|Hlo]; [discriminate|].
  destruct (Z.leb_spec (Z.of_nat (length lines)) (y / h)) as [|Hhi];
    [discriminate|].
  cbn [orb] in H.
  destruct (lines !! Z.to_nat (y / h)) as [line|] eqn:Hline; [|discriminate].
  destruct (bool_decide (line = EmptyString)); [discriminate|].
  destruct (_ <=? _) in H; [discriminate|].
  destruct (click_loop font _ _ 0 0 line) as [ci|] eqn:Hloop; [|discriminate].
  injection H as <- <- <- <-.
  pose proof (click_loop_spec _ _ _ _ _ _ _ Hloop) as Hci.
  rewrite fold_lengths_concat.
  split; [reflexivity|]. split; [lia|]. split.
  { cbv zeta. pose proof (Z.div_mod y h ltac:(subst h; lia)).
    pose proof (Z.mod_pos_bound y h ltac:(subst h; lia)). nia. }
  exists line. split; [exact Hline|]. split; [lia|]. split; [lia|].
  rewrite Nat2Z.id.
  replace (Z.to_nat (0 + Z.of_nat (String.length
             (String.concat "" (take (Z.to_nat (y / h)) lines)))
           + Z.of_nat ci))
    with (String.length (String.concat "" (take (Z.to_nat (y / h)) lines))
          + ci)%nat by lia.
  split; [apply get_concat; [exact Hline | lia]|].
  clear -Hci. destruct Hci as [_ Hci]. cbn in Hci.
  revert ci Hci. induction line as [|c line IH]; intros ci Hci;
    [cbn in Hci; lia|].
  destruct ci as [|ci]; [cbn; eauto|]. cbn [String.get]. apply IH.
  cbn in Hci. lia.
Qed.

Lemma text_click_idx_addresses_char_witness :
  text_click_idx ["hello"; "big"; "world"] mono_font (132, 245)
    (mkRect 0 0 200 60) (100, 200)
  = Some (3, 2, 11, "hellobigworld")
  /\ String.get 11 "hellobigworld" = String.get 3 "world".
Proof.
  assert (E : text_click_idx ["hello"; "big"; "world"] mono_font (132, 245)
                (mkRect 0 0 200 60) (100, 200)
              = Some (3, 2, 11, "hellobigworld")) by (vm_compute; reflexivity).
  split; [exact E|].
  destruct (text_click_idx_addresses_char _ _ _ _ _ _ _ _ _ E)
    as (_ & _ & _ & line & Hl & _ & _ & Hg & _).
  injection Hl as <-. exact Hg.
Defined.

(** X26: the text copied for a selection does not depend on the
    direction in which it was dragged: exchanging the start and the end
    position gives the same text, or the same failure on a line index
    out of range.  On one line the characters from the smaller to the
    larger index are copied, both included. *)
Theorem text_select_copy_symmetric (start_li start_ci end_li end_ci : nat)
    (lines : list string) :
  text_select_copy start_li start_ci end_li end_ci lines
  = text_select_copy end_li end_ci start_li start_ci lines
  /\ text_select_copy start_li start_ci start_li end_ci lines
     = str_slice (Nat.min start_ci end_ci) (Nat.max start_ci end_ci + 1)
         <$> lines !! start_li.
Proof.
  unfold text_select_copy. split.
  - destruct (Nat.ltb_spec end_li start_li) as [H1|H1];
      destruct (Nat.ltb_spec start_li end_li) as [H2|H2]; try lia;
      try reflexivity.
    assert (start_li = end_li) as -> by lia.
    rewrite Nat.eqb_refl.
    destruct (Nat.ltb_spec end_ci start_ci) as [H3|H3];
      destruct (Nat.ltb_spec start_ci end_ci) as [H4|H4]; try lia;
      try reflexivity.
    assert (start_ci = end_ci) as -> by lia. reflexivity.
  - rewrite Nat.ltb_irrefl, Nat.eqb_refl.
    destruct (Nat.ltb_spec end_ci start_ci) as [H3|H3].
    + rewrite Nat.min_r, Nat.max_l by lia.
      destruct (lines !! start_li); reflexivity.
    + rewrite Nat.min_l, Nat.max_r by lia.
      destruct (lines !! start_li); reflexivity.
Qed.

End CommonFacts.
